(** * NILFS2 checkpoint file (fs/nilfs2/cpfile.c): a shallow embedding

    The cpfile is a sparse, block-addressed table of checkpoint entries.
    Block 0 starts with the cpfile header, whose snapshot-list field is the
    sentinel of a doubly linked list threaded through the snapshot entries.

    Conventions of the embedding:
    - unsigned machine integers (__u64, __le64, __le32, unsigned long on a
      64-bit kernel) are [Z] values with the wrap-around written out
      ([wrap64], [wrap32]); signed [int] counters are plain [Z] (signed
      overflow is undefined behaviour in C and is outside the model);
    - a buffer head is identified with the offset of the block it maps, so
      every read and write through a buffer head goes to the one shared
      block store [cp_blocks] and aliasing between buffer heads is kept;
    - the reader/writer semaphore mi_sem, kmap/kunmap and buffer reference
      counting (get_bh/brelse) have no sequential content and are dropped;
      WARN_ON only reports and is dropped as well. *)

From stdpp Require Import gmap list sorting.

Open Scope Z_scope.

(** ** Machine integers and error numbers *)

Definition wrap64 (x : Z) : Z := x mod 2 ^ 64.
Definition wrap32 (x : Z) : Z := x mod 2 ^ 32.
Definition U64_MAX : Z := 2 ^ 64 - 1.

Definition ENOENT : Z := 2.
Definition EIO : Z := 5.
Definition ENOMEM : Z := 12.
Definition EBUSY : Z := 16.
Definition EINVAL : Z := 22.
Definition EROFS : Z := 30.

(** ** On-disk records *)

(** Raw on-disk inode (struct nilfs_inode): opaque bytes for the cpfile. *)
Definition nilfs_inode : Type := list Z.

Record nilfs_snapshot_list := mk_ssl {
  ssl_next : Z;
  ssl_prev : Z
}.

Record nilfs_checkpoint := mk_cp {
  cp_flags : Z;
  cp_checkpoints_count : Z;
  cp_snapshot_list : nilfs_snapshot_list;
  cp_cno : Z;
  cp_create : Z;
  cp_nblk_inc : Z;
  cp_inodes_count : Z;
  cp_blocks_count : Z;
  cp_ifile_inode : nilfs_inode
}.

Record nilfs_cpfile_header := mk_hdr {
  ch_ncheckpoints : Z;
  ch_nsnapshots : Z;
  ch_snapshot_list : nilfs_snapshot_list
}.

(** struct nilfs_cpinfo, the summary handed to user space. *)
Record nilfs_cpinfo := mk_ci {
  ci_flags : Z;
  ci_cno : Z;
  ci_create : Z;
  ci_nblk_inc : Z;
  ci_inodes_count : Z;
  ci_blocks_count : Z;
  ci_next : Z
}.

(** A block as MDT hands it out zero-filled, before the init callback. *)
Definition zero_checkpoint : nilfs_checkpoint :=
  mk_cp 0 0 (mk_ssl 0 0) 0 0 0 0 0 [].

(** Field writes ([cp->field = v]). *)
Definition set_cp_flags (v : Z) (cp : nilfs_checkpoint) : nilfs_checkpoint :=
  mk_cp v (cp_checkpoints_count cp) (cp_snapshot_list cp) (cp_cno cp)
        (cp_create cp) (cp_nblk_inc cp) (cp_inodes_count cp)
        (cp_blocks_count cp) (cp_ifile_inode cp).

Definition set_cp_checkpoints_count (v : Z) (cp : nilfs_checkpoint)
  : nilfs_checkpoint :=
  mk_cp (cp_flags cp) v (cp_snapshot_list cp) (cp_cno cp)
        (cp_create cp) (cp_nblk_inc cp) (cp_inodes_count cp)
        (cp_blocks_count cp) (cp_ifile_inode cp).

Definition set_cp_snapshot_list (v : nilfs_snapshot_list)
  (cp : nilfs_checkpoint) : nilfs_checkpoint :=
  mk_cp (cp_flags cp) (cp_checkpoints_count cp) v (cp_cno cp)
        (cp_create cp) (cp_nblk_inc cp) (cp_inodes_count cp)
        (cp_blocks_count cp) (cp_ifile_inode cp).

Definition set_ssl_next (v : Z) (l : nilfs_snapshot_list) : nilfs_snapshot_list :=
  mk_ssl v (ssl_prev l).

Definition set_ssl_prev (v : Z) (l : nilfs_snapshot_list) : nilfs_snapshot_list :=
  mk_ssl (ssl_next l) v.

Definition set_cp_ssl_next (v : Z) (cp : nilfs_checkpoint) : nilfs_checkpoint :=
  set_cp_snapshot_list (set_ssl_next v (cp_snapshot_list cp)) cp.

Definition set_cp_ssl_prev (v : Z) (cp : nilfs_checkpoint) : nilfs_checkpoint :=
  set_cp_snapshot_list (set_ssl_prev v (cp_snapshot_list cp)) cp.

Definition set_ch_ncheckpoints (v : Z) (h : nilfs_cpfile_header)
  : nilfs_cpfile_header :=
  mk_hdr v (ch_nsnapshots h) (ch_snapshot_list h).

Definition set_ch_nsnapshots (v : Z) (h : nilfs_cpfile_header)
  : nilfs_cpfile_header :=
  mk_hdr (ch_ncheckpoints h) v (ch_snapshot_list h).

Definition set_ch_snapshot_list (v : nilfs_snapshot_list)
  (h : nilfs_cpfile_header) : nilfs_cpfile_header :=
  mk_hdr (ch_ncheckpoints h) (ch_nsnapshots h) v.

(** ** Checkpoint flag bits

    Modelled from the spec: the flag bit numbers and the
    nilfs_checkpoint_{set_,clear_,}FLAG accessors live in the on-disk format
    header, which is not part of the sources at hand.  The spec gives
    bit 0 = INVALID, bit 1 = SNAPSHOT, bit 2 = MINOR; the accessors test,
    set and clear that bit of the 32-bit flags word. *)
Definition NILFS_CHECKPOINT_INVALID : Z := 0.
Definition NILFS_CHECKPOINT_SNAPSHOT : Z := 1.
Definition NILFS_CHECKPOINT_MINOR : Z := 2.

Definition nilfs_checkpoint_invalid (cp : nilfs_checkpoint) : bool :=
  Z.testbit (cp_flags cp) NILFS_CHECKPOINT_INVALID.
Definition nilfs_checkpoint_snapshot (cp : nilfs_checkpoint) : bool :=
  Z.testbit (cp_flags cp) NILFS_CHECKPOINT_SNAPSHOT.
Definition nilfs_checkpoint_minor (cp : nilfs_checkpoint) : bool :=
  Z.testbit (cp_flags cp) NILFS_CHECKPOINT_MINOR.

Definition nilfs_checkpoint_set_invalid (cp : nilfs_checkpoint) :=
  set_cp_flags (Z.setbit (cp_flags cp) NILFS_CHECKPOINT_INVALID) cp.
Definition nilfs_checkpoint_clear_invalid (cp : nilfs_checkpoint) :=
  set_cp_flags (Z.clearbit (cp_flags cp) NILFS_CHECKPOINT_INVALID) cp.
Definition nilfs_checkpoint_set_snapshot (cp : nilfs_checkpoint) :=
  set_cp_flags (Z.setbit (cp_flags cp) NILFS_CHECKPOINT_SNAPSHOT) cp.
Definition nilfs_checkpoint_clear_snapshot (cp : nilfs_checkpoint) :=
  set_cp_flags (Z.clearbit (cp_flags cp) NILFS_CHECKPOINT_SNAPSHOT) cp.
Definition nilfs_checkpoint_set_minor (cp : nilfs_checkpoint) :=
  set_cp_flags (Z.setbit (cp_flags cp) NILFS_CHECKPOINT_MINOR) cp.
Definition nilfs_checkpoint_clear_minor (cp : nilfs_checkpoint) :=
  set_cp_flags (Z.clearbit (cp_flags cp) NILFS_CHECKPOINT_MINOR) cp.

Definition nilfs_cpinfo_snapshot (ci : nilfs_cpinfo) : bool :=
  Z.testbit (ci_flags ci) NILFS_CHECKPOINT_SNAPSHOT.

(** ** The cpfile inode with its MDT state *)

(** Messages passed to nilfs_error / nilfs_err. *)
Inductive diag :=
  | MissingHeaderBlock
  | FinalizeCorruption
  | InvalidDeleteRange (start end_ : Z)
  | DeleteBlockError (ret : Z)
  | IfileInodeCorrupted (cno : Z).

Record cpfile := mk_cpfile {
  mi_entries_per_block : Z;
  mi_first_entry_offset : Z;
  mi_cno : Z;                                   (* nilfs_mdt_cno *)
  cp_header : nilfs_cpfile_header;              (* head of block 0 *)
  cp_blocks : gmap Z (list nilfs_checkpoint);   (* blkoff -> slots *)
  bh_dirty : gset Z;                            (* mark_buffer_dirty *)
  mi_dirty : bool;                              (* nilfs_mdt_mark_dirty *)
  sb_log : list diag                            (* nilfs_error, nilfs_err *)
}.

Definition with_header (h : nilfs_cpfile_header) (st : cpfile) : cpfile :=
  mk_cpfile (mi_entries_per_block st) (mi_first_entry_offset st) (mi_cno st)
            h (cp_blocks st) (bh_dirty st) (mi_dirty st) (sb_log st).

Definition with_blocks (m : gmap Z (list nilfs_checkpoint)) (st : cpfile)
  : cpfile :=
  mk_cpfile (mi_entries_per_block st) (mi_first_entry_offset st) (mi_cno st)
            (cp_header st) m (bh_dirty st) (mi_dirty st) (sb_log st).

Definition mark_buffer_dirty (bh : Z) (st : cpfile) : cpfile :=
  mk_cpfile (mi_entries_per_block st) (mi_first_entry_offset st) (mi_cno st)
            (cp_header st) (cp_blocks st) ({[bh]} ∪ bh_dirty st) (mi_dirty st)
            (sb_log st).

Definition nilfs_mdt_mark_dirty (st : cpfile) : cpfile :=
  mk_cpfile (mi_entries_per_block st) (mi_first_entry_offset st) (mi_cno st)
            (cp_header st) (cp_blocks st) (bh_dirty st) true (sb_log st).

Definition nilfs_error (d : diag) (st : cpfile) : cpfile :=
  mk_cpfile (mi_entries_per_block st) (mi_first_entry_offset st) (mi_cno st)
            (cp_header st) (cp_blocks st) (bh_dirty st) (mi_dirty st)
            (sb_log st ++ [d]).

Definition nilfs_mdt_cno (st : cpfile) : Z := mi_cno st.

(** ** Block-layout calculator *)

Definition nilfs_cpfile_checkpoints_per_block (st : cpfile) : Z :=
  mi_entries_per_block st.

Definition nilfs_cpfile_get_blkoff (st : cpfile) (cno : Z) : Z :=
  let tcno := wrap64 (cno + mi_first_entry_offset st - 1) in
  tcno / nilfs_cpfile_checkpoints_per_block st.

Definition nilfs_cpfile_get_offset (st : cpfile) (cno : Z) : Z :=
  let tcno := wrap64 (cno + mi_first_entry_offset st - 1) in
  tcno mod nilfs_cpfile_checkpoints_per_block st.

Definition nilfs_cpfile_first_checkpoint_in_block (st : cpfile) (blkoff : Z)
  : Z :=
  wrap64 (nilfs_cpfile_checkpoints_per_block st * blkoff
          + 1 - mi_first_entry_offset st).

Definition nilfs_cpfile_checkpoints_in_block (st : cpfile) (curr max : Z) : Z :=
  Z.min (nilfs_cpfile_checkpoints_per_block st
         - nilfs_cpfile_get_offset st curr)
        (wrap64 (max - curr)).

Definition nilfs_cpfile_is_in_first (st : cpfile) (cno : Z) : bool :=
  nilfs_cpfile_get_blkoff st cno =? 0.

(** ** Reading and writing through a buffer head *)

(** [kmap_local_folio(bh->b_folio, offset)] followed by a read of the entry:
    the entry in slot [off] of block [bh].  The accessors below are only
    used on blocks that a get_block call has just returned. *)
Definition bh_checkpoint (st : cpfile) (bh off : Z) : nilfs_checkpoint :=
  default zero_checkpoint (cp_blocks st !! bh ≫= (.!! Z.to_nat off)).

(** In-place write of one entry of a mapped block. *)
Definition bh_update (f : nilfs_checkpoint → nilfs_checkpoint)
  (bh off : Z) (st : cpfile) : cpfile :=
  with_blocks (alter (alter f (Z.to_nat off)) bh (cp_blocks st)) st.

Definition header_update (f : nilfs_cpfile_header → nilfs_cpfile_header)
  (st : cpfile) : cpfile :=
  with_header (f (cp_header st)) st.

(** le64_add_cpu on a header counter. *)
Definition le64_add_cpu (x d : Z) : Z := wrap64 (x + d).

(** A signed 64-bit value (time64_t, the s64 of an atomic64_t) passed to
    cpu_to_le64 is converted to u64, which is [wrap64]; a u64 assigned to
    an s64 (atomic64_set of le64_to_cpu) is read as two's complement. *)
Definition s64_of_u64 (x : Z) : Z := if x <? 2 ^ 63 then x else x - 2 ^ 64.

(** ** The header over slot 0 of block 0

    Modelled from the spec: struct nilfs_checkpoint and
    struct nilfs_cpfile_header are declared in the on-disk format header,
    which is not part of the sources at hand.  The spec places the header
    in slot 0 of block 0, with the 64-bit ncheckpoints where an entry has
    its 32-bit flags and checkpoints_count words (a census update there
    corrupts ncheckpoints); little-endian, flags is the low half.  The
    remaining header words are read from the entry's next 64-bit words,
    ssl_next, ssl_prev and cno.  An entry is never smaller than the header
    (nilfs_cpfile_read refuses such entry sizes), so slot 0 holds all of
    it.  In a block that has just been zero-filled and initialised only the
    flags words are non-zero. *)
Definition header_of_slot (cp : nilfs_checkpoint) : nilfs_cpfile_header :=
  mk_hdr (cp_flags cp + 2 ^ 32 * cp_checkpoints_count cp)
         (ssl_next (cp_snapshot_list cp))
         (mk_ssl (ssl_prev (cp_snapshot_list cp)) (cp_cno cp)).

Definition header_of_block (blk : list nilfs_checkpoint)
  : nilfs_cpfile_header :=
  header_of_slot (default zero_checkpoint (blk !! 0%nat)).

(** ** The MDT layer

    Modelled from the spec: nilfs_mdt_get_block, nilfs_mdt_find_block and
    nilfs_mdt_delete_block are implemented in mdt.c, which is not part of the
    sources at hand.  The spec's MDT contract is followed on a store without
    I/O faults: get_block returns an existing block, allocates a zero-filled
    one and runs the init callback on it when [create] is set, and fails
    with -ENOENT otherwise; find_block returns the lowest existing block
    offset within [start, end]; delete_block removes the block. *)
Definition nilfs_mdt_get_block (st : cpfile) (blkoff : Z) (create : bool)
  (init_block : cpfile → list nilfs_checkpoint → list nilfs_checkpoint)
  : Z * cpfile :=
  match cp_blocks st !! blkoff with
  | Some _ => (0, st)
  | None =>
      if create then
        let fresh :=
          replicate (Z.to_nat (mi_entries_per_block st)) zero_checkpoint in
        let blk := init_block st fresh in
        let st := with_blocks (<[blkoff := blk]> (cp_blocks st)) st in
        (* the header is the head of block 0: a new block 0 brings its own *)
        (0, if blkoff =? 0 then with_header (header_of_block blk) st else st)
      else (- ENOENT, st)
  end.

Definition lowest_in_range (start end_ : Z) (ks : list Z) : option Z :=
  foldr (λ k acc,
           if bool_decide (start ≤ k ≤ end_) then
             match acc with
             | Some m => Some (Z.min k m)
             | None => Some k
             end
           else acc) None ks.

Definition nilfs_mdt_find_block (st : cpfile) (start end_ : Z) : Z * Z :=
  match lowest_in_range start end_ (elements (dom (cp_blocks st))) with
  | Some blkoff => (0, blkoff)
  | None => (- ENOENT, 0)
  end.

Definition nilfs_mdt_delete_block (st : cpfile) (blkoff : Z) : Z * cpfile :=
  (0, with_blocks (delete blkoff (cp_blocks st)) st).

(** ** Per-block census *)

Definition nilfs_cpfile_block_add_valid_checkpoints (st : cpfile) (bh : Z)
  (n : Z) : Z * cpfile :=
  let count := wrap32 (cp_checkpoints_count (bh_checkpoint st bh 0) + n) in
  (count, bh_update (set_cp_checkpoints_count count) bh 0 st).

Definition nilfs_cpfile_block_sub_valid_checkpoints (st : cpfile) (bh : Z)
  (n : Z) : Z * cpfile :=
  let count := wrap32 (cp_checkpoints_count (bh_checkpoint st bh 0) - n) in
  (count, bh_update (set_cp_checkpoints_count count) bh 0 st).

(** ** Block accessor *)

Fixpoint block_init_loop (n : nat) (i : nat) (blk : list nilfs_checkpoint)
  : list nilfs_checkpoint :=
  match n with
  | O => blk
  | S n' => block_init_loop n' (S i) (alter nilfs_checkpoint_set_invalid i blk)
  end.

Definition nilfs_cpfile_block_init (st : cpfile) (blk : list nilfs_checkpoint)
  : list nilfs_checkpoint :=
  block_init_loop (Z.to_nat (nilfs_cpfile_checkpoints_per_block st)) 0 blk.

Definition nilfs_cpfile_get_header_block (st : cpfile) : Z * cpfile :=
  let '(err, st) := nilfs_mdt_get_block st 0 false (λ _ blk, blk) in
  if err =? - ENOENT then (- EIO, nilfs_error MissingHeaderBlock st)
  else (err, st).

Definition nilfs_cpfile_get_checkpoint_block (st : cpfile) (cno : Z)
  (create : bool) : Z * cpfile :=
  nilfs_mdt_get_block st (nilfs_cpfile_get_blkoff st cno) create
                      nilfs_cpfile_block_init.

(** Returns the error code, the reported next cno and the found block. *)
Definition nilfs_cpfile_find_checkpoint_block (st : cpfile)
  (start_cno end_cno : Z) : Z * Z * Z :=
  if end_cno <? start_cno then (- ENOENT, start_cno, 0)
  else
    let start := nilfs_cpfile_get_blkoff st start_cno in
    let end_ := nilfs_cpfile_get_blkoff st end_cno in
    let '(ret, blkoff) := nilfs_mdt_find_block st start end_ in
    if ret =? 0 then
      (ret,
       if blkoff =? start then start_cno
       else nilfs_cpfile_first_checkpoint_in_block st blkoff,
       blkoff)
    else (ret, start_cno, 0).

Definition nilfs_cpfile_delete_checkpoint_block (st : cpfile) (cno : Z)
  : Z * cpfile :=
  nilfs_mdt_delete_block st (nilfs_cpfile_get_blkoff st cno).

(** ** create_checkpoint *)

Definition nilfs_cpfile_create_checkpoint (st : cpfile) (cno : Z)
  : Z * cpfile :=
  if cno <? 1 then (- EIO, st)
  else
    let '(ret, st) := nilfs_cpfile_get_header_block st in
    if ret <? 0 then (ret, st)
    else
      let '(ret, st) := nilfs_cpfile_get_checkpoint_block st cno true in
      if ret <? 0 then (ret, st)
      else
        let cp_bh := nilfs_cpfile_get_blkoff st cno in
        let offset := nilfs_cpfile_get_offset st cno in
        let st :=
          if nilfs_checkpoint_invalid (bh_checkpoint st cp_bh offset) then
            (* a newly-created checkpoint *)
            let st := bh_update nilfs_checkpoint_clear_invalid cp_bh offset st in
            let st :=
              if negb (nilfs_cpfile_is_in_first st cno) then
                snd (nilfs_cpfile_block_add_valid_checkpoints st cp_bh 1)
              else st in
            let st :=
              header_update
                (λ h, set_ch_ncheckpoints (le64_add_cpu (ch_ncheckpoints h) 1) h)
                st in
            mark_buffer_dirty 0 st
          else st in
        (* Force the buffer and the inode to become dirty *)
        let st := mark_buffer_dirty cp_bh st in
        (ret, nilfs_mdt_mark_dirty st).

(** ** create_checkpoint with its semaphore and buffer calls

    The state-passing embedding above leaves out the calls that do not
    change the cpfile contents.  Here the same function is written once
    more with them in call order: WARN_ON_ONCE, down_write and up_write
    on mi_sem, every nilfs_mdt_get_block call (through get_header_block and
    get_checkpoint_block) and every brelse. *)
Inductive mdt_event :=
  | WarnOnce
  | DownWrite
  | UpWrite
  | GetBlock (blkoff : Z) (create : bool)
  | Brelse (bh : Z).

Definition nilfs_cpfile_create_checkpoint_traced (st : cpfile) (cno : Z)
  : list mdt_event * (Z * cpfile) :=
  if cno <? 1 then ([WarnOnce], (- EIO, st))
  else
    let ev := [DownWrite; GetBlock 0 false] in
    let '(ret, st) := nilfs_cpfile_get_header_block st in
    if ret <? 0 then (* goto out_sem *) (ev ++ [UpWrite], (ret, st))
    else
      let ev := ev ++ [GetBlock (nilfs_cpfile_get_blkoff st cno) true] in
      let '(ret, st) := nilfs_cpfile_get_checkpoint_block st cno true in
      if ret <? 0 then (* goto out_header *)
        (ev ++ [Brelse 0; UpWrite], (ret, st))
      else
        let cp_bh := nilfs_cpfile_get_blkoff st cno in
        let offset := nilfs_cpfile_get_offset st cno in
        let st :=
          if nilfs_checkpoint_invalid (bh_checkpoint st cp_bh offset) then
            let st := bh_update nilfs_checkpoint_clear_invalid cp_bh offset st in
            let st :=
              if negb (nilfs_cpfile_is_in_first st cno) then
                snd (nilfs_cpfile_block_add_valid_checkpoints st cp_bh 1)
              else st in
            let st :=
              header_update
                (λ h, set_ch_ncheckpoints (le64_add_cpu (ch_ncheckpoints h) 1) h)
                st in
            mark_buffer_dirty 0 st
          else st in
        let st := mark_buffer_dirty cp_bh st in
        (ev ++ [Brelse cp_bh; Brelse 0; UpWrite],
         (ret, nilfs_mdt_mark_dirty st)).

(** ** delete_checkpoints *)

(** The inner [for (i = 0; i < ncps; i++, cp = (void * )cp + cpsz)] loop:
    [n] is the number of entries left, [off] the slot [cp] points to. *)
Fixpoint delete_scan (n : nat) (st : cpfile) (bh off : Z) (nicps nss : Z)
  : cpfile * Z * Z :=
  match n with
  | O => (st, nicps, nss)
  | S n' =>
      let cp := bh_checkpoint st bh off in
      if nilfs_checkpoint_snapshot cp then
        delete_scan n' st bh (off + 1) nicps (nss + 1)
      else if negb (nilfs_checkpoint_invalid cp) then
        delete_scan n' (bh_update nilfs_checkpoint_set_invalid bh off st)
                    bh (off + 1) (nicps + 1) nss
      else delete_scan n' st bh (off + 1) nicps nss
  end.

(** The outer [for (cno = start; cno < end; cno += ncps)] loop.  Every
    iteration moves [cno] to a later block, so [fuel] bounds the number of
    blocks visited; [None] stands for a loop that has not finished. *)
Fixpoint delete_loop (fuel : nat) (st : cpfile) (cno end_ : Z)
  (ret tnicps nss : Z) : option (Z * cpfile * Z * Z) :=
  if cno <? end_ then
    match fuel with
    | O => None
    | S fuel' =>
        let ncps := nilfs_cpfile_checkpoints_in_block st cno end_ in
        let next := wrap64 (cno + ncps) in
        let '(ret, st) := nilfs_cpfile_get_checkpoint_block st cno false in
        if ret <? 0 then
          if negb (ret =? - ENOENT) then Some (ret, st, tnicps, nss)
          else (* skip hole *) delete_loop fuel' st next end_ 0 tnicps nss
        else
          let cp_bh := nilfs_cpfile_get_blkoff st cno in
          let offset := nilfs_cpfile_get_offset st cno in
          let '(st, nicps, nss) :=
            delete_scan (Z.to_nat ncps) st cp_bh offset 0 nss in
          if nicps <=? 0 then delete_loop fuel' st next end_ ret tnicps nss
          else
            let tnicps := wrap64 (tnicps + nicps) in
            let st := nilfs_mdt_mark_dirty (mark_buffer_dirty cp_bh st) in
            if nilfs_cpfile_is_in_first st cno then
              delete_loop fuel' st next end_ ret tnicps nss
            else
              let '(count, st) :=
                nilfs_cpfile_block_sub_valid_checkpoints st cp_bh nicps in
              if negb (count =? 0) then
                delete_loop fuel' st next end_ ret tnicps nss
              else
                (* Delete the block if there are no more valid checkpoints *)
                let '(ret, st) := nilfs_cpfile_delete_checkpoint_block st cno in
                if negb (ret =? 0) then
                  Some (ret, nilfs_error (DeleteBlockError ret) st, tnicps, nss)
                else delete_loop fuel' st next end_ ret tnicps nss
    end
  else Some (ret, st, tnicps, nss).

Definition nilfs_cpfile_delete_checkpoints (st : cpfile) (start end_ : Z)
  : option (Z * cpfile) :=
  if (start =? 0) || (end_ <? start) then
    Some (- EINVAL, nilfs_error (InvalidDeleteRange start end_) st)
  else
    let '(ret, st) := nilfs_cpfile_get_header_block st in
    if ret <? 0 then Some (ret, st)
    else
      let fuel :=
        S (Z.to_nat (nilfs_cpfile_get_blkoff st end_
                     - nilfs_cpfile_get_blkoff st start)) in
      match delete_loop fuel st start end_ ret 0 0 with
      | None => None
      | Some (ret, st, tnicps, nss) =>
          let st :=
            if 0 <? tnicps then
              let st :=
                header_update
                  (λ h, set_ch_ncheckpoints
                          (le64_add_cpu (ch_ncheckpoints h) (- tnicps)) h) st in
              nilfs_mdt_mark_dirty (mark_buffer_dirty 0 st)
            else st in
          Some (if 0 <? nss then - EBUSY else ret, st)
      end.

(** ** get_cpinfo *)

Definition nilfs_cpfile_checkpoint_to_cpinfo (cp : nilfs_checkpoint)
  : nilfs_cpinfo :=
  mk_ci (cp_flags cp) (cp_cno cp) (cp_create cp) (cp_nblk_inc cp)
        (cp_inodes_count cp) (cp_blocks_count cp)
        (ssl_next (cp_snapshot_list cp)).

(** Inner loop [for (i = 0; i < ncps && n < nci; i++, cp += cpsz)]; [buf]
    is the output buffer filled so far, so [n] is its length. *)
Fixpoint cpinfo_scan (k : nat) (st : cpfile) (bh off : Z) (nci : Z)
  (buf : list nilfs_cpinfo) : list nilfs_cpinfo :=
  match k with
  | O => buf
  | S k' =>
      if Z.of_nat (length buf) <? nci then
        let cp := bh_checkpoint st bh off in
        if negb (nilfs_checkpoint_invalid cp) then
          cpinfo_scan k' st bh (off + 1) nci
                      (buf ++ [nilfs_cpfile_checkpoint_to_cpinfo cp])
        else cpinfo_scan k' st bh (off + 1) nci buf
      else buf
  end.

(** Outer loop [for (n = 0; n < nci; cno += ncps)]; the result is either an
    error code ([inl]) or the filled buffer ([inr]). *)
Fixpoint cpinfo_loop (fuel : nat) (st : cpfile) (cno cur_cno nci : Z)
  (buf : list nilfs_cpinfo) : option (Z + list nilfs_cpinfo) :=
  if Z.of_nat (length buf) <? nci then
    match fuel with
    | O => None
    | S fuel' =>
        let '(ret, cno, bh) :=
          nilfs_cpfile_find_checkpoint_block st cno (wrap64 (cur_cno - 1)) in
        if ret <? 0 then
          if ret =? - ENOENT then Some (inr buf) else Some (inl ret)
        else
          let ncps := nilfs_cpfile_checkpoints_in_block st cno cur_cno in
          let offset := nilfs_cpfile_get_offset st cno in
          let buf := cpinfo_scan (Z.to_nat ncps) st bh offset nci buf in
          cpinfo_loop fuel' st (wrap64 (cno + ncps)) cur_cno nci buf
    end
  else Some (inr buf).

(** Returns the return value, the updated [*cnop] and the output buffer. *)
Definition nilfs_cpfile_do_get_cpinfo (st : cpfile) (cno : Z) (nci : Z)
  : option (Z * Z * list nilfs_cpinfo) :=
  let cur_cno := nilfs_mdt_cno st in
  if cno =? 0 then Some (- ENOENT, cno, [])
  else
    (* one iteration per block of the range, and one more that finds the
       range exhausted *)
    let fuel :=
      S (S (Z.to_nat (nilfs_cpfile_get_blkoff st (wrap64 (cur_cno - 1))
                      - nilfs_cpfile_get_blkoff st cno))) in
    match cpinfo_loop fuel st cno cur_cno nci [] with
    | None => None
    | Some (inl ret) => Some (ret, cno, [])
    | Some (inr buf) =>
        match last buf with
        | Some ci => Some (Z.of_nat (length buf), wrap64 (ci_cno ci + 1), buf)
        | None => Some (0, cno, buf)
        end
    end.

(** The [while (n < nci)] loop of the snapshot walk; [k] bounds the entries
    still to emit.  Yields the return value ([inl] on a failed block fetch),
    the cno to continue from and the buffer. *)
Fixpoint ssinfo_loop (k : nat) (st : cpfile) (curr curr_blkoff : Z)
  (buf : list nilfs_cpinfo) : (Z + Z) * list nilfs_cpinfo :=
  match k with
  | O => (inr curr, buf)
  | S k' =>
      let cp :=
        bh_checkpoint st curr_blkoff (nilfs_cpfile_get_offset st curr) in
      if nilfs_checkpoint_invalid cp || negb (nilfs_checkpoint_snapshot cp)
      then (inr U64_MAX, buf)
      else
        let buf := buf ++ [nilfs_cpfile_checkpoint_to_cpinfo cp] in
        let next := ssl_next (cp_snapshot_list cp) in
        if next =? 0 then (inr U64_MAX, buf)
        else
          let next_blkoff := nilfs_cpfile_get_blkoff st next in
          let ret :=
            if negb (curr_blkoff =? next_blkoff) then
              fst (nilfs_cpfile_get_checkpoint_block st next false)
            else 0 in
          if ret <? 0 then (inl ret, buf)
          else ssinfo_loop k' st next next_blkoff buf
  end.

(** The walk proper, from the first entry [curr] on. *)
Definition ssinfo_walk (st : cpfile) (cno curr nci : Z)
  : Z * Z * list nilfs_cpinfo * cpfile :=
  let curr_blkoff := nilfs_cpfile_get_blkoff st curr in
  let ret := fst (nilfs_cpfile_get_checkpoint_block st curr false) in
  if ret <? 0 then
    (* No snapshots (started from a hole block) *)
    (if ret =? - ENOENT then 0 else ret, cno, [], st)
  else
    match ssinfo_loop (Z.to_nat nci) st curr curr_blkoff [] with
    | (inl ret, buf) => (ret, cno, buf, st)
    | (inr curr, buf) => (Z.of_nat (length buf), curr, buf, st)
    end.

(** Returns the return value, the updated [*cnop], the output buffer and
    the cpfile (a missing header block is reported through nilfs_error). *)
Definition nilfs_cpfile_do_get_ssinfo (st : cpfile) (cno nci : Z)
  : Z * Z * list nilfs_cpinfo * cpfile :=
  if cno =? 0 then
    let '(ret, st) := nilfs_cpfile_get_header_block st in
    if ret <? 0 then (ret, cno, [], st)
    else
      let curr := ssl_next (ch_snapshot_list (cp_header st)) in
      if curr =? 0 then (0, cno, [], st)
      else ssinfo_walk st cno curr nci
  else if cno =? U64_MAX then (0, cno, [], st)
  else ssinfo_walk st cno cno nci.

Inductive cpmode := NILFS_CHECKPOINT | NILFS_SNAPSHOT | OTHER_MODE (m : Z).

Definition nilfs_cpfile_get_cpinfo (st : cpfile) (cno : Z) (mode : cpmode)
  (nci : Z) : option (Z * Z * list nilfs_cpinfo * cpfile) :=
  match mode with
  | NILFS_CHECKPOINT =>
      match nilfs_cpfile_do_get_cpinfo st cno nci with
      | Some (ret, cno, buf) => Some (ret, cno, buf, st)
      | None => None
      end
  | NILFS_SNAPSHOT => Some (nilfs_cpfile_do_get_ssinfo st cno nci)
  | OTHER_MODE _ => Some (- EINVAL, cno, [], st)
  end.

(** ** delete_checkpoint (single) *)

Definition nilfs_cpfile_delete_checkpoint (st : cpfile) (cno : Z)
  : option (Z * cpfile) :=
  match nilfs_cpfile_do_get_cpinfo st cno 1 with
  | None => None
  | Some (nci, _, buf) =>
      if nci <? 0 then Some (nci, st)
      else if (nci =? 0)
              || negb (ci_cno (default (mk_ci 0 0 0 0 0 0 0) (head buf)) =? cno)
      then Some (- ENOENT, st)
      else if nilfs_cpinfo_snapshot (default (mk_ci 0 0 0 0 0 0 0) (head buf))
      then Some (- EBUSY, st)
      else nilfs_cpfile_delete_checkpoints st cno (wrap64 (cno + 1))
  end.

(** ** Snapshot list *)

(** Where a [struct nilfs_snapshot_list *] points: into the header
    (offset nilfs_cpfile_ch_snapshot_list_offset of the header block) or into
    the entry in slot [off] of block [bh]
    (nilfs_cpfile_cp_snapshot_list_offset). *)
Inductive list_loc :=
  | in_header
  | in_checkpoint (bh off : Z).

Definition list_read (st : cpfile) (loc : list_loc) : nilfs_snapshot_list :=
  match loc with
  | in_header => ch_snapshot_list (cp_header st)
  | in_checkpoint bh off => cp_snapshot_list (bh_checkpoint st bh off)
  end.

Definition list_update (f : nilfs_snapshot_list → nilfs_snapshot_list)
  (loc : list_loc) (st : cpfile) : cpfile :=
  match loc with
  | in_header =>
      header_update (λ h, set_ch_snapshot_list (f (ch_snapshot_list h)) h) st
  | in_checkpoint bh off =>
      bh_update (λ cp, set_cp_snapshot_list (f (cp_snapshot_list cp)) cp)
                bh off st
  end.

(** The [while (prev > cno)] loop of set_snapshot: walks the list backwards
    from the tail.  Yields the error code of a failed block fetch ([inl]) or
    [curr], the place of its list entry and [prev]. *)
Fixpoint set_snapshot_walk (fuel : nat) (st : cpfile) (cno : Z)
  (curr curr_blkoff : Z) (curr_list : list_loc) (prev : Z)
  : option (Z + Z * list_loc * Z) :=
  if cno <? prev then
    match fuel with
    | O => None
    | S fuel' =>
        let prev_blkoff := nilfs_cpfile_get_blkoff st prev in
        let curr := prev in
        let ret :=
          if negb (curr_blkoff =? prev_blkoff) then
            fst (nilfs_cpfile_get_checkpoint_block st curr false)
          else 0 in
        if ret <? 0 then Some (inl ret)
        else
          let curr_list :=
            in_checkpoint prev_blkoff (nilfs_cpfile_get_offset st curr) in
          set_snapshot_walk fuel' st cno curr prev_blkoff curr_list
                            (ssl_prev (list_read st curr_list))
    end
  else Some (inr (curr, curr_list, prev)).

Definition nilfs_cpfile_set_snapshot (fuel : nat) (st : cpfile) (cno : Z)
  : option (Z * cpfile) :=
  if cno =? 0 then Some (- ENOENT, st)
  else
    let '(ret, st) := nilfs_cpfile_get_header_block st in
    if ret <? 0 then Some (ret, st)
    else
      let '(ret, st) := nilfs_cpfile_get_checkpoint_block st cno false in
      if ret <? 0 then Some (ret, st)
      else
        let cp_bh := nilfs_cpfile_get_blkoff st cno in
        let offset := nilfs_cpfile_get_offset st cno in
        let cp := bh_checkpoint st cp_bh offset in
        if nilfs_checkpoint_invalid cp then Some (- ENOENT, st)
        else if nilfs_checkpoint_snapshot cp then Some (0, st)
        else
          match set_snapshot_walk fuel st cno 0 0 in_header
                  (ssl_prev (ch_snapshot_list (cp_header st))) with
          | None => None
          | Some (inl ret) => Some (ret, st)
          | Some (inr (curr, curr_list, prev)) =>
              let '(ret, prev_bh, prev_list) :=
                if negb (prev =? 0) then
                  (fst (nilfs_cpfile_get_checkpoint_block st prev false),
                   nilfs_cpfile_get_blkoff st prev,
                   in_checkpoint (nilfs_cpfile_get_blkoff st prev)
                                 (nilfs_cpfile_get_offset st prev))
                else (ret, 0, in_header) in
              if ret <? 0 then Some (ret, st)
              else
                let curr_bh :=
                  match curr_list with
                  | in_header => 0
                  | in_checkpoint bh _ => bh
                  end in
                (* Update the list entry for the next snapshot *)
                let st := list_update (set_ssl_prev cno) curr_list st in
                (* Update the checkpoint being changed to a snapshot *)
                let st :=
                  bh_update
                    (λ cp, nilfs_checkpoint_set_snapshot
                             (set_cp_ssl_prev prev (set_cp_ssl_next curr cp)))
                    cp_bh offset st in
                (* Update the list entry for the previous snapshot *)
                let st := list_update (set_ssl_next cno) prev_list st in
                (* Update the statistics in the header *)
                let st :=
                  header_update
                    (λ h, set_ch_nsnapshots (le64_add_cpu (ch_nsnapshots h) 1) h)
                    st in
                let st := mark_buffer_dirty prev_bh st in
                let st := mark_buffer_dirty curr_bh st in
                let st := mark_buffer_dirty cp_bh st in
                let st := mark_buffer_dirty 0 st in
                Some (ret, nilfs_mdt_mark_dirty st)
          end.

Definition nilfs_cpfile_clear_snapshot (st : cpfile) (cno : Z) : Z * cpfile :=
  if cno =? 0 then (- ENOENT, st)
  else
    let '(ret, st) := nilfs_cpfile_get_header_block st in
    if ret <? 0 then (ret, st)
    else
      let '(ret, st) := nilfs_cpfile_get_checkpoint_block st cno false in
      if ret <? 0 then (ret, st)
      else
        let cp_bh := nilfs_cpfile_get_blkoff st cno in
        let offset := nilfs_cpfile_get_offset st cno in
        let cp := bh_checkpoint st cp_bh offset in
        if nilfs_checkpoint_invalid cp then (- ENOENT, st)
        else if negb (nilfs_checkpoint_snapshot cp) then (0, st)
        else
          let next := ssl_next (cp_snapshot_list cp) in
          let prev := ssl_prev (cp_snapshot_list cp) in
          let '(ret, next_bh, next_list) :=
            if negb (next =? 0) then
              (fst (nilfs_cpfile_get_checkpoint_block st next false),
               nilfs_cpfile_get_blkoff st next,
               in_checkpoint (nilfs_cpfile_get_blkoff st next)
                             (nilfs_cpfile_get_offset st next))
            else (ret, 0, in_header) in
          if ret <? 0 then (ret, st)
          else
            let '(ret, prev_bh, prev_list) :=
              if negb (prev =? 0) then
                (fst (nilfs_cpfile_get_checkpoint_block st prev false),
                 nilfs_cpfile_get_blkoff st prev,
                 in_checkpoint (nilfs_cpfile_get_blkoff st prev)
                               (nilfs_cpfile_get_offset st prev))
              else (ret, 0, in_header) in
            if ret <? 0 then (ret, st)
            else
              (* Update the list entry for the next snapshot *)
              let st := list_update (set_ssl_prev prev) next_list st in
              (* Update the list entry for the previous snapshot *)
              let st := list_update (set_ssl_next next) prev_list st in
              (* Update the snapshot being changed back to a plain checkpoint *)
              let st :=
                bh_update
                  (λ cp, nilfs_checkpoint_clear_snapshot
                           (set_cp_ssl_prev 0 (set_cp_ssl_next 0 cp)))
                  cp_bh offset st in
              (* Update the statistics in the header *)
              let st :=
                header_update
                  (λ h, set_ch_nsnapshots
                          (le64_add_cpu (ch_nsnapshots h) (-1)) h) st in
              let st := mark_buffer_dirty next_bh st in
              let st := mark_buffer_dirty prev_bh st in
              let st := mark_buffer_dirty cp_bh st in
              let st := mark_buffer_dirty 0 st in
              (ret, nilfs_mdt_mark_dirty st).

(** ** is_snapshot, change_cpmode, get_stat *)

Definition nilfs_cpfile_is_snapshot (st : cpfile) (cno : Z) : Z :=
  (* CP number is invalid if it's zero or larger than the largest
     existing one. *)
  if (cno =? 0) || (nilfs_mdt_cno st <=? cno) then - ENOENT
  else
    let '(ret, st) := nilfs_cpfile_get_checkpoint_block st cno false in
    if ret <? 0 then ret
    else
      let cp :=
        bh_checkpoint st (nilfs_cpfile_get_blkoff st cno)
                      (nilfs_cpfile_get_offset st cno) in
      if nilfs_checkpoint_invalid cp then - ENOENT
      else if nilfs_checkpoint_snapshot cp then 1 else 0.

(** [nilfs_checkpoint_is_mounted] belongs to the mount layer; it is taken
    as a parameter. *)
Definition nilfs_cpfile_change_cpmode
  (nilfs_checkpoint_is_mounted : Z → bool) (fuel : nat) (st : cpfile)
  (cno : Z) (mode : cpmode) : option (Z * cpfile) :=
  match mode with
  | NILFS_CHECKPOINT =>
      if nilfs_checkpoint_is_mounted cno then Some (- EBUSY, st)
      else Some (nilfs_cpfile_clear_snapshot st cno)
  | NILFS_SNAPSHOT => nilfs_cpfile_set_snapshot fuel st cno
  | OTHER_MODE _ => Some (- EINVAL, st)
  end.

Record nilfs_cpstat := mk_cpstat {
  cs_cno : Z;
  cs_ncps : Z;
  cs_nsss : Z
}.

Definition nilfs_cpfile_get_stat (st : cpfile) (cpstat : nilfs_cpstat)
  : Z * nilfs_cpstat * cpfile :=
  let '(ret, st) := nilfs_cpfile_get_header_block st in
  if ret <? 0 then (ret, cpstat, st)
  else
    (ret,
     mk_cpstat (nilfs_mdt_cno st) (ch_ncheckpoints (cp_header st))
               (ch_nsnapshots (cp_header st)),
     st).

(** ** read_checkpoint and finalize_checkpoint

    Both go through the inode layer (nilfs_read_inode_common,
    nilfs_write_inode_common, nilfs_bmap_write), which is outside the
    cpfile; it is taken as a parameter. *)
Section RootAndIfile.

Variable inode : Type.
(** Fills the in-memory inode from the raw one; nonzero on failure. *)
Variable nilfs_read_inode_common : inode → nilfs_inode → Z * inode.
Variable nilfs_write_inode_common : inode → nilfs_inode → nilfs_inode.
Variable nilfs_bmap_write : inode → nilfs_inode → nilfs_inode.

(** struct nilfs_root: the two counters are atomic64_t, signed. *)
Record nilfs_root := mk_root {
  inodes_count : Z;
  blocks_count : Z;
  ifile : option inode
}.

Definition nilfs_cpfile_read_checkpoint (st : cpfile) (cno : Z)
  (root : nilfs_root) (ifile_ : inode) : Z * nilfs_root * cpfile :=
  if (cno <? 1) || (nilfs_mdt_cno st <? cno) then (- EINVAL, root, st)
  else
    let '(ret, st) := nilfs_cpfile_get_checkpoint_block st cno false in
    if ret <? 0 then
      (if ret =? - ENOENT then - EINVAL else ret, root, st)
    else
      let cp_bh := nilfs_cpfile_get_blkoff st cno in
      let offset := nilfs_cpfile_get_offset st cno in
      let cp := bh_checkpoint st cp_bh offset in
      if nilfs_checkpoint_invalid cp then (- EINVAL, root, st)
      else
        let '(ret, ifile_) :=
          nilfs_read_inode_common ifile_ (cp_ifile_inode cp) in
        if negb (ret =? 0) then
          (- EIO, root, nilfs_error (IfileInodeCorrupted cno) st)
        else
          (* Configure the nilfs root object *)
          (ret,
           mk_root (s64_of_u64 (cp_inodes_count cp))
                   (s64_of_u64 (cp_blocks_count cp)) (Some ifile_),
           st).

Definition finalize_fill (cno : Z) (root : nilfs_root) (blkinc ctime : Z)
  (minor : bool) (cp : nilfs_checkpoint) : nilfs_checkpoint :=
  let cp :=
    mk_cp (cp_flags cp) (cp_checkpoints_count cp) (mk_ssl 0 0)
          cno (wrap64 ctime) blkinc
          (wrap64 (inodes_count root)) (wrap64 (blocks_count root))
          (cp_ifile_inode cp) in
  let cp :=
    if minor then nilfs_checkpoint_set_minor cp
    else nilfs_checkpoint_clear_minor cp in
  match ifile root with
  | Some i =>
      mk_cp (cp_flags cp) (cp_checkpoints_count cp) (cp_snapshot_list cp)
            (cp_cno cp) (cp_create cp) (cp_nblk_inc cp)
            (cp_inodes_count cp) (cp_blocks_count cp)
            (nilfs_bmap_write i
               (nilfs_write_inode_common i (cp_ifile_inode cp)))
  | None => cp
  end.

Definition nilfs_cpfile_finalize_checkpoint (st : cpfile) (cno : Z)
  (root : nilfs_root) (blkinc ctime : Z) (minor : bool) : Z * cpfile :=
  if cno <? 1 then (- EIO, st)
  else
    let '(ret, st) := nilfs_cpfile_get_checkpoint_block st cno false in
    if ret <? 0 then
      if ret =? - ENOENT then (- EIO, nilfs_error FinalizeCorruption st)
      else (ret, st)
    else
      let cp_bh := nilfs_cpfile_get_blkoff st cno in
      let offset := nilfs_cpfile_get_offset st cno in
      if nilfs_checkpoint_invalid (bh_checkpoint st cp_bh offset) then
        (- EIO, nilfs_error FinalizeCorruption st)
      else
        (ret, bh_update (finalize_fill cno root blkinc ctime minor)
                        cp_bh offset st).

End RootAndIfile.

Arguments mk_root {inode} _ _ _.
Arguments inodes_count {inode} _.
Arguments blocks_count {inode} _.
Arguments ifile {inode} _.
Arguments nilfs_cpfile_read_checkpoint {inode} _ _ _ _ _.
Arguments finalize_fill {inode} _ _ _ _ _ _ _ _.
Arguments nilfs_cpfile_finalize_checkpoint {inode} _ _ _ _ _ _ _ _.

(** ** A small concrete cpfile: four entries per block *)

Definition invalid_checkpoint : nilfs_checkpoint :=
  nilfs_checkpoint_set_invalid zero_checkpoint.

(** mkfs state: block 0 only, every slot invalid, counter at 1. *)
Definition fresh_cpfile : cpfile :=
  mk_cpfile 4 1 1 (mk_hdr 0 0 (mk_ssl 0 0))
            {[ 0 := replicate 4 invalid_checkpoint ]} ∅ false [].

Definition set_mi_cno (n : Z) (st : cpfile) : cpfile :=
  mk_cpfile (mi_entries_per_block st) (mi_first_entry_offset st) n
            (cp_header st) (cp_blocks st) (bh_dirty st) (mi_dirty st)
            (sb_log st).

(** Runs [f] on the state of a successful earlier step. *)
Definition and_then (r : Z * cpfile) (f : cpfile → Z * cpfile) : Z * cpfile :=
  if fst r =? 0 then f (snd r) else r.


(** A root object with no inodes, and an inode layer that accepts every
    raw inode, for the concrete scenarios. *)
Definition demo_root : nilfs_root unit := mk_root 0 0 (Some tt).

Definition make_checkpoint (st : cpfile) (cno : Z) : cpfile :=
  snd (and_then (nilfs_cpfile_create_checkpoint st cno)
         (λ st, nilfs_cpfile_finalize_checkpoint
                  (λ _ raw, raw) (λ _ raw, raw) st cno demo_root 0 0 false)).

Definition make_snapshot (st : cpfile) (cno : Z) : cpfile :=
  match nilfs_cpfile_set_snapshot 8 st cno with
  | Some (_, st') => st'
  | None => st
  end.

(** Checkpoints 10, 20 and 30 exist; 10 and 30 are snapshots. *)
Definition cpfile_10_30 : cpfile :=
  make_snapshot
    (make_snapshot
       (make_checkpoint
          (make_checkpoint (make_checkpoint (set_mi_cno 31 fresh_cpfile) 10) 20)
          30)
       10)
    30.

(** Checkpoints 4, 5 and 8 exist; 4 is a snapshot.  With four entries per
    block, 4 is the first entry of block 1 and 8 is alone in block 2. *)
Definition cpfile_4_8 : cpfile :=
  make_snapshot
    (make_checkpoint
       (make_checkpoint (make_checkpoint (set_mi_cno 31 fresh_cpfile) 4) 5)
       8)
    4.
(** * Properties *)

(** ** Views used in the statements *)

(** The entry addressed by [cno], when its block and slot exist. *)
Definition entry (st : cpfile) (cno : Z) : option nilfs_checkpoint :=
  cp_blocks st !! nilfs_cpfile_get_blkoff st cno
    ≫= (.!! Z.to_nat (nilfs_cpfile_get_offset st cno)).

Definition block_present (st : cpfile) (blkoff : Z) : bool :=
  bool_decide (is_Some (cp_blocks st !! blkoff)).

(** Entries per block and first-entry offset as set up for the cpfile. *)
Definition geometry_ok (st : cpfile) : Prop :=
  1 ≤ mi_entries_per_block st ∧ mi_first_entry_offset st = 1.

(** Every block holds [mi_entries_per_block] slots. *)
Definition blocks_ok (st : cpfile) : Prop :=
  ∀ b blk, cp_blocks st !! b = Some blk →
           length blk = Z.to_nat (mi_entries_per_block st).


(** ** Slots: the pointwise view of the block store *)

Definition slot (st : cpfile) (b : Z) (i : nat) : option nilfs_checkpoint :=
  cp_blocks st !! b ≫= (.!! i).

(** ** Frame conditions of the state updates *)

(** Updates that keep the layout parameters and the MDT counter. *)
Class KeepsLayout (u : cpfile → cpfile) : Prop := keeps_layout st :
  mi_entries_per_block (u st) = mi_entries_per_block st ∧
  mi_first_entry_offset (u st) = mi_first_entry_offset st ∧
  mi_cno (u st) = mi_cno st.

(** Updates that keep the block store. *)
Class KeepsBlocks (u : cpfile → cpfile) : Prop := keeps_blocks st :
  cp_blocks (u st) = cp_blocks st.

(** Updates that keep the header. *)
Class KeepsHeader (u : cpfile → cpfile) : Prop := keeps_header st :
  cp_header (u st) = cp_header st.


(** Values that fit a __u64. *)
Definition is_u64 (x : Z) : Prop := 0 ≤ x ≤ U64_MAX.

(** The place of the snapshot-list field that belongs to [cno]; 0 names
    the header sentinel. *)
Definition list_loc_of (st : cpfile) (cno : Z) : list_loc :=
  if cno =? 0 then in_header
  else in_checkpoint (nilfs_cpfile_get_blkoff st cno)
                     (nilfs_cpfile_get_offset st cno).

(** The snapshot-list field of [cno] (of the header for 0), if it exists. *)
Definition node (st : cpfile) (cno : Z) : option nilfs_snapshot_list :=
  if cno =? 0 then Some (ch_snapshot_list (cp_header st))
  else cp_snapshot_list <$> entry st cno.

Definition next_of (st : cpfile) (cno : Z) : option Z := ssl_next <$> node st cno.
Definition prev_of (st : cpfile) (cno : Z) : option Z := ssl_prev <$> node st cno.

(** Walking a link ([next_of st] or [prev_of st]) from node [a] until the
    link is 0, the header sentinel: the cnos met on the way. *)
Fixpoint walk (fuel : nat) (link : Z → option Z) (a : Z) : option (list Z) :=
  match link a with
  | None => None
  | Some c =>
      if c =? 0 then Some []
      else
        match fuel with
        | O => None
        | S fuel' => (c ::.) <$> walk fuel' link c
        end
  end.

(** [path link a l b]: following [link] from [a] visits exactly the nodes
    of [l] in order and then points to [b]. *)
Fixpoint path (link : Z → option Z) (a : Z) (l : list Z) (b : Z) : Prop :=
  match l with
  | [] => link a = Some b
  | c :: l' => link a = Some c ∧ path link c l' b
  end.

Definition increasing (l : list Z) : Prop := StronglySorted Z.lt l.

(** The snapshot list of the cpfile is [l]: the forward walk from the
    header yields [l], the backward walk yields its reverse, the cnos are
    strictly increasing, and every member is a snapshot entry. *)
Definition snapshot_list (st : cpfile) (l : list Z) : Prop :=
  walk (length l) (next_of st) 0 = Some l ∧
  walk (length l) (prev_of st) 0 = Some (reverse l) ∧
  increasing l ∧
  Forall (λ c, 0 < c ≤ U64_MAX ∧
               ∃ cp, entry st c = Some cp ∧
                     nilfs_checkpoint_snapshot cp = true) l.

(** The block that holds the list field of [cno] (block 0 for the header). *)
Definition bh_of_node (st : cpfile) (cno : Z) : Z :=
  if cno =? 0 then 0 else nilfs_cpfile_get_blkoff st cno.

(** The four writes of set_snapshot once the neighbours are known: [curr]
    follows [cno] in the list and [prev] precedes it. *)
Definition set_snapshot_links (st : cpfile) (cno curr prev : Z) : cpfile :=
  let st := list_update (set_ssl_prev cno) (list_loc_of st curr) st in
  let st :=
    bh_update (λ cp, nilfs_checkpoint_set_snapshot
                       (set_cp_ssl_prev prev (set_cp_ssl_next curr cp)))
              (nilfs_cpfile_get_blkoff st cno)
              (nilfs_cpfile_get_offset st cno) st in
  let st := list_update (set_ssl_next cno) (list_loc_of st prev) st in
  header_update (λ h, set_ch_nsnapshots (le64_add_cpu (ch_nsnapshots h) 1) h)
                st.

(** The writes of clear_snapshot for an entry linked between [prev] and
    [next]. *)
Definition clear_snapshot_links (st : cpfile) (cno next prev : Z) : cpfile :=
  let st := list_update (set_ssl_prev prev) (list_loc_of st next) st in
  let st := list_update (set_ssl_next next) (list_loc_of st prev) st in
  let st :=
    bh_update (λ cp, nilfs_checkpoint_clear_snapshot
                       (set_cp_ssl_prev 0 (set_cp_ssl_next 0 cp)))
              (nilfs_cpfile_get_blkoff st cno)
              (nilfs_cpfile_get_offset st cno) st in
  header_update (λ h, set_ch_nsnapshots (le64_add_cpu (ch_nsnapshots h) (-1)) h)
                st.

(** A write to the snapshot-list field of an entry. *)
Definition on_list (f : nilfs_snapshot_list → nilfs_snapshot_list)
  (cp : nilfs_checkpoint) : nilfs_checkpoint :=
  set_cp_snapshot_list (f (cp_snapshot_list cp)) cp.

(** What set_snapshot writes into the entry itself. *)
Definition link_as_snapshot (curr prev : Z) (cp : nilfs_checkpoint)
  : nilfs_checkpoint :=
  nilfs_checkpoint_set_snapshot (set_cp_ssl_prev prev (set_cp_ssl_next curr cp)).

(** Validity as the scanning loops see it: the block of [cno] exists and the
    entry read from it does not carry INVALID. *)
Definition checkpoint_valid (st : cpfile) (cno : Z) : bool :=
  block_present st (nilfs_cpfile_get_blkoff st cno)
  && negb (nilfs_checkpoint_invalid
             (bh_checkpoint st (nilfs_cpfile_get_blkoff st cno)
                            (nilfs_cpfile_get_offset st cno))).

(** The entry as the code reads it through the buffer head. *)
Definition checkpoint_at (st : cpfile) (cno : Z) : nilfs_checkpoint :=
  bh_checkpoint st (nilfs_cpfile_get_blkoff st cno)
                (nilfs_cpfile_get_offset st cno).

(** ** Range delete, block by block *)

(** What the inner loop of delete_checkpoints invalidates: an entry that is
    neither a snapshot nor INVALID already. *)
Definition deletable (cp : nilfs_checkpoint) : bool :=
  negb (nilfs_checkpoint_snapshot cp) && negb (nilfs_checkpoint_invalid cp).

(** Number of [x] in [a, a + n) with [P x]. *)
Fixpoint count_range (P : Z → bool) (a : Z) (n : nat) : Z :=
  match n with
  | O => 0
  | S n' => (if P a then 1 else 0) + count_range P (a + 1) n'
  end.

(** Slot [k] of a block as read through a mapped buffer. *)
Definition slot_at (blk : list nilfs_checkpoint) (k : Z) : nilfs_checkpoint :=
  default zero_checkpoint (blk !! Z.to_nat k).

(** The block with every deletable entry of slots [lo, lo + n) flagged
    INVALID. *)
Definition invalidate_slots (lo : Z) (n : nat) (blk : list nilfs_checkpoint)
  : list nilfs_checkpoint :=
  imap (λ i cp,
          if bool_decide (lo ≤ Z.of_nat i < lo + Z.of_nat n) && deletable cp
          then nilfs_checkpoint_set_invalid cp else cp) blk.

(** The slots of block [b] that the range [start, end_) covers: the first
    one and their number; [E] is the number of entries per block. *)
Definition range_lo (E start b : Z) : Z := Z.max start (E * b) - E * b.

Definition range_len (E start end_ b : Z) : nat :=
  Z.to_nat (Z.min end_ (E * (b + 1)) - Z.max start (E * b)).

(** Block [b] after a delete of [start, end_): untouched when nothing in it
    is deletable, reclaimed ([None]) when it is not block 0 and its census
    word drops to zero, and otherwise rewritten with the deleted entries
    flagged INVALID and, outside block 0, the census word decremented. *)
Definition block_after_delete (E start end_ b : Z)
  (blk : list nilfs_checkpoint) : option (list nilfs_checkpoint) :=
  let lo := range_lo E start b in
  let n := range_len E start end_ b in
  let nicps := count_range (λ k, deletable (slot_at blk k)) lo n in
  let blk' := invalidate_slots lo n blk in
  if nicps =? 0 then Some blk
  else if b =? 0 then Some blk'
  else
    let count := wrap32 (cp_checkpoints_count (slot_at blk' 0) - nicps) in
    if count =? 0 then None
    else Some (alter (set_cp_checkpoints_count count) 0%nat blk').

(** Entries a range delete acts on, addressed by cno. *)
Definition deletable_at (st : cpfile) (cno : Z) : bool :=
  block_present st (nilfs_cpfile_get_blkoff st cno)
  && deletable (checkpoint_at st cno).

Definition snapshot_at (st : cpfile) (cno : Z) : bool :=
  block_present st (nilfs_cpfile_get_blkoff st cno)
  && nilfs_checkpoint_snapshot (checkpoint_at st cno).

(** States that differ in the block store and the dirty marks only. *)
Definition same_but_blocks (st st' : cpfile) : Prop :=
  mi_entries_per_block st' = mi_entries_per_block st ∧
  mi_first_entry_offset st' = mi_first_entry_offset st ∧
  mi_cno st' = mi_cno st ∧
  cp_header st' = cp_header st ∧
  sb_log st' = sb_log st.

(** The census word of block [b] counts the entries of the block that are
    not INVALID. *)
Definition valid_in_block (blk : list nilfs_checkpoint) : Z :=
  count_range (λ k, negb (nilfs_checkpoint_invalid (slot_at blk k)))
              0 (length blk).

Definition census_ok (st : cpfile) (b : Z) : Prop :=
  ∀ blk, cp_blocks st !! b = Some blk →
         cp_checkpoints_count (slot_at blk 0) = valid_in_block blk.

(** [cp'] is [cp] except, possibly, for the census word
    [cp_checkpoints_count]. *)
Definition same_but_census (cp cp' : nilfs_checkpoint) : Prop :=
  cp' = set_cp_checkpoints_count (cp_checkpoints_count cp') cp.

(** ** create_checkpoint, block by block *)

(** The block the MDT layer hands out when it has to create one. *)
Definition fresh_block (st : cpfile) : list nilfs_checkpoint :=
  nilfs_cpfile_block_init st
    (replicate (Z.to_nat (mi_entries_per_block st)) zero_checkpoint).

(** Block [b] after create_checkpoint found slot [off] in it: an INVALID
    slot becomes valid and, outside block 0, the census word goes up by
    one; a valid slot leaves the block as it is. *)
Definition block_after_create (b off : Z) (blk : list nilfs_checkpoint)
  : list nilfs_checkpoint :=
  if nilfs_checkpoint_invalid (slot_at blk off) then
    let blk1 := alter nilfs_checkpoint_clear_invalid (Z.to_nat off) blk in
    if b =? 0 then blk1
    else alter (set_cp_checkpoints_count
                  (wrap32 (cp_checkpoints_count (slot_at blk1 0) + 1)))
               0%nat blk1
  else blk.

(** ** Snapshot enumeration *)

(** A member of the snapshot list as the enumeration needs it: a cno within
    range whose entry exists, is valid and carries the snapshot flag. *)
Definition live_snapshot (st : cpfile) (c : Z) : Prop :=
  0 < c ≤ U64_MAX ∧
  ∃ cp, entry st c = Some cp ∧
        nilfs_checkpoint_invalid cp = false ∧
        nilfs_checkpoint_snapshot cp = true.

(** The summary get_cpinfo emits for the entry of [c]. *)
Definition cpinfo_of (st : cpfile) (c : Z) : nilfs_cpinfo :=
  nilfs_cpfile_checkpoint_to_cpinfo (checkpoint_at st c).

(** ** Checkpoint enumeration *)

(** The [x] in [a, a + n) with [P x], in increasing order. *)
Fixpoint select_range (P : Z → bool) (a : Z) (n : nat) : list Z :=
  match n with
  | O => []
  | S n' =>
      if P a then a :: select_range P (a + 1) n'
      else select_range P (a + 1) n'
  end.

(** The cnos in [a, b) whose entry is valid, in increasing order. *)
Definition valid_cnos (st : cpfile) (a b : Z) : list Z :=
  select_range (checkpoint_valid st) a (Z.to_nat (b - a)).

(** ** Semaphore and buffer calls *)

(** The calls that take or release mi_sem. *)
Definition is_lock_event (e : mdt_event) : bool :=
  match e with
  | DownWrite | UpWrite => true
  | _ => false
  end.

(** The calls that get or release a block. *)
Definition is_block_event (e : mdt_event) : bool :=
  match e with
  | GetBlock _ _ | Brelse _ => true
  | _ => false
  end.

(** The values an s64 holds. *)
Definition is_s64 (x : Z) : Prop := - 2 ^ 63 ≤ x < 2 ^ 63.

(** ** Block reclamation *)

(** Number of entries of block [b] that a delete of [start, end_) flags
    INVALID: the nicps of one pass of the outer loop. *)
Definition deleted_in_block (E start end_ b : Z)
  (blk : list nilfs_checkpoint) : Z :=
  count_range (λ k, deletable (slot_at blk k))
              (range_lo E start b) (range_len E start end_ b).

(** Invariants 1 and 5 of the spec on the blocks other than block 0: the
    census word counts the valid entries, and there is at least one. *)
Definition census_positive (st : cpfile) : Prop :=
  ∀ b blk, b ≠ 0 → cp_blocks st !! b = Some blk →
           cp_checkpoints_count (slot_at blk 0) = valid_in_block blk ∧
           0 < valid_in_block blk.
(** ** Basic facts about the accessors *)

Lemma get_block_nocreate st b init :
  nilfs_mdt_get_block st b false init
  = (if block_present st b then 0 else - ENOENT, st).
Proof.
  unfold nilfs_mdt_get_block, block_present.
  destruct (cp_blocks st !! b) as [blk|] eqn:Hb.
  - rewrite bool_decide_eq_true_2; [done | by eexists].
  - rewrite bool_decide_eq_false_2; [done | by intros [? ?]].
Qed.

Lemma block_present_true st b :
  block_present st b = true ↔ is_Some (cp_blocks st !! b).
Proof. unfold block_present. by rewrite bool_decide_eq_true. Qed.

Lemma block_present_false st b :
  block_present st b = false ↔ cp_blocks st !! b = None.
Proof.
  unfold block_present. rewrite bool_decide_eq_false.
  by rewrite eq_None_not_Some.
Qed.

Lemma get_header_block_present st :
  block_present st 0 = true → nilfs_cpfile_get_header_block st = (0, st).
Proof.
  intros H. unfold nilfs_cpfile_get_header_block.
  by rewrite get_block_nocreate, H.
Qed.

Lemma get_header_block_absent st :
  block_present st 0 = false →
  nilfs_cpfile_get_header_block st = (- EIO, nilfs_error MissingHeaderBlock st).
Proof.
  intros H. unfold nilfs_cpfile_get_header_block.
  by rewrite get_block_nocreate, H.
Qed.

Lemma get_checkpoint_block_nocreate st cno :
  nilfs_cpfile_get_checkpoint_block st cno false
  = (if block_present st (nilfs_cpfile_get_blkoff st cno) then 0 else - ENOENT,
     st).
Proof. apply get_block_nocreate. Qed.

Lemma bh_checkpoint_entry st cno cp :
  entry st cno = Some cp →
  bh_checkpoint st (nilfs_cpfile_get_blkoff st cno)
                (nilfs_cpfile_get_offset st cno) = cp.
Proof. unfold entry, bh_checkpoint. by intros ->. Qed.

Lemma entry_block_present st cno cp :
  entry st cno = Some cp →
  block_present st (nilfs_cpfile_get_blkoff st cno) = true.
Proof.
  unfold entry. intros H. apply block_present_true.
  destruct (cp_blocks st !! _); [by eexists | done].
Qed.

(** Flag bits are independent of each other. *)
Arguments Z.testbit : simpl never.
Arguments Z.setbit : simpl never.
Arguments Z.clearbit : simpl never.

Ltac flag_bits :=
  unfold nilfs_checkpoint_invalid, nilfs_checkpoint_snapshot,
    nilfs_checkpoint_minor, nilfs_checkpoint_set_invalid,
    nilfs_checkpoint_clear_invalid, nilfs_checkpoint_set_snapshot,
    nilfs_checkpoint_clear_snapshot, nilfs_checkpoint_set_minor,
    nilfs_checkpoint_clear_minor, NILFS_CHECKPOINT_INVALID,
    NILFS_CHECKPOINT_SNAPSHOT, NILFS_CHECKPOINT_MINOR; cbn [cp_flags set_cp_flags];
  first [ by apply Z.setbit_eq
        | by apply Z.clearbit_eq
        | by rewrite Z.setbit_neq
        | by rewrite Z.clearbit_neq ].

Lemma invalid_set_invalid cp :
  nilfs_checkpoint_invalid (nilfs_checkpoint_set_invalid cp) = true.
Proof. flag_bits. Qed.

Lemma invalid_clear_invalid cp :
  nilfs_checkpoint_invalid (nilfs_checkpoint_clear_invalid cp) = false.
Proof. flag_bits. Qed.

Lemma snapshot_set_invalid cp :
  nilfs_checkpoint_snapshot (nilfs_checkpoint_set_invalid cp)
  = nilfs_checkpoint_snapshot cp.
Proof. flag_bits. Qed.

Lemma snapshot_set_snapshot cp :
  nilfs_checkpoint_snapshot (nilfs_checkpoint_set_snapshot cp) = true.
Proof. flag_bits. Qed.

Lemma snapshot_clear_snapshot cp :
  nilfs_checkpoint_snapshot (nilfs_checkpoint_clear_snapshot cp) = false.
Proof. flag_bits. Qed.

Lemma invalid_set_snapshot cp :
  nilfs_checkpoint_invalid (nilfs_checkpoint_set_snapshot cp)
  = nilfs_checkpoint_invalid cp.
Proof. flag_bits. Qed.

Lemma invalid_clear_snapshot cp :
  nilfs_checkpoint_invalid (nilfs_checkpoint_clear_snapshot cp)
  = nilfs_checkpoint_invalid cp.
Proof. flag_bits. Qed.

Lemma invalid_set_minor cp :
  nilfs_checkpoint_invalid (nilfs_checkpoint_set_minor cp)
  = nilfs_checkpoint_invalid cp.
Proof. flag_bits. Qed.

Lemma invalid_clear_minor cp :
  nilfs_checkpoint_invalid (nilfs_checkpoint_clear_minor cp)
  = nilfs_checkpoint_invalid cp.
Proof. flag_bits. Qed.

Lemma snapshot_set_minor cp :
  nilfs_checkpoint_snapshot (nilfs_checkpoint_set_minor cp)
  = nilfs_checkpoint_snapshot cp.
Proof. flag_bits. Qed.

Lemma snapshot_clear_minor cp :
  nilfs_checkpoint_snapshot (nilfs_checkpoint_clear_minor cp)
  = nilfs_checkpoint_snapshot cp.
Proof. flag_bits. Qed.

Lemma minor_set_minor cp :
  nilfs_checkpoint_minor (nilfs_checkpoint_set_minor cp) = true.
Proof. flag_bits. Qed.

Lemma minor_clear_minor cp :
  nilfs_checkpoint_minor (nilfs_checkpoint_clear_minor cp) = false.
Proof. flag_bits. Qed.


(** ** Frame conditions of the state updates, continued *)

#[global] Instance bh_update_layout f b o : KeepsLayout (bh_update f b o).
Proof. done. Qed.
#[global] Instance header_update_layout f : KeepsLayout (header_update f).
Proof. done. Qed.
#[global] Instance mark_buffer_dirty_layout b : KeepsLayout (mark_buffer_dirty b).
Proof. done. Qed.
#[global] Instance mdt_mark_dirty_layout : KeepsLayout nilfs_mdt_mark_dirty.
Proof. done. Qed.
#[global] Instance nilfs_error_layout d : KeepsLayout (nilfs_error d).
Proof. done. Qed.
#[global] Instance with_blocks_layout m : KeepsLayout (with_blocks m).
Proof. done. Qed.

#[global] Instance header_update_blocks f : KeepsBlocks (header_update f).
Proof. done. Qed.
#[global] Instance mark_buffer_dirty_blocks b : KeepsBlocks (mark_buffer_dirty b).
Proof. done. Qed.
#[global] Instance mdt_mark_dirty_blocks : KeepsBlocks nilfs_mdt_mark_dirty.
Proof. done. Qed.
#[global] Instance nilfs_error_blocks d : KeepsBlocks (nilfs_error d).
Proof. done. Qed.

#[global] Instance bh_update_header f b o : KeepsHeader (bh_update f b o).
Proof. done. Qed.
#[global] Instance mark_buffer_dirty_header b : KeepsHeader (mark_buffer_dirty b).
Proof. done. Qed.
#[global] Instance mdt_mark_dirty_header : KeepsHeader nilfs_mdt_mark_dirty.
Proof. done. Qed.
#[global] Instance nilfs_error_header d : KeepsHeader (nilfs_error d).
Proof. done. Qed.
#[global] Instance with_blocks_header m : KeepsHeader (with_blocks m).
Proof. done. Qed.

Section Frames.
Context (u : cpfile → cpfile).

Lemma blkoff_frame `{!KeepsLayout u} st c :
  nilfs_cpfile_get_blkoff (u st) c = nilfs_cpfile_get_blkoff st c.
Proof.
  destruct (keeps_layout st) as (HE & HF & _).
  unfold nilfs_cpfile_get_blkoff, nilfs_cpfile_checkpoints_per_block.
  by rewrite HE, HF.
Qed.

Lemma offset_frame `{!KeepsLayout u} st c :
  nilfs_cpfile_get_offset (u st) c = nilfs_cpfile_get_offset st c.
Proof.
  destruct (keeps_layout st) as (HE & HF & _).
  unfold nilfs_cpfile_get_offset, nilfs_cpfile_checkpoints_per_block.
  by rewrite HE, HF.
Qed.

Lemma is_in_first_frame `{!KeepsLayout u} st c :
  nilfs_cpfile_is_in_first (u st) c = nilfs_cpfile_is_in_first st c.
Proof. unfold nilfs_cpfile_is_in_first. by rewrite blkoff_frame. Qed.

Lemma in_block_frame `{!KeepsLayout u} st c m :
  nilfs_cpfile_checkpoints_in_block (u st) c m
  = nilfs_cpfile_checkpoints_in_block st c m.
Proof.
  destruct (keeps_layout st) as (HE & HF & _).
  unfold nilfs_cpfile_checkpoints_in_block,
    nilfs_cpfile_checkpoints_per_block.
  by rewrite offset_frame, HE.
Qed.

Lemma mdt_cno_frame `{!KeepsLayout u} st :
  nilfs_mdt_cno (u st) = nilfs_mdt_cno st.
Proof. by destruct (keeps_layout st) as (_ & _ & ?). Qed.

Lemma slot_frame `{!KeepsBlocks u} st b i : slot (u st) b i = slot st b i.
Proof. unfold slot. by rewrite keeps_blocks. Qed.

Lemma bh_checkpoint_frame `{!KeepsBlocks u} st b o :
  bh_checkpoint (u st) b o = bh_checkpoint st b o.
Proof. unfold bh_checkpoint. by rewrite keeps_blocks. Qed.

Lemma block_present_frame `{!KeepsBlocks u} st b :
  block_present (u st) b = block_present st b.
Proof. unfold block_present. by rewrite keeps_blocks. Qed.

Lemma entry_frame `{!KeepsLayout u, !KeepsBlocks u} st c :
  entry (u st) c = entry st c.
Proof. unfold entry. by rewrite keeps_blocks, blkoff_frame, offset_frame. Qed.

Lemma header_frame `{!KeepsHeader u} st : cp_header (u st) = cp_header st.
Proof. apply keeps_header. Qed.
End Frames.

Ltac frame :=
  repeat first
    [ rewrite blkoff_frame by apply _
    | rewrite offset_frame by apply _
    | rewrite is_in_first_frame by apply _
    | rewrite in_block_frame by apply _
    | rewrite mdt_cno_frame by apply _
    | rewrite slot_frame by apply _
    | rewrite bh_checkpoint_frame by apply _
    | rewrite block_present_frame by apply _
    | rewrite entry_frame by apply _
    | rewrite header_frame by apply _ ].


(** ** Reading after an in-place write *)

Lemma bh_checkpoint_slot st b off :
  bh_checkpoint st b off = default zero_checkpoint (slot st b (Z.to_nat off)).
Proof. reflexivity. Qed.

Lemma entry_slot st cno :
  entry st cno
  = slot st (nilfs_cpfile_get_blkoff st cno)
         (Z.to_nat (nilfs_cpfile_get_offset st cno)).
Proof. reflexivity. Qed.

Lemma slot_bh_update f b off st b' i :
  slot (bh_update f b off st) b' i
  = if decide (b = b' ∧ Z.to_nat off = i) then f <$> slot st b' i
    else slot st b' i.
Proof.
  unfold slot, bh_update. cbn. rewrite lookup_alter.
  destruct (decide (b = b')) as [<- | Hb].
  - destruct (cp_blocks st !! b) as [blk|]; cbn.
    + rewrite list_lookup_alter.
      destruct (decide (Z.to_nat off = i)) as [<- | Hi].
      * by rewrite decide_True by (by split).
      * by rewrite decide_False by (by intros [_ ?]).
    + by destruct (decide _).
  - by rewrite decide_False by (by intros [? _]).
Qed.

Lemma slot_bh_update_same f b off st :
  slot (bh_update f b off st) b (Z.to_nat off) = f <$> slot st b (Z.to_nat off).
Proof. rewrite slot_bh_update. by rewrite decide_True by (by split). Qed.

Lemma block_present_bh_update f bh off st b :
  block_present (bh_update f bh off st) b = block_present st b.
Proof.
  unfold block_present, bh_update. cbn.
  apply bool_decide_ext. rewrite lookup_alter.
  destruct (decide (bh = b)) as [<- | Hb]; [| done].
  rewrite <- !not_eq_None_Some. by rewrite fmap_None.
Qed.

Lemma invalid_default_slot o :
  nilfs_checkpoint_invalid (default zero_checkpoint o) = true → is_Some o.
Proof. destruct o; [by eexists | done]. Qed.

(** Reading flags after a write that leaves the flags word alone. *)
Lemma bh_checkpoint_update_flags f b off st b' off' :
  (∀ cp, cp_flags (f cp) = cp_flags cp) →
  cp_flags (bh_checkpoint (bh_update f b off st) b' off')
  = cp_flags (bh_checkpoint st b' off').
Proof.
  intros Hf. rewrite !bh_checkpoint_slot, slot_bh_update.
  destruct (decide _); [| done].
  destruct (slot st b' _); cbn; [apply Hf | done].
Qed.

Lemma get_checkpoint_block_create st cno :
  ∃ st1, nilfs_cpfile_get_checkpoint_block st cno true = (0, st1) ∧
    block_present st1 (nilfs_cpfile_get_blkoff st cno) = true ∧
    (block_present st 0 = true → block_present st1 0 = true) ∧
    mi_entries_per_block st1 = mi_entries_per_block st ∧
    mi_first_entry_offset st1 = mi_first_entry_offset st.
Proof.
  unfold nilfs_cpfile_get_checkpoint_block, nilfs_mdt_get_block.
  destruct (cp_blocks st !! _) as [blk|] eqn:Hb.
  - exists st. split; [done |]. split; [| done].
    apply block_present_true. by eexists.
  - eexists. split; [done |].
    destruct (nilfs_cpfile_get_blkoff st cno =? 0); repeat split; cbn.
    all: try (apply block_present_true; cbn; rewrite lookup_insert_eq;
              by eexists).
    all: intros H0; apply block_present_true;
      apply block_present_true in H0;
      cbn; rewrite lookup_insert; destruct (decide _); [by eexists | done].
Qed.

Lemma get_checkpoint_block_create_present st cno :
  block_present st (nilfs_cpfile_get_blkoff st cno) = true →
  nilfs_cpfile_get_checkpoint_block st cno true = (0, st).
Proof.
  intros H. apply block_present_true in H as [blk Hblk].
  unfold nilfs_cpfile_get_checkpoint_block, nilfs_mdt_get_block.
  by rewrite Hblk.
Qed.

Lemma mark_buffer_dirty_twice bh st :
  mark_buffer_dirty bh (mark_buffer_dirty bh st) = mark_buffer_dirty bh st.
Proof.
  unfold mark_buffer_dirty. cbn. f_equal.
  by rewrite (assoc_L (∪)), (idemp_L (∪)).
Qed.

Lemma mark_buffer_dirty_comm bh bh' st :
  mark_buffer_dirty bh (mark_buffer_dirty bh' st)
  = mark_buffer_dirty bh' (mark_buffer_dirty bh st).
Proof.
  unfold mark_buffer_dirty. cbn. f_equal.
  by rewrite !(assoc_L (∪)), (comm_L (∪) {[bh]}).
Qed.

Lemma dirty_marks_twice bh st :
  nilfs_mdt_mark_dirty
    (mark_buffer_dirty bh (nilfs_mdt_mark_dirty (mark_buffer_dirty bh st)))
  = nilfs_mdt_mark_dirty (mark_buffer_dirty bh st).
Proof.
  unfold nilfs_mdt_mark_dirty, mark_buffer_dirty. cbn. f_equal.
  by rewrite (assoc_L (∪)), (idemp_L (∪)).
Qed.

(** ** Layout arithmetic *)

Lemma wrap64_u64 x : is_u64 x → wrap64 x = x.
Proof. unfold is_u64, U64_MAX, wrap64. intros. apply Z.mod_small. lia. Qed.

Lemma blkoff_u64 st c :
  geometry_ok st → is_u64 c →
  nilfs_cpfile_get_blkoff st c = c / mi_entries_per_block st.
Proof.
  intros [_ HF] Hc. unfold nilfs_cpfile_get_blkoff,
    nilfs_cpfile_checkpoints_per_block. rewrite HF.
  replace (c + 1 - 1) with c by lia. by rewrite wrap64_u64.
Qed.

Lemma offset_u64 st c :
  geometry_ok st → is_u64 c →
  nilfs_cpfile_get_offset st c = c mod mi_entries_per_block st.
Proof.
  intros [_ HF] Hc. unfold nilfs_cpfile_get_offset,
    nilfs_cpfile_checkpoints_per_block. rewrite HF.
  replace (c + 1 - 1) with c by lia. by rewrite wrap64_u64.
Qed.

Lemma offset_range st c :
  geometry_ok st → is_u64 c →
  0 ≤ nilfs_cpfile_get_offset st c < mi_entries_per_block st.
Proof.
  intros Hg Hc. rewrite offset_u64 by done. destruct Hg as [HE _].
  apply Z.mod_pos_bound. lia.
Qed.

Lemma blkoff_nonneg st c :
  geometry_ok st → is_u64 c → 0 ≤ nilfs_cpfile_get_blkoff st c.
Proof.
  intros Hg Hc. rewrite blkoff_u64 by done. destruct Hg as [HE _].
  destruct Hc. apply Z.div_pos; lia.
Qed.

Lemma cno_blkoff_offset st c :
  geometry_ok st → is_u64 c →
  c = mi_entries_per_block st * nilfs_cpfile_get_blkoff st c
      + nilfs_cpfile_get_offset st c.
Proof.
  intros Hg Hc. rewrite blkoff_u64, offset_u64 by done.
  destruct Hg as [HE _]. apply Z.div_mod. lia.
Qed.

(** Two cnos that share block and slot are equal. *)
Lemma slot_addr_inj st c c' :
  geometry_ok st → is_u64 c → is_u64 c' →
  nilfs_cpfile_get_blkoff st c = nilfs_cpfile_get_blkoff st c' →
  Z.to_nat (nilfs_cpfile_get_offset st c)
  = Z.to_nat (nilfs_cpfile_get_offset st c') →
  c = c'.
Proof.
  intros Hg Hc Hc' Hb Ho.
  pose proof (offset_range st c Hg Hc).
  pose proof (offset_range st c' Hg Hc').
  rewrite (cno_blkoff_offset st c Hg Hc), (cno_blkoff_offset st c' Hg Hc').
  rewrite Hb. f_equal. lia.
Qed.

(** ** Entries after an in-place write *)

Lemma entry_bh_update g c st c' :
  geometry_ok st → is_u64 c → is_u64 c' →
  entry (bh_update g (nilfs_cpfile_get_blkoff st c)
                   (nilfs_cpfile_get_offset st c) st) c'
  = if decide (c = c') then g <$> entry st c' else entry st c'.
Proof.
  intros Hg Hc Hc'. rewrite !entry_slot. frame. rewrite slot_bh_update.
  destruct (decide (c = c')) as [<- | Hne].
  - by rewrite decide_True by (by split).
  - rewrite decide_False; [done |].
    intros [Hb Ho]. apply Hne. by eapply slot_addr_inj.
Qed.

Lemma entry_list_update f c st c' :
  geometry_ok st → is_u64 c → is_u64 c' →
  entry (list_update f (list_loc_of st c) st) c'
  = if decide (c = c' ∧ c ≠ 0)
    then (λ cp, set_cp_snapshot_list (f (cp_snapshot_list cp)) cp) <$> entry st c'
    else entry st c'.
Proof.
  intros Hg Hc Hc'. unfold list_loc_of.
  destruct (c =? 0) eqn:H0; cbn [list_update].
  - frame. rewrite decide_False; [done | lia].
  - rewrite entry_bh_update by done.
    destruct (decide (c = c')) as [<- | Hne].
    + by rewrite decide_True by (split; [done | lia]).
    + by rewrite decide_False by (by intros [? _]).
Qed.

Lemma header_list_update f c st :
  cp_header (list_update f (list_loc_of st c) st)
  = if decide (c = 0)
    then set_ch_snapshot_list (f (ch_snapshot_list (cp_header st))) (cp_header st)
    else cp_header st.
Proof.
  unfold list_loc_of. destruct (c =? 0) eqn:H0; cbn [list_update].
  - by rewrite decide_True by lia.
  - rewrite decide_False by lia. by frame.
Qed.

#[global] Instance list_update_layout f loc : KeepsLayout (list_update f loc).
Proof. destruct loc; apply _. Qed.

Lemma block_present_list_update f loc st b :
  block_present (list_update f loc st) b = block_present st b.
Proof.
  destruct loc; cbn [list_update]; [by frame |].
  apply block_present_bh_update.
Qed.

Lemma list_read_node st c n :
  node st c = Some n → list_read st (list_loc_of st c) = n.
Proof.
  unfold node, list_loc_of. destruct (c =? 0); cbn [list_read].
  - by intros [= <-].
  - destruct (entry st c) as [cp|] eqn:Hcp; [| done]. intros [= <-].
    by rewrite (bh_checkpoint_entry _ _ _ Hcp).
Qed.

(** ** Moving inside a block *)

Lemma blkoff_offset_add st c i :
  geometry_ok st → is_u64 c → is_u64 (c + i) → 0 ≤ i →
  nilfs_cpfile_get_offset st c + i < mi_entries_per_block st →
  nilfs_cpfile_get_blkoff st (c + i) = nilfs_cpfile_get_blkoff st c ∧
  nilfs_cpfile_get_offset st (c + i) = nilfs_cpfile_get_offset st c + i.
Proof.
  intros Hg Hc Hci Hi Hlt.
  pose proof (offset_range st c Hg Hc) as Ho.
  pose proof (cno_blkoff_offset st c Hg Hc) as Hdm.
  rewrite (blkoff_u64 st (c + i)), (offset_u64 st (c + i)) by done.
  destruct Hg as [HE _].
  set (E := mi_entries_per_block st) in *.
  set (b := nilfs_cpfile_get_blkoff st c) in *.
  set (o := nilfs_cpfile_get_offset st c) in *.
  assert (c + i = b * E + (o + i)) as -> by lia.
  split.
  - rewrite Z.div_add_l by lia. rewrite Z.div_small by lia. lia.
  - rewrite Z.add_comm, Z.mod_add by lia. apply Z.mod_small. lia.
Qed.

Lemma blkoff_mono st a b :
  geometry_ok st → is_u64 a → is_u64 b → a ≤ b →
  nilfs_cpfile_get_blkoff st a ≤ nilfs_cpfile_get_blkoff st b.
Proof.
  intros Hg Ha Hb Hab. rewrite !blkoff_u64 by done.
  destruct Hg as [HE _]. apply Z.div_le_mono; lia.
Qed.

(** The first cno of block [b]. *)
Lemma first_checkpoint_in_block_u64 st b :
  geometry_ok st → is_u64 (mi_entries_per_block st * b) →
  nilfs_cpfile_first_checkpoint_in_block st b = mi_entries_per_block st * b.
Proof.
  intros [_ HF] Hu. unfold nilfs_cpfile_first_checkpoint_in_block,
    nilfs_cpfile_checkpoints_per_block. rewrite HF.
  replace (mi_entries_per_block st * b + 1 - 1)
    with (mi_entries_per_block st * b) by lia.
  by apply wrap64_u64.
Qed.

Lemma blkoff_offset_block_start st b :
  geometry_ok st → is_u64 (mi_entries_per_block st * b) →
  nilfs_cpfile_get_blkoff st (mi_entries_per_block st * b) = b ∧
  nilfs_cpfile_get_offset st (mi_entries_per_block st * b) = 0.
Proof.
  intros Hg Hu. rewrite blkoff_u64, offset_u64 by done.
  destruct Hg as [HE _]. split.
  - rewrite Z.mul_comm. apply Z.div_mul. lia.
  - rewrite Z.mul_comm. apply Z.mod_mul. lia.
Qed.

(** Bounds of the block that holds [c]. *)
Lemma block_bounds st c :
  geometry_ok st → is_u64 c →
  mi_entries_per_block st * nilfs_cpfile_get_blkoff st c ≤ c
  < mi_entries_per_block st * (nilfs_cpfile_get_blkoff st c + 1).
Proof.
  intros Hg Hc. pose proof (offset_range st c Hg Hc).
  pose proof (cno_blkoff_offset st c Hg Hc). lia.
Qed.

(** ** Paths along a link *)

Section Paths.
Context (g : Z → option Z).

Lemma path_app a l1 c l2 b :
  path g a (l1 ++ c :: l2) b ↔ path g a l1 c ∧ path g c l2 b.
Proof.
  revert a. induction l1 as [| x l1 IH]; intros a; cbn.
  - done.
  - rewrite IH. tauto.
Qed.

Lemma path_snoc a l c b :
  path g a (l ++ [c]) b ↔ path g a l c ∧ g c = Some b.
Proof. apply path_app. Qed.

Lemma path_ext g' a l b :
  (∀ x, x ∈ a :: l → g' x = g x) → path g a l b → path g' a l b.
Proof.
  revert a. induction l as [| c l IH]; intros a Hx; cbn.
  - intros <-. apply Hx. apply list_elem_of_here.
  - intros [Ha Hp]. split.
    + rewrite <- Ha. apply Hx. apply list_elem_of_here.
    + apply IH; [| done]. intros x Hin. apply Hx.
      by apply list_elem_of_further.
Qed.

(** Redirecting the last node of a path. *)
Lemma path_retarget g' a l b b' :
  NoDup (a :: l) →
  (∀ x, x ∈ a :: l → x ≠ default a (last l) → g' x = g x) →
  g' (default a (last l)) = Some b' →
  path g a l b → path g' a l b'.
Proof.
  revert a. induction l as [| c l IH]; intros a Hnd Hx Hz; cbn.
  - done.
  - intros [Ha Hp].
    assert (default a (last (c :: l)) = default c (last l)) as Hlast.
    { destruct l as [| d l']; [done |]. rewrite last_cons_cons.
      by destruct (last (d :: l')) eqn:Hl;
        [| apply last_None in Hl]. }
    rewrite Hlast in *.
    apply NoDup_cons in Hnd as [Hnotin Hnd]. split.
    + rewrite <- Ha. apply Hx; [apply list_elem_of_here |].
      intros ->. apply Hnotin.
      destruct (last l) as [z|] eqn:Hl; cbn; [| apply list_elem_of_here].
      apply last_Some in Hl as [l' ->].
      apply list_elem_of_further, elem_of_app. right. apply list_elem_of_here.
    + apply IH; try done. intros x Hin Hne.
      apply Hx; [by apply list_elem_of_further | done].
Qed.

Lemma walk_path n a l : walk n g a = Some l → path g a l 0 ∧ 0 ∉ l.
Proof.
  revert a l. induction n as [| n IH]; intros a l; cbn.
  - destruct (g a) as [c|] eqn:Hga; [| done].
    destruct (c =? 0) eqn:Hc; [| done].
    intros [= <-]. cbn. split; [rewrite Hga; f_equal; lia |].
    apply not_elem_of_nil.
  - destruct (g a) as [c|] eqn:Hga; [| done].
    destruct (c =? 0) eqn:Hc.
    + intros [= <-]. cbn. split; [rewrite Hga; f_equal; lia |].
      apply not_elem_of_nil.
    + destruct (walk n g c) as [l'|] eqn:Hw; [| done]. cbn.
      intros [= <-]. destruct (IH _ _ Hw) as [Hp Hn]. cbn.
      split; [done |]. apply not_elem_of_cons. split; [lia | done].
Qed.

Lemma path_walk n a l :
  path g a l 0 → 0 ∉ l → (length l ≤ n)%nat → walk n g a = Some l.
Proof.
  revert n a. induction l as [| c l IH]; intros n a; cbn.
  - intros Ha _ _. destruct n; cbn; by rewrite Ha.
  - intros [Ha Hp] Hn Hlen. apply not_elem_of_cons in Hn as [Hc Hn].
    destruct n as [| n]; [lia |]. cbn. rewrite Ha.
    assert ((c =? 0) = false) as -> by lia.
    rewrite (IH n c) by (done || lia). done.
Qed.

End Paths.

Lemma increasing_app_cons l1 c l2 :
  increasing l1 → increasing l2 →
  Forall (λ x, x < c) l1 → Forall (λ x, c < x) l2 →
  increasing (l1 ++ c :: l2).
Proof.
  unfold increasing. intros H1 H2 Hlt Hgt.
  induction l1 as [| x l1 IH].
  - cbn. constructor; [done |]. done.
  - cbn. apply StronglySorted_inv in H1 as [H1 Hx].
    apply Forall_cons in Hlt as [Hxc Hlt].
    constructor; [by apply IH |].
    apply Forall_app. split; [done |].
    constructor; [done |].
    eapply Forall_impl; [exact Hgt |]. cbn. lia.
Qed.

Lemma increasing_app l1 l2 :
  increasing (l1 ++ l2) →
  increasing l1 ∧ increasing l2 ∧
  ∀ x y, x ∈ l1 → y ∈ l2 → x < y.
Proof.
  unfold increasing. induction l1 as [| x l1 IH]; cbn.
  - intros H. split; [constructor |]. split; [done |].
    intros x y Hx. by apply elem_of_nil in Hx.
  - intros H. apply StronglySorted_inv in H as [H Hx].
    destruct (IH H) as (H1 & H2 & H12).
    apply Forall_app in Hx as [Hx1 Hx2].
    split; [by constructor |]. split; [done |].
    intros a b [-> | Ha]%elem_of_cons Hb.
    + by eapply Forall_forall in Hx2.
    + by apply H12.
Qed.

Lemma increasing_NoDup l : increasing l → NoDup l.
Proof.
  unfold increasing. induction 1 as [| x l Hs IH Hx]; constructor; [| done].
  intros Hin. eapply Forall_forall in Hx; [| exact Hin]. lia.
Qed.
(** ** create_checkpoint with cno = 0 *)

(** The embedding with the semaphore and buffer calls computes the same
    result and state as the plain one. *)
Lemma create_checkpoint_traced_result (st : cpfile) (cno : Z) :
  snd (nilfs_cpfile_create_checkpoint_traced st cno)
  = nilfs_cpfile_create_checkpoint st cno.
Proof.
  unfold nilfs_cpfile_create_checkpoint_traced,
    nilfs_cpfile_create_checkpoint.
  destruct (cno <? 1); [reflexivity|].
  destruct (nilfs_cpfile_get_header_block st) as [ret st1].
  destruct (ret <? 0); [reflexivity|].
  destruct (nilfs_cpfile_get_checkpoint_block st1 cno true) as [ret' st2].
  destruct (ret' <? 0); reflexivity.
Qed.

(** Every call with cno ≥ 1 takes mi_sem first, asks for the header block
    next and releases mi_sem last, on the error paths too. *)
Lemma create_checkpoint_traced_locked (st : cpfile) (cno : Z) :
  1 ≤ cno →
  ∃ mid,
    fst (nilfs_cpfile_create_checkpoint_traced st cno)
    = DownWrite :: GetBlock 0 false :: mid ++ [UpWrite] ∧
    Forall (λ e, is_lock_event e = false) mid.
Proof.
  intros Hcno. unfold nilfs_cpfile_create_checkpoint_traced.
  rewrite (proj2 (Z.ltb_ge cno 1)) by lia.
  destruct (nilfs_cpfile_get_header_block st) as [ret st1].
  destruct (ret <? 0).
  { exists []. split; [reflexivity | constructor]. }
  destruct (nilfs_cpfile_get_checkpoint_block st1 cno true) as [ret' st2].
  destruct (ret' <? 0).
  - exists [GetBlock (nilfs_cpfile_get_blkoff st1 cno) true; Brelse 0].
    split; [reflexivity | repeat constructor].
  - exists [GetBlock (nilfs_cpfile_get_blkoff st1 cno) true;
            Brelse (nilfs_cpfile_get_blkoff st2 cno); Brelse 0].
    split; [reflexivity | repeat constructor].
Qed.

(** C9: create_checkpoint called with cno = 0 returns -EIO and hands back
    the cpfile exactly as it was: no block, header field, dirty mark or log
    entry changes, whatever the state.  On this path the function makes no
    call that takes or releases mi_sem and no call that gets or releases a
    block: the cno test comes before all of them. *)
Theorem create_checkpoint_cno_zero (st : cpfile) :
  nilfs_cpfile_create_checkpoint st 0 = (- EIO, st) ∧
  ∃ ev,
    nilfs_cpfile_create_checkpoint_traced st 0 = (ev, (- EIO, st)) ∧
    Forall (λ e, is_lock_event e = false ∧ is_block_event e = false) ev.
Proof.
  split; [reflexivity|].
  exists [WarnOnce]. split; [reflexivity|]. by repeat constructor.
Qed.

(** ** Snapshot enumeration on an empty list *)

(** C4 (as the code has it): get_cpinfo in SNAPSHOT mode with [*cno = 0] on
    a cpfile whose header sentinel has [ssl_next = 0] returns 0, an empty
    buffer and leaves [*cno] at 0; it is not an error. *)
Theorem get_ssinfo_empty_list (st : cpfile) (nci : Z) :
  block_present st 0 = true →
  ssl_next (ch_snapshot_list (cp_header st)) = 0 →
  nilfs_cpfile_get_cpinfo st 0 NILFS_SNAPSHOT nci = Some (0, 0, [], st).
Proof.
  intros Hhdr Hnext. cbn [nilfs_cpfile_get_cpinfo].
  unfold nilfs_cpfile_do_get_ssinfo. cbn [Z.eqb].
  rewrite (get_header_block_present _ Hhdr). cbn [Z.ltb Z.compare].
  by rewrite Hnext.
Qed.

Lemma get_ssinfo_empty_list_witness :
  nilfs_cpfile_get_cpinfo fresh_cpfile 0 NILFS_SNAPSHOT 8
  = Some (0, 0, [], fresh_cpfile).
Proof. apply get_ssinfo_empty_list; reflexivity. Defined.

(** On the freshly made cpfile the snapshot list is empty, and the call
    returns 0 where the claim expects -ENOENT. *)
Lemma get_ssinfo_empty_list_not_enoent :
  ssl_next (ch_snapshot_list (cp_header fresh_cpfile)) = 0 ∧
  ¬ (∃ cno buf st',
        nilfs_cpfile_get_cpinfo fresh_cpfile 0 NILFS_SNAPSHOT 8
        = Some (- ENOENT, cno, buf, st')).
Proof.
  split; [reflexivity |].
  intros (cno & buf & st' & H). vm_compute in H. discriminate H.
Qed.

(** ** finalize_checkpoint *)

(** C8: for cno ≥ 1, finalize_checkpoint returns -EIO and logs the
    metadata-corruption diagnostic when the block of cno is absent or the
    entry is INVALID; on a valid entry it returns 0, zeroes both list
    pointers, copies inodes_count and blocks_count from the root, stores
    nblk_inc, the creation time and cno, and leaves MINOR set exactly when
    the argument asks for it.  The root's counters and the creation time
    are signed 64-bit values; what is stored is the 64-bit word
    cpu_to_le64 makes of each, which is the value itself unless it is
    negative. *)
Theorem finalize_checkpoint_spec {inode : Type}
  (wic bw : inode → nilfs_inode → nilfs_inode)
  (st : cpfile) (cno : Z) (root : nilfs_root inode) (blkinc ctime : Z)
  (minor : bool) :
  1 ≤ cno →
  let r := nilfs_cpfile_finalize_checkpoint wic bw st cno root blkinc ctime
             minor in
  (cp_blocks st !! nilfs_cpfile_get_blkoff st cno = None →
   r = (- EIO, nilfs_error FinalizeCorruption st)) ∧
  (∀ cp, entry st cno = Some cp → nilfs_checkpoint_invalid cp = true →
   r = (- EIO, nilfs_error FinalizeCorruption st)) ∧
  (∀ cp, entry st cno = Some cp → nilfs_checkpoint_invalid cp = false →
   fst r = 0 ∧
   sb_log (snd r) = sb_log st ∧
   cp_header (snd r) = cp_header st ∧
   ∃ cp', entry (snd r) cno = Some cp' ∧
     cp_snapshot_list cp' = mk_ssl 0 0 ∧
     cp_inodes_count cp' = wrap64 (inodes_count root) ∧
     cp_blocks_count cp' = wrap64 (blocks_count root) ∧
     cp_nblk_inc cp' = blkinc ∧
     cp_create cp' = wrap64 ctime ∧
     cp_cno cp' = cno ∧
     nilfs_checkpoint_minor cp' = minor ∧
     nilfs_checkpoint_invalid cp' = false ∧
     nilfs_checkpoint_snapshot cp' = nilfs_checkpoint_snapshot cp ∧
     cp_checkpoints_count cp' = cp_checkpoints_count cp).
Proof.
  intros Hcno r. subst r. unfold nilfs_cpfile_finalize_checkpoint.
  assert ((cno <? 1) = false) as -> by lia.
  rewrite get_checkpoint_block_nocreate.
  split; [| split].
  - intros Habs. apply block_present_false in Habs. by rewrite Habs.
  - intros cp Hcp Hinv. rewrite (entry_block_present _ _ _ Hcp).
    cbn [Z.ltb Z.compare].
    by rewrite (bh_checkpoint_entry _ _ _ Hcp), Hinv.
  - intros cp Hcp Hinv. rewrite (entry_block_present _ _ _ Hcp).
    cbn [Z.ltb Z.compare].
    rewrite (bh_checkpoint_entry _ _ _ Hcp), Hinv. cbn [fst snd].
    split; [done |]. split; [done |]. split; [done |].
    exists (finalize_fill wic bw cno root blkinc ctime minor cp). split.
    + unfold entry in *. unfold bh_update. cbn.
      unfold nilfs_cpfile_get_blkoff, nilfs_cpfile_get_offset,
        nilfs_cpfile_checkpoints_per_block in *. cbn.
      rewrite lookup_alter_eq.
      destruct (cp_blocks st !! _) as [blk|]; [| done]. cbn in *.
      rewrite list_lookup_alter_eq. by rewrite Hcp.
    + unfold finalize_fill.
      destruct minor, (ifile root); cbn;
        repeat split; try reflexivity; try flag_bits.
Qed.

Lemma finalize_checkpoint_spec_witness :
  let st := snd (nilfs_cpfile_create_checkpoint fresh_cpfile 1) in
  let root := mk_root 3 40 (Some tt) in
  fst (nilfs_cpfile_finalize_checkpoint (λ _ raw, raw) (λ _ raw, raw)
         st 1 root 7 9 true) = 0.
Proof.
  intros st root.
  pose proof (finalize_checkpoint_spec (λ _ raw, raw) (λ _ raw, raw)
                st 1 root 7 9 true ltac:(lia)) as (_ & _ & H).
  destruct (H (nilfs_checkpoint_clear_invalid invalid_checkpoint)) as [Hr _].
  - vm_compute. reflexivity.
  - vm_compute. reflexivity.
  - exact Hr.
Defined.

(** ** read_checkpoint *)

(** C1 (as the code has it): read_checkpoint rejects cno = 0 and every cno
    above the MDT counter with -EINVAL, and likewise a cno whose block is a
    hole or whose entry is INVALID; in each case the root object and the
    cpfile are handed back untouched.  A cno equal to the counter passes
    the range test. *)
Theorem read_checkpoint_einval {inode : Type}
  (ric : inode → nilfs_inode → Z * inode)
  (st : cpfile) (cno : Z) (root : nilfs_root inode) (ifile_ : inode) :
  cno = 0 ∨ nilfs_mdt_cno st < cno ∨
  cp_blocks st !! nilfs_cpfile_get_blkoff st cno = None ∨
  (∃ cp, entry st cno = Some cp ∧ nilfs_checkpoint_invalid cp = true) →
  nilfs_cpfile_read_checkpoint ric st cno root ifile_ = (- EINVAL, root, st).
Proof.
  unfold nilfs_cpfile_read_checkpoint.
  destruct (cno <? 1) eqn:H1; [done |].
  destruct (nilfs_mdt_cno st <? cno) eqn:H2; [done |]. cbn [orb].
  rewrite get_checkpoint_block_nocreate.
  intros [-> | [Hgt | [Habs | (cp & Hcp & Hinv)]]]; [done | lia | |].
  - apply block_present_false in Habs. by rewrite Habs.
  - rewrite (entry_block_present _ _ _ Hcp). cbn [Z.ltb Z.compare].
    by rewrite (bh_checkpoint_entry _ _ _ Hcp), Hinv.
Qed.

Lemma read_checkpoint_einval_witness :
  nilfs_cpfile_read_checkpoint (λ (i : unit) _, (0, i)) fresh_cpfile 2
    (mk_root 0 0 None) tt
  = (- EINVAL, mk_root 0 0 None, fresh_cpfile).
Proof.
  apply read_checkpoint_einval. right. left. vm_compute. reflexivity.
Defined.

(** The entry created at the current MDT counter (cno = next_cno = 1) is
    read successfully and the root object is rewritten, although
    cno ≥ next_cno. *)
Lemma read_checkpoint_at_counter_succeeds :
  let st := snd (nilfs_cpfile_create_checkpoint fresh_cpfile 1) in
  let root := mk_root 11 22 None in
  ¬ (nilfs_mdt_cno st ≤ 1 →
     nilfs_cpfile_read_checkpoint (λ (i : unit) _, (0, i)) st 1 root tt
     = (- EINVAL, root, st)).
Proof.
  intros st root H.
  assert (nilfs_mdt_cno st ≤ 1) as Hle by (apply Z.leb_le; reflexivity).
  specialize (H Hle). apply (f_equal (λ r, Z.eqb (fst (fst r)) 0)) in H.
  vm_compute in H. congruence.
Qed.


(** ** create_checkpoint twice *)

(** The state a successful create_checkpoint leaves behind: the entry is
    valid, its block and the header block exist, and the block and the
    inode already carry their dirty marks. *)
Lemma create_checkpoint_post (st : cpfile) (cno : Z) :
  1 ≤ cno →
  block_present st 0 = true →
  ∃ stf, nilfs_cpfile_create_checkpoint st cno = (0, stf) ∧
    block_present stf 0 = true ∧
    block_present stf (nilfs_cpfile_get_blkoff stf cno) = true ∧
    nilfs_checkpoint_invalid
      (bh_checkpoint stf (nilfs_cpfile_get_blkoff stf cno)
                     (nilfs_cpfile_get_offset stf cno)) = false ∧
    nilfs_mdt_mark_dirty
      (mark_buffer_dirty (nilfs_cpfile_get_blkoff stf cno) stf) = stf.
Proof.
  intros Hcno Hhdr. unfold nilfs_cpfile_create_checkpoint.
  assert ((cno <? 1) = false) as -> by lia.
  rewrite (get_header_block_present _ Hhdr). cbn [Z.ltb Z.compare].
  destruct (get_checkpoint_block_create st cno)
    as (st1 & -> & Hb1 & H01 & HE & HF).
  specialize (H01 Hhdr). cbn [Z.ltb Z.compare].
  assert (nilfs_cpfile_get_blkoff st1 cno = nilfs_cpfile_get_blkoff st cno)
    as Hblk by (unfold nilfs_cpfile_get_blkoff,
                  nilfs_cpfile_checkpoints_per_block; by rewrite HE, HF).
  rewrite <- Hblk in Hb1. clear Hblk HE HF Hhdr st.
  set (bh := nilfs_cpfile_get_blkoff st1 cno) in *.
  set (off := nilfs_cpfile_get_offset st1 cno) in *.
  eexists. split; [reflexivity |].
  destruct (nilfs_checkpoint_invalid (bh_checkpoint st1 bh off)) eqn:Hinv.
  - frame.
    assert (∀ st', cp_flags (bh_checkpoint st' bh off)
                   = cp_flags (bh_checkpoint
                                 (bh_update nilfs_checkpoint_clear_invalid
                                            bh off st1) bh off) →
                   nilfs_checkpoint_invalid (bh_checkpoint st' bh off) = false)
      as Hvalid.
    { intros st' Hfl. unfold nilfs_checkpoint_invalid. rewrite Hfl.
      apply invalid_default_slot in Hinv as [cp Hcp].
      change (slot st1 bh (Z.to_nat off) = Some cp) in Hcp.
      rewrite bh_checkpoint_slot, slot_bh_update_same, Hcp. cbn [fmap option_fmap option_map default from_option id].
      apply invalid_clear_invalid. }
    destruct (negb (nilfs_cpfile_is_in_first st1 cno)).
    + unfold nilfs_cpfile_block_add_valid_checkpoints. cbn [snd]. frame.
      rewrite !block_present_bh_update. fold bh off.
      split; [done |]. split; [done |]. split.
      * apply Hvalid. by apply bh_checkpoint_update_flags.
      * apply dirty_marks_twice.
    + frame. rewrite !block_present_bh_update. fold bh off.
      split; [done |]. split; [done |]. split.
      * by apply Hvalid.
      * apply dirty_marks_twice.
  - frame. fold bh off. split; [done |]. split; [done |]. split; [done |].
    apply dirty_marks_twice.
Qed.

(** C6: for cno ≥ 1 on a cpfile whose header block exists, the first
    create_checkpoint(cno) returns 0, and a second call on the resulting
    state returns 0 and yields that very state again: entries, census,
    header counters, dirty marks and log are all as the first call left
    them. *)
Theorem create_checkpoint_idempotent (st : cpfile) (cno : Z) :
  1 ≤ cno →
  block_present st 0 = true →
  let r1 := nilfs_cpfile_create_checkpoint st cno in
  fst r1 = 0 ∧ nilfs_cpfile_create_checkpoint (snd r1) cno = (0, snd r1).
Proof.
  intros Hcno Hhdr r1. subst r1.
  destruct (create_checkpoint_post st cno Hcno Hhdr)
    as (stf & -> & Hf0 & Hfb & Hfv & Hfd).
  split; [reflexivity |]. cbn [snd].
  unfold nilfs_cpfile_create_checkpoint.
  assert ((cno <? 1) = false) as -> by lia.
  rewrite (get_header_block_present _ Hf0). cbn [Z.ltb Z.compare].
  rewrite (get_checkpoint_block_create_present _ _ Hfb).
  cbn [Z.ltb Z.compare]. by rewrite Hfv, Hfd.
Qed.

Lemma create_checkpoint_idempotent_witness :
  let r1 := nilfs_cpfile_create_checkpoint fresh_cpfile 5 in
  fst r1 = 0 ∧ nilfs_cpfile_create_checkpoint (snd r1) 5 = (0, snd r1).
Proof. apply create_checkpoint_idempotent; [lia | reflexivity]. Defined.

(** ** The backward walk of set_snapshot *)

Lemma path_head g a l b : path g a l b → g a = Some (default b (head l)).
Proof. destruct l; cbn; [done | by intros [? _]]. Qed.

Lemma last_cons_default {A} (a c : A) l :
  default a (last (c :: l)) = default c (last l).
Proof.
  destruct l as [| d l']; [done |]. rewrite last_cons_cons.
  destruct (last (d :: l')) eqn:Hl; [done |]. by apply last_None in Hl.
Qed.

Lemma prev_of_list_read st c v :
  prev_of st c = Some v → ssl_prev (list_read st (list_loc_of st c)) = v.
Proof.
  unfold prev_of. destruct (node st c) as [n|] eqn:Hn; [| done].
  intros [= <-]. by rewrite (list_read_node _ _ _ Hn).
Qed.

Lemma next_of_list_read st c v :
  next_of st c = Some v → ssl_next (list_read st (list_loc_of st c)) = v.
Proof.
  unfold next_of. destruct (node st c) as [n|] eqn:Hn; [| done].
  intros [= <-]. by rewrite (list_read_node _ _ _ Hn).
Qed.

Lemma set_snapshot_walk_spec st cno :
  0 < cno →
  ∀ r curr fuel cblk,
    path (prev_of st) curr r 0 →
    StronglySorted (λ x y, y < x) r →
    Forall (λ c, 0 < c ∧ is_Some (entry st c)) r →
    (length r ≤ fuel)%nat →
    ∃ r1 r2, r = r1 ++ r2 ∧
      Forall (λ x, cno < x) r1 ∧ Forall (λ x, x ≤ cno) r2 ∧
      set_snapshot_walk fuel st cno curr cblk (list_loc_of st curr)
                        (default 0 (head r))
      = Some (inr (default curr (last r1),
                   list_loc_of st (default curr (last r1)),
                   default 0 (head r2))).
Proof.
  intros Hcno r. induction r as [| p r IH]; intros curr fuel cblk Hp Hs Hall Hfuel.
  - exists [], []. repeat split; try done.
    cbn [head default from_option id]. destruct fuel; cbn [set_snapshot_walk];
      by assert ((cno <? 0) = false) as -> by lia.
  - cbn [head default from_option id]. destruct Hp as [Hcurr Hp].
    apply StronglySorted_inv in Hs as [Hs Hlt].
    apply Forall_cons in Hall as [[Hp0 [cp Hcp]] Hall].
    destruct (decide (cno < p)) as [Hgt | Hle].
    + destruct fuel as [| fuel]; [cbn in Hfuel; lia |].
      destruct (IH p fuel (nilfs_cpfile_get_blkoff st p) Hp Hs Hall)
        as (r1 & r2 & -> & H1 & H2 & Hw); [cbn in Hfuel; lia |].
      exists (p :: r1), r2. rewrite last_cons_default.
      split; [done |]. split; [by constructor |]. split; [done |].
      cbn [set_snapshot_walk].
      assert ((cno <? p) = true) as -> by lia.
      rewrite get_checkpoint_block_nocreate, (entry_block_present _ _ _ Hcp).
      cbn [fst].
      assert ((if negb (cblk =? nilfs_cpfile_get_blkoff st p) then 0 else 0)
              = 0) as -> by (by destruct (negb _)).
      cbn [Z.ltb Z.compare].
      assert (in_checkpoint (nilfs_cpfile_get_blkoff st p)
                            (nilfs_cpfile_get_offset st p)
              = list_loc_of st p) as ->.
      { unfold list_loc_of. by assert ((p =? 0) = false) as -> by lia. }
      by rewrite (prev_of_list_read _ _ _ (path_head _ _ _ _ Hp)).
    + exists [], (p :: r). repeat split; try done.
      * constructor; [lia |]. eapply Forall_impl; [exact Hlt |]. cbn. lia.
      * cbn [last head default from_option id]. destruct fuel; cbn [set_snapshot_walk];
          by assert ((cno <? p) = false) as -> by lia.
Qed.

(** ** Lists and their reversal *)

Lemma snapshot_list_paths st l :
  snapshot_list st l →
  path (next_of st) 0 l 0 ∧ path (prev_of st) 0 (reverse l) 0 ∧ 0 ∉ l.
Proof.
  intros (Hn & Hp & _ & _).
  apply walk_path in Hn as [Hn H0]. apply walk_path in Hp as [Hp _]. done.
Qed.

Lemma decreasing_reverse l :
  increasing l → StronglySorted (λ x y, y < x) (reverse l).
Proof.
  unfold increasing. induction 1 as [| x l Hs IH Hx].
  - constructor.
  - rewrite reverse_cons.
    assert (∀ r, StronglySorted (λ x y, y < x) r → Forall (λ y, x < y) r →
                 StronglySorted (λ x y, y < x) (r ++ [x])) as Hsnoc.
    { clear. intros r. induction 1 as [| y r Hs IH Hy]; intros Hall.
      - repeat constructor.
      - apply Forall_cons in Hall as [Hxy Hall]. cbn.
        constructor; [by apply IH |].
        apply Forall_app. split; [done |]. by repeat constructor. }
    apply Hsnoc; [done |]. by apply Forall_reverse.
Qed.


(** ** The state after the writes of set_snapshot *)

Lemma geometry_ok_frame u `{!KeepsLayout u} st :
  geometry_ok (u st) ↔ geometry_ok st.
Proof.
  unfold geometry_ok. destruct (keeps_layout (u:=u) st) as (-> & -> & _). done.
Qed.

Lemma entry_set_snapshot_links st cno curr prev c :
  geometry_ok st → is_u64 cno → is_u64 curr → is_u64 prev → is_u64 c →
  entry (set_snapshot_links st cno curr prev) c
  = (if decide (prev = c ∧ prev ≠ 0)
     then fmap (on_list (set_ssl_next cno)) else id)
      ((if decide (cno = c) then fmap (link_as_snapshot curr prev) else id)
         ((if decide (curr = c ∧ curr ≠ 0)
           then fmap (on_list (set_ssl_prev cno)) else id) (entry st c))).
Proof.
  intros Hg Hcno Hcurr Hprev Hc. unfold set_snapshot_links. cbn zeta.
  rewrite entry_frame by apply _.
  rewrite entry_list_update; [| by rewrite !geometry_ok_frame by apply _ | done..].
  rewrite entry_bh_update; [| by rewrite !geometry_ok_frame by apply _ | done..].
  rewrite entry_list_update by done.
  by repeat destruct (decide _).
Qed.

Lemma header_set_snapshot_links st cno curr prev :
  cp_header (set_snapshot_links st cno curr prev)
  = mk_hdr (ch_ncheckpoints (cp_header st))
           (le64_add_cpu (ch_nsnapshots (cp_header st)) 1)
           (mk_ssl
              (if decide (prev = 0) then cno
               else ssl_next (ch_snapshot_list (cp_header st)))
              (if decide (curr = 0) then cno
               else ssl_prev (ch_snapshot_list (cp_header st)))).
Proof.
  unfold set_snapshot_links. cbn zeta. unfold header_update at 1.
  cbn [cp_header with_header]. rewrite header_list_update.
  rewrite header_frame by apply _. rewrite header_list_update.
  destruct (cp_header st) as [nc ns [nx pv]].
  by repeat destruct (decide _).
Qed.

Lemma next_of_set_snapshot_links st cno curr prev c :
  geometry_ok st → is_u64 cno → is_u64 curr → is_u64 prev → is_u64 c →
  cno ≠ 0 → prev ≠ cno → curr ≠ cno →
  next_of (set_snapshot_links st cno curr prev) c
  = if decide (c = prev) then (λ _, cno) <$> next_of st c
    else if decide (c = cno) then (λ _, curr) <$> next_of st c
    else next_of st c.
Proof.
  intros Hg Hcno Hcurr Hprev Hc Hne0 Hnep Hnec. unfold next_of, node.
  destruct (c =? 0) eqn:Hc0.
  - apply Z.eqb_eq in Hc0 as ->. rewrite header_set_snapshot_links. cbn.
    f_equal. by repeat destruct (decide _).
  - apply Z.eqb_neq in Hc0. rewrite entry_set_snapshot_links by done.
    destruct (entry st c) as [e|]; repeat destruct (decide _);
      cbn; try done; try (f_equal; congruence); exfalso; lia.
Qed.

Lemma prev_of_set_snapshot_links st cno curr prev c :
  geometry_ok st → is_u64 cno → is_u64 curr → is_u64 prev → is_u64 c →
  cno ≠ 0 → prev ≠ cno → curr ≠ cno →
  prev_of (set_snapshot_links st cno curr prev) c
  = if decide (c = curr) then (λ _, cno) <$> prev_of st c
    else if decide (c = cno) then (λ _, prev) <$> prev_of st c
    else prev_of st c.
Proof.
  intros Hg Hcno Hcurr Hprev Hc Hne0 Hnep Hnec. unfold prev_of, node.
  destruct (c =? 0) eqn:Hc0.
  - apply Z.eqb_eq in Hc0 as ->. rewrite header_set_snapshot_links. cbn.
    f_equal. by repeat destruct (decide _).
  - apply Z.eqb_neq in Hc0. rewrite entry_set_snapshot_links by done.
    destruct (entry st c) as [e|]; repeat destruct (decide _);
      cbn; try done; try (f_equal; congruence); exfalso; lia.
Qed.

(** ** Walks do not look at dirty marks *)

Lemma walk_ext g g' n a : (∀ x, g x = g' x) → walk n g a = walk n g' a.
Proof.
  intros Hg. revert a. induction n as [| n IH]; intros a; cbn; rewrite Hg.
  - done.
  - destruct (g' a) as [c|]; [| done]. destruct (c =? 0); [done |].
    by rewrite IH.
Qed.

Lemma node_frame u `{!KeepsLayout u, !KeepsBlocks u, !KeepsHeader u} st c :
  node (u st) c = node st c.
Proof. unfold node. by rewrite entry_frame, header_frame by apply _. Qed.

Lemma snapshot_list_frame u
  `{!KeepsLayout u, !KeepsBlocks u, !KeepsHeader u} st l :
  snapshot_list st l → snapshot_list (u st) l.
Proof.
  intros (Hn & Hp & Hi & Hall). split; [| split; [| split]]; try done.
  - rewrite <- Hn. apply walk_ext. intros x. unfold next_of.
    by rewrite node_frame by apply _.
  - rewrite <- Hp. apply walk_ext. intros x. unfold prev_of.
    by rewrite node_frame by apply _.
  - eapply Forall_impl; [exact Hall |]. intros c (Hc & e & He & Hs).
    split; [done |]. exists e. by rewrite entry_frame by apply _.
Qed.

(** ** clear_snapshot *)

Lemma clearbit_setbit f n :
  0 ≤ n → Z.testbit f n = false → Z.clearbit (Z.setbit f n) n = f.
Proof.
  intros Hn Hf. apply Z.bits_inj'. intros m Hm.
  destruct (decide (n = m)) as [<- | Hne].
  - by rewrite Z.clearbit_eq.
  - rewrite Z.clearbit_neq by done. by rewrite Z.setbit_neq.
Qed.

(** clear_snapshot on a snapshot entry whose neighbours exist. *)
Lemma clear_snapshot_result st cno cp :
  cno ≠ 0 →
  block_present st 0 = true →
  entry st cno = Some cp →
  nilfs_checkpoint_invalid cp = false →
  nilfs_checkpoint_snapshot cp = true →
  let next := ssl_next (cp_snapshot_list cp) in
  let prev := ssl_prev (cp_snapshot_list cp) in
  (next ≠ 0 → block_present st (nilfs_cpfile_get_blkoff st next) = true) →
  (prev ≠ 0 → block_present st (nilfs_cpfile_get_blkoff st prev) = true) →
  nilfs_cpfile_clear_snapshot st cno
  = (0,
     nilfs_mdt_mark_dirty
       (mark_buffer_dirty 0
          (mark_buffer_dirty (nilfs_cpfile_get_blkoff st cno)
             (mark_buffer_dirty (bh_of_node st prev)
                (mark_buffer_dirty (bh_of_node st next)
                   (clear_snapshot_links st cno next prev)))))).
Proof.
  intros Hcno Hhdr Hcp Hv Hs next prev Hnext Hprev.
  unfold nilfs_cpfile_clear_snapshot.
  assert ((cno =? 0) = false) as -> by lia.
  rewrite (get_header_block_present _ Hhdr). cbn [Z.ltb Z.compare].
  rewrite get_checkpoint_block_nocreate, (entry_block_present _ _ _ Hcp).
  cbn [Z.ltb Z.compare].
  rewrite (bh_checkpoint_entry _ _ _ Hcp), Hv, Hs. cbn [negb].
  fold next prev.
  unfold bh_of_node, clear_snapshot_links, list_loc_of.
  destruct (next =? 0) eqn:Hn0; cbn [negb];
    [| rewrite get_checkpoint_block_nocreate, Hnext by lia];
    cbn [fst Z.ltb Z.compare];
    (destruct (prev =? 0) eqn:Hp0; cbn [negb];
     [| rewrite get_checkpoint_block_nocreate, Hprev by lia]);
    cbn [fst Z.ltb Z.compare]; reflexivity.
Qed.

Lemma entry_clear_snapshot_links st cno next prev c :
  geometry_ok st → is_u64 cno → is_u64 next → is_u64 prev → is_u64 c →
  entry (clear_snapshot_links st cno next prev) c
  = (if decide (cno = c)
     then fmap (λ cp, nilfs_checkpoint_clear_snapshot
                        (set_cp_ssl_prev 0 (set_cp_ssl_next 0 cp)))
     else id)
      ((if decide (prev = c ∧ prev ≠ 0)
        then fmap (on_list (set_ssl_next next)) else id)
         ((if decide (next = c ∧ next ≠ 0)
           then fmap (on_list (set_ssl_prev prev)) else id) (entry st c))).
Proof.
  intros Hg Hcno Hnext Hprev Hc. unfold clear_snapshot_links. cbn zeta.
  rewrite entry_frame by apply _.
  rewrite entry_bh_update; [| by rewrite !geometry_ok_frame by apply _ | done..].
  rewrite entry_list_update; [| by rewrite !geometry_ok_frame by apply _ | done..].
  rewrite entry_list_update by done.
  by repeat destruct (decide _).
Qed.

Lemma header_clear_snapshot_links st cno next prev :
  cp_header (clear_snapshot_links st cno next prev)
  = mk_hdr (ch_ncheckpoints (cp_header st))
           (le64_add_cpu (ch_nsnapshots (cp_header st)) (-1))
           (mk_ssl
              (if decide (prev = 0) then next
               else ssl_next (ch_snapshot_list (cp_header st)))
              (if decide (next = 0) then prev
               else ssl_prev (ch_snapshot_list (cp_header st)))).
Proof.
  unfold clear_snapshot_links. cbn zeta. unfold header_update at 1.
  cbn [cp_header with_header]. rewrite header_frame by apply _.
  rewrite !header_list_update.
  destruct (cp_header st) as [nc ns [nx pv]].
  by repeat destruct (decide _).
Qed.

Lemma path_last g a l b : path g a l b → g (default a (last l)) = Some b.
Proof.
  revert a. induction l as [| c l IH]; intros a; cbn.
  - done.
  - intros [_ Hp]. rewrite last_cons_default. by apply IH.
Qed.

Lemma unlink_link curr prev cp :
  nilfs_checkpoint_snapshot cp = false →
  nilfs_checkpoint_clear_snapshot
    (set_cp_ssl_prev 0 (set_cp_ssl_next 0 (link_as_snapshot curr prev cp)))
  = set_cp_snapshot_list (mk_ssl 0 0) cp.
Proof.
  intros Hs. destruct cp as [fl cnt [nx pv] c t inc ic bc raw].
  unfold link_as_snapshot, nilfs_checkpoint_clear_snapshot,
    nilfs_checkpoint_set_snapshot, set_cp_ssl_prev, set_cp_ssl_next,
    set_cp_snapshot_list, set_cp_flags, set_ssl_prev, set_ssl_next.
  cbn. f_equal. by apply clearbit_setbit.
Qed.

Lemma relink_prev e v w :
  ssl_prev (cp_snapshot_list e) = w →
  on_list (set_ssl_prev w) (on_list (set_ssl_prev v) e) = e.
Proof.
  intros <-. by destruct e as [fl cnt [nx pv] c t inc ic bc raw].
Qed.

Lemma relink_next e v w :
  ssl_next (cp_snapshot_list e) = w →
  on_list (set_ssl_next w) (on_list (set_ssl_next v) e) = e.
Proof.
  intros <-. by destruct e as [fl cnt [nx pv] c t inc ic bc raw].
Qed.

(** ** set_snapshot on a well-formed list *)

Section SnapshotInsert.
Context (st : cpfile) (cno : Z) (cp : nilfs_checkpoint) (l : list Z).
Hypothesis Hgeom : geometry_ok st.
Hypothesis Hhdr : block_present st 0 = true.
Hypothesis Hcno : 0 < cno ≤ U64_MAX.
Hypothesis Hcp : entry st cno = Some cp.
Hypothesis Hvalid : nilfs_checkpoint_invalid cp = false.
Hypothesis Hplain : nilfs_checkpoint_snapshot cp = false.
Hypothesis Hlist : snapshot_list st l.

Lemma plain_not_in_list : cno ∉ l.
Proof.
  destruct Hlist as (_ & _ & _ & Hall). intros Hin.
  eapply Forall_forall in Hall; [| exact Hin].
  destruct Hall as (_ & cp' & Hcp' & Hsnap). congruence.
Qed.

Lemma set_snapshot_result fuel :
  (length l ≤ fuel)%nat →
  ∃ l1 l2, l = l1 ++ l2 ∧
    Forall (λ x, x < cno) l1 ∧ Forall (λ x, cno < x) l2 ∧
    let curr := default 0 (head l2) in
    let prev := default 0 (last l1) in
    nilfs_cpfile_set_snapshot fuel st cno
    = Some (0,
            nilfs_mdt_mark_dirty
              (mark_buffer_dirty 0
                 (mark_buffer_dirty (nilfs_cpfile_get_blkoff st cno)
                    (mark_buffer_dirty (bh_of_node st curr)
                       (mark_buffer_dirty (bh_of_node st prev)
                          (set_snapshot_links st cno curr prev)))))).
Proof.
  intros Hfuel.
  destruct (snapshot_list_paths _ _ Hlist) as (Hnext & Hprev & H0).
  pose proof plain_not_in_list as Hnotin.
  destruct Hlist as (_ & _ & Hinc & Hall).
  destruct (set_snapshot_walk_spec st cno (proj1 Hcno) (reverse l) 0 fuel 0)
    as (r1 & r2 & Hr & H1 & H2 & Hwalk).
  { done. }
  { by apply decreasing_reverse. }
  { apply Forall_reverse. eapply Forall_impl; [exact Hall |].
    intros c (Hc & cp' & Hcp' & _). split; [lia | by eexists]. }
  { by rewrite length_reverse. }
  exists (reverse r2), (reverse r1).
  assert (l = reverse r2 ++ reverse r1) as Hl.
  { rewrite <- reverse_app, <- Hr. by rewrite reverse_involutive. }
  split; [done |]. split; [| split].
  - apply Forall_reverse. apply Forall_forall. intros x Hx.
    assert (x ≤ cno) by (by eapply Forall_forall in H2).
    assert (x ≠ cno); [| lia].
    intros ->. apply Hnotin. rewrite Hl. apply elem_of_app. left.
    by apply elem_of_reverse.
  - by apply Forall_reverse.
  - rewrite head_reverse, last_reverse. cbn zeta.
    unfold nilfs_cpfile_set_snapshot.
    assert ((cno =? 0) = false) as -> by lia.
    rewrite (get_header_block_present _ Hhdr). cbn [Z.ltb Z.compare].
    rewrite get_checkpoint_block_nocreate, (entry_block_present _ _ _ Hcp).
    cbn [Z.ltb Z.compare].
    rewrite (bh_checkpoint_entry _ _ _ Hcp), Hvalid, Hplain.
    change in_header with (list_loc_of st 0) at 1.
    assert (ssl_prev (ch_snapshot_list (cp_header st))
            = default 0 (head (reverse l))) as ->.
    { apply path_head in Hprev. unfold prev_of, node in Hprev. cbn in Hprev.
      by injection Hprev. }
    rewrite Hwalk.
    set (curr := default 0 (last r1)). set (prev := default 0 (head r2)).
    assert (prev ≠ 0 → block_present st (nilfs_cpfile_get_blkoff st prev) = true)
      as Hprevblk.
    { subst prev. destruct r2 as [| p r2']; [done |]. cbn. intros _.
      assert (p ∈ l) as Hin.
      { rewrite Hl. apply elem_of_app. left. apply elem_of_reverse.
        apply list_elem_of_here. }
      eapply Forall_forall in Hall; [| exact Hin].
      destruct Hall as (_ & cp' & Hcp' & _).
      by eapply entry_block_present. }
    unfold bh_of_node, set_snapshot_links, list_loc_of.
    destruct (prev =? 0) eqn:Hp0; cbn [negb].
    + cbn [Z.ltb Z.compare]. destruct (curr =? 0); reflexivity.
    + rewrite get_checkpoint_block_nocreate, Hprevblk by lia.
      cbn [fst Z.ltb Z.compare]. destruct (curr =? 0); reflexivity.
Qed.


Lemma path_split g a l1 l2 b :
  path g a (l1 ++ l2) b →
  path g a l1 (default b (head l2)) ∧
  match l2 with
  | [] => True
  | c :: l2' => path g c l2' b
  end.
Proof.
  destruct l2 as [| c l2'].
  - rewrite app_nil_r. cbn. done.
  - rewrite path_app. cbn. done.
Qed.

Section InsertedList.
Context (l1 l2 : list Z).
Hypothesis Hl : l = l1 ++ l2.
Hypothesis Hlow : Forall (λ x, x < cno) l1.
Hypothesis Hhigh : Forall (λ x, cno < x) l2.

Local Abbreviation curr := (default 0 (head l2)).
Local Abbreviation prev := (default 0 (last l1)).
Local Abbreviation st' := (set_snapshot_links st cno curr prev).

Lemma member_u64 c : c ∈ l → is_u64 c ∧ c ≠ 0 ∧ is_Some (entry st c).
Proof.
  destruct Hlist as (_ & _ & _ & Hall). intros Hin.
  eapply Forall_forall in Hall; [| exact Hin].
  destruct Hall as (Hc & cp' & Hcp' & _).
  unfold is_u64. split; [lia |]. split; [lia | by eexists].
Qed.

Lemma curr_facts : is_u64 curr ∧ curr ≠ cno ∧ (curr = 0 ∨ cno < curr ∧ curr ∈ l2).
Proof.
  destruct l2 as [| c l2']; cbn.
  - unfold is_u64, U64_MAX. split; [lia |]. split; [lia | by left].
  - apply Forall_cons in Hhigh as [Hc _].
    assert (c ∈ l) as Hin
      by (rewrite Hl; apply elem_of_app; right; apply list_elem_of_here).
    destruct (member_u64 c Hin) as (Hu & _ & _).
    split; [done |]. split; [lia |]. right. split; [done |].
    apply list_elem_of_here.
Qed.

Lemma prev_facts : is_u64 prev ∧ prev ≠ cno ∧ (prev = 0 ∨ prev < cno ∧ prev ∈ l1).
Proof.
  destruct (last l1) as [p|] eqn:Hlast; cbn.
  - apply last_Some in Hlast as [l1' ->].
    apply Forall_app in Hlow as [_ Hp]. apply Forall_cons in Hp as [Hp _].
    assert (p ∈ l) as Hin.
    { rewrite Hl. apply elem_of_app. left. apply elem_of_app. right.
      apply list_elem_of_here. }
    destruct (member_u64 p Hin) as (Hu & _ & _).
    split; [done |]. split; [lia |]. right. split; [done |].
    apply elem_of_app. right. apply list_elem_of_here.
  - unfold is_u64, U64_MAX. split; [lia |]. split; [lia | by left].
Qed.

Lemma cno_u64 : is_u64 cno ∧ cno ≠ 0.
Proof. unfold is_u64. lia. Qed.

Lemma node_exists x : x = 0 ∨ x ∈ l ∨ x = cno → is_Some (node st x).
Proof.
  unfold node. intros [-> | [Hin | ->]].
  - by eexists.
  - destruct (member_u64 x Hin) as (_ & Hx0 & [e He]).
    assert ((x =? 0) = false) as -> by lia. rewrite He. by eexists.
  - assert ((cno =? 0) = false) as -> by lia. rewrite Hcp. by eexists.
Qed.

Lemma next_unchanged x :
  is_u64 x → x ≠ prev → x ≠ cno → next_of st' x = next_of st x.
Proof.
  intros Hx Hp Hc. destruct curr_facts as (? & ? & _).
  destruct prev_facts as (? & ? & _). destruct cno_u64.
  rewrite next_of_set_snapshot_links by done.
  by rewrite !decide_False by done.
Qed.

Lemma prev_unchanged x :
  is_u64 x → x ≠ curr → x ≠ cno → prev_of st' x = prev_of st x.
Proof.
  intros Hx Hp Hc. destruct curr_facts as (? & ? & _).
  destruct prev_facts as (? & ? & _). destruct cno_u64.
  rewrite prev_of_set_snapshot_links by done.
  by rewrite !decide_False by done.
Qed.

Lemma prev_in_list : prev = 0 ∨ prev ∈ l.
Proof.
  destruct prev_facts as (_ & _ & [? | [_ Hin]]); [by left | right].
  rewrite Hl. apply elem_of_app. by left.
Qed.

Lemma curr_in_list : curr = 0 ∨ curr ∈ l.
Proof.
  destruct curr_facts as (_ & _ & [? | [_ Hin]]); [by left | right].
  rewrite Hl. apply elem_of_app. by right.
Qed.

Lemma next_at_prev : next_of st' prev = Some cno.
Proof.
  destruct curr_facts as (? & ? & _).
  destruct prev_facts as (? & ? & _). destruct cno_u64.
  rewrite next_of_set_snapshot_links by done.
  rewrite decide_True by done.
  destruct (node_exists prev) as [n Hn].
  { destruct prev_in_list; auto. }
  unfold next_of. by rewrite Hn.
Qed.

Lemma next_at_cno : next_of st' cno = Some curr.
Proof.
  destruct curr_facts as (? & ? & _).
  destruct prev_facts as (? & ? & _). destruct cno_u64.
  rewrite next_of_set_snapshot_links by done.
  rewrite decide_False by done. rewrite decide_True by done.
  destruct (node_exists cno) as [n Hn]; [auto |].
  unfold next_of. by rewrite Hn.
Qed.

Lemma prev_at_curr : prev_of st' curr = Some cno.
Proof.
  destruct curr_facts as (? & ? & _).
  destruct prev_facts as (? & ? & _). destruct cno_u64.
  rewrite prev_of_set_snapshot_links by done.
  rewrite decide_True by done.
  destruct (node_exists curr) as [n Hn].
  { destruct curr_in_list; auto. }
  unfold prev_of. by rewrite Hn.
Qed.

Lemma prev_at_cno : prev_of st' cno = Some prev.
Proof.
  destruct curr_facts as (? & ? & _).
  destruct prev_facts as (? & ? & _). destruct cno_u64.
  rewrite prev_of_set_snapshot_links by done.
  rewrite decide_False by done. rewrite decide_True by done.
  destruct (node_exists cno) as [n Hn]; [auto |].
  unfold prev_of. by rewrite Hn.
Qed.

Lemma list_split_facts :
  NoDup l ∧ (0 ∉ l) ∧ increasing l1 ∧ increasing l2 ∧
  (∀ x, x ∈ l1 → x ∈ l ∧ x < cno) ∧ (∀ x, x ∈ l2 → x ∈ l ∧ cno < x).
Proof.
  destruct (snapshot_list_paths _ _ Hlist) as (_ & _ & H0).
  destruct Hlist as (_ & _ & Hinc & _).
  split; [by apply increasing_NoDup |]. split; [done |].
  rewrite Hl in Hinc. destruct (increasing_app _ _ Hinc) as (? & ? & _).
  split; [done |]. split; [done |]. split; intros x Hx.
  - split; [rewrite Hl; apply elem_of_app; by left |].
    by eapply Forall_forall in Hlow.
  - split; [rewrite Hl; apply elem_of_app; by right |].
    by eapply Forall_forall in Hhigh.
Qed.

Lemma inserted_next_path : path (next_of st') 0 (l1 ++ cno :: l2) 0.
Proof.
  destruct (snapshot_list_paths _ _ Hlist) as (Hnext & _ & _).
  destruct list_split_facts as (Hnd & H0 & Hi1 & Hi2 & Hin1 & Hin2).
  rewrite Hl in Hnext. apply path_split in Hnext as [Ha Hb].
  destruct prev_facts as (_ & _ & Hprev).
  apply path_app. split.
  - eapply path_retarget; [| | | exact Ha].
    + apply NoDup_cons. split; [| by apply increasing_NoDup].
      intros Hin. apply H0. by apply Hin1.
    + intros x Hx Hne. apply next_unchanged; [| done |].
      * apply elem_of_cons in Hx as [-> | Hx]; [unfold is_u64, U64_MAX; lia |].
        by apply member_u64, Hin1.
      * apply elem_of_cons in Hx as [-> | Hx]; [lia |].
        apply Hin1 in Hx. lia.
    + apply next_at_prev.
  - pose proof next_at_cno as Hnc. pose proof next_unchanged as Hnu.
    pose proof member_u64 as Hmem. clear Ha.
    destruct l2 as [| c l2']; cbn in *.
    + exact Hnc.
    + split; [exact Hnc |].
      eapply path_ext; [| exact Hb]. intros x Hx.
      assert (x ∈ l ∧ cno < x) as [Hxl Hxc] by (by apply Hin2).
      apply Hnu; [by apply Hmem | | lia].
      destruct Hprev as [-> | [? _]]; [| lia].
      destruct (Hmem x Hxl) as (_ & ? & _). done.
Qed.

Lemma inserted_prev_path :
  path (prev_of st') 0 (reverse (l1 ++ cno :: l2)) 0.
Proof.
  destruct (snapshot_list_paths _ _ Hlist) as (_ & Hpv & _).
  destruct list_split_facts as (Hnd & H0 & Hi1 & Hi2 & Hin1 & Hin2).
  rewrite Hl, reverse_app in Hpv. apply path_split in Hpv as [Ha Hb].
  rewrite head_reverse in Ha.
  destruct curr_facts as (_ & _ & Hcurr).
  rewrite reverse_app, reverse_cons, <- app_assoc. cbn [app].
  apply path_app. split.
  - eapply path_retarget; [| | | exact Ha].
    + apply NoDup_cons. split.
      * intros Hin. rewrite elem_of_reverse in Hin. apply H0. by apply Hin2.
      * rewrite reverse_Permutation. by apply increasing_NoDup.
    + rewrite last_reverse. intros x Hx Hne. apply prev_unchanged; [| done |].
      * apply elem_of_cons in Hx as [-> | Hx];
          [unfold is_u64, U64_MAX; lia |].
        rewrite elem_of_reverse in Hx. by apply member_u64, Hin2.
      * apply elem_of_cons in Hx as [-> | Hx]; [lia |].
        rewrite elem_of_reverse in Hx. apply Hin2 in Hx. lia.
    + rewrite last_reverse. apply prev_at_curr.
  - pose proof prev_at_cno as Hpc.
    assert (last l1 = head (reverse l1)) as Hlast by (by rewrite head_reverse).
    destruct (reverse l1) as [| p r'] eqn:Hrev; cbn in Hlast; cbn.
    + rewrite Hpc. by rewrite Hlast.
    + split; [rewrite Hpc; by rewrite Hlast |].
      eapply path_ext; [| exact Hb]. intros x Hx.
      assert (x ∈ l1) as Hx1 by (rewrite <- elem_of_reverse; by rewrite Hrev).
      assert (x ∈ l ∧ x < cno) as [Hxl Hxc] by (by apply Hin1).
      apply prev_unchanged; [by apply member_u64 | | lia].
      destruct Hcurr as [-> | [? _]]; [| lia].
      destruct (member_u64 x Hxl) as (_ & ? & _). done.
Qed.

Lemma entry_links_flags c e :
  is_u64 c → c ≠ cno → entry st c = Some e →
  ∃ e', entry st' c = Some e' ∧ cp_flags e' = cp_flags e.
Proof.
  intros Hc Hne He. destruct curr_facts as (? & ? & _).
  destruct prev_facts as (? & ? & _). destruct cno_u64.
  rewrite entry_set_snapshot_links, He by done.
  rewrite (decide_False (P := cno = c)) by done.
  repeat destruct (decide _); cbn; by eexists.
Qed.

Lemma entry_links_cno :
  entry st' cno = Some (link_as_snapshot curr prev cp).
Proof.
  destruct curr_facts as (? & ? & _).
  destruct prev_facts as (? & ? & _). destruct cno_u64.
  rewrite entry_set_snapshot_links, Hcp by done.
  rewrite (decide_True (P := cno = cno)) by done.
  rewrite !decide_False by (intros [? _]; congruence). done.
Qed.

Lemma inserted_snapshot_list : snapshot_list st' (l1 ++ cno :: l2).
Proof.
  destruct list_split_facts as (Hnd & H0 & Hi1 & Hi2 & Hin1 & Hin2).
  assert (0 ∉ l1 ++ cno :: l2) as H0'.
  { intros Hin. apply elem_of_app in Hin as [Hin | Hin].
    - apply H0. by apply Hin1.
    - apply elem_of_cons in Hin as [? | Hin]; [lia |].
      apply H0. by apply Hin2. }
  split; [| split; [| split]].
  - apply path_walk; [apply inserted_next_path | done | done].
  - apply path_walk; [apply inserted_prev_path | | by rewrite length_reverse].
    by rewrite elem_of_reverse.
  - by apply increasing_app_cons.
  - apply Forall_forall. intros c Hc.
    assert (c = cno ∨ c ∈ l) as [-> | Hcl].
    { apply elem_of_app in Hc as [Hc | Hc]; [right; by apply Hin1 |].
      apply elem_of_cons in Hc as [? | Hc]; [by left | right; by apply Hin2]. }
    + split; [done |]. eexists. split; [apply entry_links_cno |].
      apply snapshot_set_snapshot.
    + destruct Hlist as (_ & _ & _ & Hall).
      eapply Forall_forall in Hall; [| exact Hcl].
      destruct Hall as (Hcu & e & He & Hsnap). split; [done |].
      destruct (entry_links_flags c e) as (e' & He' & Hfl); [| | done |].
      * unfold is_u64. lia.
      * intros ->. by apply plain_not_in_list.
      * exists e'. split; [done |].
        unfold nilfs_checkpoint_snapshot in *. by rewrite Hfl.
Qed.

(** *** Undoing the insertion with clear_snapshot *)

Local Abbreviation st1 :=
  (nilfs_mdt_mark_dirty
     (mark_buffer_dirty 0
        (mark_buffer_dirty (nilfs_cpfile_get_blkoff st cno)
           (mark_buffer_dirty (bh_of_node st curr)
              (mark_buffer_dirty (bh_of_node st prev) st'))))).

Local Abbreviation st2 :=
  (nilfs_mdt_mark_dirty
     (mark_buffer_dirty 0
        (mark_buffer_dirty (nilfs_cpfile_get_blkoff st1 cno)
           (mark_buffer_dirty (bh_of_node st1 prev)
              (mark_buffer_dirty (bh_of_node st1 curr)
                 (clear_snapshot_links st1 cno curr prev)))))).

Lemma original_links : next_of st prev = Some curr ∧ prev_of st curr = Some prev.
Proof.
  destruct (snapshot_list_paths _ _ Hlist) as (Hnext & Hpv & _).
  rewrite Hl in Hnext. apply path_split in Hnext as [Hnext _].
  apply path_last in Hnext.
  rewrite Hl, reverse_app in Hpv. apply path_split in Hpv as [Hpv _].
  apply path_last in Hpv. rewrite last_reverse, head_reverse in Hpv. done.
Qed.

Lemma block_present_links b : block_present st' b = block_present st b.
Proof.
  unfold set_snapshot_links. cbn zeta. frame.
  by rewrite block_present_list_update, block_present_bh_update,
    block_present_list_update.
Qed.

Lemma neighbour_block x :
  x = 0 ∨ x ∈ l → x ≠ 0 →
  block_present st1 (nilfs_cpfile_get_blkoff st1 x) = true.
Proof.
  intros [-> | Hin] Hx0; [done |]. frame.
  unfold set_snapshot_links at 2. cbn zeta. frame.
  rewrite block_present_links.
  destruct (member_u64 x Hin) as (_ & _ & [e He]).
  by eapply entry_block_present.
Qed.

Lemma clear_after_set :
  nilfs_cpfile_clear_snapshot st1 cno = (0, st2).
Proof.
  destruct cno_u64 as [_ Hne].
  pose proof (clear_snapshot_result st1 cno (link_as_snapshot curr prev cp) Hne)
    as Hres.
  cbn zeta in Hres. apply Hres; clear Hres.
  - frame. by rewrite block_present_links.
  - frame. apply entry_links_cno.
  - unfold link_as_snapshot. by rewrite invalid_set_snapshot.
  - apply snapshot_set_snapshot.
  - apply neighbour_block, curr_in_list.
  - apply neighbour_block, prev_in_list.
Qed.

Lemma geometry_ok_st1 : geometry_ok st1.
Proof.
  rewrite !geometry_ok_frame by apply _.
  unfold set_snapshot_links. cbn zeta.
  by rewrite !geometry_ok_frame by apply _.
Qed.

Lemma round_trip_entry c :
  is_u64 c →
  entry st2 c
  = if decide (c = cno) then Some (set_cp_snapshot_list (mk_ssl 0 0) cp)
    else entry st c.
Proof.
  intros Hc. destruct curr_facts as (Hcu & Hcne & Hcurr).
  destruct prev_facts as (Hpu & Hpne & Hprev). destruct cno_u64 as [Hnu Hn0].
  destruct original_links as [Hon Hop].
  frame. rewrite entry_clear_snapshot_links by (done || apply geometry_ok_st1).
  frame. rewrite entry_set_snapshot_links by done.
  destruct (decide (c = cno)) as [-> | Hne].
  - rewrite !(decide_True (P := cno = cno)) by done.
    rewrite !decide_False by (intros [? _]; congruence).
    rewrite Hcp.
    cbn -[link_as_snapshot nilfs_checkpoint_clear_snapshot set_cp_ssl_prev
          set_cp_ssl_next set_cp_snapshot_list].
    f_equal. by apply unlink_link.
  - rewrite !(decide_False (P := cno = c)) by congruence. cbn [id].
    destruct (decide (curr = c ∧ curr ≠ 0)) as [[Heq Hc0] | Hnc].
    + subst c. rewrite !decide_False by (intros [? _]; lia).
      unfold prev_of, node in Hop.
      assert ((curr =? 0) = false) as Hc0' by lia. rewrite Hc0' in Hop.
      destruct (entry st curr) as [e|]; [| done].
      cbn -[on_list] in *. f_equal. injection Hop as Hop.
      by apply relink_prev.
    + destruct (decide (prev = c ∧ prev ≠ 0)) as [[Heq Hc0] | Hnp]; [| done].
      subst c. unfold next_of, node in Hon.
      assert ((prev =? 0) = false) as Hc0' by lia. rewrite Hc0' in Hon.
      destruct (entry st prev) as [e|]; [| done].
      cbn -[on_list] in *. f_equal. injection Hon as Hon.
      by apply relink_next.
Qed.

Lemma round_trip_header :
  is_u64 (ch_nsnapshots (cp_header st)) → cp_header st2 = cp_header st.
Proof.
  intros Hns. destruct original_links as [Hon Hop].
  frame. rewrite header_clear_snapshot_links. frame.
  rewrite header_set_snapshot_links.
  unfold next_of, prev_of, node in Hon, Hop.
  destruct (cp_header st) as [nc ns [nx pv]]. cbn in *. f_equal.
  - unfold le64_add_cpu, wrap64, is_u64, U64_MAX in *.
    rewrite Zplus_mod_idemp_l. replace (ns + 1 + -1) with ns by lia.
    apply Z.mod_small. lia.
  - f_equal.
    + destruct (decide (prev = 0)) as [Hp0 | _]; [| done].
      rewrite Hp0 in Hon. cbn in Hon. by injection Hon.
    + destruct (decide (curr = 0)) as [Hc0 | _]; [| done].
      rewrite Hc0 in Hop. cbn in Hop. by injection Hop.
Qed.

End InsertedList.
End SnapshotInsert.

(** ** set_snapshot keeps the list ordered *)

(** C3: on a cpfile whose snapshot list is [l] (strictly increasing, forward
    and backward walks agreeing), set_snapshot of a valid non-snapshot entry
    cno succeeds and links the entry between the last snapshot below cno
    ([prev], 0 for the header) and the first one above it ([curr], 0 for the
    header).  Afterwards the forward walk from the header yields the
    increasing list [l1 ++ cno :: l2], the backward walk yields its reverse,
    every member is a snapshot entry, and nsnapshots has grown by one. *)
Theorem set_snapshot_keeps_order (st : cpfile) (cno : Z)
  (cp : nilfs_checkpoint) (l : list Z) (fuel : nat) :
  geometry_ok st →
  block_present st 0 = true →
  0 < cno ≤ U64_MAX →
  entry st cno = Some cp →
  nilfs_checkpoint_invalid cp = false →
  nilfs_checkpoint_snapshot cp = false →
  snapshot_list st l →
  (length l ≤ fuel)%nat →
  ∃ st' l1 l2 cp',
    nilfs_cpfile_set_snapshot fuel st cno = Some (0, st') ∧
    l = l1 ++ l2 ∧
    Forall (λ x, x < cno) l1 ∧ Forall (λ x, cno < x) l2 ∧
    entry st' cno = Some cp' ∧
    nilfs_checkpoint_snapshot cp' = true ∧
    ssl_prev (cp_snapshot_list cp') = default 0 (last l1) ∧
    ssl_next (cp_snapshot_list cp') = default 0 (head l2) ∧
    snapshot_list st' (l1 ++ cno :: l2) ∧
    ch_nsnapshots (cp_header st')
    = le64_add_cpu (ch_nsnapshots (cp_header st)) 1 ∧
    (0 ≤ ch_nsnapshots (cp_header st) < U64_MAX →
     ch_nsnapshots (cp_header st') = ch_nsnapshots (cp_header st) + 1).
Proof.
  intros Hg Hhdr Hcno Hcp Hv Hp Hlist Hfuel.
  destruct (set_snapshot_result st cno cp l Hhdr Hcno Hcp Hv Hp Hlist fuel Hfuel)
    as (l1 & l2 & Hl & Hlow & Hhigh & Hres).
  cbn zeta in Hres.
  eexists _, l1, l2, (link_as_snapshot _ _ cp).
  split; [exact Hres |]. split; [done |]. split; [done |]. split; [done |].
  assert (ch_nsnapshots
            (cp_header
               (set_snapshot_links st cno (default 0 (head l2))
                                   (default 0 (last l1))))
          = le64_add_cpu (ch_nsnapshots (cp_header st)) 1) as Hns
    by (by rewrite header_set_snapshot_links).
  split; [| split; [| split; [| split; [| split; [| split]]]]].
  - frame. by eapply entry_links_cno.
  - apply snapshot_set_snapshot.
  - reflexivity.
  - reflexivity.
  - do 5 (apply snapshot_list_frame; [apply _ .. |]).
    by eapply inserted_snapshot_list.
  - by frame.
  - intros Hn. frame. rewrite Hns. unfold le64_add_cpu, wrap64, U64_MAX in *.
    apply Z.mod_small. lia.
Qed.

Lemma snapshot_list_10_30 : snapshot_list cpfile_10_30 [10; 30].
Proof.
  split; [vm_compute; reflexivity |]. split; [vm_compute; reflexivity |].
  split.
  - repeat constructor.
  - repeat constructor; try (apply Z.leb_le; vm_compute; reflexivity);
      eexists; split; vm_compute; reflexivity.
Defined.

(** Spec scenario "snapshot insertion order": snapshots {10, 30}, then
    set_snapshot(20). *)
Lemma set_snapshot_keeps_order_witness :
  ∃ st', nilfs_cpfile_set_snapshot 2 cpfile_10_30 20 = Some (0, st') ∧
         snapshot_list st' [10; 20; 30] ∧
         ch_nsnapshots (cp_header st') = 3.
Proof.
  destruct (set_snapshot_keeps_order cpfile_10_30 20
              (mk_cp 0 1 (mk_ssl 0 0) 20 0 0 0 0 []) [10; 30] 2)
    as (st' & l1 & l2 & cp' & Hres & Hl & Hlow & Hhigh & _ & _ & _ & _
        & Hlist & Hns & _).
  - split; [apply Z.leb_le; vm_compute; reflexivity | reflexivity].
  - vm_compute. reflexivity.
  - unfold U64_MAX. lia.
  - vm_compute. reflexivity.
  - vm_compute. reflexivity.
  - vm_compute. reflexivity.
  - exact snapshot_list_10_30.
  - cbn. lia.
  - exists st'. split; [exact Hres |]. clear Hres.
    assert (l1 = [10] ∧ l2 = [30]) as [-> ->].
    { clear Hlist Hns. destruct l1 as [| a [| b l1]]; cbn in Hl.
      - subst l2. apply Forall_cons in Hhigh as [? _]. lia.
      - injection Hl as <- <-. split; reflexivity.
      - injection Hl as <- <- Hnil. destruct l1; [| discriminate Hnil].
        apply Forall_cons in Hlow as [_ Hlow].
        apply Forall_cons in Hlow as [? _]. lia. }
    split; [exact Hlist |]. rewrite Hns. vm_compute. reflexivity.
Defined.

(** ** set_snapshot followed by clear_snapshot *)

Lemma snapshot_list_agree st st' l :
  cp_header st' = cp_header st →
  (∀ x, x ∈ l → entry st' x = entry st x) →
  snapshot_list st l → snapshot_list st' l.
Proof.
  intros Hh He Hlist.
  destruct (snapshot_list_paths _ _ Hlist) as (Hn & Hp & H0).
  destruct Hlist as (_ & _ & Hinc & Hall).
  assert (∀ x, x ∈ 0 :: l → node st' x = node st x) as Hnode.
  { intros x Hx. unfold node. destruct (x =? 0) eqn:Hx0; [by rewrite Hh |].
    rewrite He; [done |]. apply elem_of_cons in Hx as [-> | Hx]; done. }
  split; [| split; [| split]]; try done.
  - apply path_walk; [| done | done].
    eapply path_ext; [| exact Hn]. intros x Hx. unfold next_of.
    by rewrite Hnode.
  - apply path_walk; [| by rewrite elem_of_reverse | by rewrite length_reverse].
    eapply path_ext; [| exact Hp]. intros x Hx. unfold prev_of.
    rewrite Hnode; [done |].
    apply elem_of_cons in Hx as [-> | Hx]; [apply list_elem_of_here |].
    apply list_elem_of_further. by rewrite elem_of_reverse in Hx.
  - apply Forall_forall. intros x Hx.
    rewrite Forall_forall in Hall. destruct (Hall x Hx) as (Hxu & e & Hxe & Hs).
    split; [done |]. exists e. by rewrite He.
Qed.

(** C5: for a valid non-snapshot checkpoint c on a cpfile with a well-formed
    snapshot list, set_snapshot(c) followed by clear_snapshot(c) both return
    0; c ends with the flags it had (SNAPSHOT clear), both list links 0 and
    all other fields as before; every other entry and the header, with its
    sentinel links and nsnapshots, are exactly as in the original state, so
    the snapshot list is the original one. *)
Theorem snapshot_round_trip (st : cpfile) (c : Z) (cp : nilfs_checkpoint)
  (l : list Z) (fuel : nat) :
  geometry_ok st →
  block_present st 0 = true →
  0 < c ≤ U64_MAX →
  entry st c = Some cp →
  nilfs_checkpoint_invalid cp = false →
  nilfs_checkpoint_snapshot cp = false →
  snapshot_list st l →
  (length l ≤ fuel)%nat →
  is_u64 (ch_nsnapshots (cp_header st)) →
  ∃ st1 st2 cp2,
    nilfs_cpfile_set_snapshot fuel st c = Some (0, st1) ∧
    nilfs_cpfile_clear_snapshot st1 c = (0, st2) ∧
    entry st2 c = Some cp2 ∧
    cp2 = set_cp_snapshot_list (mk_ssl 0 0) cp ∧
    cp_flags cp2 = cp_flags cp ∧
    nilfs_checkpoint_snapshot cp2 = false ∧
    ssl_next (cp_snapshot_list cp2) = 0 ∧
    ssl_prev (cp_snapshot_list cp2) = 0 ∧
    (∀ x, is_u64 x → x ≠ c → entry st2 x = entry st x) ∧
    cp_header st2 = cp_header st ∧
    snapshot_list st2 l.
Proof.
  intros Hg Hhdr Hc Hcp Hv Hp Hlist Hfuel Hns.
  destruct (set_snapshot_result st c cp l Hhdr Hc Hcp Hv Hp Hlist fuel Hfuel)
    as (l1 & l2 & Hl & Hlow & Hhigh & Hres).
  cbn zeta in Hres.
  pose proof (clear_after_set st c cp l Hg Hhdr Hc Hcp Hv Hlist
                l1 l2 Hl Hlow Hhigh) as Hclear.
  pose proof (round_trip_entry st c cp l Hg Hc Hcp Hp Hlist
                l1 l2 Hl Hlow Hhigh) as Hentry.
  pose proof (round_trip_header st c l Hlist l1 l2 Hl Hns) as Hheader.
  eexists _, _, (set_cp_snapshot_list (mk_ssl 0 0) cp).
  split; [exact Hres |]. split; [exact Hclear |].
  assert (is_u64 c) as Hcu by (unfold is_u64; lia).
  split; [| split; [| split; [| split; [| split; [| split; [| split; [| split]]]]]]];
    try done.
  - rewrite Hentry by done. by rewrite decide_True.
  - intros x Hx Hne. rewrite Hentry by done. by rewrite decide_False.
  - eapply snapshot_list_agree; [exact Hheader | | exact Hlist].
    intros x Hx. pose proof Hlist as (_ & _ & _ & Hall).
    rewrite Forall_forall in Hall.
    destruct (Hall x Hx) as (Hxu & _).
    rewrite Hentry by (unfold is_u64; lia). rewrite decide_False; [done |].
    intros ->. by eapply (plain_not_in_list st c cp l).
Qed.

Lemma snapshot_round_trip_witness :
  ∃ st1 st2,
    nilfs_cpfile_set_snapshot 2 cpfile_10_30 20 = Some (0, st1) ∧
    nilfs_cpfile_clear_snapshot st1 20 = (0, st2) ∧
    entry st2 20 = entry cpfile_10_30 20 ∧
    cp_header st2 = cp_header cpfile_10_30 ∧
    snapshot_list st2 [10; 30].
Proof.
  destruct (snapshot_round_trip cpfile_10_30 20
              (mk_cp 0 1 (mk_ssl 0 0) 20 0 0 0 0 []) [10; 30] 2)
    as (st1 & st2 & cp2 & Hset & Hclear & He & -> & _ & _ & _ & _ & _ & Hh
        & Hlist).
  - split; [apply Z.leb_le; vm_compute; reflexivity | reflexivity].
  - vm_compute. reflexivity.
  - unfold U64_MAX. lia.
  - vm_compute. reflexivity.
  - vm_compute. reflexivity.
  - vm_compute. reflexivity.
  - exact snapshot_list_10_30.
  - cbn. lia.
  - split; apply Z.leb_le; vm_compute; reflexivity.
  - exists st1, st2. split; [exact Hset |]. split; [exact Hclear |].
    split; [| split; [exact Hh | exact Hlist]].
    rewrite He. vm_compute. reflexivity.
Defined.

(** ** Finding the next existing block *)

Lemma lowest_in_range_cons start end_ k ks :
  lowest_in_range start end_ (k :: ks)
  = if bool_decide (start ≤ k ≤ end_) then
      match lowest_in_range start end_ ks with
      | Some m => Some (Z.min k m)
      | None => Some k
      end
    else lowest_in_range start end_ ks.
Proof. reflexivity. Qed.

Lemma lowest_in_range_None start end_ ks :
  lowest_in_range start end_ ks = None →
  ∀ k, k ∈ ks → ¬ (start ≤ k ≤ end_).
Proof.
  induction ks as [| y ks IH]; [| rewrite lowest_in_range_cons].
  - intros _ k Hk. by apply elem_of_nil in Hk.
  - destruct (bool_decide (start ≤ y ≤ end_)) eqn:Hy.
    + by destruct (lowest_in_range start end_ ks).
    + apply bool_decide_eq_false in Hy. intros Hnone k Hk.
      apply elem_of_cons in Hk as [-> | Hk]; [done | by apply IH].
Qed.

Lemma lowest_in_range_Some start end_ ks b :
  lowest_in_range start end_ ks = Some b →
  b ∈ ks ∧ start ≤ b ≤ end_ ∧ ∀ k, k ∈ ks → start ≤ k ≤ end_ → b ≤ k.
Proof.
  revert b. induction ks as [| y ks IH]; intros b; [done |].
  rewrite lowest_in_range_cons.
  destruct (bool_decide (start ≤ y ≤ end_)) eqn:Hy.
  - apply bool_decide_eq_true in Hy.
    destruct (lowest_in_range start end_ ks) as [m|] eqn:Hm.
    + intros Hb. injection Hb as <-.
      destruct (IH m eq_refl) as (Hin & Hr & Hmin).
      split; [| split].
      * destruct (Z.min_spec y m) as [[_ ->] | [_ ->]];
          [apply list_elem_of_here | by apply list_elem_of_further].
      * lia.
      * intros x Hx Hxr. apply elem_of_cons in Hx as [-> | Hx]; [lia |].
        specialize (Hmin x Hx Hxr). lia.
    + intros Hb. injection Hb as <-.
      split; [apply list_elem_of_here |]. split; [done |].
      intros x Hx Hxr. apply elem_of_cons in Hx as [-> | Hx]; [lia |].
      by destruct (lowest_in_range_None _ _ _ Hm x Hx).
  - intros Hb. destruct (IH b Hb) as (Hin & Hr & Hmin).
    apply bool_decide_eq_false in Hy.
    split; [by apply list_elem_of_further |]. split; [done |].
    intros x Hx Hxr. apply elem_of_cons in Hx as [-> | Hx];
      [done | by apply Hmin].
Qed.

Lemma lowest_in_range_is_Some start end_ ks k :
  k ∈ ks → start ≤ k ≤ end_ → is_Some (lowest_in_range start end_ ks).
Proof.
  induction ks as [| y ks IH]; [intros Hin; by apply elem_of_nil in Hin |].
  intros Hin Hk. rewrite lowest_in_range_cons.
  destruct (bool_decide (start ≤ y ≤ end_)) eqn:Hy.
  - by destruct (lowest_in_range start end_ ks); eexists.
  - apply bool_decide_eq_false in Hy.
    apply elem_of_cons in Hin as [-> | Hin]; [done | by apply IH].
Qed.

(** find_block returns the lowest existing block of the range. *)
Lemma mdt_find_block_spec st start end_ k :
  block_present st k = true → start ≤ k ≤ end_ →
  ∃ b, nilfs_mdt_find_block st start end_ = (0, b) ∧
       block_present st b = true ∧ start ≤ b ≤ k ∧
       ∀ x, start ≤ x < b → block_present st x = false.
Proof.
  intros Hk Hr. unfold nilfs_mdt_find_block.
  assert (∀ x, x ∈ elements (dom (cp_blocks st)) ↔ block_present st x = true)
    as Hdom.
  { intros x. rewrite elem_of_elements, elem_of_dom.
    by rewrite block_present_true. }
  destruct (lowest_in_range_is_Some start end_
              (elements (dom (cp_blocks st))) k) as [b Hb];
    [by apply Hdom | done |].
  rewrite Hb. exists b.
  destruct (lowest_in_range_Some _ _ _ _ Hb) as (Hin & Hbr & Hmin).
  split; [done |]. split; [by apply Hdom |]. split.
  - split; [lia |]. apply Hmin; [by apply Hdom | done].
  - intros x Hx. destruct (block_present st x) eqn:Hpx; [| done].
    apply Hdom in Hpx. specialize (Hmin x Hpx). lia.
Qed.

(** ** The enumeration loops, asked for one entry *)

Lemma cpinfo_scan_all_invalid k st bh off nci buf :
  (∀ i, 0 ≤ i < Z.of_nat k →
        nilfs_checkpoint_invalid (bh_checkpoint st bh (off + i)) = true) →
  cpinfo_scan k st bh off nci buf = buf.
Proof.
  revert off. induction k as [| k IH]; intros off Hinv; cbn [cpinfo_scan].
  - done.
  - destruct (Z.of_nat (length buf) <? nci); [| done].
    pose proof (Hinv 0) as H0. rewrite Z.add_0_r in H0.
    rewrite H0 by lia. cbn [negb]. apply IH. intros i Hi.
    replace (off + 1 + i) with (off + (1 + i)) by lia. apply Hinv. lia.
Qed.

Lemma cpinfo_scan_full k st bh off nci buf :
  nci ≤ Z.of_nat (length buf) → cpinfo_scan k st bh off nci buf = buf.
Proof.
  intros Hfull. destruct k; cbn [cpinfo_scan]; [done |].
  by assert ((Z.of_nat (length buf) <? nci) = false) as -> by lia.
Qed.

Lemma cpinfo_scan_first_valid k st bh off j :
  0 ≤ j < Z.of_nat k →
  (∀ i, 0 ≤ i < j →
        nilfs_checkpoint_invalid (bh_checkpoint st bh (off + i)) = true) →
  nilfs_checkpoint_invalid (bh_checkpoint st bh (off + j)) = false →
  cpinfo_scan k st bh off 1 []
  = [nilfs_cpfile_checkpoint_to_cpinfo (bh_checkpoint st bh (off + j))].
Proof.
  revert off j. induction k as [| k IH]; intros off j Hj Hinv Hv; [lia |].
  cbn [cpinfo_scan length]. change (Z.of_nat 0 <? 1) with true. cbn iota.
  destruct (decide (j = 0)) as [-> | Hj0].
  - rewrite Z.add_0_r in *. rewrite Hv. cbn [negb app].
    apply cpinfo_scan_full. cbn. lia.
  - pose proof (Hinv 0) as H0. rewrite Z.add_0_r in H0.
    rewrite H0 by lia. cbn [negb].
    replace (off + j) with (off + 1 + (j - 1)) in * by lia.
    apply IH; [lia | | done].
    intros i Hi. replace (off + 1 + i) with (off + (1 + i)) by lia.
    apply Hinv. lia.
Qed.

Lemma cpinfo_loop_full fuel st cno cur nci buf :
  nci ≤ Z.of_nat (length buf) →
  cpinfo_loop fuel st cno cur nci buf = Some (inr buf).
Proof.
  intros Hfull.
  destruct fuel; cbn [cpinfo_loop];
    by assert ((Z.of_nat (length buf) <? nci) = false) as -> by lia.
Qed.

Lemma checkpoint_valid_false st c :
  checkpoint_valid st c = false →
  block_present st (nilfs_cpfile_get_blkoff st c) = true →
  nilfs_checkpoint_invalid (checkpoint_at st c) = true.
Proof.
  unfold checkpoint_valid, checkpoint_at. intros Hv Hp. rewrite Hp in Hv.
  cbn in Hv. by apply negb_false_iff in Hv.
Qed.

Lemma checkpoint_valid_true st c :
  checkpoint_valid st c = true →
  block_present st (nilfs_cpfile_get_blkoff st c) = true ∧
  nilfs_checkpoint_invalid (checkpoint_at st c) = false.
Proof.
  unfold checkpoint_valid, checkpoint_at. intros Hv.
  apply andb_true_iff in Hv as [Hp Hv]. by apply negb_true_iff in Hv.
Qed.

Section FirstValid.
Context (st : cpfile) (cno c : Z).
Hypothesis Hg : geometry_ok st.
Hypothesis Hcur : nilfs_mdt_cno st ≤ U64_MAX.
Hypothesis Hrange : 1 ≤ cno ≤ c ∧ c < nilfs_mdt_cno st.
Hypothesis Hvalid : checkpoint_valid st c = true.
Hypothesis Hnone : ∀ x, cno ≤ x < c → checkpoint_valid st x = false.

Local Abbreviation E := (mi_entries_per_block st).
Local Abbreviation cur := (nilfs_mdt_cno st).

(** A cno in block [b] before [c] is read as INVALID. *)
Lemma before_first_valid cno' i :
  cno ≤ cno' → 0 ≤ i → cno' + i < c →
  nilfs_cpfile_get_offset st cno' + i < E →
  block_present st (nilfs_cpfile_get_blkoff st cno') = true →
  nilfs_checkpoint_invalid
    (bh_checkpoint st (nilfs_cpfile_get_blkoff st cno')
                   (nilfs_cpfile_get_offset st cno' + i)) = true.
Proof.
  intros Hlo Hi Hhi Hoff Hpres.
  assert (is_u64 cno' ∧ is_u64 (cno' + i)) as [Hu Hui]
    by (unfold is_u64; lia).
  destruct (blkoff_offset_add st cno' i Hg Hu Hui Hi Hoff) as [Hb Ho].
  rewrite <- Hb, <- Ho. apply checkpoint_valid_false.
  - apply Hnone. lia.
  - by rewrite Hb.
Qed.

Lemma cpinfo_loop_finds fuel cno0 :
  cno ≤ cno0 ≤ c →
  (Z.to_nat (nilfs_cpfile_get_blkoff st c - nilfs_cpfile_get_blkoff st cno0)
   < fuel)%nat →
  cpinfo_loop fuel st cno0 cur 1 []
  = Some (inr [nilfs_cpfile_checkpoint_to_cpinfo (checkpoint_at st c)]).
Proof.
  revert cno0. induction fuel as [| fuel IH]; intros cno0 Hcno0 Hfuel; [lia |].
  destruct (checkpoint_valid_true _ _ Hvalid) as [Hpc Hvc].
  pose proof Hg as [HE _].
  assert (is_u64 cno0 ∧ is_u64 c ∧ is_u64 (cur - 1)) as (Hu0 & Huc & Hucur)
    by (unfold is_u64; lia).
  cbn [cpinfo_loop length Z.of_nat Z.ltb Z.compare].
  unfold nilfs_cpfile_find_checkpoint_block.
  rewrite (wrap64_u64 (cur - 1)) by done.
  assert ((cur - 1 <? cno0) = false) as -> by lia.
  destruct (mdt_find_block_spec st (nilfs_cpfile_get_blkoff st cno0)
              (nilfs_cpfile_get_blkoff st (cur - 1))
              (nilfs_cpfile_get_blkoff st c) Hpc)
    as (b & -> & Hpb & Hbr & Hlow).
  { split; apply blkoff_mono; try done; lia. }
  cbn [Z.eqb].
  set (cno' := if b =? nilfs_cpfile_get_blkoff st cno0 then cno0
               else nilfs_cpfile_first_checkpoint_in_block st b).
  pose proof (block_bounds st cno0 Hg Hu0) as Hbb0.
  pose proof (block_bounds st c Hg Huc) as Hbbc.
  assert (cno0 ≤ cno' ≤ c ∧ nilfs_cpfile_get_blkoff st cno' = b) as [Hc' Hb'].
  { subst cno'. destruct (b =? _) eqn:Hb0.
    - apply Z.eqb_eq in Hb0. split; [lia | done].
    - apply Z.eqb_neq in Hb0.
      assert (is_u64 (E * b)) as Hub by (unfold is_u64; nia).
      rewrite first_checkpoint_in_block_u64 by done.
      split; [nia |]. by apply blkoff_offset_block_start. }
  clearbody cno'.
  assert (is_u64 cno') as Hu' by (unfold is_u64; lia).
  pose proof (block_bounds st cno' Hg Hu') as Hbb'. rewrite Hb' in Hbb'.
  pose proof (offset_range st cno' Hg Hu') as Hor'.
  pose proof (cno_blkoff_offset st cno' Hg Hu') as Hdm'. rewrite Hb' in Hdm'.
  unfold nilfs_cpfile_checkpoints_in_block, nilfs_cpfile_checkpoints_per_block.
  rewrite (wrap64_u64 (cur - cno')) by (unfold is_u64; lia).
  set (o' := nilfs_cpfile_get_offset st cno') in *.
  destruct (decide (b = nilfs_cpfile_get_blkoff st c)) as [Hbc | Hbc].
  - (* the block that holds c *)
    pose proof (offset_range st c Hg Huc) as Horc.
    pose proof (cno_blkoff_offset st c Hg Huc) as Hdmc. rewrite <- Hbc in Hdmc.
    assert (nilfs_cpfile_get_offset st c = o' + (c - cno')) as Hoc by lia.
    rewrite (cpinfo_scan_first_valid _ st b o' (c - cno')).
    + rewrite cpinfo_loop_full by (cbn; lia).
      unfold checkpoint_at. by rewrite <- Hbc, Hoc.
    + lia.
    + intros i Hi. rewrite <- Hb'. apply before_first_valid; try lia.
      by rewrite Hb'.
    + rewrite <- Hoc, Hbc. exact Hvc.
  - (* an earlier block: nothing valid in it *)
    assert (E * (b + 1) ≤ c) as Hnext by nia.
    rewrite Z.min_l by lia.
    rewrite cpinfo_scan_all_invalid.
    + replace (cno' + (E - o')) with (E * (b + 1)) by lia.
      assert (is_u64 (E * (b + 1))) as Hun by (unfold is_u64; lia).
      rewrite wrap64_u64 by done.
      apply IH; [lia |].
      destruct (blkoff_offset_block_start st (b + 1) Hg Hun) as [-> _]. lia.
    + intros i Hi. rewrite <- Hb'. apply before_first_valid; try lia.
      by rewrite Hb'.
Qed.

Lemma do_get_cpinfo_first_valid :
  nilfs_cpfile_do_get_cpinfo st cno 1
  = Some (1, wrap64 (cp_cno (checkpoint_at st c) + 1),
          [nilfs_cpfile_checkpoint_to_cpinfo (checkpoint_at st c)]).
Proof.
  unfold nilfs_cpfile_do_get_cpinfo.
  assert ((cno =? 0) = false) as -> by lia.
  rewrite cpinfo_loop_finds; [reflexivity | lia |].
  assert (is_u64 c ∧ is_u64 (cur - 1)) as [Huc Hucur] by (unfold is_u64; lia).
  rewrite (wrap64_u64 (cur - 1)) by done.
  assert (nilfs_cpfile_get_blkoff st c
          ≤ nilfs_cpfile_get_blkoff st (cur - 1))
    by (apply blkoff_mono; try done; lia).
  lia.
Qed.

End FirstValid.

Lemma mdt_find_block_cases st start end_ :
  (nilfs_mdt_find_block st start end_ = (- ENOENT, 0) ∧
   ∀ x, start ≤ x ≤ end_ → block_present st x = false) ∨
  (∃ b, nilfs_mdt_find_block st start end_ = (0, b) ∧
        block_present st b = true ∧ start ≤ b ≤ end_ ∧
        ∀ x, start ≤ x < b → block_present st x = false).
Proof.
  unfold nilfs_mdt_find_block.
  assert (∀ x, x ∈ elements (dom (cp_blocks st)) ↔ block_present st x = true)
    as Hdom.
  { intros x. rewrite elem_of_elements, elem_of_dom.
    by rewrite block_present_true. }
  destruct (lowest_in_range start end_ (elements (dom (cp_blocks st))))
    as [b|] eqn:Hb.
  - right. exists b.
    destruct (lowest_in_range_Some _ _ _ _ Hb) as (Hin & Hbr & Hmin).
    split; [done |]. split; [by apply Hdom |]. split; [done |].
    intros x Hx. destruct (block_present st x) eqn:Hpx; [| done].
    apply Hdom in Hpx. specialize (Hmin x Hpx). lia.
  - left. split; [done |]. intros x Hx.
    destruct (block_present st x) eqn:Hpx; [| done].
    apply Hdom in Hpx. by destruct (lowest_in_range_None _ _ _ Hb x Hpx).
Qed.

Section NoneValid.
Context (st : cpfile) (cno nci : Z).
Hypothesis Hg : geometry_ok st.
Hypothesis Hcur : 1 ≤ nilfs_mdt_cno st ≤ U64_MAX.
Hypothesis Hcno : 1 ≤ cno ≤ U64_MAX.
Hypothesis Hnone :
  ∀ x, cno ≤ x < nilfs_mdt_cno st → checkpoint_valid st x = false.

Local Abbreviation E := (mi_entries_per_block st).
Local Abbreviation cur := (nilfs_mdt_cno st).

Lemma cpinfo_loop_none fuel cno0 :
  cno ≤ cno0 ≤ cur →
  (1 ≤ fuel)%nat →
  (cno0 ≤ cur - 1 →
   (Z.to_nat (nilfs_cpfile_get_blkoff st (cur - 1)
              - nilfs_cpfile_get_blkoff st cno0) + 2 ≤ fuel)%nat) →
  cpinfo_loop fuel st cno0 cur nci [] = Some (inr []).
Proof.
  revert cno0.
  induction fuel as [| fuel IH]; intros cno0 Hcno0 Hfuel1 Hfuel; [lia |].
  destruct (decide (nci ≤ 0)) as [Hnci | Hnci];
    [apply cpinfo_loop_full; cbn; lia |].
  pose proof Hg as [HE _].
  assert (is_u64 cno0 ∧ is_u64 (cur - 1)) as (Hu0 & Hucur)
    by (unfold is_u64; lia).
  cbn [cpinfo_loop].
  change (Z.of_nat (length (@nil nilfs_cpinfo))) with 0.
  assert ((0 <? nci) = true) as -> by lia.
  unfold nilfs_cpfile_find_checkpoint_block.
  rewrite (wrap64_u64 (cur - 1)) by done.
  destruct (cur - 1 <? cno0) eqn:Hend; [reflexivity |].
  apply Z.ltb_ge in Hend. specialize (Hfuel Hend).
  destruct (mdt_find_block_cases st (nilfs_cpfile_get_blkoff st cno0)
              (nilfs_cpfile_get_blkoff st (cur - 1)))
    as [[-> _] | (b & -> & Hpb & Hbr & Hlow)]; [reflexivity |].
  cbn [Z.eqb].
  set (cno' := if b =? nilfs_cpfile_get_blkoff st cno0 then cno0
               else nilfs_cpfile_first_checkpoint_in_block st b).
  pose proof (block_bounds st cno0 Hg Hu0) as Hbb0.
  pose proof (block_bounds st (cur - 1) Hg Hucur) as Hbbc.
  assert (cno0 ≤ cno' ≤ cur - 1 ∧ nilfs_cpfile_get_blkoff st cno' = b)
    as [Hc' Hb'].
  { subst cno'. destruct (b =? _) eqn:Hb0.
    - apply Z.eqb_eq in Hb0. split; [lia | done].
    - apply Z.eqb_neq in Hb0.
      assert (is_u64 (E * b)) as Hub by (unfold is_u64; nia).
      rewrite first_checkpoint_in_block_u64 by done.
      split; [nia |]. by apply blkoff_offset_block_start. }
  clearbody cno'.
  assert (is_u64 cno') as Hu' by (unfold is_u64; lia).
  pose proof (block_bounds st cno' Hg Hu') as Hbb'. rewrite Hb' in Hbb'.
  pose proof (offset_range st cno' Hg Hu') as Hor'.
  pose proof (cno_blkoff_offset st cno' Hg Hu') as Hdm'. rewrite Hb' in Hdm'.
  unfold nilfs_cpfile_checkpoints_in_block, nilfs_cpfile_checkpoints_per_block.
  rewrite (wrap64_u64 (cur - cno')) by (unfold is_u64; lia).
  set (o' := nilfs_cpfile_get_offset st cno') in *.
  rewrite cpinfo_scan_all_invalid.
  - assert (is_u64 (cno' + Z.min (E - o') (cur - cno'))) as Hun
      by (unfold is_u64; lia).
    rewrite wrap64_u64 by done.
    apply IH; [lia | lia |].
    destruct (Z.min_spec (E - o') (cur - cno')) as [[Hlt ->] | [Hge ->]];
      [| lia].
    intros Hmore.
    replace (cno' + (E - o')) with (E * (b + 1)) in * by lia.
    assert (is_u64 (E * (b + 1))) as Hub1 by (unfold is_u64; lia).
    destruct (blkoff_offset_block_start st (b + 1) Hg Hub1) as [-> _].
    assert (b + 1 ≤ nilfs_cpfile_get_blkoff st (cur - 1)) by nia. lia.
  - intros i Hi.
    assert (is_u64 (cno' + i)) as Hui by (unfold is_u64; lia).
    destruct (blkoff_offset_add st cno' i Hg Hu' Hui) as [Hbi Hoi];
      [lia | fold o'; lia |].
    fold o' in Hoi. rewrite <- Hoi, <- Hb', <- Hbi.
    apply checkpoint_valid_false; [apply Hnone; lia |].
    by rewrite Hbi, Hb'.
Qed.

Lemma do_get_cpinfo_none :
  nilfs_cpfile_do_get_cpinfo st cno nci = Some (0, cno, []).
Proof.
  unfold nilfs_cpfile_do_get_cpinfo.
  assert ((cno =? 0) = false) as -> by lia.
  destruct (decide (cno ≤ cur)) as [Hle | Hgt].
  - rewrite cpinfo_loop_none; [reflexivity | lia | lia |].
    rewrite (wrap64_u64 (cur - 1)) by (unfold is_u64; lia). lia.
  - (* past the counter: the first search already fails *)
    cbn [cpinfo_loop].
    change (Z.of_nat (length (@nil nilfs_cpinfo))) with 0.
    destruct (0 <? nci); [| reflexivity].
    unfold nilfs_cpfile_find_checkpoint_block.
    rewrite (wrap64_u64 (cur - 1)) by (unfold is_u64; lia).
    by assert ((cur - 1 <? cno) = true) as -> by lia.
Qed.

End NoneValid.

(** * Further properties of the cpfile operations *)

(** ** Checkpoint enumeration *)

(** get_cpinfo in CHECKPOINT mode, asked for one entry from [cno], skips
    holes and INVALID entries and returns the summary of the first valid
    entry [c] below the MDT counter; the cno to continue from is the cno
    stored in that entry plus one. *)
Theorem get_cpinfo_first_valid (st : cpfile) (cno c : Z) :
  geometry_ok st →
  nilfs_mdt_cno st ≤ U64_MAX →
  1 ≤ cno ≤ c →
  c < nilfs_mdt_cno st →
  checkpoint_valid st c = true →
  (∀ x, cno ≤ x < c → checkpoint_valid st x = false) →
  nilfs_cpfile_get_cpinfo st cno NILFS_CHECKPOINT 1
  = Some (1, wrap64 (cp_cno (checkpoint_at st c) + 1),
          [nilfs_cpfile_checkpoint_to_cpinfo (checkpoint_at st c)], st).
Proof.
  intros Hg Hcur Hcno Hc Hv Hnone. cbn [nilfs_cpfile_get_cpinfo].
  by rewrite (do_get_cpinfo_first_valid st cno c Hg Hcur (conj Hcno Hc) Hv Hnone).
Qed.

(** Solves [∀ x, a ≤ x < b → P x] on concrete bounds by trying every x. *)
Ltac each_in_range :=
  let x := fresh "x" in
  let Hx := fresh "Hx" in
  intros x Hx;
  repeat match type of Hx with
    | ?a ≤ x < ?b =>
        first
          [ assert (b ≤ a) by (vm_compute; discriminate); exfalso; lia
          | let Hd := fresh in
            assert (x = a ∨ a + 1 ≤ x < b) as Hd by lia;
            clear Hx; destruct Hd as [-> | Hx];
            [ vm_compute; reflexivity
            | let a' := eval vm_compute in (a + 1) in
              change (a + 1) with a' in Hx ] ]
    end.

Lemma get_cpinfo_first_valid_witness :
  nilfs_cpfile_get_cpinfo cpfile_10_30 11 NILFS_CHECKPOINT 1
  = Some (1, 21, [mk_ci 0 20 0 0 0 0 0], cpfile_10_30).
Proof.
  apply (get_cpinfo_first_valid cpfile_10_30 11 20).
  - split; [apply Z.leb_le; vm_compute; reflexivity | reflexivity].
  - apply Z.leb_le. vm_compute. reflexivity.
  - lia.
  - apply Z.ltb_lt. vm_compute. reflexivity.
  - vm_compute. reflexivity.
  - each_in_range.
Defined.

(** When no valid entry lies between [cno] and the MDT counter, get_cpinfo
    in CHECKPOINT mode returns 0, emits nothing and leaves [*cno] as it
    was, however many entries were asked for. *)
Theorem get_cpinfo_nothing_valid (st : cpfile) (cno nci : Z) :
  geometry_ok st →
  1 ≤ nilfs_mdt_cno st ≤ U64_MAX →
  1 ≤ cno ≤ U64_MAX →
  (∀ x, cno ≤ x < nilfs_mdt_cno st → checkpoint_valid st x = false) →
  nilfs_cpfile_get_cpinfo st cno NILFS_CHECKPOINT nci = Some (0, cno, [], st).
Proof.
  intros Hg Hcur Hcno Hnone. cbn [nilfs_cpfile_get_cpinfo].
  by rewrite (do_get_cpinfo_none st cno nci Hg Hcur Hcno Hnone).
Qed.

Lemma get_cpinfo_nothing_valid_witness :
  nilfs_cpfile_get_cpinfo (set_mi_cno 30 cpfile_10_30) 21 NILFS_CHECKPOINT 4
  = Some (0, 21, [], set_mi_cno 30 cpfile_10_30).
Proof.
  apply (get_cpinfo_nothing_valid (set_mi_cno 30 cpfile_10_30) 21 4).
  - split; [apply Z.leb_le; vm_compute; reflexivity | reflexivity].
  - split; apply Z.leb_le; vm_compute; reflexivity.
  - unfold U64_MAX. lia.
  - change (nilfs_mdt_cno (set_mi_cno 30 cpfile_10_30)) with 30.
    each_in_range.
Defined.

(** ** Deleting a single checkpoint *)

(** delete_checkpoint(cno) answers -ENOENT and leaves the cpfile alone when
    no valid entry lies between cno and the MDT counter, and also when the
    first valid entry found from cno on has a stored cp_cno other than cno
    (an entry that create made and finalize never filled has cp_cno 0). *)
Theorem delete_checkpoint_enoent (st : cpfile) (cno : Z) :
  geometry_ok st →
  1 ≤ nilfs_mdt_cno st ≤ U64_MAX →
  1 ≤ cno ≤ U64_MAX →
  (∀ x, cno ≤ x < nilfs_mdt_cno st → checkpoint_valid st x = false) ∨
  (∃ c, cno ≤ c ∧ c < nilfs_mdt_cno st ∧
        checkpoint_valid st c = true ∧
        (∀ x, cno ≤ x < c → checkpoint_valid st x = false) ∧
        cp_cno (checkpoint_at st c) ≠ cno) →
  nilfs_cpfile_delete_checkpoint st cno = Some (- ENOENT, st).
Proof.
  intros Hg Hcur Hcno [Hnone | (c & Hc & Hlt & Hv & Hnone & Hne)];
    unfold nilfs_cpfile_delete_checkpoint.
  - by rewrite (do_get_cpinfo_none st cno 1 Hg Hcur Hcno Hnone).
  - rewrite (do_get_cpinfo_first_valid st cno c Hg (proj2 Hcur)
               (conj (conj (proj1 Hcno) Hc) Hlt) Hv Hnone).
    cbn [Z.ltb Z.eqb Z.compare orb head default from_option id
         nilfs_cpfile_checkpoint_to_cpinfo ci_cno].
    by assert ((cp_cno (checkpoint_at st c) =? cno) = false) as -> by lia.
Qed.

Lemma delete_checkpoint_enoent_witness :
  let st := snd (nilfs_cpfile_create_checkpoint (set_mi_cno 31 fresh_cpfile) 5) in
  nilfs_cpfile_delete_checkpoint st 5 = Some (- ENOENT, st).
Proof.
  intros st. apply delete_checkpoint_enoent.
  - split; [apply Z.leb_le; vm_compute; reflexivity | reflexivity].
  - split; apply Z.leb_le; vm_compute; reflexivity.
  - unfold U64_MAX. lia.
  - right. exists 5. split; [lia |]. split; [apply Z.ltb_lt; reflexivity |].
    split; [vm_compute; reflexivity |]. split; [intros x Hx; lia |].
    vm_compute. discriminate.
Defined.

(** delete_checkpoint(cno) answers -EBUSY and leaves the cpfile alone when
    the first valid entry found from cno on carries cno and is a snapshot. *)
Theorem delete_checkpoint_snapshot_busy (st : cpfile) (cno c : Z) :
  geometry_ok st →
  nilfs_mdt_cno st ≤ U64_MAX →
  1 ≤ cno ≤ c →
  c < nilfs_mdt_cno st →
  checkpoint_valid st c = true →
  (∀ x, cno ≤ x < c → checkpoint_valid st x = false) →
  cp_cno (checkpoint_at st c) = cno →
  nilfs_checkpoint_snapshot (checkpoint_at st c) = true →
  nilfs_cpfile_delete_checkpoint st cno = Some (- EBUSY, st).
Proof.
  intros Hg Hcur Hcno Hc Hv Hnone Heq Hsnap.
  unfold nilfs_cpfile_delete_checkpoint.
  rewrite (do_get_cpinfo_first_valid st cno c Hg Hcur (conj Hcno Hc) Hv Hnone).
  cbn [Z.ltb Z.eqb Z.compare orb head default from_option id
       nilfs_cpfile_checkpoint_to_cpinfo ci_cno].
  rewrite Heq, Z.eqb_refl. cbn [negb].
  unfold nilfs_cpinfo_snapshot.
  change (ci_flags (nilfs_cpfile_checkpoint_to_cpinfo (checkpoint_at st c)))
    with (cp_flags (checkpoint_at st c)).
  unfold nilfs_checkpoint_snapshot in Hsnap. by rewrite Hsnap.
Qed.

Lemma delete_checkpoint_snapshot_busy_witness :
  nilfs_cpfile_delete_checkpoint cpfile_10_30 10 = Some (- EBUSY, cpfile_10_30).
Proof.
  apply (delete_checkpoint_snapshot_busy cpfile_10_30 10 10).
  - split; [apply Z.leb_le; vm_compute; reflexivity | reflexivity].
  - apply Z.leb_le. vm_compute. reflexivity.
  - lia.
  - apply Z.ltb_lt. vm_compute. reflexivity.
  - vm_compute. reflexivity.
  - intros x Hx. lia.
  - vm_compute. reflexivity.
  - vm_compute. reflexivity.
Defined.

(** When the first valid entry found from cno on carries cno and is not a
    snapshot, delete_checkpoint(cno) is the range delete of [cno, cno + 1). *)
Lemma delete_checkpoint_as_range (st : cpfile) (cno c : Z) :
  geometry_ok st →
  nilfs_mdt_cno st ≤ U64_MAX →
  1 ≤ cno ≤ c →
  c < nilfs_mdt_cno st →
  checkpoint_valid st c = true →
  (∀ x, cno ≤ x < c → checkpoint_valid st x = false) →
  cp_cno (checkpoint_at st c) = cno →
  nilfs_checkpoint_snapshot (checkpoint_at st c) = false →
  nilfs_cpfile_delete_checkpoint st cno
  = nilfs_cpfile_delete_checkpoints st cno (cno + 1).
Proof.
  intros Hg Hcur Hcno Hc Hv Hnone Heq Hsnap.
  unfold nilfs_cpfile_delete_checkpoint.
  rewrite (do_get_cpinfo_first_valid st cno c Hg Hcur (conj Hcno Hc) Hv Hnone).
  cbn [Z.ltb Z.eqb Z.compare orb head default from_option id
       nilfs_cpfile_checkpoint_to_cpinfo ci_cno].
  rewrite Heq, Z.eqb_refl. cbn [negb].
  unfold nilfs_cpinfo_snapshot.
  change (ci_flags (nilfs_cpfile_checkpoint_to_cpinfo (checkpoint_at st c)))
    with (cp_flags (checkpoint_at st c)).
  unfold nilfs_checkpoint_snapshot in Hsnap. rewrite Hsnap.
  rewrite wrap64_u64; [done |]. unfold is_u64. lia.
Qed.

(** ** Range delete *)

Lemma with_blocks_id st : with_blocks (cp_blocks st) st = st.
Proof. by destruct st. Qed.

Lemma bh_checkpoint_slot_at st bh blk off :
  cp_blocks st !! bh = Some blk → bh_checkpoint st bh off = slot_at blk off.
Proof. intros H. unfold bh_checkpoint, slot_at. by rewrite H. Qed.

Lemma count_range_ext P Q a n :
  (∀ x, a ≤ x < a + Z.of_nat n → P x = Q x) →
  count_range P a n = count_range Q a n.
Proof.
  revert a; induction n as [|n IH]; intros a H; [done|].
  cbn [count_range]. rewrite (H a) by lia.
  rewrite (IH (a + 1)); [done|]. intros; apply H; lia.
Qed.

Lemma count_range_bounds P a n : 0 ≤ count_range P a n ≤ Z.of_nat n.
Proof.
  revert a; induction n as [|n IH]; intros a; cbn [count_range]; [lia|].
  specialize (IH (a + 1)). destruct (P a); lia.
Qed.

Lemma count_range_zero P a n :
  count_range P a n = 0 ↔ ∀ x, a ≤ x < a + Z.of_nat n → P x = false.
Proof.
  revert a; induction n as [|n IH]; intros a; cbn [count_range].
  - split; [intros _ x ?; lia | done].
  - pose proof (count_range_bounds P (a + 1) n). split.
    + intros H0 x Hx. destruct (P a) eqn:Ha; [lia|].
      destruct (decide (x = a)) as [->|]; [done|].
      apply (proj1 (IH (a + 1))); lia.
    + intros H0. rewrite (H0 a) by lia.
      rewrite (proj2 (IH (a + 1))); [done|]. intros; apply H0; lia.
Qed.

Lemma count_range_pos P a n :
  0 < count_range P a n ↔ ∃ x, a ≤ x < a + Z.of_nat n ∧ P x = true.
Proof.
  split.
  - revert a. induction n as [|n IH]; intros a; cbn [count_range]; [lia|].
    destruct (P a) eqn:Ha.
    + intros _. exists a. split; [lia | done].
    + intros Hpos. destruct (IH (a + 1)) as (x & ? & ?); [lia|].
      exists x. split; [lia | done].
  - intros (x & Hx & HP). pose proof (count_range_bounds P a n).
    destruct (decide (count_range P a n = 0)) as [H0|]; [|lia].
    rewrite (proj1 (count_range_zero P a n) H0 x Hx) in HP. done.
Qed.

Lemma count_range_app P a n m :
  count_range P a (n + m)
  = count_range P a n + count_range P (a + Z.of_nat n) m.
Proof.
  revert a; induction n as [|n IH]; intros a.
  - cbn. by rewrite Z.add_0_r.
  - cbn [count_range Nat.add]. rewrite IH.
    replace (a + 1 + Z.of_nat n) with (a + Z.of_nat (S n)) by lia. lia.
Qed.

Lemma count_range_shift P a n d :
  count_range P a n = count_range (λ k, P (k + d)) (a - d) n.
Proof.
  revert a; induction n as [|n IH]; intros a; cbn [count_range]; [done|].
  replace (a - d + d) with a by lia. rewrite (IH (a + 1)).
  by replace (a + 1 - d) with (a - d + 1) by lia.
Qed.

Lemma invalidate_slots_lookup lo n blk i :
  invalidate_slots lo n blk !! i
  = (λ cp, if bool_decide (lo ≤ Z.of_nat i < lo + Z.of_nat n) && deletable cp
           then nilfs_checkpoint_set_invalid cp else cp) <$> blk !! i.
Proof. unfold invalidate_slots. by rewrite list_lookup_imap. Qed.

Lemma invalidate_slots_length lo n blk :
  length (invalidate_slots lo n blk) = length blk.
Proof. apply length_imap. Qed.

(** One step of the inner loop, seen on the block. *)
Lemma invalidate_slots_step off n blk :
  0 ≤ off →
  invalidate_slots (off + 1) n
    (if deletable (slot_at blk off)
     then alter nilfs_checkpoint_set_invalid (Z.to_nat off) blk else blk)
  = invalidate_slots off (S n) blk.
Proof.
  intros Hoff. apply list_eq. intros i. rewrite !invalidate_slots_lookup.
  unfold slot_at. destruct (decide (i = Z.to_nat off)) as [->|Hne].
  - rewrite (bool_decide_eq_false_2 (off + 1 ≤ _ < _)) by lia.
    rewrite (bool_decide_eq_true_2 (off ≤ _ < _)) by lia. cbn [andb].
    destruct (blk !! Z.to_nat off) as [c|] eqn:Hc;
      cbn [default from_option id].
    + destruct (deletable c) eqn:Hd.
      * rewrite list_lookup_alter_eq, Hc. cbn. by rewrite Hd.
      * rewrite Hc. cbn. by rewrite Hd.
    + destruct (deletable zero_checkpoint).
      * by rewrite list_lookup_alter_eq, Hc.
      * by rewrite Hc.
  - assert ((if deletable (default zero_checkpoint (blk !! Z.to_nat off))
             then alter nilfs_checkpoint_set_invalid (Z.to_nat off) blk
             else blk) !! i = blk !! i) as ->.
    { destruct (deletable _); [|done]. by rewrite list_lookup_alter_ne. }
    rewrite (bool_decide_ext (off + 1 ≤ Z.of_nat i < off + 1 + Z.of_nat n)
               (off ≤ Z.of_nat i < off + Z.of_nat (S n))) by lia.
    done.
Qed.

Lemma invalidate_slots_none lo n blk :
  (∀ k, lo ≤ k < lo + Z.of_nat n → deletable (slot_at blk k) = false) →
  invalidate_slots lo n blk = blk.
Proof.
  intros H. apply list_eq. intros i. rewrite invalidate_slots_lookup.
  destruct (blk !! i) as [c|] eqn:Hc; [|done]. cbn.
  destruct (bool_decide _) eqn:Hb; [|done]. apply bool_decide_eq_true in Hb.
  specialize (H (Z.of_nat i) Hb). unfold slot_at in H.
  rewrite Nat2Z.id, Hc in H. cbn in H. by rewrite H.
Qed.

(** The inner loop of delete_checkpoints on [n] slots from [off]. *)
Lemma delete_scan_spec n : ∀ st bh off blk nicps nss,
  cp_blocks st !! bh = Some blk → 0 ≤ off →
  delete_scan n st bh off nicps nss
  = (with_blocks (<[bh := invalidate_slots off n blk]> (cp_blocks st)) st,
     nicps + count_range (λ k, deletable (slot_at blk k)) off n,
     nss + count_range (λ k, nilfs_checkpoint_snapshot (slot_at blk k)) off n).
Proof.
  induction n as [|n IH]; intros st bh off blk nicps nss Hblk Hoff.
  - cbn [delete_scan count_range].
    rewrite (invalidate_slots_none off 0 blk) by (intros; lia).
    rewrite insert_id by done. rewrite with_blocks_id.
    by rewrite !Z.add_0_r.
  - cbn [delete_scan count_range].
    rewrite (bh_checkpoint_slot_at _ _ blk) by done.
    rewrite <- (invalidate_slots_step off n blk) by done.
    destruct (nilfs_checkpoint_snapshot (slot_at blk off)) eqn:Hs.
    + assert (deletable (slot_at blk off) = false) as Hd
        by (unfold deletable; by rewrite Hs).
      rewrite Hd. rewrite (IH st bh (off + 1) blk) by (done || lia).
      f_equal; try lia; f_equal; try lia.
    + destruct (nilfs_checkpoint_invalid (slot_at blk off)) eqn:Hi;
        cbn [negb].
      * assert (deletable (slot_at blk off) = false) as Hd
          by (unfold deletable; by rewrite Hs, Hi).
        rewrite Hd. rewrite (IH st bh (off + 1) blk) by (done || lia).
        f_equal; try lia; f_equal; try lia.
      * assert (deletable (slot_at blk off) = true) as Hd
          by (unfold deletable; by rewrite Hs, Hi).
        rewrite Hd.
        set (blk1 := alter nilfs_checkpoint_set_invalid (Z.to_nat off) blk).
        assert (cp_blocks (bh_update nilfs_checkpoint_set_invalid bh off st)
                = <[bh := blk1]> (cp_blocks st)) as Hb1.
        { unfold bh_update. cbn. by apply alter_alt_Some. }
        rewrite (IH _ bh (off + 1) blk1); [| by rewrite Hb1, lookup_insert_eq | lia].
        rewrite Hb1, insert_insert_eq.
        assert (∀ (P : nilfs_checkpoint → bool),
                  count_range (λ k, P (slot_at blk1 k)) (off + 1) n
                  = count_range (λ k, P (slot_at blk k)) (off + 1) n) as Hc.
          { intros P. apply count_range_ext. intros x Hx. unfold slot_at, blk1.
            rewrite list_lookup_alter_ne; [done|]. lia. }
        rewrite !Hc. f_equal; try lia; f_equal; try lia.
Qed.

Lemma delete_loop_done fuel st cno end_ ret tn ns :
  end_ ≤ cno → delete_loop fuel st cno end_ ret tn ns = Some (ret, st, tn, ns).
Proof.
  intros H. destruct fuel; cbn [delete_loop];
    by rewrite (proj2 (Z.ltb_ge cno end_)).
Qed.

Lemma block_after_delete_untouched E start end_ b blk :
  range_len E start end_ b = 0%nat →
  block_after_delete E start end_ b blk = Some blk.
Proof. intros H. unfold block_after_delete. by rewrite H. Qed.

Lemma same_but_blocks_refl st : same_but_blocks st st.
Proof. by repeat split. Qed.

Lemma same_but_blocks_trans st1 st2 st3 :
  same_but_blocks st1 st2 → same_but_blocks st2 st3 → same_but_blocks st1 st3.
Proof.
  intros (? & ? & ? & ? & ?) (? & ? & ? & ? & ?).
  repeat split; congruence.
Qed.

Lemma same_but_blocks_geometry st st' :
  same_but_blocks st st' → geometry_ok st → geometry_ok st'.
Proof. intros (HE & HF & _) [? ?]. split; congruence. Qed.

Lemma same_but_blocks_blkoff st st' c :
  same_but_blocks st st' →
  nilfs_cpfile_get_blkoff st' c = nilfs_cpfile_get_blkoff st c ∧
  nilfs_cpfile_get_offset st' c = nilfs_cpfile_get_offset st c.
Proof.
  intros (HE & HF & _). unfold nilfs_cpfile_get_blkoff,
    nilfs_cpfile_get_offset, nilfs_cpfile_checkpoints_per_block.
  by rewrite HE, HF.
Qed.

(** Reading by cno only looks at the block that holds the cno. *)
Lemma checkpoint_at_same_block st st' c :
  same_but_blocks st st' →
  cp_blocks st' !! nilfs_cpfile_get_blkoff st c
  = cp_blocks st !! nilfs_cpfile_get_blkoff st c →
  block_present st' (nilfs_cpfile_get_blkoff st' c)
  = block_present st (nilfs_cpfile_get_blkoff st c) ∧
  checkpoint_at st' c = checkpoint_at st c.
Proof.
  intros Hs Hb. destruct (same_but_blocks_blkoff st st' c Hs) as [Hbo Hoff].
  unfold checkpoint_at, bh_checkpoint, block_present.
  by rewrite Hbo, Hoff, Hb.
Qed.

Section DeleteStep.
Context (st : cpfile) (cno end_ : Z).
Hypothesis Hgeom : geometry_ok st.
Hypothesis Hcno : 0 ≤ cno < end_.
Hypothesis Hend : end_ ≤ U64_MAX.

Local Abbreviation E := (mi_entries_per_block st).
Local Abbreviation b := (nilfs_cpfile_get_blkoff st cno).
Local Abbreviation off := (nilfs_cpfile_get_offset st cno).
Local Abbreviation ncps := (Z.min (E - off) (end_ - cno)).

Lemma step_facts :
  1 ≤ E ∧ 0 ≤ off < E ∧ cno = E * b + off ∧ 1 ≤ ncps ∧
  nilfs_cpfile_checkpoints_in_block st cno end_ = ncps ∧
  wrap64 (cno + ncps) = cno + ncps ∧
  range_lo E cno b = off ∧ range_len E cno end_ b = Z.to_nat ncps.
Proof.
  assert (is_u64 cno) as Hu by (unfold is_u64; lia).
  pose proof (offset_range st cno Hgeom Hu) as Ho.
  pose proof (cno_blkoff_offset st cno Hgeom Hu) as Hdm.
  destruct Hgeom as [HE _].
  split; [done|]. split; [done|]. split; [done|]. split; [lia|].
  split.
  { unfold nilfs_cpfile_checkpoints_in_block,
      nilfs_cpfile_checkpoints_per_block.
    rewrite (wrap64_u64 (end_ - cno)); [done|]. unfold is_u64. lia. }
  split; [apply wrap64_u64; unfold is_u64; lia|].
  unfold range_lo, range_len. split; [lia|]. f_equal. lia.
Qed.

(** Inside the block of [cno] reading by cno is reading the slot. *)
Lemma step_slot x :
  cno ≤ x < cno + ncps →
  nilfs_cpfile_get_blkoff st x = b ∧
  nilfs_cpfile_get_offset st x = x - E * b.
Proof.
  intros Hx. destruct step_facts as (HE & Ho & Hdm & Hn & _).
  destruct (blkoff_offset_add st cno (x - cno)) as [Hb Hof];
    try done; try (unfold is_u64; lia).
  replace (cno + (x - cno)) with x in * by lia. split; [done|]. lia.
Qed.

Lemma step_count (P : nilfs_checkpoint → bool) blk :
  cp_blocks st !! b = Some blk →
  count_range (λ x, block_present st (nilfs_cpfile_get_blkoff st x)
                    && P (checkpoint_at st x)) cno (Z.to_nat ncps)
  = count_range (λ k, P (slot_at blk k)) off (Z.to_nat ncps).
Proof.
  intros Hblk. destruct step_facts as (HE & Ho & Hdm & Hn & _).
  rewrite (count_range_shift (λ k, P (slot_at blk k)) off _ (- (E * b))).
  replace (off - - (E * b)) with cno by lia.
  apply count_range_ext. intros x Hx.
  destruct (step_slot x) as [Hb Hof]; [lia|].
  unfold checkpoint_at. rewrite Hb, Hof.
  rewrite (bh_checkpoint_slot_at _ _ blk) by done.
  rewrite (proj2 (block_present_true st b)) by by eexists.
  cbn [andb]. by replace (x + - (E * b)) with (x - E * b) by lia.
Qed.

Lemma step_count_hole (P : nilfs_checkpoint → bool) :
  cp_blocks st !! b = None →
  count_range (λ x, block_present st (nilfs_cpfile_get_blkoff st x)
                    && P (checkpoint_at st x)) cno (Z.to_nat ncps) = 0.
Proof.
  intros Hblk. apply count_range_zero. intros x Hx.
  destruct (step_slot x) as [Hb Hof]; [lia|].
  rewrite Hb. by rewrite (proj2 (block_present_false st b)).
Qed.

(** One iteration of the outer loop of delete_checkpoints. *)
Lemma delete_loop_step fuel tn ns :
  is_u64 tn →
  ∃ st1,
    delete_loop (S fuel) st cno end_ 0 tn ns
    = delete_loop fuel st1 (cno + ncps) end_ 0
        (wrap64 (tn + count_range (deletable_at st) cno (Z.to_nat ncps)))
        (ns + count_range (snapshot_at st) cno (Z.to_nat ncps)) ∧
    same_but_blocks st st1 ∧
    (∀ b', b' ≠ b → cp_blocks st1 !! b' = cp_blocks st !! b') ∧
    cp_blocks st1 !! b = cp_blocks st !! b ≫= block_after_delete E cno end_ b.
Proof.
  intros Htn.
  destruct step_facts as (HE & Ho & Hdm & Hn & Hin & Hnext & Hlo & Hlen).
  cbn [delete_loop]. rewrite (proj2 (Z.ltb_lt cno end_)) by lia.
  rewrite Hin, Hnext, get_checkpoint_block_nocreate.
  unfold deletable_at, snapshot_at.
  destruct (cp_blocks st !! b) as [blk|] eqn:Hblk.
  - rewrite (proj2 (block_present_true st b)) by by eexists.
    rewrite !(step_count _ blk Hblk).
    change (0 <? 0) with false. cbv iota.
    rewrite (delete_scan_spec _ st b off blk 0 ns Hblk) by lia.
    rewrite Z.add_0_l. cbn [mbind option_bind].
    unfold block_after_delete. rewrite Hlo, Hlen. cbv zeta.
    pose proof (count_range_bounds (λ k, deletable (slot_at blk k)) off
                  (Z.to_nat ncps)) as Hbnd.
    set (nicps := count_range (λ k, deletable (slot_at blk k)) off
                    (Z.to_nat ncps)) in *.
    set (blk' := invalidate_slots off (Z.to_nat ncps) blk).
    set (st0 := with_blocks (<[b := blk']> (cp_blocks st)) st).
    assert (same_but_blocks st st0) as Hs0 by by repeat split.
    destruct (nicps <=? 0) eqn:Hle.
    + apply Z.leb_le in Hle. assert (nicps = 0) as H0 by lia.
      rewrite H0. cbn [Z.eqb].
      exists st0. rewrite Z.add_0_r, (wrap64_u64 tn) by done.
      split; [done|]. split; [done|]. split.
      * intros b' Hb'. cbn. by rewrite lookup_insert_ne.
      * cbn. rewrite lookup_insert_eq. f_equal.
        apply invalidate_slots_none. by apply count_range_zero.
    + apply Z.leb_gt in Hle.
      rewrite (proj2 (Z.eqb_neq nicps 0)) by lia.
      change (nilfs_cpfile_is_in_first
                (nilfs_mdt_mark_dirty (mark_buffer_dirty b st0)) cno)
        with (b =? 0).
      set (stm := nilfs_mdt_mark_dirty (mark_buffer_dirty b st0)).
      assert (same_but_blocks st stm) as Hsm by by repeat split.
      assert (cp_blocks stm = <[b := blk']> (cp_blocks st)) as Hbm by done.
      destruct (b =? 0) eqn:Hb0.
      * exists stm. split; [done|]. split; [done|]. rewrite Hbm. split.
        -- intros b' Hb'. by rewrite lookup_insert_ne.
        -- by rewrite lookup_insert_eq.
      * unfold nilfs_cpfile_block_sub_valid_checkpoints.
        rewrite (bh_checkpoint_slot_at stm b blk' 0)
          by (rewrite Hbm; apply lookup_insert_eq).
        set (count := wrap32 (cp_checkpoints_count (slot_at blk' 0) - nicps)).
        set (st2 := bh_update (set_cp_checkpoints_count count) b 0 stm).
        assert (same_but_blocks st st2) as Hs2 by by repeat split.
        assert (cp_blocks st2
                = <[b := alter (set_cp_checkpoints_count count) 0%nat blk']>
                    (cp_blocks st)) as Hb2.
        { unfold st2, bh_update. cbn [cp_blocks with_blocks]. rewrite Hbm.
          by rewrite alter_insert_eq. }
        destruct (count =? 0) eqn:Hc0; cbn [negb].
        -- unfold nilfs_cpfile_delete_checkpoint_block, nilfs_mdt_delete_block.
           change (nilfs_cpfile_get_blkoff st2 cno) with b.
           change (0 =? 0) with true. cbn [negb].
           eexists. split; [done|]. split; [by repeat split|].
           cbn [cp_blocks with_blocks]. split.
           ++ intros b' Hb'. rewrite lookup_delete_ne by done.
              rewrite Hb2. by rewrite lookup_insert_ne.
           ++ by rewrite lookup_delete_eq.
        -- exists st2. split; [done|]. split; [done|]. rewrite Hb2. split.
           ++ intros b' Hb'. by rewrite lookup_insert_ne.
           ++ by rewrite lookup_insert_eq.
  - rewrite (proj2 (block_present_false st b)) by done.
    rewrite !step_count_hole by done.
    exists st. rewrite Z.add_0_r, (wrap64_u64 tn), Z.add_0_r by done.
    split; [done|]. split; [apply same_but_blocks_refl|]. split; [done|].
    by rewrite Hblk.
Qed.

End DeleteStep.

Lemma wrap64_range x : is_u64 (wrap64 x).
Proof.
  unfold is_u64, wrap64, U64_MAX.
  pose proof (Z.mod_pos_bound x (2 ^ 64)). lia.
Qed.

Lemma wrap64_add_l x y : wrap64 (wrap64 x + y) = wrap64 (x + y).
Proof. unfold wrap64. by rewrite Zplus_mod_idemp_l. Qed.

(** The outer loop from [cno] to [end_]: the totals it returns and the block
    store it leaves. *)
Lemma delete_loop_spec end_ fuel : ∀ st cno tn ns,
  geometry_ok st → 0 ≤ cno ≤ end_ → end_ ≤ U64_MAX → is_u64 tn →
  (cno < end_ →
   nilfs_cpfile_get_blkoff st (end_ - 1) - nilfs_cpfile_get_blkoff st cno
   < Z.of_nat fuel) →
  ∃ st',
    delete_loop fuel st cno end_ 0 tn ns
    = Some (0, st',
            wrap64 (tn + count_range (deletable_at st) cno
                           (Z.to_nat (end_ - cno))),
            ns + count_range (snapshot_at st) cno (Z.to_nat (end_ - cno))) ∧
    same_but_blocks st st' ∧
    ∀ b, cp_blocks st' !! b
         = cp_blocks st !! b
             ≫= block_after_delete (mi_entries_per_block st) cno end_ b.
Proof.
  induction fuel as [|fuel IH]; intros st cno tn ns Hg Hcno Hend Htn Hfuel.
  all: destruct (decide (cno < end_)) as [Hlt|Hge].
  all: try (exfalso; specialize (Hfuel Hlt);
            pose proof (blkoff_mono st cno (end_ - 1) Hg) as Hm;
            unfold is_u64 in Hm; lia).
  all: try (assert (cno = end_) as -> by lia;
            exists st; rewrite delete_loop_done by lia;
            rewrite Z.sub_diag; cbn [Z.to_nat count_range];
            rewrite !Z.add_0_r, (wrap64_u64 tn) by done;
            split; [done|]; split; [apply same_but_blocks_refl|];
            intros b; destruct (cp_blocks st !! b) as [blk|];
            cbn [mbind option_bind]; [|done];
            rewrite block_after_delete_untouched; [done|];
            unfold range_len; destruct Hg as [HE _];
            rewrite Z.mul_add_distr_l; lia).
  destruct (delete_loop_step st cno end_ Hg (conj (proj1 Hcno) Hlt) Hend
              fuel tn ns Htn) as (st1 & Heq & Hs1 & Hne & Hbb).
  destruct (step_facts st cno end_ Hg (conj (proj1 Hcno) Hlt) Hend)
    as (HE & Ho & Hdm & Hn & _).
  rewrite Heq. clear Heq.
  set (E := mi_entries_per_block st) in *.
  set (b := nilfs_cpfile_get_blkoff st cno) in *.
  set (off := nilfs_cpfile_get_offset st cno) in *.
  set (ncps := Z.min (E - off) (end_ - cno)) in *.
  assert (E * (b + 1) = E * b + E) as Hmul by lia.
  assert (cno + ncps < end_ →
          nilfs_cpfile_get_blkoff st (cno + ncps) = b + 1) as Hnb.
  { intros Hl. replace (cno + ncps) with (E * (b + 1)) by lia.
    apply blkoff_offset_block_start; [done|]. unfold is_u64. lia. }
  assert (∀ x, cno + ncps ≤ x < end_ → nilfs_cpfile_get_blkoff st x ≠ b)
    as Hlater.
  { intros x Hx Hxb.
    pose proof (block_bounds st x Hg) as Hbb'. unfold is_u64 in Hbb'.
    rewrite Hxb in Hbb'. fold E b in Hbb'. lia. }
  destruct (IH st1 (cno + ncps)
              (wrap64 (tn + count_range (deletable_at st) cno (Z.to_nat ncps)))
              (ns + count_range (snapshot_at st) cno (Z.to_nat ncps)))
    as (st' & Heq & Hs' & Hblocks).
  { by apply (same_but_blocks_geometry st). }
  { lia. }
  { done. }
  { apply wrap64_range. }
  { intros Hl. rewrite !(proj1 (same_but_blocks_blkoff st st1 _ Hs1)).
    rewrite (Hnb Hl). specialize (Hfuel Hlt). fold b in Hfuel. lia. }
  exists st'. split; [|split].
  - rewrite Heq. clear Heq.
    assert (∀ P : nilfs_checkpoint → bool,
              count_range (λ x, block_present st1 (nilfs_cpfile_get_blkoff st1 x)
                                && P (checkpoint_at st1 x))
                          (cno + ncps) (Z.to_nat (end_ - (cno + ncps)))
              = count_range (λ x, block_present st (nilfs_cpfile_get_blkoff st x)
                                  && P (checkpoint_at st x))
                            (cno + ncps) (Z.to_nat (end_ - (cno + ncps))))
      as Hsame.
    { intros P. apply count_range_ext. intros x Hx.
      destruct (checkpoint_at_same_block st st1 x Hs1) as [-> ->]; [|done].
      apply Hne, Hlater. lia. }
    unfold deletable_at, snapshot_at in *. rewrite !Hsame.
    replace (Z.to_nat (end_ - cno))
      with (Z.to_nat ncps + Z.to_nat (end_ - (cno + ncps)))%nat by lia.
    rewrite !count_range_app, !Z2Nat.id by lia.
    by rewrite wrap64_add_l, !Z.add_assoc.
  - by apply (same_but_blocks_trans st st1).
  - intros b'. rewrite Hblocks.
    destruct Hs1 as (-> & _). fold E.
    destruct (decide (b' = b)) as [->|Hneq].
    + rewrite Hbb. destruct (cp_blocks st !! b) as [blk|];
        cbn [mbind option_bind]; [|done].
      destruct (block_after_delete E cno end_ b blk) as [blk1|];
        cbn [mbind option_bind]; [|done].
      apply block_after_delete_untouched. unfold range_len. lia.
    + rewrite (Hne b' Hneq). destruct (cp_blocks st !! b') as [blk|];
        cbn [mbind option_bind]; [|done].
      destruct (decide (b < b')) as [Hgt|Hlt'].
      * assert (E * (b + 1) ≤ E * b') by nia.
        unfold block_after_delete, range_lo, range_len.
        by replace (Z.max (cno + ncps) (E * b')) with (Z.max cno (E * b'))
          by lia.
      * assert (E * (b' + 1) ≤ E * b) by nia.
        rewrite !block_after_delete_untouched;
          first [done | unfold range_len; lia].
Qed.

(** delete_checkpoints on a well-formed range of a cpfile that has its header
    block: the loop ends, the return value only depends on the snapshots
    seen, and the header and every block are as computed from the state
    before the call. *)
Lemma delete_checkpoints_effect st start end_ :
  geometry_ok st → block_present st 0 = true →
  1 ≤ start ≤ end_ → end_ ≤ U64_MAX →
  ∃ st',
    nilfs_cpfile_delete_checkpoints st start end_
    = Some (if 0 <? count_range (snapshot_at st) start
                                (Z.to_nat (end_ - start))
            then - EBUSY else 0, st') ∧
    (mi_entries_per_block st' = mi_entries_per_block st ∧
     mi_first_entry_offset st' = mi_first_entry_offset st) ∧
    mi_cno st' = mi_cno st ∧
    sb_log st' = sb_log st ∧
    cp_header st'
    = (if 0 <? count_range (deletable_at st) start (Z.to_nat (end_ - start))
       then set_ch_ncheckpoints
              (le64_add_cpu (ch_ncheckpoints (cp_header st))
                 (- count_range (deletable_at st) start
                                (Z.to_nat (end_ - start))))
              (cp_header st)
       else cp_header st) ∧
    ∀ b, cp_blocks st' !! b
         = cp_blocks st !! b
             ≫= block_after_delete (mi_entries_per_block st) start end_ b.
Proof.
  intros Hg Hhdr Hrange Hend. unfold nilfs_cpfile_delete_checkpoints.
  rewrite (proj2 (Z.eqb_neq start 0)) by lia.
  rewrite (proj2 (Z.ltb_ge end_ start)) by lia. cbn [orb].
  rewrite get_header_block_present by done.
  change (0 <? 0) with false. cbv iota.
  destruct (delete_loop_spec end_
              (S (Z.to_nat (nilfs_cpfile_get_blkoff st end_
                            - nilfs_cpfile_get_blkoff st start)))
              st start 0 0 Hg) as (st1 & Heq & Hs1 & Hblocks);
    [lia | done | unfold is_u64, U64_MAX; lia | |].
  { intros Hlt.
    pose proof (blkoff_mono st (end_ - 1) end_ Hg) as Hm1.
    pose proof (blkoff_mono st start (end_ - 1) Hg) as Hm2.
    unfold is_u64 in Hm1, Hm2. lia. }
  rewrite Heq. clear Heq. rewrite !Z.add_0_l.
  pose proof (count_range_bounds (deletable_at st) start
                (Z.to_nat (end_ - start))) as Hbnd.
  rewrite wrap64_u64 by (unfold is_u64; lia).
  set (n := count_range (deletable_at st) start (Z.to_nat (end_ - start)))
    in *.
  destruct Hs1 as (HE & HF & Hc & Hh & Hl).
  destruct (0 <? n); eexists; (split; [done|]); cbn;
    (split; [by split|]); (split; [done|]); (split; [done|]);
    (split; [by rewrite Hh | done]).
Qed.

(** *** What a range delete does to a slot *)

Lemma range_slot E start end_ b i :
  1 ≤ E → 0 ≤ i < E →
  range_lo E start b ≤ i
    < range_lo E start b + Z.of_nat (range_len E start end_ b)
  ↔ start ≤ E * b + i < end_.
Proof.
  intros HE Hi. unfold range_lo, range_len.
  rewrite Z.mul_add_distr_l. lia.
Qed.

Lemma set_census_same cp :
  set_cp_checkpoints_count (cp_checkpoints_count cp) cp = cp.
Proof. by destruct cp. Qed.

Lemma block_after_delete_lookup E start end_ b blk blk' i :
  1 ≤ E → Z.of_nat i < E →
  block_after_delete E start end_ b blk = Some blk' →
  ∃ f,
    blk' !! i
    = (λ cp, f (if bool_decide (start ≤ E * b + Z.of_nat i < end_)
                   && deletable cp
                then nilfs_checkpoint_set_invalid cp else cp)) <$> blk !! i ∧
    (f = id ∨ (i = 0%nat ∧ b ≠ 0 ∧ ∃ k, f = set_cp_checkpoints_count k)).
Proof.
  intros HE Hi. unfold block_after_delete.
  pose proof (range_slot E start end_ b (Z.of_nat i) HE) as Hr.
  set (lo := range_lo E start b) in *.
  set (n := range_len E start end_ b) in *.
  assert (invalidate_slots lo n blk !! i
          = (λ cp, if bool_decide (start ≤ E * b + Z.of_nat i < end_)
                      && deletable cp
                   then nilfs_checkpoint_set_invalid cp else cp) <$> blk !! i)
    as Hinv.
  { rewrite invalidate_slots_lookup.
    by rewrite (bool_decide_ext _ (start ≤ E * b + Z.of_nat i < end_))
      by (apply Hr; lia). }
  destruct (count_range _ lo n =? 0) eqn:H0.
  - intros [= <-]. exists id. unfold id. split; [|by left].
    apply Z.eqb_eq in H0.
    rewrite <- Hinv. rewrite invalidate_slots_none;
      [by destruct (blk !! i) | by apply count_range_zero].
  - destruct (b =? 0) eqn:Hb0.
    + intros [= <-]. exists id. unfold id. split; [|by left].
      rewrite Hinv. by destruct (blk !! i).
    + destruct (wrap32 _ =? 0) eqn:Hc0; [done|]. intros [= <-].
      destruct i as [|i].
      * eexists. split; [| right; split; [done|]; split; [lia|]; by eexists].
        rewrite list_lookup_alter_eq, Hinv. by destruct (blk !! 0%nat).
      * exists id. unfold id. split; [|by left].
        rewrite list_lookup_alter_ne, Hinv by done. by destruct (blk !! S i).
Qed.

(** The entry of [x] after a range delete, from the entry before. *)
Lemma delete_entry_after st st' start end_ x cp :
  geometry_ok st → is_u64 x →
  mi_entries_per_block st' = mi_entries_per_block st →
  mi_first_entry_offset st' = mi_first_entry_offset st →
  (∀ b, cp_blocks st' !! b
        = cp_blocks st !! b
            ≫= block_after_delete (mi_entries_per_block st) start end_ b) →
  entry st x = Some cp →
  (entry st' x = None ∧
   block_present st' (nilfs_cpfile_get_blkoff st' x) = false) ∨
  ∃ f, entry st' x
       = Some (f (if bool_decide (start ≤ x < end_) && deletable cp
                  then nilfs_checkpoint_set_invalid cp else cp)) ∧
       block_present st' (nilfs_cpfile_get_blkoff st' x) = true ∧
       (f = id ∨
        (nilfs_cpfile_get_offset st x = 0 ∧ nilfs_cpfile_get_blkoff st x ≠ 0 ∧
         ∃ k, f = set_cp_checkpoints_count k)).
Proof.
  intros Hg Hx HE HF Hblocks Hcp.
  pose proof (offset_range st x Hg Hx) as Ho.
  pose proof (cno_blkoff_offset st x Hg Hx) as Hdm.
  assert (nilfs_cpfile_get_blkoff st' x = nilfs_cpfile_get_blkoff st x ∧
          nilfs_cpfile_get_offset st' x = nilfs_cpfile_get_offset st x)
    as [Hb' Ho'].
  { unfold nilfs_cpfile_get_blkoff, nilfs_cpfile_get_offset,
      nilfs_cpfile_checkpoints_per_block. by rewrite HE, HF. }
  unfold entry, block_present in *. rewrite Hb', Ho', Hblocks.
  destruct (cp_blocks st !! nilfs_cpfile_get_blkoff st x) as [blk|];
    [|done]. cbn [mbind option_bind] in *.
  destruct (block_after_delete _ start end_ _ blk) as [blk'|] eqn:Ha.
  - right. cbn [mbind option_bind].
    destruct (block_after_delete_lookup _ _ _ _ _ _
                (Z.to_nat (nilfs_cpfile_get_offset st x))
                (proj1 Hg) ltac:(lia) Ha) as (f & Hl & Hf).
    rewrite Hcp in Hl. cbn [fmap option_fmap option_map] in Hl.
    rewrite Z2Nat.id, <- Hdm in Hl by lia.
    exists f. split; [done|]. split.
    { apply bool_decide_eq_true_2. by eexists. }
    destruct Hf as [-> | (Hi & Hb0 & k & ->)]; [by left | right].
    split; [lia|]. split; [done|]. by eexists.
  - left. split; [done|]. apply bool_decide_eq_false_2. by intros [? ?].
Qed.

(** *** Slots and cnos *)

Lemma slot_as_cno st b k :
  geometry_ok st → 0 ≤ k < mi_entries_per_block st →
  is_u64 (mi_entries_per_block st * b + k) →
  nilfs_cpfile_get_blkoff st (mi_entries_per_block st * b + k) = b ∧
  nilfs_cpfile_get_offset st (mi_entries_per_block st * b + k) = k.
Proof.
  intros Hg Hk Hu. rewrite blkoff_u64, offset_u64 by done.
  destruct Hg as [HE _]. split.
  - rewrite (Z.mul_comm _ b), Z.div_add_l by lia.
    rewrite Z.div_small by lia. lia.
  - rewrite (Z.mul_comm _ b), Z.add_comm, Z.mod_add by lia.
    apply Z.mod_small. lia.
Qed.

Lemma blocks_ok_entry st x blk :
  geometry_ok st → blocks_ok st → is_u64 x →
  cp_blocks st !! nilfs_cpfile_get_blkoff st x = Some blk →
  ∃ cp, entry st x = Some cp.
Proof.
  intros Hg Hok Hx Hblk. unfold entry. rewrite Hblk. cbn.
  apply lookup_lt_is_Some. rewrite (Hok _ _ Hblk).
  pose proof (offset_range st x Hg Hx). lia.
Qed.

(** After a range delete nothing in the range is left to delete. *)
Lemma delete_leaves_nothing_deletable st st' start end_ x :
  geometry_ok st → blocks_ok st →
  mi_entries_per_block st' = mi_entries_per_block st →
  mi_first_entry_offset st' = mi_first_entry_offset st →
  (∀ b, cp_blocks st' !! b
        = cp_blocks st !! b
            ≫= block_after_delete (mi_entries_per_block st) start end_ b) →
  is_u64 x → start ≤ x < end_ →
  deletable_at st' x = false.
Proof.
  intros Hg Hok HE HF Hblocks Hx Hin. unfold deletable_at.
  destruct (block_present st' _) eqn:Hp; [|done]. cbn [andb].
  assert (nilfs_cpfile_get_blkoff st' x = nilfs_cpfile_get_blkoff st x)
    as Hb'.
  { unfold nilfs_cpfile_get_blkoff, nilfs_cpfile_checkpoints_per_block.
    by rewrite HE, HF. }
  assert (∃ blk, cp_blocks st !! nilfs_cpfile_get_blkoff st x = Some blk)
    as [blk Hblk].
  { apply block_present_true in Hp. rewrite Hb', Hblocks in Hp.
    destruct (cp_blocks st !! _) as [blk|]; [by eexists|].
    by destruct Hp. }
  destruct (blocks_ok_entry st x blk Hg Hok Hx Hblk) as [cp Hcp].
  destruct (delete_entry_after st st' start end_ x cp Hg Hx HE HF Hblocks Hcp)
    as [[_ Hnone] | (f & Hent & _ & Hf)]; [congruence|].
  rewrite (bh_checkpoint_entry _ _ _ Hent : checkpoint_at st' x = _).
  rewrite bool_decide_eq_true_2 by done. cbn [andb].
  assert (∀ c, deletable (f c) = deletable c) as Hfd.
  { destruct Hf as [-> | (_ & _ & k & ->)]; done. }
  rewrite Hfd. destruct (deletable cp) eqn:Hd; [|done].
  unfold deletable. rewrite invalid_set_invalid. apply andb_false_r.
Qed.

(** *** The census under a range delete *)

Lemma count_range_split P Q a n :
  count_range P a n
  = count_range (λ k, P k && Q k) a n
    + count_range (λ k, P k && negb (Q k)) a n.
Proof.
  revert a; induction n as [|n IH]; intros a; cbn [count_range]; [done|].
  rewrite (IH (a + 1)). destruct (P a), (Q a); cbn; lia.
Qed.

Lemma count_range_restrict D lo n len :
  0 ≤ lo → lo + Z.of_nat n ≤ Z.of_nat len →
  count_range (λ k, bool_decide (lo ≤ k < lo + Z.of_nat n) && D k) 0 len
  = count_range D lo n.
Proof.
  intros Hlo Hlen.
  replace len with (Z.to_nat lo + (n + (len - Z.to_nat lo - n)))%nat by lia.
  rewrite !count_range_app. rewrite Z.add_0_l, Z2Nat.id by lia.
  rewrite (proj2 (count_range_zero _ 0 (Z.to_nat lo))).
  2:{ intros k Hk. by rewrite bool_decide_eq_false_2 by lia. }
  rewrite (proj2 (count_range_zero _ (lo + Z.of_nat n) _)).
  2:{ intros k Hk. by rewrite bool_decide_eq_false_2 by lia. }
  rewrite Z.add_0_l, Z.add_0_r. apply count_range_ext.
  intros k Hk. by rewrite bool_decide_eq_true_2 by lia.
Qed.

Lemma slot_at_invalidate lo n blk k :
  0 ≤ k < Z.of_nat (length blk) →
  slot_at (invalidate_slots lo n blk) k
  = if bool_decide (lo ≤ k < lo + Z.of_nat n) && deletable (slot_at blk k)
    then nilfs_checkpoint_set_invalid (slot_at blk k) else slot_at blk k.
Proof.
  intros Hk. unfold slot_at. rewrite invalidate_slots_lookup.
  rewrite Z2Nat.id by lia.
  destruct (lookup_lt_is_Some_2 blk (Z.to_nat k)) as [c ->]; [lia|]. done.
Qed.

Lemma valid_in_block_invalidate lo n blk :
  0 ≤ lo → lo + Z.of_nat n ≤ Z.of_nat (length blk) →
  valid_in_block (invalidate_slots lo n blk)
  = valid_in_block blk - count_range (λ k, deletable (slot_at blk k)) lo n.
Proof.
  intros Hlo Hlen. unfold valid_in_block.
  rewrite invalidate_slots_length.
  rewrite <- (count_range_restrict (λ k, deletable (slot_at blk k)) lo n
                (length blk)) by done.
  rewrite (count_range_split
             (λ k, negb (nilfs_checkpoint_invalid (slot_at blk k)))
             (λ k, bool_decide (lo ≤ k < lo + Z.of_nat n)
                   && deletable (slot_at blk k)) 0 (length blk)).
  match goal with
  | |- ?a = ?b + ?c - ?d => assert (a = c ∧ b = d) as [-> ->]; [|lia]
  end.
  split; apply count_range_ext; intros k Hk.
  - rewrite slot_at_invalidate by lia. unfold deletable.
    destruct (bool_decide _), (nilfs_checkpoint_snapshot (slot_at blk k)),
      (nilfs_checkpoint_invalid (slot_at blk k)) eqn:Hi; cbn;
      rewrite ?invalid_set_invalid, ?Hi; done.
  - unfold deletable.
    destruct (bool_decide _), (nilfs_checkpoint_snapshot (slot_at blk k)),
      (nilfs_checkpoint_invalid (slot_at blk k)); done.
Qed.

Lemma range_in_block E start end_ b :
  1 ≤ E → range_len E start end_ b ≠ 0%nat →
  0 ≤ range_lo E start b ∧
  range_lo E start b + Z.of_nat (range_len E start end_ b) ≤ E.
Proof.
  unfold range_lo, range_len. rewrite Z.mul_add_distr_l. lia.
Qed.

Lemma valid_in_block_set_census k blk :
  valid_in_block (alter (set_cp_checkpoints_count k) 0%nat blk)
  = valid_in_block blk.
Proof.
  unfold valid_in_block. rewrite length_alter. apply count_range_ext.
  intros x Hx. unfold slot_at.
  destruct (decide (Z.to_nat x = 0%nat)) as [->|Hne].
  - rewrite list_lookup_alter_eq. by destruct (blk !! 0%nat).
  - by rewrite list_lookup_alter_ne.
Qed.

(** A block other than block 0 whose census word is right keeps it right
    through a range delete; it is reclaimed exactly when no entry is left
    valid, and a block that was rewritten still has valid entries. *)
Lemma block_after_delete_census E start end_ b blk :
  1 ≤ E < 2 ^ 32 → length blk = Z.to_nat E → b ≠ 0 →
  cp_checkpoints_count (slot_at blk 0) = valid_in_block blk →
  match block_after_delete E start end_ b blk with
  | Some blk' =>
      cp_checkpoints_count (slot_at blk' 0) = valid_in_block blk' ∧
      (blk' = blk ∨ 0 < cp_checkpoints_count (slot_at blk' 0))
  | None =>
      valid_in_block
        (invalidate_slots (range_lo E start b) (range_len E start end_ b) blk)
      = 0
  end.
Proof.
  intros HE Hlen Hb0 Hcen. unfold block_after_delete.
  set (lo := range_lo E start b). set (n := range_len E start end_ b).
  set (nicps := count_range (λ k, deletable (slot_at blk k)) lo n).
  destruct (nicps =? 0) eqn:H0; [split; [done | by left]|].
  rewrite (proj2 (Z.eqb_neq b 0)) by done.
  apply Z.eqb_neq in H0.
  assert (n ≠ 0%nat) as Hn.
  { intros Hn0. apply H0. unfold nicps. by rewrite Hn0. }
  destruct (range_in_block E start end_ b (proj1 HE) Hn) as [Hlo Hhi].
  fold lo n in Hlo, Hhi.
  pose proof (valid_in_block_invalidate lo n blk Hlo ltac:(lia)) as Hv.
  fold nicps in Hv.
  assert (cp_checkpoints_count (slot_at (invalidate_slots lo n blk) 0)
          = cp_checkpoints_count (slot_at blk 0)) as Hc0.
  { rewrite slot_at_invalidate by lia. by destruct (_ && _). }
  rewrite Hc0, Hcen, <- Hv.
  set (blk' := invalidate_slots lo n blk) in *.
  assert (0 ≤ valid_in_block blk' ≤ E) as Hbnd.
  { pose proof (count_range_bounds
                  (λ k, negb (nilfs_checkpoint_invalid (slot_at blk' k)))
                  0 (length blk')) as Hb.
    assert (length blk' = length blk) as Hl'
      by apply invalidate_slots_length.
    unfold valid_in_block. lia. }
  assert (wrap32 (valid_in_block blk') = valid_in_block blk') as Hw.
  { unfold wrap32. apply Z.mod_small. lia. }
  rewrite Hw. destruct (valid_in_block blk' =? 0) eqn:Hz.
  - by apply Z.eqb_eq.
  - apply Z.eqb_neq in Hz. rewrite valid_in_block_set_census.
    assert (cp_checkpoints_count
              (slot_at (alter (set_cp_checkpoints_count (valid_in_block blk'))
                              0%nat blk') 0)
            = valid_in_block blk') as Hnew.
    { unfold slot_at. rewrite list_lookup_alter_eq.
      destruct (lookup_lt_is_Some_2 blk' 0) as [c ->]; [|done].
      assert (length blk' = length blk) as Hl'
        by apply invalidate_slots_length.
      lia. }
    rewrite Hnew. split; [done|]. right. lia.
Qed.

(** ** Deleting a range of checkpoints *)

Lemma deletable_set_census k cp :
  deletable (set_cp_checkpoints_count k cp) = deletable cp.
Proof. done. Qed.

Lemma invalid_set_census k cp :
  nilfs_checkpoint_invalid (set_cp_checkpoints_count k cp)
  = nilfs_checkpoint_invalid cp.
Proof. done. Qed.

Lemma deletable_set_invalid cp :
  deletable (nilfs_checkpoint_set_invalid cp) = false.
Proof.
  unfold deletable. rewrite invalid_set_invalid. cbn [negb].
  apply andb_false_r.
Qed.

Lemma checkpoint_at_entry st x cp :
  entry st x = Some cp → checkpoint_at st x = cp.
Proof. apply bh_checkpoint_entry. Qed.

(** A deletable entry of the range is not valid after the delete. *)
Lemma deleted_entry_invalid st st' start end_ x cp :
  geometry_ok st → is_u64 x →
  mi_entries_per_block st' = mi_entries_per_block st →
  mi_first_entry_offset st' = mi_first_entry_offset st →
  (∀ b, cp_blocks st' !! b
        = cp_blocks st !! b
            ≫= block_after_delete (mi_entries_per_block st) start end_ b) →
  start ≤ x < end_ → entry st x = Some cp → deletable cp = true →
  checkpoint_valid st' x = false.
Proof.
  intros Hg Hu HE HF Hblocks Hx Hcp Hdel.
  destruct (delete_entry_after st st' start end_ x cp Hg) as
    [[_ Hnone] | (f & Hent & _ & Hf)]; try done.
  - unfold checkpoint_valid. by rewrite Hnone.
  - unfold checkpoint_valid. fold (checkpoint_at st' x).
    rewrite (checkpoint_at_entry _ _ _ Hent).
    rewrite bool_decide_eq_true_2, Hdel by done. cbn [andb].
    destruct Hf as [-> | (_ & _ & k & ->)]; unfold id;
      rewrite ?invalid_set_census, invalid_set_invalid;
      apply andb_false_r.
Qed.

(** Well-formed states for the scenarios. *)
Lemma geometry_ok_10_30 : geometry_ok cpfile_10_30.
Proof. split; [apply Z.leb_le; vm_compute; reflexivity | reflexivity]. Qed.

(** delete_checkpoints(start, end) with 1 ≤ start ≤ end on a cpfile that
    has its header block always runs to the end of the range; it returns
    -EBUSY exactly when some entry of [start, end) in an existing block is
    a snapshot, and 0 otherwise. *)
Theorem delete_checkpoints_busy_iff_snapshot (st : cpfile) (start end_ : Z) :
  geometry_ok st → block_present st 0 = true →
  1 ≤ start ≤ end_ → end_ ≤ U64_MAX →
  ∃ ret st',
    nilfs_cpfile_delete_checkpoints st start end_ = Some (ret, st') ∧
    (ret = 0 ∨ ret = - EBUSY) ∧
    (ret = - EBUSY ↔ ∃ x, start ≤ x < end_ ∧ snapshot_at st x = true).
Proof.
  intros Hg Hhdr Hrange Hend.
  destruct (delete_checkpoints_effect st start end_ Hg Hhdr Hrange Hend)
    as (st' & Heq & _).
  eexists _, st'. split; [exact Heq|].
  pose proof (count_range_pos (snapshot_at st) start (Z.to_nat (end_ - start)))
    as Hpos.
  rewrite Z2Nat.id in Hpos by lia.
  replace (start + (end_ - start)) with end_ in Hpos by lia.
  destruct (0 <? count_range _ _ _) eqn:Hs.
  - apply Z.ltb_lt in Hs. split; [by right|]. split; [|done].
    intros _. by apply Hpos.
  - apply Z.ltb_ge in Hs. split; [by left|]. split; [done|].
    intros Hx. apply Hpos in Hx. lia.
Qed.

Lemma delete_checkpoints_busy_iff_snapshot_witness :
  ∃ ret st',
    nilfs_cpfile_delete_checkpoints cpfile_10_30 9 31 = Some (ret, st') ∧
    (ret = 0 ∨ ret = - EBUSY) ∧
    (ret = - EBUSY ↔ ∃ x, 9 ≤ x < 31 ∧ snapshot_at cpfile_10_30 x = true).
Proof.
  apply (delete_checkpoints_busy_iff_snapshot cpfile_10_30 9 31).
  - exact geometry_ok_10_30.
  - vm_compute. reflexivity.
  - lia.
  - unfold U64_MAX. lia.
Defined.

(** Partial success: every entry of [start, end) that is neither a snapshot
    nor INVALID is gone after the call, flagged INVALID or reclaimed with
    its block, whatever the call returns. *)
Theorem delete_checkpoints_invalidates (st : cpfile) (start end_ x : Z)
  (cp : nilfs_checkpoint) :
  geometry_ok st → block_present st 0 = true →
  1 ≤ start ≤ end_ → end_ ≤ U64_MAX →
  start ≤ x < end_ → entry st x = Some cp → deletable cp = true →
  ∃ ret st',
    nilfs_cpfile_delete_checkpoints st start end_ = Some (ret, st') ∧
    checkpoint_valid st' x = false.
Proof.
  intros Hg Hhdr Hrange Hend Hx Hcp Hdel.
  destruct (delete_checkpoints_effect st start end_ Hg Hhdr Hrange Hend)
    as (st' & Heq & [HE HF] & _ & _ & _ & Hblocks).
  eexists _, st'. split; [exact Heq|].
  apply (deleted_entry_invalid st st' start end_ x cp); try done.
  unfold is_u64. lia.
Qed.

Lemma delete_checkpoints_invalidates_witness :
  ∃ ret st',
    nilfs_cpfile_delete_checkpoints cpfile_10_30 9 31 = Some (ret, st') ∧
    checkpoint_valid st' 20 = false.
Proof.
  apply (delete_checkpoints_invalidates cpfile_10_30 9 31 20
           (checkpoint_at cpfile_10_30 20)).
  - exact geometry_ok_10_30.
  - vm_compute. reflexivity.
  - lia.
  - unfold U64_MAX. lia.
  - lia.
  - vm_compute. reflexivity.
  - vm_compute. reflexivity.
Defined.

(** What a range delete leaves alone: an entry outside [start, end), a
    snapshot and an INVALID entry keep all their fields, unless the block
    is reclaimed; only the first entry of a block other than block 0 can
    see its census word change. *)
Theorem delete_checkpoints_keeps_others (st : cpfile) (start end_ x : Z)
  (cp : nilfs_checkpoint) :
  geometry_ok st → block_present st 0 = true →
  1 ≤ start ≤ end_ → end_ ≤ U64_MAX →
  0 ≤ x ≤ U64_MAX → entry st x = Some cp →
  ¬ start ≤ x < end_ ∨ deletable cp = false →
  ∃ ret st',
    nilfs_cpfile_delete_checkpoints st start end_ = Some (ret, st') ∧
    (entry st' x = None ∨
     ∃ cp', entry st' x = Some cp' ∧ same_but_census cp cp' ∧
            (nilfs_cpfile_get_offset st x ≠ 0 ∨
             nilfs_cpfile_get_blkoff st x = 0 → cp' = cp)).
Proof.
  intros Hg Hhdr Hrange Hend Hx Hcp Hkeep.
  destruct (delete_checkpoints_effect st start end_ Hg Hhdr Hrange Hend)
    as (st' & Heq & [HE HF] & _ & _ & _ & Hblocks).
  eexists _, st'. split; [exact Heq|].
  destruct (delete_entry_after st st' start end_ x cp Hg) as
    [[Hnone _] | (f & Hent & _ & Hf)]; try done.
  - by left.
  - right.
    assert ((if bool_decide (start ≤ x < end_) && deletable cp
             then nilfs_checkpoint_set_invalid cp else cp) = cp) as Hsame.
    { destruct Hkeep as [Hout | ->].
      - by rewrite bool_decide_eq_false_2.
      - by rewrite andb_false_r. }
    rewrite Hsame in Hent. eexists. split; [exact Hent|].
    destruct Hf as [-> | (Ho & Hb & k & ->)]; unfold id.
    + split; [| done]. unfold same_but_census. by rewrite set_census_same.
    + split; [done|]. intros [? | ?]; done.
Qed.

Lemma delete_checkpoints_keeps_others_witness :
  ∃ ret st',
    nilfs_cpfile_delete_checkpoints cpfile_10_30 9 31 = Some (ret, st') ∧
    (entry st' 30 = None ∨
     ∃ cp', entry st' 30 = Some cp' ∧
            same_but_census (checkpoint_at cpfile_10_30 30) cp' ∧
            (nilfs_cpfile_get_offset cpfile_10_30 30 ≠ 0 ∨
             nilfs_cpfile_get_blkoff cpfile_10_30 30 = 0 →
             cp' = checkpoint_at cpfile_10_30 30)).
Proof.
  apply (delete_checkpoints_keeps_others cpfile_10_30 9 31 30
           (checkpoint_at cpfile_10_30 30)).
  - exact geometry_ok_10_30.
  - vm_compute. reflexivity.
  - lia.
  - unfold U64_MAX. lia.
  - unfold U64_MAX. lia.
  - vm_compute. reflexivity.
  - right. vm_compute. reflexivity.
Defined.

(** The header after a range delete: ncheckpoints drops by the number of
    entries deleted (modulo 2^64); nsnapshots and the snapshot-list
    sentinel stay as they are. *)
Theorem delete_checkpoints_header (st : cpfile) (start end_ : Z) :
  geometry_ok st → block_present st 0 = true →
  1 ≤ start ≤ end_ → end_ ≤ U64_MAX →
  0 ≤ ch_ncheckpoints (cp_header st) ≤ U64_MAX →
  ∃ ret st',
    nilfs_cpfile_delete_checkpoints st start end_ = Some (ret, st') ∧
    ch_ncheckpoints (cp_header st')
    = wrap64 (ch_ncheckpoints (cp_header st)
              - count_range (deletable_at st) start (Z.to_nat (end_ - start))) ∧
    ch_nsnapshots (cp_header st') = ch_nsnapshots (cp_header st) ∧
    ch_snapshot_list (cp_header st') = ch_snapshot_list (cp_header st).
Proof.
  intros Hg Hhdr Hrange Hend Hnc.
  destruct (delete_checkpoints_effect st start end_ Hg Hhdr Hrange Hend)
    as (st' & Heq & _ & _ & _ & Hh & _).
  eexists _, st'. split; [exact Heq|]. rewrite Hh.
  pose proof (count_range_bounds (deletable_at st) start
                (Z.to_nat (end_ - start))) as Hbnd.
  set (n := count_range (deletable_at st) start (Z.to_nat (end_ - start)))
    in *.
  destruct (0 <? n) eqn:Hn.
  - by destruct (cp_header st).
  - apply Z.ltb_ge in Hn. assert (n = 0) as -> by lia.
    by rewrite Z.sub_0_r, wrap64_u64.
Qed.

Lemma delete_checkpoints_header_witness :
  ∃ ret st',
    nilfs_cpfile_delete_checkpoints cpfile_10_30 9 31 = Some (ret, st') ∧
    ch_ncheckpoints (cp_header st')
    = wrap64 (ch_ncheckpoints (cp_header cpfile_10_30)
              - count_range (deletable_at cpfile_10_30) 9 (Z.to_nat (31 - 9))) ∧
    ch_nsnapshots (cp_header st') = ch_nsnapshots (cp_header cpfile_10_30) ∧
    ch_snapshot_list (cp_header st')
    = ch_snapshot_list (cp_header cpfile_10_30).
Proof.
  apply (delete_checkpoints_header cpfile_10_30 9 31).
  - exact geometry_ok_10_30.
  - vm_compute. reflexivity.
  - lia.
  - unfold U64_MAX. lia.
  - split; apply Z.leb_le; vm_compute; reflexivity.
Defined.

Lemma block_after_delete_block0 E start end_ blk :
  is_Some (block_after_delete E start end_ 0 blk).
Proof.
  unfold block_after_delete. destruct (_ =? 0); [by eexists|].
  cbn. by eexists.
Qed.

Lemma block_after_delete_outside st start end_ b blk :
  geometry_ok st → 1 ≤ start ≤ end_ → end_ ≤ U64_MAX →
  b < nilfs_cpfile_get_blkoff st start ∨
  nilfs_cpfile_get_blkoff st (end_ - 1) < b →
  block_after_delete (mi_entries_per_block st) start end_ b blk = Some blk.
Proof.
  intros Hg Hrange Hend Hb. apply block_after_delete_untouched.
  pose proof (block_bounds st start Hg) as H1.
  pose proof (block_bounds st (end_ - 1) Hg) as H2.
  unfold is_u64 in H1, H2. destruct Hg as [HE _]. unfold range_len.
  rewrite Z.mul_add_distr_l in *. destruct Hb as [Hb | Hb].
  - assert (mi_entries_per_block st * (b + 1)
            ≤ mi_entries_per_block st * nilfs_cpfile_get_blkoff st start)
      by nia. lia.
  - assert (mi_entries_per_block st
              * (nilfs_cpfile_get_blkoff st (end_ - 1) + 1)
            ≤ mi_entries_per_block st * b) by nia. lia.
Qed.

(** A range delete never creates a block and never removes block 0, and it
    leaves every block outside the block range of [start, end) as it is. *)
Theorem delete_checkpoints_blocks (st : cpfile) (start end_ : Z) :
  geometry_ok st → block_present st 0 = true →
  1 ≤ start ≤ end_ → end_ ≤ U64_MAX →
  ∃ ret st',
    nilfs_cpfile_delete_checkpoints st start end_ = Some (ret, st') ∧
    block_present st' 0 = true ∧
    (∀ b, block_present st' b = true → block_present st b = true) ∧
    (∀ b, b < nilfs_cpfile_get_blkoff st start ∨
          nilfs_cpfile_get_blkoff st (end_ - 1) < b →
          cp_blocks st' !! b = cp_blocks st !! b).
Proof.
  intros Hg Hhdr Hrange Hend.
  destruct (delete_checkpoints_effect st start end_ Hg Hhdr Hrange Hend)
    as (st' & Heq & _ & _ & _ & _ & Hblocks).
  eexists _, st'. split; [exact Heq|]. split; [|split].
  - apply block_present_true. rewrite Hblocks.
    apply block_present_true in Hhdr. destruct Hhdr as [blk ->].
    cbn [mbind option_bind]. apply block_after_delete_block0.
  - intros b. rewrite !block_present_true, Hblocks.
    destruct (cp_blocks st !! b); [by eexists | by intros [? ?]].
  - intros b Hb. rewrite Hblocks.
    destruct (cp_blocks st !! b) as [blk|]; cbn [mbind option_bind]; [|done].
    by apply block_after_delete_outside.
Qed.

Lemma delete_checkpoints_blocks_witness :
  ∃ ret st',
    nilfs_cpfile_delete_checkpoints cpfile_10_30 18 23 = Some (ret, st') ∧
    block_present st' 0 = true ∧
    (∀ b, block_present st' b = true → block_present cpfile_10_30 b = true) ∧
    (∀ b, b < nilfs_cpfile_get_blkoff cpfile_10_30 18 ∨
          nilfs_cpfile_get_blkoff cpfile_10_30 (23 - 1) < b →
          cp_blocks st' !! b = cp_blocks cpfile_10_30 !! b).
Proof.
  apply (delete_checkpoints_blocks cpfile_10_30 18 23).
  - exact geometry_ok_10_30.
  - vm_compute. reflexivity.
  - lia.
  - unfold U64_MAX. lia.
Defined.

Lemma blocks_ok_check st :
  bool_decide (map_Forall (λ _ blk, length blk
                                    = Z.to_nat (mi_entries_per_block st))
                          (cp_blocks st)) = true →
  blocks_ok st.
Proof. intros H. apply bool_decide_eq_true in H. exact H. Qed.

Lemma census_ok_check st b blk :
  cp_blocks st !! b = Some blk →
  cp_checkpoints_count (slot_at blk 0) = valid_in_block blk →
  census_ok st b.
Proof. intros Hb Hc blk' Hb'. congruence. Qed.

Lemma blocks_ok_10_30 : blocks_ok cpfile_10_30.
Proof. apply blocks_ok_check. vm_compute. reflexivity. Qed.

(** Checkpoints that are already gone are ignored: deleting the same range
    a second time changes neither a block nor the header. *)
Theorem delete_checkpoints_again (st : cpfile) (start end_ : Z) :
  geometry_ok st → blocks_ok st → block_present st 0 = true →
  1 ≤ start ≤ end_ → end_ ≤ U64_MAX →
  ∃ ret st',
    nilfs_cpfile_delete_checkpoints st start end_ = Some (ret, st') ∧
    ∃ ret' st'',
      nilfs_cpfile_delete_checkpoints st' start end_ = Some (ret', st'') ∧
      cp_blocks st'' = cp_blocks st' ∧ cp_header st'' = cp_header st'.
Proof.
  intros Hg Hok Hhdr Hrange Hend.
  destruct (delete_checkpoints_effect st start end_ Hg Hhdr Hrange Hend)
    as (st' & Heq & [HE HF] & _ & _ & _ & Hblocks).
  eexists _, st'. split; [exact Heq|].
  assert (geometry_ok st') as Hg'.
  { destruct Hg. split; congruence. }
  assert (block_present st' 0 = true) as Hhdr'.
  { apply block_present_true. rewrite Hblocks.
    apply block_present_true in Hhdr. destruct Hhdr as [blk ->].
    apply block_after_delete_block0. }
  destruct (delete_checkpoints_effect st' start end_ Hg' Hhdr' Hrange Hend)
    as (st'' & Heq' & _ & _ & _ & Hh' & Hblocks').
  eexists _, st''. split; [exact Heq'|].
  assert (∀ x, start ≤ x < end_ → deletable_at st' x = false) as Hnone.
  { intros x Hx. apply (delete_leaves_nothing_deletable st st' start end_);
      try done. unfold is_u64. lia. }
  split.
  - apply map_eq. intros b. rewrite Hblocks'.
    destruct (cp_blocks st' !! b) as [blk'|] eqn:Hb';
      cbn [mbind option_bind]; [|done].
    unfold block_after_delete.
    rewrite (proj2 (count_range_zero _ _ _)); [done|].
    intros k Hk.
    assert (range_len (mi_entries_per_block st') start end_ b ≠ 0%nat)
      as Hn by lia.
    destruct (range_in_block _ start end_ b (proj1 Hg') Hn) as [Hlo Hhi].
    pose proof (proj1 (range_slot _ start end_ b k (proj1 Hg') ltac:(lia)) Hk)
      as Hx.
    destruct (slot_as_cno st' b k Hg') as [Hbo Hoff];
      [lia | unfold is_u64; lia |].
    specialize (Hnone _ Hx). unfold deletable_at, checkpoint_at in Hnone.
    rewrite Hbo, Hoff in Hnone.
    rewrite (proj2 (block_present_true st' b)) in Hnone by by eexists.
    by rewrite (bh_checkpoint_slot_at _ _ _ _ Hb') in Hnone.
  - rewrite Hh'. rewrite (proj2 (count_range_zero _ _ _)); [done|].
    intros x Hx. apply Hnone. lia.
Qed.

Lemma delete_checkpoints_again_witness :
  ∃ ret st',
    nilfs_cpfile_delete_checkpoints cpfile_10_30 9 31 = Some (ret, st') ∧
    ∃ ret' st'',
      nilfs_cpfile_delete_checkpoints st' 9 31 = Some (ret', st'') ∧
      cp_blocks st'' = cp_blocks st' ∧ cp_header st'' = cp_header st'.
Proof.
  apply (delete_checkpoints_again cpfile_10_30 9 31).
  - exact geometry_ok_10_30.
  - exact blocks_ok_10_30.
  - vm_compute. reflexivity.
  - lia.
  - unfold U64_MAX. lia.
Defined.

(** The per-block census survives a range delete: in a block other than
    block 0 whose census word counted its valid entries before the call,
    it still does afterwards, and a block that the call rewrote and left
    in place has a census above zero (a block whose census drops to zero
    is reclaimed by the same call). *)
Theorem delete_checkpoints_keeps_census (st : cpfile) (start end_ b : Z) :
  geometry_ok st → mi_entries_per_block st < 2 ^ 32 → blocks_ok st →
  block_present st 0 = true →
  1 ≤ start ≤ end_ → end_ ≤ U64_MAX →
  b ≠ 0 → census_ok st b →
  ∃ ret st',
    nilfs_cpfile_delete_checkpoints st start end_ = Some (ret, st') ∧
    census_ok st' b ∧
    ∀ blk', cp_blocks st' !! b = Some blk' →
            cp_blocks st !! b = Some blk' ∨
            0 < cp_checkpoints_count (slot_at blk' 0).
Proof.
  intros Hg HE32 Hok Hhdr Hrange Hend Hb Hcen.
  destruct (delete_checkpoints_effect st start end_ Hg Hhdr Hrange Hend)
    as (st' & Heq & _ & _ & _ & _ & Hblocks).
  eexists _, st'. split; [exact Heq|].
  assert (∀ blk', cp_blocks st' !! b = Some blk' →
                  cp_checkpoints_count (slot_at blk' 0) = valid_in_block blk' ∧
                  (cp_blocks st !! b = Some blk' ∨
                   0 < cp_checkpoints_count (slot_at blk' 0))) as Hboth.
  { intros blk'. rewrite Hblocks.
    destruct (cp_blocks st !! b) as [blk|] eqn:Hblk;
      cbn [mbind option_bind]; [|done].
    pose proof (block_after_delete_census (mi_entries_per_block st)
                  start end_ b blk (conj (proj1 Hg) HE32) (Hok _ _ Hblk)
                  Hb (Hcen _ Hblk)) as Hc.
    intros Ha. rewrite Ha in Hc. destruct Hc as [Hc [-> | Hpos]].
    - split; [done | by left].
    - split; [done | by right]. }
  split.
  - intros blk' Hb'. by apply Hboth.
  - intros blk' Hb'. by apply Hboth.
Qed.

Lemma delete_checkpoints_keeps_census_witness :
  ∃ ret st',
    nilfs_cpfile_delete_checkpoints cpfile_10_30 9 31 = Some (ret, st') ∧
    census_ok st' 7 ∧
    ∀ blk', cp_blocks st' !! 7 = Some blk' →
            cp_blocks cpfile_10_30 !! 7 = Some blk' ∨
            0 < cp_checkpoints_count (slot_at blk' 0).
Proof.
  apply (delete_checkpoints_keeps_census cpfile_10_30 9 31 7).
  - exact geometry_ok_10_30.
  - apply Z.ltb_lt. vm_compute. reflexivity.
  - exact blocks_ok_10_30.
  - vm_compute. reflexivity.
  - lia.
  - unfold U64_MAX. lia.
  - lia.
  - apply (census_ok_check _ _ (default [] (cp_blocks cpfile_10_30 !! 7)));
      vm_compute; reflexivity.
Defined.

(** Snapshots survive a range delete: in a block whose census word is
    right (or in block 0), a valid entry that is a snapshot or lies outside
    [start, end) is still there after the call, with all its fields but,
    possibly, the census word. *)
Theorem delete_checkpoints_keeps_valid (st : cpfile) (start end_ x : Z)
  (cp : nilfs_checkpoint) :
  geometry_ok st → mi_entries_per_block st < 2 ^ 32 → blocks_ok st →
  block_present st 0 = true →
  1 ≤ start ≤ end_ → end_ ≤ U64_MAX →
  0 ≤ x ≤ U64_MAX → entry st x = Some cp →
  nilfs_checkpoint_invalid cp = false →
  ¬ start ≤ x < end_ ∨ nilfs_checkpoint_snapshot cp = true →
  nilfs_cpfile_get_blkoff st x = 0 ∨
  census_ok st (nilfs_cpfile_get_blkoff st x) →
  ∃ ret st',
    nilfs_cpfile_delete_checkpoints st start end_ = Some (ret, st') ∧
    ∃ cp', entry st' x = Some cp' ∧ same_but_census cp cp'.
Proof.
  intros Hg HE32 Hok Hhdr Hrange Hend Hx Hcp Hvalid Hkeep Hcen.
  destruct (delete_checkpoints_effect st start end_ Hg Hhdr Hrange Hend)
    as (st' & Heq & [HE HF] & _ & _ & _ & Hblocks).
  eexists _, st'. split; [exact Heq|].
  assert ((if bool_decide (start ≤ x < end_) && deletable cp
           then nilfs_checkpoint_set_invalid cp else cp) = cp) as Hsame.
  { destruct Hkeep as [Hout | Hsnap].
    - by rewrite bool_decide_eq_false_2.
    - unfold deletable. rewrite Hsnap. cbn [negb andb].
      by rewrite andb_false_r. }
  destruct (delete_entry_after st st' start end_ x cp Hg Hx HE HF Hblocks Hcp)
    as [[_ Hnone] | (f & Hent & _ & Hf)].
  - exfalso.
    assert (nilfs_cpfile_get_blkoff st' x = nilfs_cpfile_get_blkoff st x)
      as Hb'.
    { unfold nilfs_cpfile_get_blkoff, nilfs_cpfile_checkpoints_per_block.
      by rewrite HE, HF. }
    apply block_present_false in Hnone. rewrite Hb', Hblocks in Hnone.
    pose proof (offset_range st x Hg Hx) as Ho.
    pose proof (cno_blkoff_offset st x Hg Hx) as Hdm.
    unfold entry in Hcp.
    destruct (cp_blocks st !! nilfs_cpfile_get_blkoff st x) as [blk|] eqn:Hblk;
      [|done]. cbn [mbind option_bind] in Hcp, Hnone.
    rewrite ?Hblk in Hnone. cbn [mbind option_bind] in Hnone.
    destruct Hcen as [Hb0 | Hcen].
    { rewrite Hb0 in Hnone.
      destruct (block_after_delete_block0 (mi_entries_per_block st)
                  start end_ blk) as [? Hs]. congruence. }
    destruct (decide (nilfs_cpfile_get_blkoff st x = 0)) as [Hb0 | Hb0].
    { rewrite Hb0 in Hnone.
      destruct (block_after_delete_block0 (mi_entries_per_block st)
                  start end_ blk) as [? Hs]. congruence. }
    pose proof (block_after_delete_census (mi_entries_per_block st)
                  start end_ _ blk (conj (proj1 Hg) HE32) (Hok _ _ Hblk)
                  Hb0 (Hcen _ Hblk)) as Hc.
    rewrite Hnone in Hc.
    pose proof (proj1 (count_range_zero _ _ _) Hc
                  (nilfs_cpfile_get_offset st x)) as Hz.
    rewrite invalidate_slots_length, (Hok _ _ Hblk) in Hz.
    specialize (Hz ltac:(lia)). cbv beta in Hz.
    rewrite slot_at_invalidate in Hz by (rewrite (Hok _ _ Hblk); lia).
    assert (slot_at blk (nilfs_cpfile_get_offset st x) = cp) as Hslot
      by (unfold slot_at; by rewrite Hcp).
    rewrite Hslot in Hz.
    rewrite (bool_decide_ext _ (start ≤ x < end_)) in Hz.
    2:{ pose proof (range_slot (mi_entries_per_block st) start end_
                      (nilfs_cpfile_get_blkoff st x)
                      (nilfs_cpfile_get_offset st x) (proj1 Hg) Ho) as Hr.
        rewrite <- Hdm in Hr. exact Hr. }
    rewrite Hsame, Hvalid in Hz. done.
  - rewrite Hsame in Hent. eexists. split; [exact Hent|].
    destruct Hf as [-> | (_ & _ & k & ->)]; unfold id, same_but_census.
    + by rewrite set_census_same.
    + done.
Qed.

Lemma delete_checkpoints_keeps_valid_witness :
  ∃ ret st',
    nilfs_cpfile_delete_checkpoints cpfile_10_30 9 31 = Some (ret, st') ∧
    ∃ cp', entry st' 10 = Some cp' ∧
           same_but_census (checkpoint_at cpfile_10_30 10) cp'.
Proof.
  apply (delete_checkpoints_keeps_valid cpfile_10_30 9 31 10
           (checkpoint_at cpfile_10_30 10)).
  - exact geometry_ok_10_30.
  - apply Z.ltb_lt. vm_compute. reflexivity.
  - exact blocks_ok_10_30.
  - vm_compute. reflexivity.
  - lia.
  - unfold U64_MAX. lia.
  - unfold U64_MAX. lia.
  - vm_compute. reflexivity.
  - vm_compute. reflexivity.
  - right. vm_compute. reflexivity.
  - right.
    apply (census_ok_check _ _ (default [] (cp_blocks cpfile_10_30 !! 2)));
      vm_compute; reflexivity.
Defined.

(** Deleting one plain checkpoint: for a cno from 1 up to, not including,
    the MDT counter whose entry is valid, not a snapshot and carries cno in
    its cp_cno field, delete_checkpoint(cno) returns 0, the checkpoint is
    gone afterwards and the header counts one checkpoint less (modulo
    2^64).  The bound matters: delete_checkpoint looks for the entry below
    the counter only, so an entry at the counter itself is not found and
    the call returns -ENOENT. *)
Theorem delete_checkpoint_removes (st : cpfile) (cno : Z)
  (cp : nilfs_checkpoint) :
  geometry_ok st → block_present st 0 = true →
  nilfs_mdt_cno st ≤ U64_MAX → 1 ≤ cno < nilfs_mdt_cno st →
  entry st cno = Some cp → deletable cp = true → cp_cno cp = cno →
  0 ≤ ch_ncheckpoints (cp_header st) ≤ U64_MAX →
  ∃ st',
    nilfs_cpfile_delete_checkpoint st cno = Some (0, st') ∧
    checkpoint_valid st' cno = false ∧
    ch_ncheckpoints (cp_header st')
    = wrap64 (ch_ncheckpoints (cp_header st) - 1).
Proof.
  intros Hg Hhdr Hcur Hcno Hcp Hdel Hstored Hnc.
  pose proof (checkpoint_at_entry _ _ _ Hcp) as Hat.
  pose proof (entry_block_present _ _ _ Hcp) as Hpres.
  assert (nilfs_checkpoint_snapshot cp = false ∧
          nilfs_checkpoint_invalid cp = false) as [Hsnap Hinv].
  { unfold deletable in Hdel.
    by destruct (nilfs_checkpoint_snapshot cp), (nilfs_checkpoint_invalid cp). }
  rewrite (delete_checkpoint_as_range st cno cno); try done; try lia.
  2:{ unfold checkpoint_valid. fold (checkpoint_at st cno).
      by rewrite Hpres, Hat, Hinv. }
  2:{ by rewrite Hat. }
  2:{ by rewrite Hat. }
  destruct (delete_checkpoints_effect st cno (cno + 1) Hg Hhdr)
    as (st' & Heq & [HE HF] & _ & _ & Hh & Hblocks); [lia | lia |].
  replace (Z.to_nat (cno + 1 - cno)) with 1%nat in * by lia.
  cbn [count_range] in *. unfold snapshot_at, deletable_at in *.
  rewrite Hpres, Hat, Hsnap, ?Hdel in *. cbn in Heq, Hh.
  exists st'. split; [exact Heq|]. split.
  - apply (deleted_entry_invalid st st' cno (cno + 1) cno cp); try done.
    + unfold is_u64. lia.
    + lia.
  - rewrite Hh. by destruct (cp_header st).
Qed.

Lemma delete_checkpoint_removes_witness :
  ∃ st',
    nilfs_cpfile_delete_checkpoint cpfile_10_30 20 = Some (0, st') ∧
    checkpoint_valid st' 20 = false ∧
    ch_ncheckpoints (cp_header st')
    = wrap64 (ch_ncheckpoints (cp_header cpfile_10_30) - 1).
Proof.
  apply (delete_checkpoint_removes cpfile_10_30 20
           (checkpoint_at cpfile_10_30 20)).
  - exact geometry_ok_10_30.
  - vm_compute. reflexivity.
  - apply Z.leb_le. vm_compute. reflexivity.
  - split; [lia | apply Z.ltb_lt; vm_compute; reflexivity].
  - vm_compute. reflexivity.
  - vm_compute. reflexivity.
  - vm_compute. reflexivity.
  - split; apply Z.leb_le; vm_compute; reflexivity.
Defined.

(** ** create_checkpoint *)

Lemma block_init_loop_lookup n : ∀ i blk j,
  block_init_loop n i blk !! j
  = (if bool_decide (i ≤ j < i + n)%nat
     then nilfs_checkpoint_set_invalid else id) <$> blk !! j.
Proof.
  induction n as [|n IH]; intros i blk j; cbn [block_init_loop].
  - rewrite bool_decide_eq_false_2 by lia. by destruct (blk !! j).
  - rewrite IH. destruct (decide (j = i)) as [->|Hne].
    + rewrite list_lookup_alter_eq.
      rewrite bool_decide_eq_false_2, bool_decide_eq_true_2 by lia.
      by destruct (blk !! i).
    + rewrite list_lookup_alter_ne by done.
      by rewrite (bool_decide_ext (S i ≤ j < S i + n)%nat
                    (i ≤ j < i + S n)%nat) by lia.
Qed.

Lemma block_init_loop_length n : ∀ i blk,
  length (block_init_loop n i blk) = length blk.
Proof.
  induction n as [|n IH]; intros i blk; cbn [block_init_loop]; [done|].
  by rewrite IH, length_alter.
Qed.

(** A block that has just been created holds one INVALID entry per slot and
    nothing else. *)
Lemma fresh_block_invalid st :
  fresh_block st
  = replicate (Z.to_nat (mi_entries_per_block st)) invalid_checkpoint.
Proof.
  unfold fresh_block, nilfs_cpfile_block_init,
    nilfs_cpfile_checkpoints_per_block.
  apply list_eq. intros j. rewrite block_init_loop_lookup.
  destruct (decide (j < Z.to_nat (mi_entries_per_block st))%nat) as [Hlt|Hge].
  - rewrite !lookup_replicate_2 by done.
    by rewrite bool_decide_eq_true_2 by lia.
  - rewrite !(proj1 (lookup_replicate_None _ _ _)) by lia. done.
Qed.

Lemma create_checkpoint_effect st cno :
  1 ≤ cno → block_present st 0 = true →
  ∃ st',
    nilfs_cpfile_create_checkpoint st cno = (0, st') ∧
    (mi_entries_per_block st' = mi_entries_per_block st ∧
     mi_first_entry_offset st' = mi_first_entry_offset st) ∧
    mi_cno st' = mi_cno st ∧
    sb_log st' = sb_log st ∧
    (mi_dirty st' = true ∧ nilfs_cpfile_get_blkoff st cno ∈ bh_dirty st') ∧
    cp_blocks st'
    = <[nilfs_cpfile_get_blkoff st cno :=
          block_after_create (nilfs_cpfile_get_blkoff st cno)
            (nilfs_cpfile_get_offset st cno)
            (default (fresh_block st)
               (cp_blocks st !! nilfs_cpfile_get_blkoff st cno))]>
        (cp_blocks st) ∧
    cp_header st'
    = if nilfs_checkpoint_invalid
           (slot_at (default (fresh_block st)
                       (cp_blocks st !! nilfs_cpfile_get_blkoff st cno))
                    (nilfs_cpfile_get_offset st cno))
      then set_ch_ncheckpoints
             (le64_add_cpu (ch_ncheckpoints (cp_header st)) 1) (cp_header st)
      else cp_header st.
Proof.
  intros Hcno Hhdr. unfold nilfs_cpfile_create_checkpoint.
  rewrite (proj2 (Z.ltb_ge cno 1)) by lia.
  rewrite get_header_block_present by done.
  change (0 <? 0) with false. cbv iota.
  set (b := nilfs_cpfile_get_blkoff st cno).
  set (off := nilfs_cpfile_get_offset st cno).
  set (blk0 := default (fresh_block st) (cp_blocks st !! b)).
  assert (∃ st1, nilfs_cpfile_get_checkpoint_block st cno true = (0, st1) ∧
                 st1 = with_blocks (<[b := blk0]> (cp_blocks st)) st)
    as (st1 & -> & Hst1).
  { unfold nilfs_cpfile_get_checkpoint_block, nilfs_mdt_get_block.
    fold b. unfold blk0. destruct (cp_blocks st !! b) as [blk|] eqn:Hblk.
    - exists st. split; [done|]. cbn [default from_option id].
      by rewrite insert_id, with_blocks_id.
    - assert ((b =? 0) = false) as ->.
      { apply Z.eqb_neq. intros Hb0. rewrite Hb0 in Hblk.
        apply block_present_true in Hhdr as [blk Hhdr]. congruence. }
      eexists. split; [done|]. done. }
  change (0 <? 0) with false. cbv iota.
  assert (nilfs_cpfile_get_blkoff st1 cno = b) as -> by by rewrite Hst1.
  assert (nilfs_cpfile_get_offset st1 cno = off) as -> by by rewrite Hst1.
  assert (cp_blocks st1 !! b = Some blk0) as Hb1
    by (rewrite Hst1; cbn; apply lookup_insert_eq).
  rewrite (bh_checkpoint_slot_at st1 b blk0 off Hb1).
  unfold block_after_create.
  destruct (nilfs_checkpoint_invalid (slot_at blk0 off)) eqn:Hinv.
  - set (blk1 := alter nilfs_checkpoint_clear_invalid (Z.to_nat off) blk0).
    set (st2 := bh_update nilfs_checkpoint_clear_invalid b off st1).
    assert (cp_blocks st2 = <[b := blk1]> (cp_blocks st)) as Hb2.
    { unfold st2, bh_update. rewrite Hst1. cbn [cp_blocks with_blocks].
      by rewrite alter_insert_eq. }
    assert (nilfs_cpfile_is_in_first st2 cno = (b =? 0)) as ->
      by (unfold st2; by rewrite Hst1).
    destruct (b =? 0) eqn:Hb0; cbn [negb].
    + eexists. split; [done|]. cbn. rewrite Hst1. cbn.
      do 3 (split; [done|]).
      split; [split; [done | apply elem_of_union_l, elem_of_singleton; done]|].
      split; [|done].
      unfold blk1. by rewrite alter_insert_eq.
    + unfold nilfs_cpfile_block_add_valid_checkpoints. cbn [snd].
      rewrite (bh_checkpoint_slot_at st2 b blk1 0)
        by (rewrite Hb2; apply lookup_insert_eq).
      eexists. split; [done|]. cbn. rewrite Hst1. cbn.
      do 3 (split; [done|]).
      split; [split; [done | apply elem_of_union_l, elem_of_singleton; done]|].
      split; [|done].
      by rewrite !alter_insert_eq.
  - eexists. split; [done|]. cbn. rewrite Hst1. cbn.
    do 3 (split; [done|]).
    split; [split; [done | apply elem_of_union_l, elem_of_singleton; done]|].
    done.
Qed.

Lemma create_new_slot st cno :
  geometry_ok st → is_u64 cno → checkpoint_valid st cno = false →
  ∃ cp, default (fresh_block st)
          (cp_blocks st !! nilfs_cpfile_get_blkoff st cno)
        !! Z.to_nat (nilfs_cpfile_get_offset st cno) = Some cp ∧
        nilfs_checkpoint_invalid cp = true.
Proof.
  intros Hg Hu Hv. unfold checkpoint_valid, block_present, bh_checkpoint in Hv.
  pose proof (offset_range st cno Hg Hu) as Ho.
  destruct (cp_blocks st !! nilfs_cpfile_get_blkoff st cno) as [blk|];
    cbn [default from_option id mbind option_bind] in *.
  - rewrite bool_decide_eq_true_2 in Hv by by eexists. cbn [andb] in Hv.
    apply negb_false_iff in Hv.
    destruct (blk !! Z.to_nat (nilfs_cpfile_get_offset st cno)) as [cp|];
      [by exists cp | done].
  - rewrite fresh_block_invalid. exists invalid_checkpoint.
    split; [apply lookup_replicate_2; lia | done].
Qed.

Lemma create_old_slot st cno :
  checkpoint_valid st cno = true →
  ∃ blk, cp_blocks st !! nilfs_cpfile_get_blkoff st cno = Some blk ∧
         nilfs_checkpoint_invalid
           (slot_at blk (nilfs_cpfile_get_offset st cno)) = false.
Proof.
  unfold checkpoint_valid. intros Hv. apply andb_true_iff in Hv as [Hp Hv].
  apply block_present_true in Hp as [blk Hblk]. exists blk. split; [done|].
  rewrite (bh_checkpoint_slot_at _ _ _ _ Hblk) in Hv.
  by apply negb_true_iff in Hv.
Qed.

Lemma slot_at_lookup blk k cp :
  blk !! Z.to_nat k = Some cp → slot_at blk k = cp.
Proof. unfold slot_at. by intros ->. Qed.

(** The slots of the block create_checkpoint worked on. *)
Lemma block_after_create_lookup b off blk cp i :
  0 ≤ off → blk !! Z.to_nat off = Some cp →
  nilfs_checkpoint_invalid cp = true →
  ∃ f, block_after_create b off blk !! i
       = (λ c, f (if decide (i = Z.to_nat off)
                  then nilfs_checkpoint_clear_invalid c else c)) <$> blk !! i ∧
       (f = id ∨ (i = 0%nat ∧ b ≠ 0 ∧ ∃ k, f = set_cp_checkpoints_count k)).
Proof.
  intros Hoff Hcp Hinv. unfold block_after_create.
  rewrite (slot_at_lookup _ _ _ Hcp), Hinv.
  assert (alter nilfs_checkpoint_clear_invalid (Z.to_nat off) blk !! i
          = (λ c, if decide (i = Z.to_nat off)
                  then nilfs_checkpoint_clear_invalid c else c) <$> blk !! i)
    as Hl.
  { destruct (decide (i = Z.to_nat off)) as [->|Hne].
    - by rewrite list_lookup_alter_eq.
    - rewrite list_lookup_alter_ne by done. by destruct (blk !! i). }
  destruct (b =? 0) eqn:Hb0.
  - exists id. split; [|by left]. rewrite Hl. by destruct (blk !! i).
  - destruct i as [|i].
    + eexists. split; [| right; split; [done|]; split; [lia|]; by eexists].
      rewrite list_lookup_alter_eq, Hl. by destruct (blk !! 0%nat).
    + exists id. split; [|by left].
      rewrite list_lookup_alter_ne, Hl by done. by destruct (blk !! S i).
Qed.

(** *** The census under create_checkpoint *)

Lemma count_range_update P Q a n o :
  a ≤ o < a + Z.of_nat n →
  (∀ k, a ≤ k < a + Z.of_nat n → k ≠ o → P k = Q k) →
  count_range P a n - Z.b2z (P o) = count_range Q a n - Z.b2z (Q o).
Proof.
  intros Ho Hext.
  replace n with (Z.to_nat (o - a) + (1 + (n - Z.to_nat (o - a) - 1)))%nat
    in * by lia.
  rewrite !count_range_app. rewrite Z2Nat.id by lia.
  replace (a + (o - a)) with o by lia. cbn [count_range].
  rewrite (count_range_ext P Q a) by (intros; apply Hext; lia).
  rewrite (count_range_ext P Q (o + Z.of_nat 1)) by (intros; apply Hext; lia).
  destruct (P o), (Q o); cbn [Z.b2z]; lia.
Qed.

Lemma valid_in_block_clear_invalid blk off cp :
  blk !! off = Some cp → nilfs_checkpoint_invalid cp = true →
  valid_in_block (alter nilfs_checkpoint_clear_invalid off blk)
  = valid_in_block blk + 1.
Proof.
  intros Hcp Hinv. unfold valid_in_block. rewrite length_alter.
  pose proof (lookup_lt_Some _ _ _ Hcp) as Hlt.
  pose proof (count_range_update
                (λ k, negb (nilfs_checkpoint_invalid
                              (slot_at (alter nilfs_checkpoint_clear_invalid
                                              off blk) k)))
                (λ k, negb (nilfs_checkpoint_invalid (slot_at blk k)))
                0 (length blk) (Z.of_nat off)) as Hu.
  cbv beta in Hu.
  assert (slot_at (alter nilfs_checkpoint_clear_invalid off blk)
                  (Z.of_nat off) = nilfs_checkpoint_clear_invalid cp) as Ha.
  { unfold slot_at. by rewrite Nat2Z.id, list_lookup_alter_eq, Hcp. }
  assert (slot_at blk (Z.of_nat off) = cp) as Hb.
  { unfold slot_at. by rewrite Nat2Z.id, Hcp. }
  rewrite Ha, Hb, invalid_clear_invalid, Hinv in Hu. cbn [negb Z.b2z] in Hu.
  specialize (Hu ltac:(lia)).
  assert (∀ x y, x - 1 = y - 0 → x = y + 1) as Har by (intros; lia).
  apply Har, Hu.
  intros k Hk Hne. unfold slot_at. rewrite list_lookup_alter_ne; [done|lia].
Qed.

Lemma valid_in_block_fresh st : valid_in_block (fresh_block st) = 0.
Proof.
  rewrite fresh_block_invalid. apply count_range_zero. intros k Hk.
  rewrite length_replicate in Hk. unfold slot_at.
  by rewrite lookup_replicate_2 by lia.
Qed.

(** create_checkpoint keeps a right census word right. *)
Lemma block_after_create_census E b off blk cp :
  1 ≤ E < 2 ^ 32 → length blk = Z.to_nat E → b ≠ 0 → 0 ≤ off →
  blk !! Z.to_nat off = Some cp →
  cp_checkpoints_count (slot_at blk 0) = valid_in_block blk →
  cp_checkpoints_count (slot_at (block_after_create b off blk) 0)
  = valid_in_block (block_after_create b off blk).
Proof.
  intros HE Hlen Hb0 Hoff Hcp Hcen. unfold block_after_create.
  rewrite (slot_at_lookup _ _ _ Hcp).
  destruct (nilfs_checkpoint_invalid cp) eqn:Hinv; [|done].
  rewrite (proj2 (Z.eqb_neq b 0)) by done.
  rewrite valid_in_block_set_census.
  pose proof (valid_in_block_clear_invalid _ _ _ Hcp Hinv) as Hv.
  set (blk1 := alter nilfs_checkpoint_clear_invalid (Z.to_nat off) blk) in *.
  assert (length blk1 = length blk) as Hl1 by apply length_alter.
  assert (cp_checkpoints_count (slot_at blk1 0)
          = cp_checkpoints_count (slot_at blk 0)) as Hc1.
  { unfold slot_at, blk1. rewrite list_lookup_alter.
    destruct (decide _) as [He|]; [|done].
    rewrite He. by destruct (blk !! Z.to_nat 0). }
  pose proof (count_range_bounds
                (λ k, negb (nilfs_checkpoint_invalid (slot_at blk1 k)))
                0 (length blk1)) as Hbnd.
  fold (valid_in_block blk1) in Hbnd.
  unfold slot_at at 1. rewrite list_lookup_alter_eq.
  destruct (lookup_lt_is_Some_2 blk1 (Z.to_nat 0)) as [c0 Hc0'];
    [change (Z.to_nat 0) with 0%nat; lia|].
  change (Z.to_nat 0) with 0%nat in *. rewrite Hc0'.
  cbn [fmap option_fmap option_map default from_option id
       cp_checkpoints_count set_cp_checkpoints_count].
  rewrite Hc1, Hcen, <- Hv. unfold wrap32. apply Z.mod_small. lia.
Qed.

(** *** Creating and deleting again *)

Lemma set_invalid_clear_invalid cp :
  nilfs_checkpoint_invalid cp = true →
  nilfs_checkpoint_set_invalid (nilfs_checkpoint_clear_invalid cp) = cp.
Proof.
  destruct cp as [fl cnt ssl c t inc ic bc raw].
  unfold nilfs_checkpoint_invalid, nilfs_checkpoint_set_invalid,
    nilfs_checkpoint_clear_invalid, set_cp_flags, NILFS_CHECKPOINT_INVALID.
  cbn. intros Hf. f_equal. apply Z.bits_inj'. intros m Hm.
  destruct (decide (0 = m)) as [<- | Hne].
  - by rewrite Z.setbit_eq.
  - rewrite Z.setbit_neq by done. by rewrite Z.clearbit_neq.
Qed.

Lemma census_clear_invalid_slot blk off :
  cp_checkpoints_count
    (slot_at (alter nilfs_checkpoint_clear_invalid off blk) 0)
  = cp_checkpoints_count (slot_at blk 0).
Proof.
  unfold slot_at. rewrite list_lookup_alter.
  destruct (decide _) as [He|]; [|done].
  rewrite He. by destruct (blk !! Z.to_nat 0).
Qed.

(** The block of a checkpoint that is created in an INVALID slot and
    deleted again. *)
Lemma create_delete_block E cno b off blk cp :
  1 ≤ E → 0 ≤ off < E → cno = E * b + off →
  blk !! Z.to_nat off = Some cp →
  nilfs_checkpoint_invalid cp = true →
  nilfs_checkpoint_snapshot cp = false →
  block_after_delete E cno (cno + 1) b (block_after_create b off blk)
  = if b =? 0 then Some blk
    else
      let c := wrap32 (wrap32 (cp_checkpoints_count (slot_at blk 0) + 1) - 1)
      in if c =? 0 then None
         else Some (alter (set_cp_checkpoints_count c) 0%nat blk).
Proof.
  intros HE Hoff Hcno Hcp Hinv Hsnap.
  pose proof (lookup_lt_Some _ _ _ Hcp) as Hlt.
  unfold block_after_delete.
  assert (range_lo E cno b = off) as -> by (unfold range_lo; lia).
  assert (range_len E cno (cno + 1) b = 1%nat) as ->.
  { unfold range_len. rewrite Z.mul_add_distr_l. lia. }
  set (c1 := wrap32 (cp_checkpoints_count (slot_at blk 0) + 1)).
  assert (block_after_create b off blk
          = (if b =? 0 then id else alter (set_cp_checkpoints_count c1) 0%nat)
              (alter nilfs_checkpoint_clear_invalid (Z.to_nat off) blk))
    as Hbc.
  { unfold block_after_create.
    rewrite (slot_at_lookup _ _ _ Hcp), Hinv, census_clear_invalid_slot.
    by destruct (b =? 0). }
  set (g := if b =? 0 then id else set_cp_checkpoints_count c1).
  assert (∀ i, block_after_create b off blk !! i
               = (λ c, (if decide (i = 0%nat) then g else id)
                         (if decide (i = Z.to_nat off)
                          then nilfs_checkpoint_clear_invalid c else c))
                   <$> blk !! i) as Hl.
  { intros i. rewrite Hbc.
    assert (alter nilfs_checkpoint_clear_invalid (Z.to_nat off) blk !! i
            = (λ c, if decide (i = Z.to_nat off)
                    then nilfs_checkpoint_clear_invalid c else c) <$> blk !! i)
      as Ha.
    { destruct (decide (i = Z.to_nat off)) as [->|Hne];
        [by rewrite list_lookup_alter_eq |].
      rewrite list_lookup_alter_ne by done. by destruct (blk !! i). }
    unfold g. destruct (b =? 0); unfold id.
    - rewrite Ha. destruct (decide (i = 0%nat)); by destruct (blk !! i).
    - destruct (decide (i = 0%nat)) as [->|Hne0].
      + rewrite list_lookup_alter_eq, Ha. by destruct (blk !! 0%nat).
      + rewrite list_lookup_alter_ne, Ha by done. by destruct (blk !! i). }
  assert (∀ c, deletable (g c) = deletable c ∧
               nilfs_checkpoint_set_invalid (g c)
               = g (nilfs_checkpoint_set_invalid c)) as Hg.
  { intros c. unfold g. by destruct (b =? 0). }
  assert (deletable (nilfs_checkpoint_clear_invalid cp) = true) as Hdel.
  { unfold deletable. rewrite invalid_clear_invalid.
    assert (nilfs_checkpoint_snapshot (nilfs_checkpoint_clear_invalid cp)
            = nilfs_checkpoint_snapshot cp) as -> by flag_bits.
    by rewrite Hsnap. }
  assert (slot_at (block_after_create b off blk) off
          = (if decide (Z.to_nat off = 0%nat) then g else id)
              (nilfs_checkpoint_clear_invalid cp)) as Hso.
  { unfold slot_at. rewrite Hl, Hcp. cbn.
    by rewrite (decide_True (P := Z.to_nat off = Z.to_nat off)). }
  assert (count_range (λ k, deletable (slot_at (block_after_create b off blk) k))
                      off 1 = 1) as ->.
  { cbn [count_range]. rewrite Hso.
    destruct (decide _); unfold id; rewrite ?(proj1 (Hg _)), Hdel; done. }
  change (1 =? 0) with false. cbv iota.
  assert (invalidate_slots off 1 (block_after_create b off blk)
          = (if b =? 0 then id else alter (set_cp_checkpoints_count c1) 0%nat)
              blk) as ->.
  { apply list_eq. intros i. rewrite invalidate_slots_lookup, Hl.
    assert ((if b =? 0 then id else alter (set_cp_checkpoints_count c1) 0%nat)
              blk !! i
            = (if decide (i = 0%nat) then g else id) <$> blk !! i) as ->.
    { unfold g. destruct (b =? 0); unfold id.
      - destruct (decide (i = 0%nat)); by destruct (blk !! i).
      - destruct (decide (i = 0%nat)) as [->|Hne0].
        + by rewrite list_lookup_alter_eq.
        + rewrite list_lookup_alter_ne by done. by destruct (blk !! i). }
    destruct (decide (i = Z.to_nat off)) as [-> | Hne].
    - rewrite Hcp. cbn [fmap option_fmap option_map].
      rewrite bool_decide_eq_true_2 by lia. cbn [andb]. f_equal.
      destruct (decide (Z.to_nat off = 0%nat)); unfold id;
        rewrite ?(proj1 (Hg _)), Hdel, ?(proj2 (Hg _)),
          set_invalid_clear_invalid; done.
    - rewrite bool_decide_eq_false_2 by lia. cbn [andb].
      by destruct (blk !! i). }
  destruct (b =? 0) eqn:Hb0; [done|].
  assert (cp_checkpoints_count
            (slot_at (alter (set_cp_checkpoints_count c1) 0%nat blk) 0) = c1)
    as ->.
  { unfold slot_at. change (Z.to_nat 0) with 0%nat.
    rewrite list_lookup_alter_eq.
    destruct (lookup_lt_is_Some_2 blk 0) as [c0 ->]; [lia | done]. }
  cbv zeta. destruct (wrap32 (c1 - 1) =? 0); [done|].
  rewrite list_alter_alter_eq. f_equal.
Qed.

(** ** Creating checkpoints *)

Lemma geometry_ok_fresh : geometry_ok (set_mi_cno 31 fresh_cpfile).
Proof. split; [apply Z.leb_le; vm_compute; reflexivity | reflexivity]. Qed.

(** create_checkpoint(cno) on a cno that has no valid entry, in a hole or in
    an INVALID slot, returns 0, makes the entry valid, counts one checkpoint
    more in the header (modulo 2^64), leaves the snapshot count and the
    snapshot list alone, and leaves the block and the inode dirty. *)
Theorem create_checkpoint_new (st : cpfile) (cno : Z) :
  geometry_ok st → block_present st 0 = true →
  1 ≤ cno ≤ U64_MAX → checkpoint_valid st cno = false →
  ∃ st',
    nilfs_cpfile_create_checkpoint st cno = (0, st') ∧
    checkpoint_valid st' cno = true ∧
    ch_ncheckpoints (cp_header st')
    = wrap64 (ch_ncheckpoints (cp_header st) + 1) ∧
    ch_nsnapshots (cp_header st') = ch_nsnapshots (cp_header st) ∧
    ch_snapshot_list (cp_header st') = ch_snapshot_list (cp_header st) ∧
    mi_dirty st' = true ∧ nilfs_cpfile_get_blkoff st cno ∈ bh_dirty st'.
Proof.
  intros Hg Hhdr Hcno Hv.
  assert (is_u64 cno) as Hu by (unfold is_u64; lia).
  destruct (create_checkpoint_effect st cno (proj1 Hcno) Hhdr)
    as (st' & Heq & [HE HF] & _ & _ & [Hd1 Hd2] & Hblocks & Hh).
  destruct (create_new_slot st cno Hg Hu Hv) as (cp & Hcp & Hinv).
  pose proof (offset_range st cno Hg Hu) as Ho.
  rewrite (slot_at_lookup _ _ _ Hcp), Hinv in Hh.
  exists st'. split; [exact Heq|]. split.
  - unfold checkpoint_valid, block_present, bh_checkpoint.
    assert (nilfs_cpfile_get_blkoff st' cno = nilfs_cpfile_get_blkoff st cno ∧
            nilfs_cpfile_get_offset st' cno = nilfs_cpfile_get_offset st cno)
      as [-> ->].
    { unfold nilfs_cpfile_get_blkoff, nilfs_cpfile_get_offset,
        nilfs_cpfile_checkpoints_per_block. by rewrite HE, HF. }
    rewrite Hblocks, lookup_insert_eq.
    rewrite bool_decide_eq_true_2 by by eexists.
    cbn [andb mbind option_bind].
    destruct (block_after_create_lookup (nilfs_cpfile_get_blkoff st cno)
                (nilfs_cpfile_get_offset st cno) _ cp
                (Z.to_nat (nilfs_cpfile_get_offset st cno))
                (proj1 Ho) Hcp Hinv) as (f & -> & Hf).
    rewrite Hcp. cbn [fmap option_fmap option_map default from_option id].
    rewrite decide_True by done.
    destruct Hf as [-> | (_ & _ & k & ->)]; unfold id;
      rewrite ?invalid_set_census, invalid_clear_invalid; done.
  - rewrite Hh. by destruct (cp_header st).
Qed.

Lemma create_checkpoint_new_witness :
  ∃ st',
    nilfs_cpfile_create_checkpoint (set_mi_cno 31 fresh_cpfile) 9 = (0, st') ∧
    checkpoint_valid st' 9 = true ∧
    ch_ncheckpoints (cp_header st')
    = wrap64 (ch_ncheckpoints (cp_header (set_mi_cno 31 fresh_cpfile)) + 1) ∧
    ch_nsnapshots (cp_header st')
    = ch_nsnapshots (cp_header (set_mi_cno 31 fresh_cpfile)) ∧
    ch_snapshot_list (cp_header st')
    = ch_snapshot_list (cp_header (set_mi_cno 31 fresh_cpfile)) ∧
    mi_dirty st' = true ∧
    nilfs_cpfile_get_blkoff (set_mi_cno 31 fresh_cpfile) 9 ∈ bh_dirty st'.
Proof.
  apply (create_checkpoint_new (set_mi_cno 31 fresh_cpfile) 9).
  - exact geometry_ok_fresh.
  - vm_compute. reflexivity.
  - unfold U64_MAX. lia.
  - vm_compute. reflexivity.
Defined.

(** create_checkpoint(cno) on a cno whose entry is already valid returns 0
    and changes neither a block nor the header; it still leaves the block
    and the inode dirty. *)
Theorem create_checkpoint_existing (st : cpfile) (cno : Z) :
  block_present st 0 = true → 1 ≤ cno → checkpoint_valid st cno = true →
  ∃ st',
    nilfs_cpfile_create_checkpoint st cno = (0, st') ∧
    cp_blocks st' = cp_blocks st ∧ cp_header st' = cp_header st ∧
    mi_dirty st' = true ∧ nilfs_cpfile_get_blkoff st cno ∈ bh_dirty st'.
Proof.
  intros Hhdr Hcno Hv.
  destruct (create_checkpoint_effect st cno Hcno Hhdr)
    as (st' & Heq & _ & _ & _ & [Hd1 Hd2] & Hblocks & Hh).
  destruct (create_old_slot st cno Hv) as (blk & Hblk & Hinv).
  rewrite Hblk in Hblocks, Hh. cbn [default from_option id] in Hblocks, Hh.
  unfold block_after_create in Hblocks. rewrite Hinv in Hblocks, Hh.
  exists st'. split; [exact Heq|].
  rewrite Hblocks, Hh, insert_id by done. done.
Qed.

Lemma create_checkpoint_existing_witness :
  ∃ st',
    nilfs_cpfile_create_checkpoint cpfile_10_30 20 = (0, st') ∧
    cp_blocks st' = cp_blocks cpfile_10_30 ∧
    cp_header st' = cp_header cpfile_10_30 ∧
    mi_dirty st' = true ∧
    nilfs_cpfile_get_blkoff cpfile_10_30 20 ∈ bh_dirty st'.
Proof.
  apply (create_checkpoint_existing cpfile_10_30 20).
  - vm_compute. reflexivity.
  - lia.
  - vm_compute. reflexivity.
Defined.

(** create_checkpoint(cno) leaves every other entry as it is; only the
    first entry of the block of cno, when that is not block 0, can see its
    census word change. *)
Theorem create_checkpoint_keeps_others (st : cpfile) (cno x : Z)
  (cp : nilfs_checkpoint) :
  geometry_ok st → block_present st 0 = true →
  1 ≤ cno ≤ U64_MAX → 0 ≤ x ≤ U64_MAX → x ≠ cno →
  entry st x = Some cp →
  ∃ st',
    nilfs_cpfile_create_checkpoint st cno = (0, st') ∧
    ∃ cp', entry st' x = Some cp' ∧ same_but_census cp cp' ∧
           (nilfs_cpfile_get_offset st x ≠ 0 ∨
            nilfs_cpfile_get_blkoff st x = 0 ∨
            nilfs_cpfile_get_blkoff st x ≠ nilfs_cpfile_get_blkoff st cno →
            cp' = cp).
Proof.
  intros Hg Hhdr Hcno Hx Hne Hcp.
  assert (is_u64 cno) as Hu by (unfold is_u64; lia).
  destruct (create_checkpoint_effect st cno (proj1 Hcno) Hhdr)
    as (st' & Heq & [HE HF] & _ & _ & _ & Hblocks & _).
  exists st'. split; [exact Heq|].
  pose proof (offset_range st cno Hg Hu) as Ho.
  pose proof (offset_range st x Hg Hx) as Hox.
  unfold entry in *.
  assert (nilfs_cpfile_get_blkoff st' x = nilfs_cpfile_get_blkoff st x ∧
          nilfs_cpfile_get_offset st' x = nilfs_cpfile_get_offset st x)
    as [-> ->].
  { unfold nilfs_cpfile_get_blkoff, nilfs_cpfile_get_offset,
      nilfs_cpfile_checkpoints_per_block. by rewrite HE, HF. }
  rewrite Hblocks.
  destruct (decide (nilfs_cpfile_get_blkoff st x
                    = nilfs_cpfile_get_blkoff st cno)) as [Hb | Hb].
  2:{ rewrite lookup_insert_ne by done. exists cp.
      split; [done|]. split; [|done].
      unfold same_but_census. by rewrite set_census_same. }
  rewrite Hb in *. rewrite lookup_insert_eq. cbn [mbind option_bind].
  destruct (cp_blocks st !! nilfs_cpfile_get_blkoff st cno) as [blk|];
    [|done]. cbn [mbind option_bind default from_option id] in *.
  assert (Z.to_nat (nilfs_cpfile_get_offset st x)
          ≠ Z.to_nat (nilfs_cpfile_get_offset st cno)) as Hoff.
  { intros Heqo. apply Hne.
    by apply (slot_addr_inj st x cno Hg Hx Hu). }
  unfold block_after_create.
  destruct (nilfs_checkpoint_invalid _).
  2:{ exists cp. split; [done|]. split; [|done].
      unfold same_but_census. by rewrite set_census_same. }
  destruct (_ =? 0) eqn:Hb0.
  { rewrite list_lookup_alter_ne by done. exists cp. split; [done|].
    split; [|done]. unfold same_but_census. by rewrite set_census_same. }
  apply Z.eqb_neq in Hb0.
  destruct (decide (Z.to_nat (nilfs_cpfile_get_offset st x) = 0%nat))
    as [H0 | H0].
  - rewrite H0 in *. rewrite list_lookup_alter_eq.
    rewrite list_lookup_alter_ne by done. rewrite Hcp.
    eexists. split; [done|]. split; [done|].
    intros [? | [? | ?]]; [lia | done | done].
  - rewrite !list_lookup_alter_ne by done. exists cp. split; [done|].
    split; [|done]. unfold same_but_census. by rewrite set_census_same.
Qed.

Lemma create_checkpoint_keeps_others_witness :
  ∃ st',
    nilfs_cpfile_create_checkpoint cpfile_10_30 21 = (0, st') ∧
    ∃ cp', entry st' 20 = Some cp' ∧
           same_but_census (checkpoint_at cpfile_10_30 20) cp' ∧
           (nilfs_cpfile_get_offset cpfile_10_30 20 ≠ 0 ∨
            nilfs_cpfile_get_blkoff cpfile_10_30 20 = 0 ∨
            nilfs_cpfile_get_blkoff cpfile_10_30 20
            ≠ nilfs_cpfile_get_blkoff cpfile_10_30 21 →
            cp' = checkpoint_at cpfile_10_30 20).
Proof.
  apply (create_checkpoint_keeps_others cpfile_10_30 21 20
           (checkpoint_at cpfile_10_30 20)).
  - exact geometry_ok_10_30.
  - vm_compute. reflexivity.
  - unfold U64_MAX. lia.
  - unfold U64_MAX. lia.
  - lia.
  - vm_compute. reflexivity.
Defined.

(** create_checkpoint keeps the per-block census: if the census word of a
    block other than block 0 counted its valid entries before the call, it
    does so afterwards, also when the call has just created the block. *)
Theorem create_checkpoint_keeps_census (st : cpfile) (cno b : Z) :
  geometry_ok st → mi_entries_per_block st < 2 ^ 32 → blocks_ok st →
  block_present st 0 = true → 1 ≤ cno ≤ U64_MAX →
  b ≠ 0 → census_ok st b →
  ∃ st',
    nilfs_cpfile_create_checkpoint st cno = (0, st') ∧ census_ok st' b.
Proof.
  intros Hg HE32 Hok Hhdr Hcno Hb Hcen.
  assert (is_u64 cno) as Hu by (unfold is_u64; lia).
  destruct (create_checkpoint_effect st cno (proj1 Hcno) Hhdr)
    as (st' & Heq & _ & _ & _ & _ & Hblocks & _).
  exists st'. split; [exact Heq|]. intros blk'. rewrite Hblocks.
  destruct (decide (b = nilfs_cpfile_get_blkoff st cno)) as [-> | Hne].
  2:{ rewrite lookup_insert_ne by done. apply Hcen. }
  rewrite lookup_insert_eq. intros [= <-].
  pose proof (offset_range st cno Hg Hu) as Ho.
  set (blk0 := default (fresh_block st) (cp_blocks st !! _)).
  assert (length blk0 = Z.to_nat (mi_entries_per_block st) ∧
          cp_checkpoints_count (slot_at blk0 0) = valid_in_block blk0)
    as [Hlen Hc0].
  { unfold blk0.
    destruct (cp_blocks st !! nilfs_cpfile_get_blkoff st cno) as [blk|] eqn:Hblk;
      cbn [default from_option id].
    - split; [by apply (Hok _ _ Hblk) | by apply Hcen].
    - rewrite valid_in_block_fresh. rewrite fresh_block_invalid.
      split; [apply length_replicate|].
      unfold slot_at. rewrite lookup_replicate_2; [done|].
      destruct Hg. change (Z.to_nat 0) with 0%nat. lia. }
  destruct (lookup_lt_is_Some_2 blk0
              (Z.to_nat (nilfs_cpfile_get_offset st cno))) as [cp Hcp];
    [lia|].
  apply (block_after_create_census (mi_entries_per_block st) _ _ _ cp
           (conj (proj1 Hg) HE32)); try done; lia.
Qed.

Lemma create_checkpoint_keeps_census_witness :
  ∃ st',
    nilfs_cpfile_create_checkpoint cpfile_10_30 21 = (0, st') ∧
    census_ok st' 5.
Proof.
  apply (create_checkpoint_keeps_census cpfile_10_30 21 5).
  - exact geometry_ok_10_30.
  - apply Z.ltb_lt. vm_compute. reflexivity.
  - exact blocks_ok_10_30.
  - vm_compute. reflexivity.
  - unfold U64_MAX. lia.
  - lia.
  - apply (census_ok_check _ _ (default [] (cp_blocks cpfile_10_30 !! 5)));
      vm_compute; reflexivity.
Defined.

(** Creating a checkpoint and deleting it again restores the cpfile: when
    cno lies in a hole, or in an INVALID non-snapshot slot of block 0 or of
    a block whose census word c satisfies 0 < c < 2^32 - 1, then
    create_checkpoint(cno) followed by delete_checkpoints(cno, cno + 1)
    returns 0 twice and leaves every block and the header as they were; a
    block that create had to allocate is reclaimed. *)
Theorem create_then_delete (st : cpfile) (cno : Z) :
  geometry_ok st → block_present st 0 = true →
  1 ≤ cno < U64_MAX →
  0 ≤ ch_ncheckpoints (cp_header st) ≤ U64_MAX →
  cp_blocks st !! nilfs_cpfile_get_blkoff st cno = None ∨
  (∃ cp, entry st cno = Some cp ∧
         nilfs_checkpoint_invalid cp = true ∧
         nilfs_checkpoint_snapshot cp = false ∧
         (nilfs_cpfile_get_blkoff st cno = 0 ∨
          0 < cp_checkpoints_count
                (bh_checkpoint st (nilfs_cpfile_get_blkoff st cno) 0)
            < 2 ^ 32 - 1)) →
  ∃ st1 st2,
    nilfs_cpfile_create_checkpoint st cno = (0, st1) ∧
    nilfs_cpfile_delete_checkpoints st1 cno (cno + 1) = Some (0, st2) ∧
    cp_blocks st2 = cp_blocks st ∧ cp_header st2 = cp_header st.
Proof.
  intros Hg Hhdr Hcno Hnc Hcase.
  assert (is_u64 cno) as Hu by (unfold is_u64; lia).
  pose proof (offset_range st cno Hg Hu) as Ho.
  pose proof (cno_blkoff_offset st cno Hg Hu) as Hdm.
  destruct (create_checkpoint_effect st cno (proj1 Hcno) Hhdr)
    as (st1 & Heq1 & [HE HF] & _ & _ & _ & Hblocks1 & Hh1).
  set (b := nilfs_cpfile_get_blkoff st cno) in *.
  set (off := nilfs_cpfile_get_offset st cno) in *.
  set (blk0 := default (fresh_block st) (cp_blocks st !! b)) in *.
  assert (∃ cp, blk0 !! Z.to_nat off = Some cp ∧
                nilfs_checkpoint_invalid cp = true ∧
                nilfs_checkpoint_snapshot cp = false) as (cp & Hcp & Hinv & Hsn).
  { destruct Hcase as [Hnone | (cp & Hent & Hi & Hs & _)].
    - unfold blk0. rewrite Hnone. cbn [default from_option id].
      rewrite fresh_block_invalid. exists invalid_checkpoint.
      split; [apply lookup_replicate_2; lia | done].
    - unfold entry in Hent. fold b off in Hent. unfold blk0.
      destruct (cp_blocks st !! b); [|done]. by exists cp. }
  rewrite (slot_at_lookup _ _ _ Hcp), Hinv in Hh1.
  assert (geometry_ok st1) as Hg1 by (destruct Hg; split; congruence).
  assert (nilfs_cpfile_get_blkoff st1 cno = b ∧
          nilfs_cpfile_get_offset st1 cno = off) as [Hb1 Ho1].
  { unfold b, off, nilfs_cpfile_get_blkoff, nilfs_cpfile_get_offset,
      nilfs_cpfile_checkpoints_per_block. by rewrite HE, HF. }
  assert (block_present st1 0 = true) as Hhdr1.
  { apply block_present_true. rewrite Hblocks1.
    destruct (decide (b = 0)) as [-> | Hb0].
    - rewrite lookup_insert_eq. by eexists.
    - rewrite lookup_insert_ne by done. by apply block_present_true. }
  destruct (delete_checkpoints_effect st1 cno (cno + 1) Hg1 Hhdr1)
    as (st2 & Heq2 & _ & _ & _ & Hh2 & Hblocks2); [lia | lia |].
  replace (Z.to_nat (cno + 1 - cno)) with 1%nat in * by lia.
  cbn [count_range] in *.
  assert (block_present st1 b = true) as Hp1.
  { apply block_present_true. rewrite Hblocks1, lookup_insert_eq.
    by eexists. }
  destruct (block_after_create_lookup b off blk0 cp (Z.to_nat off)
              (proj1 Ho) Hcp Hinv) as (f & Hl & Hf).
  rewrite Hcp in Hl. cbn [fmap option_fmap option_map] in Hl.
  rewrite decide_True in Hl by done.
  assert (checkpoint_at st1 cno = f (nilfs_checkpoint_clear_invalid cp))
    as Hat.
  { unfold checkpoint_at. rewrite Hb1, Ho1.
    rewrite (bh_checkpoint_slot_at st1 b (block_after_create b off blk0))
      by (rewrite Hblocks1; apply lookup_insert_eq).
    by apply slot_at_lookup. }
  assert (nilfs_checkpoint_snapshot (f (nilfs_checkpoint_clear_invalid cp))
          = false ∧
          nilfs_checkpoint_invalid (f (nilfs_checkpoint_clear_invalid cp))
          = false) as [Hs' Hi'].
  { assert (nilfs_checkpoint_snapshot (nilfs_checkpoint_clear_invalid cp)
            = nilfs_checkpoint_snapshot cp) as Hsc by flag_bits.
    destruct Hf as [-> | (_ & _ & k & ->)]; unfold id;
      rewrite ?invalid_set_census; (split; [|apply invalid_clear_invalid]).
    - by rewrite Hsc.
    - change (nilfs_checkpoint_snapshot (set_cp_checkpoints_count k ?c))
        with (nilfs_checkpoint_snapshot c). by rewrite Hsc. }
  unfold snapshot_at, deletable_at, deletable in Heq2, Hh2.
  rewrite Hb1, Hp1, Hat, Hs' in Heq2, Hh2. rewrite Hi' in Hh2.
  cbn in Heq2, Hh2.
  exists st1, st2. split; [exact Heq1|]. split; [exact Heq2|]. split.
  - apply map_eq. intros b'. rewrite Hblocks2, Hblocks1, HE.
    destruct (decide (b' = b)) as [-> | Hne].
    + rewrite lookup_insert_eq. cbn [mbind option_bind].
      rewrite (create_delete_block (mi_entries_per_block st) cno b off blk0 cp
                 (proj1 Hg) Ho Hdm Hcp Hinv Hsn).
      destruct Hcase as [Hnone | (cp0 & Hent & _ & _ & Hcen)].
      * assert (b ≠ 0) as Hb0.
        { intros Hb0. apply block_present_true in Hhdr as [? Hh0].
          rewrite Hb0 in Hnone. congruence. }
        rewrite (proj2 (Z.eqb_neq b 0)) by done.
        unfold blk0. rewrite Hnone. cbn [default from_option id].
        rewrite fresh_block_invalid. unfold slot_at.
        rewrite lookup_replicate_2
          by (destruct Hg; change (Z.to_nat 0) with 0%nat; lia).
        done.
      * unfold entry in Hent. fold b off in Hent. unfold blk0 in *.
        unfold bh_checkpoint in Hcen. fold b in Hcen.
        destruct (cp_blocks st !! b) as [blk|]; [|done].
        cbn [default from_option id mbind option_bind] in *.
        destruct (b =? 0) eqn:Hb0; [done|].
        apply Z.eqb_neq in Hb0. destruct Hcen as [? | Hcen]; [done|].
        fold (slot_at blk 0) in Hcen.
        assert (wrap32 (wrap32 (cp_checkpoints_count (slot_at blk 0) + 1) - 1)
                = cp_checkpoints_count (slot_at blk 0)) as ->.
        { unfold wrap32. rewrite (Z.mod_small (_ + 1)) by lia.
          rewrite Z.mod_small by lia. lia. }
        cbv zeta. rewrite (proj2 (Z.eqb_neq _ 0)) by lia. f_equal.
        apply list_eq. intros i. destruct i as [|i].
        -- rewrite list_lookup_alter_eq. unfold slot_at.
           change (Z.to_nat 0) with 0%nat.
           destruct (blk !! 0%nat) as [c0|]; [|done]. cbn.
           by rewrite set_census_same.
        -- by rewrite list_lookup_alter_ne.
    + rewrite lookup_insert_ne by done.
      destruct (cp_blocks st !! b') as [blk|]; cbn [mbind option_bind]; [|done].
      rewrite <- HE.
      apply (block_after_delete_outside st1 cno (cno + 1) b' blk Hg1);
        [lia | lia |].
      replace (cno + 1 - 1) with cno by lia. rewrite Hb1. lia.
  - rewrite Hh2, Hh1. change (0 <? 1 + 0) with true. cbv iota.
    destruct (cp_header st) as [nc ns sl]. cbn in *.
    f_equal. unfold le64_add_cpu. rewrite wrap64_add_l.
    replace (nc + 1 + - (1 + 0)) with nc by lia.
    rewrite (wrap64_u64 nc) by done. done.
Qed.

Lemma create_then_delete_witness :
  ∃ st1 st2,
    nilfs_cpfile_create_checkpoint (set_mi_cno 31 fresh_cpfile) 9 = (0, st1) ∧
    nilfs_cpfile_delete_checkpoints st1 9 (9 + 1) = Some (0, st2) ∧
    cp_blocks st2 = cp_blocks (set_mi_cno 31 fresh_cpfile) ∧
    cp_header st2 = cp_header (set_mi_cno 31 fresh_cpfile).
Proof.
  apply (create_then_delete (set_mi_cno 31 fresh_cpfile) 9).
  - exact geometry_ok_fresh.
  - vm_compute. reflexivity.
  - unfold U64_MAX. lia.
  - split; apply Z.leb_le; vm_compute; reflexivity.
  - left. vm_compute. reflexivity.
Defined.

(** ** Block layout *)

(** The run of entries nilfs_cpfile_checkpoints_in_block announces from
    [curr] is not empty, stops at [max] or at the end of the block of
    [curr], whichever comes first, and every cno of the run lies in the
    block of [curr], in consecutive slots; if the run stops before [max],
    the next cno opens the next block. *)
Theorem checkpoints_in_block_run (st : cpfile) (curr max : Z) :
  geometry_ok st → 0 ≤ curr < max → max ≤ U64_MAX →
  let n := nilfs_cpfile_checkpoints_in_block st curr max in
  1 ≤ n ∧ curr + n ≤ max ∧
  nilfs_cpfile_get_offset st curr + n ≤ mi_entries_per_block st ∧
  (∀ x, curr ≤ x < curr + n →
        nilfs_cpfile_get_blkoff st x = nilfs_cpfile_get_blkoff st curr ∧
        nilfs_cpfile_get_offset st x
        = nilfs_cpfile_get_offset st curr + (x - curr)) ∧
  (curr + n < max →
   nilfs_cpfile_get_blkoff st (curr + n) = nilfs_cpfile_get_blkoff st curr + 1 ∧
   nilfs_cpfile_get_offset st (curr + n) = 0).
Proof.
  intros Hg Hcurr Hmax n.
  destruct (step_facts st curr max Hg Hcurr Hmax)
    as (HE & Ho & Hdm & Hn & Hin & _).
  subst n. rewrite Hin. split; [done|]. split; [lia|]. split; [lia|].
  split.
  - intros x Hx. destruct (step_slot st curr max Hg Hcurr Hmax x Hx)
      as [Hb Hof]. split; [done|]. lia.
  - intros Hlt.
    assert (curr + Z.min (mi_entries_per_block st
                          - nilfs_cpfile_get_offset st curr) (max - curr)
            = mi_entries_per_block st
              * (nilfs_cpfile_get_blkoff st curr + 1)) as -> by lia.
    apply blkoff_offset_block_start; [done|]. unfold is_u64. lia.
Qed.

Lemma checkpoints_in_block_run_witness :
  let n := nilfs_cpfile_checkpoints_in_block cpfile_10_30 9 31 in
  1 ≤ n ∧ 9 + n ≤ 31 ∧
  nilfs_cpfile_get_offset cpfile_10_30 9 + n
  ≤ mi_entries_per_block cpfile_10_30 ∧
  (∀ x, 9 ≤ x < 9 + n →
        nilfs_cpfile_get_blkoff cpfile_10_30 x
        = nilfs_cpfile_get_blkoff cpfile_10_30 9 ∧
        nilfs_cpfile_get_offset cpfile_10_30 x
        = nilfs_cpfile_get_offset cpfile_10_30 9 + (x - 9)) ∧
  (9 + n < 31 →
   nilfs_cpfile_get_blkoff cpfile_10_30 (9 + n)
   = nilfs_cpfile_get_blkoff cpfile_10_30 9 + 1 ∧
   nilfs_cpfile_get_offset cpfile_10_30 (9 + n) = 0).
Proof.
  apply (checkpoints_in_block_run cpfile_10_30 9 31).
  - exact geometry_ok_10_30.
  - lia.
  - unfold U64_MAX. lia.
Defined.

(** Block offset and slot determine the cno and the other way round: the
    slot is below the number of entries per block, the first cno of the
    block plus the slot gives the cno back, and the cno built from a block
    offset and a slot is found in that block and slot. *)
Theorem layout_round_trip (st : cpfile) (cno b k : Z) :
  geometry_ok st → 0 ≤ cno ≤ U64_MAX →
  0 ≤ k < mi_entries_per_block st →
  0 ≤ mi_entries_per_block st * b + k ≤ U64_MAX →
  (0 ≤ nilfs_cpfile_get_offset st cno < mi_entries_per_block st ∧
   nilfs_cpfile_first_checkpoint_in_block st (nilfs_cpfile_get_blkoff st cno)
   + nilfs_cpfile_get_offset st cno = cno) ∧
  (nilfs_cpfile_get_blkoff st (mi_entries_per_block st * b + k) = b ∧
   nilfs_cpfile_get_offset st (mi_entries_per_block st * b + k) = k).
Proof.
  intros Hg Hcno Hk Hu.
  assert (is_u64 cno) as Hc by done.
  pose proof (offset_range st cno Hg Hc) as Ho.
  pose proof (cno_blkoff_offset st cno Hg Hc) as Hdm.
  pose proof (blkoff_nonneg st cno Hg Hc) as Hb.
  split; [split; [done|] | by apply slot_as_cno].
  rewrite first_checkpoint_in_block_u64; [lia | done |].
  unfold is_u64. destruct Hg. nia.
Qed.

Lemma layout_round_trip_witness :
  (0 ≤ nilfs_cpfile_get_offset cpfile_10_30 30
   < mi_entries_per_block cpfile_10_30 ∧
   nilfs_cpfile_first_checkpoint_in_block cpfile_10_30
     (nilfs_cpfile_get_blkoff cpfile_10_30 30)
   + nilfs_cpfile_get_offset cpfile_10_30 30 = 30) ∧
  (nilfs_cpfile_get_blkoff cpfile_10_30
     (mi_entries_per_block cpfile_10_30 * 7 + 2) = 7 ∧
   nilfs_cpfile_get_offset cpfile_10_30
     (mi_entries_per_block cpfile_10_30 * 7 + 2) = 2).
Proof.
  apply (layout_round_trip cpfile_10_30 30 7 2).
  - exact geometry_ok_10_30.
  - unfold U64_MAX. lia.
  - split; [lia | apply Z.ltb_lt; vm_compute; reflexivity].
  - split; apply Z.leb_le; vm_compute; reflexivity.
Defined.

(** ** Snapshot enumeration *)

Lemma live_snapshot_next st c l :
  live_snapshot st c → path (next_of st) c l 0 →
  ∃ cp, entry st c = Some cp ∧
        nilfs_checkpoint_invalid cp = false ∧
        nilfs_checkpoint_snapshot cp = true ∧
        ssl_next (cp_snapshot_list cp) = default 0 (head l).
Proof.
  intros (Hc & cp & Hcp & Hi & Hs) Hp. exists cp.
  split; [done|]. split; [done|]. split; [done|].
  apply path_head in Hp. unfold next_of, node in Hp.
  rewrite (proj2 (Z.eqb_neq c 0)) in Hp by lia. rewrite Hcp in Hp.
  cbn in Hp. by injection Hp.
Qed.

(** The walk along the snapshot list from member [c], with room for [k]
    entries: it emits the first [k] members from [c] on and reports the
    member to continue from, or ~0 at the end of the list. *)
Lemma ssinfo_loop_spec st k : ∀ c l buf,
  path (next_of st) c l 0 → Forall (live_snapshot st) (c :: l) →
  ssinfo_loop k st c (nilfs_cpfile_get_blkoff st c) buf
  = (inr (default U64_MAX ((c :: l) !! k)),
     buf ++ map (cpinfo_of st) (take k (c :: l))).
Proof.
  induction k as [|k IH]; intros c l buf Hp Hlive.
  - cbn. by rewrite app_nil_r.
  - apply Forall_cons in Hlive as [Hc Hl].
    destruct (live_snapshot_next st c l Hc Hp) as (cp & Hcp & Hi & Hs & Hn).
    cbn [ssinfo_loop]. rewrite (bh_checkpoint_entry _ _ _ Hcp), Hi, Hs.
    cbn [orb negb]. rewrite Hn.
    assert (cpinfo_of st c = nilfs_cpfile_checkpoint_to_cpinfo cp) as Hinfo.
    { unfold cpinfo_of, checkpoint_at. by rewrite (bh_checkpoint_entry _ _ _ Hcp). }
    destruct l as [|n l]; cbn [head default from_option id].
    + cbn. rewrite Hinfo, take_nil. by destruct k.
    + destruct Hp as [_ Hp].
      pose proof (Forall_inv Hl) as (Hn0 & cpn & Hcpn & _).
      rewrite (proj2 (Z.eqb_neq n 0)) by lia.
      assert ((if negb (nilfs_cpfile_get_blkoff st c
                        =? nilfs_cpfile_get_blkoff st n)
               then fst (nilfs_cpfile_get_checkpoint_block st n false)
               else 0) = 0) as ->.
      { destruct (negb _); [|done].
        rewrite get_checkpoint_block_nocreate.
        by rewrite (entry_block_present _ _ _ Hcpn). }
      change (0 <? 0) with false. cbv iota.
      rewrite (IH n l _ Hp Hl). cbn [lookup list_lookup take map].
      by rewrite <- app_assoc, Hinfo.
Qed.

Lemma snapshot_list_live st l :
  snapshot_list st l → Forall (λ c, checkpoint_valid st c = true) l →
  Forall (live_snapshot st) l.
Proof.
  intros (_ & _ & _ & Hall) Hvalid. apply Forall_forall. intros c Hc.
  pose proof (proj1 (Forall_forall _ _) Hall c Hc) as (Hr & cp & Hcp & Hs).
  pose proof (proj1 (Forall_forall _ _) Hvalid c Hc) as Hv.
  split; [done|]. exists cp. split; [done|]. split; [|done].
  unfold checkpoint_valid in Hv. rewrite (bh_checkpoint_entry _ _ _ Hcp) in Hv.
  apply andb_true_iff in Hv as [_ Hv]. by apply negb_true_iff in Hv.
Qed.

Lemma snapshot_list_10_30_valid :
  Forall (λ c, checkpoint_valid cpfile_10_30 c = true) [10; 30].
Proof. repeat constructor. Qed.

(** get_cpinfo in snapshot mode, started at the head of the list
    ([*cno = 0]) with room for nci entries, returns the summaries of the
    first nci snapshots in list order; [*cno] becomes the snapshot to
    continue from, or ~0 when the end of the list has been reached. *)
Theorem get_ssinfo_from_start (st : cpfile) (l : list Z) (nci : Z) :
  block_present st 0 = true →
  snapshot_list st l →
  Forall (λ c, checkpoint_valid st c = true) l →
  nilfs_cpfile_get_cpinfo st 0 NILFS_SNAPSHOT nci
  = Some (Z.of_nat (length (take (Z.to_nat nci) l)),
          match l with
          | [] => 0
          | _ => default U64_MAX (l !! Z.to_nat nci)
          end,
          map (cpinfo_of st) (take (Z.to_nat nci) l), st).
Proof.
  intros Hhdr Hlist Hvalid.
  pose proof (snapshot_list_live st l Hlist Hvalid) as Hlive.
  destruct (snapshot_list_paths _ _ Hlist) as (Hp & _ & _).
  cbn [nilfs_cpfile_get_cpinfo]. unfold nilfs_cpfile_do_get_ssinfo.
  cbn [Z.eqb]. rewrite (get_header_block_present _ Hhdr).
  change (0 <? 0) with false. cbv iota.
  pose proof (path_head _ _ _ _ Hp) as Hh. unfold next_of, node in Hh.
  cbn in Hh. injection Hh as Hh. rewrite Hh.
  destruct l as [|c l]; cbn [head default from_option id].
  - cbn. by rewrite take_nil.
  - destruct Hp as [_ Hp].
    pose proof (Forall_inv Hlive) as (Hc0 & cp & Hcp & _).
    rewrite (proj2 (Z.eqb_neq c 0)) by lia.
    unfold ssinfo_walk. rewrite get_checkpoint_block_nocreate.
    rewrite (entry_block_present _ _ _ Hcp).
    change (0 <? 0) with false. cbv iota.
    rewrite (ssinfo_loop_spec st _ c l [] Hp Hlive). cbn [app].
    by rewrite length_map.
Qed.

Lemma get_ssinfo_from_start_witness :
  nilfs_cpfile_get_cpinfo cpfile_10_30 0 NILFS_SNAPSHOT 1
  = Some (Z.of_nat (length (take (Z.to_nat 1) [10; 30])),
          default U64_MAX ([10; 30] !! Z.to_nat 1),
          map (cpinfo_of cpfile_10_30) (take (Z.to_nat 1) [10; 30]),
          cpfile_10_30).
Proof.
  apply (get_ssinfo_from_start cpfile_10_30 [10; 30] 1).
  - vm_compute. reflexivity.
  - exact snapshot_list_10_30.
  - exact snapshot_list_10_30_valid.
Defined.

(** get_cpinfo in snapshot mode, started at a snapshot [c] of the list,
    returns the summaries of the next nci snapshots from [c] on in list
    order, and again the snapshot to continue from or ~0; started at ~0 it
    returns nothing and stays at ~0.  Enumerating the list in pieces
    therefore gives the same entries as enumerating it at once. *)
Theorem get_ssinfo_continue (st : cpfile) (l1 l2 : list Z) (c nci : Z) :
  snapshot_list st (l1 ++ c :: l2) →
  Forall (λ c, checkpoint_valid st c = true) (l1 ++ c :: l2) →
  c < U64_MAX →
  nilfs_cpfile_get_cpinfo st c NILFS_SNAPSHOT nci
  = Some (Z.of_nat (length (take (Z.to_nat nci) (c :: l2))),
          default U64_MAX ((c :: l2) !! Z.to_nat nci),
          map (cpinfo_of st) (take (Z.to_nat nci) (c :: l2)), st) ∧
  nilfs_cpfile_get_cpinfo st U64_MAX NILFS_SNAPSHOT nci
  = Some (0, U64_MAX, [], st).
Proof.
  intros Hlist Hvalid Hmax. split; [|done].
  pose proof (snapshot_list_live st _ Hlist Hvalid) as Hlive.
  destruct (snapshot_list_paths _ _ Hlist) as (Hp & _ & _).
  apply path_app in Hp as [_ Hp].
  apply Forall_app in Hlive as [_ Hlive].
  pose proof (Forall_inv Hlive) as (Hc0 & cp & Hcp & _).
  cbn [nilfs_cpfile_get_cpinfo]. unfold nilfs_cpfile_do_get_ssinfo.
  rewrite (proj2 (Z.eqb_neq c 0)) by lia.
  rewrite (proj2 (Z.eqb_neq c U64_MAX)) by lia.
  unfold ssinfo_walk. rewrite get_checkpoint_block_nocreate.
  rewrite (entry_block_present _ _ _ Hcp).
  change (0 <? 0) with false. cbv iota.
  rewrite (ssinfo_loop_spec st _ c l2 [] Hp Hlive). cbn [app].
  by rewrite length_map.
Qed.

Lemma get_ssinfo_continue_witness :
  nilfs_cpfile_get_cpinfo cpfile_10_30 30 NILFS_SNAPSHOT 4
  = Some (Z.of_nat (length (take (Z.to_nat 4) [30])),
          default U64_MAX ([30] !! Z.to_nat 4),
          map (cpinfo_of cpfile_10_30) (take (Z.to_nat 4) [30]),
          cpfile_10_30) ∧
  nilfs_cpfile_get_cpinfo cpfile_10_30 U64_MAX NILFS_SNAPSHOT 4
  = Some (0, U64_MAX, [], cpfile_10_30).
Proof.
  apply (get_ssinfo_continue cpfile_10_30 [10] [] 30 4).
  - exact snapshot_list_10_30.
  - exact snapshot_list_10_30_valid.
  - unfold U64_MAX. lia.
Defined.

(** ** clear_snapshot on a well-formed list *)

Lemma next_of_clear_snapshot_links st cno next prev c :
  geometry_ok st → is_u64 cno → is_u64 next → is_u64 prev → is_u64 c →
  cno ≠ 0 → prev ≠ cno → next ≠ cno →
  next_of (clear_snapshot_links st cno next prev) c
  = if decide (c = cno) then (λ _, 0) <$> next_of st c
    else if decide (c = prev) then (λ _, next) <$> next_of st c
    else next_of st c.
Proof.
  intros Hg Hcno Hnext Hprev Hc Hne0 Hnep Hnen. unfold next_of, node.
  destruct (c =? 0) eqn:Hc0.
  - apply Z.eqb_eq in Hc0 as ->. rewrite header_clear_snapshot_links. cbn.
    rewrite (decide_False (P := 0 = cno)) by lia.
    repeat destruct (decide _); congruence.
  - apply Z.eqb_neq in Hc0. rewrite entry_clear_snapshot_links by done.
    destruct (entry st c) as [e|]; repeat destruct (decide _);
      cbn; try done; try (f_equal; congruence); exfalso; lia.
Qed.

Lemma prev_of_clear_snapshot_links st cno next prev c :
  geometry_ok st → is_u64 cno → is_u64 next → is_u64 prev → is_u64 c →
  cno ≠ 0 → prev ≠ cno → next ≠ cno →
  prev_of (clear_snapshot_links st cno next prev) c
  = if decide (c = cno) then (λ _, 0) <$> prev_of st c
    else if decide (c = next) then (λ _, prev) <$> prev_of st c
    else prev_of st c.
Proof.
  intros Hg Hcno Hnext Hprev Hc Hne0 Hnep Hnen. unfold prev_of, node.
  destruct (c =? 0) eqn:Hc0.
  - apply Z.eqb_eq in Hc0 as ->. rewrite header_clear_snapshot_links. cbn.
    rewrite (decide_False (P := 0 = cno)) by lia.
    repeat destruct (decide _); congruence.
  - apply Z.eqb_neq in Hc0. rewrite entry_clear_snapshot_links by done.
    destruct (entry st c) as [e|]; repeat destruct (decide _);
      cbn; try done; try (f_equal; congruence); exfalso; lia.
Qed.

Lemma increasing_join l1 l2 :
  increasing l1 → increasing l2 → (∀ x y, x ∈ l1 → y ∈ l2 → x < y) →
  increasing (l1 ++ l2).
Proof.
  unfold increasing. induction l1 as [| x l1 IH]; cbn; [done|].
  intros H1 H2 Hlt. apply StronglySorted_inv in H1 as [H1 Hx].
  constructor.
  - apply IH; [done | done |]. intros a b Ha Hb. apply Hlt; [|done].
    by apply list_elem_of_further.
  - apply Forall_app. split; [done|]. apply Forall_forall. intros y Hy.
    apply Hlt; [apply list_elem_of_here | done].
Qed.

Section SnapshotRemove.
Context (st : cpfile) (cno : Z) (cp : nilfs_checkpoint) (l1 l2 : list Z).
Hypothesis Hgeom : geometry_ok st.
Hypothesis Hhdr : block_present st 0 = true.
Hypothesis Hlist : snapshot_list st (l1 ++ cno :: l2).
Hypothesis Hcp : entry st cno = Some cp.
Hypothesis Hvalid : nilfs_checkpoint_invalid cp = false.

Local Abbreviation next := (default 0 (head l2)).
Local Abbreviation prev := (default 0 (last l1)).
Local Abbreviation st' := (clear_snapshot_links st cno next prev).

Lemma rm_member c :
  c ∈ l1 ++ cno :: l2 →
  is_u64 c ∧ c ≠ 0 ∧
  ∃ e, entry st c = Some e ∧ nilfs_checkpoint_snapshot e = true.
Proof.
  destruct Hlist as (_ & _ & _ & Hall). intros Hin.
  eapply Forall_forall in Hall; [| exact Hin].
  destruct Hall as (Hc & e & He & Hs).
  unfold is_u64. split; [lia |]. split; [lia | by eexists].
Qed.

Lemma rm_cno : is_u64 cno ∧ cno ≠ 0 ∧ nilfs_checkpoint_snapshot cp = true.
Proof.
  destruct (rm_member cno) as (Hu & H0 & e & He & Hs).
  { apply elem_of_app. right. apply list_elem_of_here. }
  split; [done|]. split; [done|]. congruence.
Qed.

Lemma rm_order :
  NoDup (l1 ++ cno :: l2) ∧ (0 ∉ l1 ++ cno :: l2) ∧
  increasing l1 ∧ increasing l2 ∧
  (∀ x, x ∈ l1 → x < cno) ∧ (∀ x, x ∈ l2 → cno < x) ∧
  (∀ x y, x ∈ l1 → y ∈ l2 → x < y).
Proof.
  destruct (snapshot_list_paths _ _ Hlist) as (_ & _ & H0).
  destruct Hlist as (_ & _ & Hinc & _).
  split; [by apply increasing_NoDup |]. split; [done |].
  destruct (increasing_app _ _ Hinc) as (Hi1 & Hi2 & H12).
  apply StronglySorted_inv in Hi2 as [Hi2 Hc2].
  split; [done |]. split; [done |]. split; [| split].
  - intros x Hx. apply (H12 x cno Hx). apply list_elem_of_here.
  - intros x Hx. by eapply Forall_forall in Hc2.
  - intros x y Hx Hy. apply (H12 x y Hx). by apply list_elem_of_further.
Qed.

Lemma rm_next_facts :
  is_u64 next ∧ next ≠ cno ∧ (next = 0 ∨ cno < next ∧ next ∈ l2).
Proof.
  destruct rm_order as (_ & _ & _ & _ & _ & Hhi & _).
  destruct rm_cno as (_ & Hc0 & _). pose proof rm_member as Hmem.
  destruct l2 as [| c l2']; cbn.
  - unfold is_u64, U64_MAX. split; [lia |]. split; [done | by left].
  - assert (c ∈ c :: l2') as Hin by apply list_elem_of_here.
    destruct (Hmem c) as (Hu & _ & _).
    { apply elem_of_app. right. by apply list_elem_of_further. }
    specialize (Hhi c Hin). split; [done |]. split; [lia |]. by right.
Qed.

Lemma rm_prev_facts :
  is_u64 prev ∧ prev ≠ cno ∧ (prev = 0 ∨ prev < cno ∧ prev ∈ l1).
Proof.
  destruct rm_order as (_ & _ & _ & _ & Hlo & _ & _).
  destruct (last l1) as [p|] eqn:Hlast; cbn.
  - assert (p ∈ l1) as Hin.
    { apply last_Some in Hlast as [l1' ->]. apply elem_of_app. right.
      apply list_elem_of_here. }
    destruct (rm_member p) as (Hu & _ & _).
    { apply elem_of_app. by left. }
    specialize (Hlo p Hin). split; [done |]. split; [lia |]. by right.
  - unfold is_u64, U64_MAX. split; [lia |]. split; [|by left].
    destruct rm_cno as (_ & ? & _). done.
Qed.

(** The links stored in the entry are its neighbours in the list. *)
Lemma rm_links :
  ssl_next (cp_snapshot_list cp) = next ∧
  ssl_prev (cp_snapshot_list cp) = prev.
Proof.
  destruct (snapshot_list_paths _ _ Hlist) as (Hn & Hp & _).
  destruct rm_cno as (_ & H0 & _).
  apply path_app in Hn as [_ Hn]. apply path_head in Hn.
  rewrite reverse_app, reverse_cons, <- app_assoc in Hp. cbn [app] in Hp.
  apply path_app in Hp as [_ Hp]. apply path_head in Hp.
  rewrite head_reverse in Hp.
  unfold next_of, prev_of, node in Hn, Hp.
  rewrite (proj2 (Z.eqb_neq cno 0)), Hcp in Hn, Hp by done.
  cbn in Hn, Hp. split; congruence.
Qed.

Lemma rm_node_exists x :
  x = 0 ∨ x ∈ l1 ++ cno :: l2 → is_Some (node st x).
Proof.
  unfold node. intros [-> | Hin].
  - by eexists.
  - destruct (rm_member x Hin) as (_ & Hx0 & e & He & _).
    rewrite (proj2 (Z.eqb_neq x 0)), He by done. by eexists.
Qed.

Lemma rm_next_unchanged x :
  is_u64 x → x ≠ prev → x ≠ cno → next_of st' x = next_of st x.
Proof.
  intros Hx Hp Hc. destruct rm_next_facts as (? & ? & _).
  destruct rm_prev_facts as (? & ? & _). destruct rm_cno as (? & ? & _).
  rewrite next_of_clear_snapshot_links by done.
  by rewrite !decide_False by done.
Qed.

Lemma rm_prev_unchanged x :
  is_u64 x → x ≠ next → x ≠ cno → prev_of st' x = prev_of st x.
Proof.
  intros Hx Hp Hc. destruct rm_next_facts as (? & ? & _).
  destruct rm_prev_facts as (? & ? & _). destruct rm_cno as (? & ? & _).
  rewrite prev_of_clear_snapshot_links by done.
  by rewrite !decide_False by done.
Qed.

Lemma rm_next_at_prev : next_of st' prev = Some next.
Proof.
  destruct rm_next_facts as (? & ? & _).
  destruct rm_prev_facts as (? & ? & Hp). destruct rm_cno as (? & ? & _).
  rewrite next_of_clear_snapshot_links by done.
  rewrite decide_False by done. rewrite decide_True by done.
  destruct (rm_node_exists prev) as [n Hn].
  { destruct Hp as [? | [_ Hin]]; [by left | right].
    apply elem_of_app. by left. }
  unfold next_of. by rewrite Hn.
Qed.

Lemma rm_prev_at_next : prev_of st' next = Some prev.
Proof.
  destruct rm_next_facts as (? & ? & Hn).
  destruct rm_prev_facts as (? & ? & _). destruct rm_cno as (? & ? & _).
  rewrite prev_of_clear_snapshot_links by done.
  rewrite decide_False by done. rewrite decide_True by done.
  destruct (rm_node_exists next) as [n Hnode].
  { destruct Hn as [? | [_ Hin]]; [by left | right].
    apply elem_of_app. right. by apply list_elem_of_further. }
  unfold prev_of. by rewrite Hnode.
Qed.

Lemma removed_next_path : path (next_of st') 0 (l1 ++ l2) 0.
Proof.
  destruct (snapshot_list_paths _ _ Hlist) as (Hnext & _ & _).
  destruct rm_order as (Hnd & H0 & Hi1 & Hi2 & Hlo & Hhi & H12).
  apply path_app in Hnext as [Ha Hb].
  destruct rm_prev_facts as (_ & _ & Hprev).
  assert (path (next_of st') 0 l1 next) as Ha'.
  { eapply path_retarget; [| | | exact Ha].
    - apply NoDup_cons. split; [| by apply increasing_NoDup].
      intros Hin. apply H0. apply elem_of_app. by left.
    - intros x Hx Hne. apply rm_next_unchanged; [| done |].
      + apply elem_of_cons in Hx as [-> | Hx]; [unfold is_u64, U64_MAX; lia |].
        apply rm_member. apply elem_of_app. by left.
      + apply elem_of_cons in Hx as [-> | Hx].
        * destruct rm_cno as (_ & ? & _). done.
        * apply Hlo in Hx. lia.
    - apply rm_next_at_prev. }
  pose proof rm_next_unchanged as Hnu. pose proof rm_member as Hmem.
  clear Ha. destruct l2 as [| c l2']; cbn in *.
  - by rewrite app_nil_r.
  - apply path_app. split; [done|]. destruct Hb as [_ Hb].
    eapply path_ext; [| exact Hb]. intros x Hx.
    assert (x ∈ l1 ++ cno :: c :: l2') as Hxl
      by (apply elem_of_app; right; by apply list_elem_of_further).
    apply Hnu; [by apply Hmem | | specialize (Hhi x Hx); lia].
    destruct Hprev as [-> | [Hlt Hin]].
    + destruct (Hmem x Hxl) as (_ & ? & _). done.
    + specialize (H12 _ x Hin Hx). lia.
Qed.

Lemma removed_prev_path : path (prev_of st') 0 (reverse (l1 ++ l2)) 0.
Proof.
  destruct (snapshot_list_paths _ _ Hlist) as (_ & Hpv & _).
  destruct rm_order as (Hnd & H0 & Hi1 & Hi2 & Hlo & Hhi & H12).
  rewrite reverse_app, reverse_cons, <- app_assoc in Hpv. cbn [app] in Hpv.
  apply path_app in Hpv as [Ha Hb].
  destruct rm_next_facts as (_ & _ & Hnext).
  rewrite reverse_app.
  assert (path (prev_of st') 0 (reverse l2) prev) as Ha'.
  { eapply path_retarget; [| | | exact Ha].
    - apply NoDup_cons. split.
      + intros Hin. rewrite elem_of_reverse in Hin. apply H0.
        apply elem_of_app. right. by apply list_elem_of_further.
      + rewrite reverse_Permutation. by apply increasing_NoDup.
    - rewrite last_reverse. intros x Hx Hne.
      apply rm_prev_unchanged; [| done |].
      + apply elem_of_cons in Hx as [-> | Hx];
          [unfold is_u64, U64_MAX; lia |].
        rewrite elem_of_reverse in Hx. apply rm_member.
        apply elem_of_app. right. by apply list_elem_of_further.
      + apply elem_of_cons in Hx as [-> | Hx].
        * destruct rm_cno as (_ & ? & _). done.
        * rewrite elem_of_reverse in Hx. apply Hhi in Hx. lia.
    - rewrite last_reverse. apply rm_prev_at_next. }
  pose proof rm_prev_unchanged as Hpu. pose proof rm_member as Hmem.
  assert (last l1 = head (reverse l1)) as Hlast by (by rewrite head_reverse).
  set (g' := prev_of (clear_snapshot_links st cno next prev)) in *.
  clear Ha. destruct (reverse l1) as [| p r'] eqn:Hrev; cbn in Hlast.
  - rewrite app_nil_r. by rewrite Hlast in Ha'.
  - apply path_app. rewrite Hlast in Ha'. cbn in Ha'. split; [done|].
    destruct Hb as [_ Hb]. eapply path_ext; [| exact Hb]. intros x Hx.
    assert (x ∈ l1) as Hx1 by (rewrite <- elem_of_reverse; by rewrite Hrev).
    assert (x ∈ l1 ++ cno :: l2) as Hxl by (apply elem_of_app; by left).
    apply Hpu; [by apply Hmem | | specialize (Hlo x Hx1); lia].
    destruct Hnext as [Hn0 | [Hlt Hin]].
    + rewrite Hn0. destruct (Hmem x Hxl) as (_ & ? & _). done.
    + specialize (H12 x _ Hx1 Hin). lia.
Qed.

Lemma rm_entry_other c e :
  c ∈ l1 ++ l2 → entry st c = Some e →
  ∃ e', entry st' c = Some e' ∧ cp_flags e' = cp_flags e.
Proof.
  intros Hin He.
  destruct rm_order as (_ & _ & _ & _ & Hlo & Hhi & _).
  assert (c ≠ cno ∧ c ∈ l1 ++ cno :: l2) as [Hne Hin'].
  { apply elem_of_app in Hin as [Hin | Hin].
    - specialize (Hlo c Hin). split; [lia|]. apply elem_of_app. by left.
    - specialize (Hhi c Hin). split; [lia|]. apply elem_of_app. right.
      by apply list_elem_of_further. }
  destruct (rm_member c Hin') as (Hu & _ & _).
  destruct rm_next_facts as (? & ? & _).
  destruct rm_prev_facts as (? & ? & _). destruct rm_cno as (? & ? & _).
  rewrite entry_clear_snapshot_links, He by done.
  rewrite (decide_False (P := cno = c)) by done.
  repeat destruct (decide _); cbn; by eexists.
Qed.

Lemma rm_entry_cno :
  entry st' cno
  = Some (nilfs_checkpoint_clear_snapshot
            (set_cp_ssl_prev 0 (set_cp_ssl_next 0 cp))).
Proof.
  destruct rm_next_facts as (? & ? & _).
  destruct rm_prev_facts as (? & ? & _). destruct rm_cno as (? & ? & _).
  rewrite entry_clear_snapshot_links, Hcp by done.
  rewrite (decide_True (P := cno = cno)) by done.
  rewrite !decide_False by (intros [? _]; congruence). done.
Qed.

Lemma removed_snapshot_list : snapshot_list st' (l1 ++ l2).
Proof.
  destruct rm_order as (Hnd & H0 & Hi1 & Hi2 & Hlo & Hhi & H12).
  assert (0 ∉ l1 ++ l2) as H0'.
  { intros Hin. apply H0. apply elem_of_app in Hin as [Hin | Hin];
      apply elem_of_app; [by left | right; by apply list_elem_of_further]. }
  split; [| split; [| split]].
  - apply path_walk; [apply removed_next_path | done | done].
  - apply path_walk; [apply removed_prev_path | | by rewrite length_reverse].
    by rewrite elem_of_reverse.
  - by apply increasing_join.
  - apply Forall_forall. intros c Hc.
    assert (c ∈ l1 ++ cno :: l2) as Hin'.
    { apply elem_of_app in Hc as [Hin | Hin];
        apply elem_of_app; [by left | right; by apply list_elem_of_further]. }
    destruct (rm_member c Hin') as (Hu & Hc0 & e & He & Hs).
    destruct (rm_entry_other c e Hc He) as (e' & He' & Hfl).
    split; [unfold is_u64 in Hu; lia |]. exists e'. split; [done|].
    unfold nilfs_checkpoint_snapshot in *. by rewrite Hfl.
Qed.

Lemma rm_result :
  nilfs_cpfile_clear_snapshot st cno
  = (0,
     nilfs_mdt_mark_dirty
       (mark_buffer_dirty 0
          (mark_buffer_dirty (nilfs_cpfile_get_blkoff st cno)
             (mark_buffer_dirty (bh_of_node st prev)
                (mark_buffer_dirty (bh_of_node st next) st'))))).
Proof.
  destruct rm_cno as (_ & H0 & Hs). destruct rm_links as [Hn Hp].
  rewrite <- Hn, <- Hp.
  apply clear_snapshot_result; try done.
  - rewrite Hn. intros Hne. destruct rm_next_facts as (_ & _ & [? | [_ Hin]]);
      [done|].
    destruct (rm_member next) as (_ & _ & e & He & _).
    { apply elem_of_app. right. by apply list_elem_of_further. }
    by eapply entry_block_present.
  - rewrite Hp. intros Hne. destruct rm_prev_facts as (_ & _ & [? | [_ Hin]]);
      [done|].
    destruct (rm_member prev) as (_ & _ & e & He & _).
    { apply elem_of_app. by left. }
    by eapply entry_block_present.
Qed.

End SnapshotRemove.

(** ** Snapshot operations at their edges *)

Lemma set_snapshot_skip fuel st cno cp :
  block_present st 0 = true → cno ≠ 0 → entry st cno = Some cp →
  nilfs_checkpoint_invalid cp = false →
  nilfs_checkpoint_snapshot cp = true →
  nilfs_cpfile_set_snapshot fuel st cno = Some (0, st).
Proof.
  intros Hhdr Hcno Hcp Hi Hs. unfold nilfs_cpfile_set_snapshot.
  rewrite (proj2 (Z.eqb_neq cno 0)) by done.
  rewrite (get_header_block_present _ Hhdr). cbn [Z.ltb Z.compare].
  rewrite get_checkpoint_block_nocreate, (entry_block_present _ _ _ Hcp).
  cbn [Z.ltb Z.compare].
  by rewrite (bh_checkpoint_entry _ _ _ Hcp), Hi, Hs.
Qed.

Lemma clear_snapshot_skip st cno cp :
  block_present st 0 = true → cno ≠ 0 → entry st cno = Some cp →
  nilfs_checkpoint_invalid cp = false →
  nilfs_checkpoint_snapshot cp = false →
  nilfs_cpfile_clear_snapshot st cno = (0, st).
Proof.
  intros Hhdr Hcno Hcp Hi Hs. unfold nilfs_cpfile_clear_snapshot.
  rewrite (proj2 (Z.eqb_neq cno 0)) by done.
  rewrite (get_header_block_present _ Hhdr). cbn [Z.ltb Z.compare].
  rewrite get_checkpoint_block_nocreate, (entry_block_present _ _ _ Hcp).
  cbn [Z.ltb Z.compare].
  by rewrite (bh_checkpoint_entry _ _ _ Hcp), Hi, Hs.
Qed.

Lemma is_snapshot_entry st cno cp :
  0 < cno < nilfs_mdt_cno st → entry st cno = Some cp →
  nilfs_checkpoint_invalid cp = false →
  nilfs_cpfile_is_snapshot st cno
  = if nilfs_checkpoint_snapshot cp then 1 else 0.
Proof.
  intros Hcno Hcp Hi. unfold nilfs_cpfile_is_snapshot.
  rewrite (proj2 (Z.eqb_neq cno 0)) by lia.
  rewrite (proj2 (Z.leb_gt (nilfs_mdt_cno st) cno)) by lia. cbn [orb].
  rewrite get_checkpoint_block_nocreate, (entry_block_present _ _ _ Hcp).
  cbn [Z.ltb Z.compare].
  by rewrite (bh_checkpoint_entry _ _ _ Hcp), Hi.
Qed.

Lemma member_valid_entry st cno l1 l2 :
  snapshot_list st (l1 ++ cno :: l2) → checkpoint_valid st cno = true →
  ∃ cp, entry st cno = Some cp ∧ nilfs_checkpoint_invalid cp = false.
Proof.
  intros (_ & _ & _ & Hall) Hv.
  apply Forall_app in Hall as [_ Hall].
  apply Forall_inv in Hall as (_ & cp & Hcp & _). exists cp.
  split; [done|]. unfold checkpoint_valid in Hv.
  rewrite (bh_checkpoint_entry _ _ _ Hcp) in Hv.
  apply andb_true_iff in Hv as [_ Hv]. by apply negb_true_iff in Hv.
Qed.

(** clear_snapshot on a member of a well-formed snapshot list: it returns
    0 and unlinks the entry.  Afterwards the forward walk from the header
    yields the list without cno, the backward walk its reverse, every
    remaining member is still a snapshot entry, cno itself is a valid plain
    checkpoint with both links 0, nsnapshots is one less (modulo 2^64) and
    ncheckpoints is unchanged. *)
Theorem clear_snapshot_unlinks (st : cpfile) (cno : Z) (l1 l2 : list Z) :
  geometry_ok st →
  block_present st 0 = true →
  snapshot_list st (l1 ++ cno :: l2) →
  checkpoint_valid st cno = true →
  ∃ st' cp',
    nilfs_cpfile_clear_snapshot st cno = (0, st') ∧
    snapshot_list st' (l1 ++ l2) ∧
    entry st' cno = Some cp' ∧
    nilfs_checkpoint_snapshot cp' = false ∧
    nilfs_checkpoint_invalid cp' = false ∧
    cp_snapshot_list cp' = mk_ssl 0 0 ∧
    ch_nsnapshots (cp_header st')
    = le64_add_cpu (ch_nsnapshots (cp_header st)) (-1) ∧
    ch_ncheckpoints (cp_header st') = ch_ncheckpoints (cp_header st).
Proof.
  intros Hg Hhdr Hlist Hv.
  destruct (member_valid_entry st cno l1 l2 Hlist Hv) as (cp & Hcp & Hinv).
  eexists _, _. split; [exact (rm_result st cno cp l1 l2 Hhdr Hlist Hcp Hinv)|].
  split; [|split; [|split; [|split; [|split; [|split]]]]].
  - do 5 (apply snapshot_list_frame; [apply _ .. |]).
    by eapply removed_snapshot_list.
  - frame. by eapply rm_entry_cno.
  - apply snapshot_clear_snapshot.
  - by rewrite invalid_clear_snapshot.
  - by destruct cp as [fl cnt [nx pv] c t inc ic bc raw].
  - frame. by rewrite header_clear_snapshot_links.
  - frame. by rewrite header_clear_snapshot_links.
Qed.

Lemma clear_snapshot_unlinks_witness :
  ∃ st' cp',
    nilfs_cpfile_clear_snapshot cpfile_10_30 10 = (0, st') ∧
    snapshot_list st' ([] ++ [30]) ∧
    entry st' 10 = Some cp' ∧
    nilfs_checkpoint_snapshot cp' = false ∧
    nilfs_checkpoint_invalid cp' = false ∧
    cp_snapshot_list cp' = mk_ssl 0 0 ∧
    ch_nsnapshots (cp_header st')
    = le64_add_cpu (ch_nsnapshots (cp_header cpfile_10_30)) (-1) ∧
    ch_ncheckpoints (cp_header st')
    = ch_ncheckpoints (cp_header cpfile_10_30).
Proof.
  apply (clear_snapshot_unlinks cpfile_10_30 10 [] [30]).
  - exact geometry_ok_10_30.
  - vm_compute. reflexivity.
  - exact snapshot_list_10_30.
  - vm_compute. reflexivity.
Defined.

(** No such checkpoint: for cno 0, for a cno in a hole and for an INVALID
    entry, set_snapshot and clear_snapshot return -ENOENT and leave the
    cpfile as it is, and is_snapshot returns -ENOENT; is_snapshot also
    returns -ENOENT for every cno at or above the MDT counter. *)
Theorem snapshot_ops_enoent (st : cpfile) (cno : Z) (fuel : nat) :
  block_present st 0 = true →
  cno = 0 ∨ checkpoint_valid st cno = false →
  nilfs_cpfile_set_snapshot fuel st cno = Some (- ENOENT, st) ∧
  nilfs_cpfile_clear_snapshot st cno = (- ENOENT, st) ∧
  nilfs_cpfile_is_snapshot st cno = - ENOENT ∧
  (∀ x, nilfs_mdt_cno st ≤ x → nilfs_cpfile_is_snapshot st x = - ENOENT).
Proof.
  intros Hhdr Hcase.
  assert (∀ x, nilfs_mdt_cno st ≤ x → nilfs_cpfile_is_snapshot st x = - ENOENT)
    as Hhigh.
  { intros x Hx. unfold nilfs_cpfile_is_snapshot.
    rewrite (proj2 (Z.leb_le (nilfs_mdt_cno st) x)) by done.
    by rewrite orb_true_r. }
  destruct Hcase as [-> | Hv]; [done|].
  unfold nilfs_cpfile_set_snapshot, nilfs_cpfile_clear_snapshot,
    nilfs_cpfile_is_snapshot.
  destruct (cno =? 0) eqn:H0; [done|]. cbn [orb].
  rewrite (get_header_block_present _ Hhdr). cbn [Z.ltb Z.compare].
  rewrite !get_checkpoint_block_nocreate.
  unfold checkpoint_valid in Hv.
  destruct (block_present st (nilfs_cpfile_get_blkoff st cno)) eqn:Hp;
    cbn [andb] in Hv.
  - apply negb_false_iff in Hv. cbn [Z.ltb Z.compare]. rewrite Hv.
    by destruct (_ <=? _).
  - change (- ENOENT <? 0) with true. cbv iota. by destruct (_ <=? _).
Qed.

Lemma snapshot_ops_enoent_witness :
  nilfs_cpfile_set_snapshot 8 cpfile_10_30 15 = Some (- ENOENT, cpfile_10_30) ∧
  nilfs_cpfile_clear_snapshot cpfile_10_30 15 = (- ENOENT, cpfile_10_30) ∧
  nilfs_cpfile_is_snapshot cpfile_10_30 15 = - ENOENT ∧
  (∀ x, nilfs_mdt_cno cpfile_10_30 ≤ x →
        nilfs_cpfile_is_snapshot cpfile_10_30 x = - ENOENT).
Proof.
  apply (snapshot_ops_enoent cpfile_10_30 15 8).
  - vm_compute. reflexivity.
  - right. vm_compute. reflexivity.
Defined.

(** set_snapshot is idempotent and is_snapshot follows it: on a cpfile with
    a well-formed snapshot list, a valid plain checkpoint below the MDT
    counter is reported as 0 by is_snapshot; after set_snapshot it is
    reported as 1, and setting it again returns 0 without changing the
    cpfile. *)
Theorem set_snapshot_idempotent (st : cpfile) (cno : Z)
  (cp : nilfs_checkpoint) (l : list Z) (fuel fuel' : nat) :
  geometry_ok st →
  block_present st 0 = true →
  0 < cno ≤ U64_MAX → cno < nilfs_mdt_cno st →
  entry st cno = Some cp →
  nilfs_checkpoint_invalid cp = false →
  nilfs_checkpoint_snapshot cp = false →
  snapshot_list st l →
  (length l ≤ fuel)%nat →
  ∃ st',
    nilfs_cpfile_set_snapshot fuel st cno = Some (0, st') ∧
    nilfs_cpfile_set_snapshot fuel' st' cno = Some (0, st') ∧
    nilfs_cpfile_is_snapshot st cno = 0 ∧
    nilfs_cpfile_is_snapshot st' cno = 1.
Proof.
  intros Hg Hhdr Hcno Hcur Hcp Hv Hp Hlist Hfuel.
  destruct (set_snapshot_result st cno cp l Hhdr Hcno Hcp Hv Hp Hlist fuel Hfuel)
    as (l1 & l2 & Hl & Hlow & Hhigh & Hres).
  cbn zeta in Hres. eexists. split; [exact Hres|].
  pose proof (entry_links_cno st cno cp l Hg Hcno Hcp Hlist l1 l2 Hl Hlow Hhigh)
    as Hent.
  set (st1 := set_snapshot_links st cno (default 0 (head l2))
                (default 0 (last l1))) in *.
  assert (nilfs_checkpoint_invalid
            (link_as_snapshot (default 0 (head l2)) (default 0 (last l1)) cp)
          = false) as Hi1.
  { unfold link_as_snapshot. by rewrite invalid_set_snapshot. }
  assert (nilfs_checkpoint_snapshot
            (link_as_snapshot (default 0 (head l2)) (default 0 (last l1)) cp)
          = true) as Hs1 by apply snapshot_set_snapshot.
  split; [|split].
  - eapply set_snapshot_skip; [| lia | | exact Hi1 | exact Hs1].
    + frame. unfold st1. by rewrite block_present_links.
    + frame. exact Hent.
  - rewrite (is_snapshot_entry st cno cp) by (done || lia). by rewrite Hp.
  - erewrite is_snapshot_entry; [| | frame; exact Hent | exact Hi1].
    + by rewrite Hs1.
    + frame. unfold st1, set_snapshot_links. cbn zeta. frame. lia.
Qed.

Lemma set_snapshot_idempotent_witness :
  ∃ st',
    nilfs_cpfile_set_snapshot 2 cpfile_10_30 20 = Some (0, st') ∧
    nilfs_cpfile_set_snapshot 0 st' 20 = Some (0, st') ∧
    nilfs_cpfile_is_snapshot cpfile_10_30 20 = 0 ∧
    nilfs_cpfile_is_snapshot st' 20 = 1.
Proof.
  apply (set_snapshot_idempotent cpfile_10_30 20
           (checkpoint_at cpfile_10_30 20) [10; 30] 2 0).
  - exact geometry_ok_10_30.
  - vm_compute. reflexivity.
  - unfold U64_MAX. lia.
  - apply Z.ltb_lt. vm_compute. reflexivity.
  - vm_compute. reflexivity.
  - vm_compute. reflexivity.
  - vm_compute. reflexivity.
  - exact snapshot_list_10_30.
  - cbn. lia.
Defined.

(** clear_snapshot is idempotent and is_snapshot follows it: a valid member
    of a well-formed snapshot list below the MDT counter is reported as 1;
    after clear_snapshot it is reported as 0, and clearing it again
    returns 0 without changing the cpfile. *)
Theorem clear_snapshot_idempotent (st : cpfile) (cno : Z) (l1 l2 : list Z) :
  geometry_ok st →
  block_present st 0 = true →
  snapshot_list st (l1 ++ cno :: l2) →
  checkpoint_valid st cno = true →
  cno < nilfs_mdt_cno st →
  ∃ st',
    nilfs_cpfile_clear_snapshot st cno = (0, st') ∧
    nilfs_cpfile_clear_snapshot st' cno = (0, st') ∧
    nilfs_cpfile_is_snapshot st cno = 1 ∧
    nilfs_cpfile_is_snapshot st' cno = 0.
Proof.
  intros Hg Hhdr Hlist Hv Hcur.
  destruct (member_valid_entry st cno l1 l2 Hlist Hv) as (cp & Hcp & Hinv).
  destruct (rm_cno st cno cp l1 l2 Hhdr Hlist Hcp) as (Hu & Hc0 & Hs).
  eexists. split; [exact (rm_result st cno cp l1 l2 Hhdr Hlist Hcp Hinv)|].
  pose proof (rm_entry_cno st cno cp l1 l2 Hg Hhdr Hlist Hcp) as Hent.
  set (st1 := clear_snapshot_links st cno (default 0 (head l2))
                (default 0 (last l1))) in *.
  set (cp1 := nilfs_checkpoint_clear_snapshot
                (set_cp_ssl_prev 0 (set_cp_ssl_next 0 cp))) in *.
  assert (nilfs_checkpoint_invalid cp1 = false) as Hi1
    by (unfold cp1; by rewrite invalid_clear_snapshot).
  assert (nilfs_checkpoint_snapshot cp1 = false) as Hs1
    by apply snapshot_clear_snapshot.
  unfold is_u64 in Hu.
  split; [|split].
  - eapply clear_snapshot_skip; [| lia | | exact Hi1 | exact Hs1].
    + frame. unfold st1, clear_snapshot_links. cbn zeta. frame.
      by rewrite block_present_bh_update, !block_present_list_update.
    + frame. exact Hent.
  - rewrite (is_snapshot_entry st cno cp) by (done || lia). by rewrite Hs.
  - erewrite is_snapshot_entry; [| | frame; exact Hent | exact Hi1].
    + by rewrite Hs1.
    + frame. unfold st1, clear_snapshot_links. cbn zeta. frame. lia.
Qed.

Lemma clear_snapshot_idempotent_witness :
  ∃ st',
    nilfs_cpfile_clear_snapshot cpfile_10_30 10 = (0, st') ∧
    nilfs_cpfile_clear_snapshot st' 10 = (0, st') ∧
    nilfs_cpfile_is_snapshot cpfile_10_30 10 = 1 ∧
    nilfs_cpfile_is_snapshot st' 10 = 0.
Proof.
  apply (clear_snapshot_idempotent cpfile_10_30 10 [] [30]).
  - exact geometry_ok_10_30.
  - vm_compute. reflexivity.
  - exact snapshot_list_10_30.
  - vm_compute. reflexivity.
  - apply Z.ltb_lt. vm_compute. reflexivity.
Defined.

(** A cpfile without its header block: every operation that needs the
    header reports the corruption through nilfs_error and returns -EIO,
    and changes nothing else (get_stat leaves the statistics buffer
    untouched). *)
Theorem missing_header_eio (st : cpfile) :
  block_present st 0 = false →
  let st' := nilfs_error MissingHeaderBlock st in
  (∀ cno, 1 ≤ cno → nilfs_cpfile_create_checkpoint st cno = (- EIO, st')) ∧
  (∀ start end_, 1 ≤ start ≤ end_ →
     nilfs_cpfile_delete_checkpoints st start end_ = Some (- EIO, st')) ∧
  (∀ fuel cno, cno ≠ 0 →
     nilfs_cpfile_set_snapshot fuel st cno = Some (- EIO, st')) ∧
  (∀ cno, cno ≠ 0 → nilfs_cpfile_clear_snapshot st cno = (- EIO, st')) ∧
  (∀ cpstat, nilfs_cpfile_get_stat st cpstat = (- EIO, cpstat, st')) ∧
  (∀ nci, nilfs_cpfile_get_cpinfo st 0 NILFS_SNAPSHOT nci
          = Some (- EIO, 0, [], st')).
Proof.
  intros Hhdr st'. repeat split.
  - intros cno Hcno. unfold nilfs_cpfile_create_checkpoint.
    rewrite (proj2 (Z.ltb_ge cno 1)) by lia.
    by rewrite (get_header_block_absent _ Hhdr).
  - intros start end_ Hr. unfold nilfs_cpfile_delete_checkpoints.
    rewrite (proj2 (Z.eqb_neq start 0)) by lia.
    rewrite (proj2 (Z.ltb_ge end_ start)) by lia. cbn [orb].
    by rewrite (get_header_block_absent _ Hhdr).
  - intros fuel cno Hcno. unfold nilfs_cpfile_set_snapshot.
    rewrite (proj2 (Z.eqb_neq cno 0)) by done.
    by rewrite (get_header_block_absent _ Hhdr).
  - intros cno Hcno. unfold nilfs_cpfile_clear_snapshot.
    rewrite (proj2 (Z.eqb_neq cno 0)) by done.
    by rewrite (get_header_block_absent _ Hhdr).
  - intros cpstat. unfold nilfs_cpfile_get_stat.
    by rewrite (get_header_block_absent _ Hhdr).
  - intros nci. cbn [nilfs_cpfile_get_cpinfo].
    unfold nilfs_cpfile_do_get_ssinfo. cbn [Z.eqb].
    by rewrite (get_header_block_absent _ Hhdr).
Qed.

Lemma missing_header_eio_witness :
  let st := with_blocks ∅ fresh_cpfile in
  let st' := nilfs_error MissingHeaderBlock st in
  (∀ cno, 1 ≤ cno → nilfs_cpfile_create_checkpoint st cno = (- EIO, st')) ∧
  (∀ start end_, 1 ≤ start ≤ end_ →
     nilfs_cpfile_delete_checkpoints st start end_ = Some (- EIO, st')) ∧
  (∀ fuel cno, cno ≠ 0 →
     nilfs_cpfile_set_snapshot fuel st cno = Some (- EIO, st')) ∧
  (∀ cno, cno ≠ 0 → nilfs_cpfile_clear_snapshot st cno = (- EIO, st')) ∧
  (∀ cpstat, nilfs_cpfile_get_stat st cpstat = (- EIO, cpstat, st')) ∧
  (∀ nci, nilfs_cpfile_get_cpinfo st 0 NILFS_SNAPSHOT nci
          = Some (- EIO, 0, [], st')).
Proof.
  apply (missing_header_eio (with_blocks ∅ fresh_cpfile)).
  vm_compute. reflexivity.
Defined.

(** A mounted snapshot stays a snapshot: whatever mode change_cpmode is
    asked for on a valid snapshot that is mounted, the cpfile is left as
    it is.  Turning it back into a plain checkpoint is refused with
    -EBUSY, making it a snapshot again returns 0, and an unknown mode
    returns -EINVAL. *)
Theorem change_cpmode_mounted (is_mounted : Z → bool) (fuel : nat)
  (st : cpfile) (cno : Z) (cp : nilfs_checkpoint) (mode : cpmode) :
  is_mounted cno = true →
  block_present st 0 = true → cno ≠ 0 →
  entry st cno = Some cp →
  nilfs_checkpoint_invalid cp = false →
  nilfs_checkpoint_snapshot cp = true →
  nilfs_cpfile_change_cpmode is_mounted fuel st cno mode
  = Some (match mode with
          | NILFS_CHECKPOINT => - EBUSY
          | NILFS_SNAPSHOT => 0
          | OTHER_MODE _ => - EINVAL
          end, st).
Proof.
  intros Hm Hhdr Hcno Hcp Hi Hs. destruct mode; cbn.
  - by rewrite Hm.
  - by apply (set_snapshot_skip fuel st cno cp).
  - done.
Qed.

Lemma change_cpmode_mounted_witness :
  nilfs_cpfile_change_cpmode (λ c, c =? 10) 0 cpfile_10_30 10 NILFS_CHECKPOINT
  = Some (- EBUSY, cpfile_10_30).
Proof.
  apply (change_cpmode_mounted (λ c, c =? 10) 0 cpfile_10_30 10
           (checkpoint_at cpfile_10_30 10) NILFS_CHECKPOINT).
  - reflexivity.
  - vm_compute. reflexivity.
  - lia.
  - vm_compute. reflexivity.
  - vm_compute. reflexivity.
  - vm_compute. reflexivity.
Defined.

(** ** Checkpoint contents and the root object *)

Lemma s64_of_u64_wrap64 (x : Z) : is_s64 x → s64_of_u64 (wrap64 x) = x.
Proof.
  unfold is_s64, s64_of_u64, wrap64. intros Hx.
  destruct (Z.ltb_spec (x mod 2 ^ 64) (2 ^ 63)) as [Hlt | Hge].
  - destruct (Z_lt_le_dec x 0).
    + rewrite <- (Z.mod_add x 1 (2 ^ 64)) in Hlt by lia.
      rewrite Z.mod_small in Hlt by lia. lia.
    + apply Z.mod_small. lia.
  - destruct (Z_lt_le_dec x 0).
    + rewrite <- (Z.mod_add x 1 (2 ^ 64)) by lia.
      rewrite Z.mod_small by lia. lia.
    + rewrite Z.mod_small in Hge by lia. lia.
Qed.

(** What finalize_checkpoint stores, read_checkpoint returns: after
    finalize on a valid entry, read_checkpoint of the same cno hands the
    raw ifile inode that finalize wrote to the inode layer and, if that
    accepts it, returns 0 with a root object that carries the inode and
    block counts of the root finalize was given; if the inode layer rejects
    it, read_checkpoint returns -EIO, logs the corruption and leaves the
    caller's root alone.  The counters are signed 64-bit values, stored
    through cpu_to_le64 and loaded through atomic64_set: the two
    conversions undo each other on every value an s64 holds. *)
Theorem finalize_then_read {inode : Type}
  (ric : inode → nilfs_inode → Z * inode)
  (wic bw : inode → nilfs_inode → nilfs_inode)
  (st : cpfile) (cno : Z) (cp : nilfs_checkpoint)
  (root root0 : nilfs_root inode) (ifile0 : inode)
  (blkinc ctime : Z) (minor : bool) :
  1 ≤ cno ≤ nilfs_mdt_cno st →
  entry st cno = Some cp →
  nilfs_checkpoint_invalid cp = false →
  ∃ st',
    nilfs_cpfile_finalize_checkpoint wic bw st cno root blkinc ctime minor
    = (0, st') ∧
    let raw :=
      match ifile root with
      | Some i => bw i (wic i (cp_ifile_inode cp))
      | None => cp_ifile_inode cp
      end in
    let ic := s64_of_u64 (wrap64 (inodes_count root)) in
    let bc := s64_of_u64 (wrap64 (blocks_count root)) in
    (is_s64 (inodes_count root) → ic = inodes_count root) ∧
    (is_s64 (blocks_count root) → bc = blocks_count root) ∧
    nilfs_cpfile_read_checkpoint ric st' cno root0 ifile0
    = if fst (ric ifile0 raw) =? 0
      then (0, mk_root ic bc (Some (snd (ric ifile0 raw))), st')
      else (- EIO, root0, nilfs_error (IfileInodeCorrupted cno) st').
Proof.
  intros Hcno Hcp Hinv. unfold nilfs_cpfile_finalize_checkpoint.
  rewrite (proj2 (Z.ltb_ge cno 1)) by lia.
  rewrite get_checkpoint_block_nocreate, (entry_block_present _ _ _ Hcp).
  cbn [Z.ltb Z.compare].
  rewrite (bh_checkpoint_entry _ _ _ Hcp), Hinv.
  eexists. split; [reflexivity|]. cbv zeta.
  split; [apply s64_of_u64_wrap64|]. split; [apply s64_of_u64_wrap64|].
  set (st' := bh_update _ _ _ st).
  assert (entry st' cno
          = Some (finalize_fill wic bw cno root blkinc ctime minor cp))
    as Hent.
  { unfold st', entry, bh_update in *. cbn.
    unfold nilfs_cpfile_get_blkoff, nilfs_cpfile_get_offset,
      nilfs_cpfile_checkpoints_per_block in *. cbn.
    rewrite lookup_alter_eq.
    destruct (cp_blocks st !! _) as [blk|]; [| done]. cbn in *.
    rewrite list_lookup_alter_eq. by rewrite Hcp. }
  unfold nilfs_cpfile_read_checkpoint.
  rewrite (proj2 (Z.ltb_ge cno 1)) by lia.
  assert (nilfs_mdt_cno st' = nilfs_mdt_cno st) as -> by done.
  rewrite (proj2 (Z.ltb_ge (nilfs_mdt_cno st) cno)) by lia. cbn [orb].
  rewrite get_checkpoint_block_nocreate, (entry_block_present _ _ _ Hent).
  cbn [Z.ltb Z.compare]. rewrite (bh_checkpoint_entry _ _ _ Hent).
  assert (nilfs_checkpoint_invalid
            (finalize_fill wic bw cno root blkinc ctime minor cp) = false
          ∧ cp_inodes_count
              (finalize_fill wic bw cno root blkinc ctime minor cp)
            = wrap64 (inodes_count root)
          ∧ cp_blocks_count
              (finalize_fill wic bw cno root blkinc ctime minor cp)
            = wrap64 (blocks_count root)
          ∧ cp_ifile_inode
              (finalize_fill wic bw cno root blkinc ctime minor cp)
            = match ifile root with
              | Some i => bw i (wic i (cp_ifile_inode cp))
              | None => cp_ifile_inode cp
              end) as (-> & -> & -> & ->).
  { unfold finalize_fill.
    destruct minor, (ifile root); cbn; repeat split; try flag_bits. }
  destruct (ric ifile0 _) as [ret i']. cbn [fst snd].
  destruct (ret =? 0) eqn:Hr; [|done]. apply Z.eqb_eq in Hr. by subst.
Qed.

Lemma finalize_then_read_witness :
  let st := snd (nilfs_cpfile_create_checkpoint fresh_cpfile 1) in
  let cp := nilfs_checkpoint_clear_invalid invalid_checkpoint in
  let root := mk_root 3 40 (Some tt) in
  let ric := λ (i : unit) (_ : nilfs_inode), (0, i) in
  ∃ st',
    nilfs_cpfile_finalize_checkpoint (λ _ raw, raw) (λ _ raw, raw)
      st 1 root 7 9 true = (0, st') ∧
    let raw :=
      match ifile root with
      | Some i => (λ _ raw, raw) i ((λ _ raw, raw) i (cp_ifile_inode cp))
      | None => cp_ifile_inode cp
      end in
    let ic := s64_of_u64 (wrap64 (inodes_count root)) in
    let bc := s64_of_u64 (wrap64 (blocks_count root)) in
    (is_s64 (inodes_count root) → ic = inodes_count root) ∧
    (is_s64 (blocks_count root) → bc = blocks_count root) ∧
    nilfs_cpfile_read_checkpoint ric st' 1 (mk_root 0 0 None) tt
    = if fst (ric tt raw) =? 0
      then (0, mk_root ic bc (Some (snd (ric tt raw))), st')
      else (- EIO, mk_root 0 0 None,
            nilfs_error (IfileInodeCorrupted 1) st').
Proof.
  intros st cp root ric.
  apply (finalize_then_read ric (λ _ raw, raw) (λ _ raw, raw) st 1 cp root
           (mk_root 0 0 None) tt 7 9 true).
  - split; [lia | apply Z.leb_le; vm_compute; reflexivity].
  - vm_compute. reflexivity.
  - vm_compute. reflexivity.
Defined.

(** ** The checkpoint enumeration in general *)

Lemma select_range_none P a n :
  (∀ x, a ≤ x < a + Z.of_nat n → P x = false) → select_range P a n = [].
Proof.
  revert a; induction n as [|n IH]; intros a H; cbn [select_range]; [done|].
  rewrite (H a) by lia. apply IH. intros; apply H; lia.
Qed.

Lemma select_range_app P a n m :
  select_range P a (n + m)
  = select_range P a n ++ select_range P (a + Z.of_nat n) m.
Proof.
  revert a; induction n as [|n IH]; intros a.
  - cbn. by rewrite Z.add_0_r.
  - cbn [select_range Nat.add]. rewrite IH.
    replace (a + 1 + Z.of_nat n) with (a + Z.of_nat (S n)) by lia.
    by destruct (P a).
Qed.

Lemma take_app_taken {A} (l k : list A) m :
  take m (l ++ k) = take m l ++ take (m - length (take m l)) k.
Proof.
  rewrite take_app, length_take.
  destruct (Nat.min_spec m (length l)) as [[Hlt ->] | [Hge ->]].
  - replace (m - length l)%nat with 0%nat by lia.
    by replace (m - m)%nat with 0%nat by lia.
  - done.
Qed.

(** The inner loop of do_get_cpinfo over [k] slots that hold the entries of
    the cnos from [c] on. *)
Lemma cpinfo_scan_spec k : ∀ st bh off c nci buf,
  (∀ i, 0 ≤ i < Z.of_nat k →
        bh_checkpoint st bh (off + i) = checkpoint_at st (c + i) ∧
        checkpoint_valid st (c + i)
        = negb (nilfs_checkpoint_invalid (checkpoint_at st (c + i)))) →
  cpinfo_scan k st bh off nci buf
  = buf ++ map (cpinfo_of st)
             (take (Z.to_nat nci - length buf)
                   (select_range (checkpoint_valid st) c k)).
Proof.
  induction k as [|k IH]; intros st bh off c nci buf H.
  - cbn. by rewrite take_nil, app_nil_r.
  - cbn [cpinfo_scan select_range].
    destruct (Z.of_nat (length buf) <? nci) eqn:Hlt.
    + apply Z.ltb_lt in Hlt.
      destruct (H 0 ltac:(lia)) as [Hcp Hv].
      replace (c + 0) with c in Hcp, Hv by lia.
      replace (off + 0) with off in Hcp by lia.
      rewrite Hcp, Hv.
      assert (∀ i, 0 ≤ i < Z.of_nat k →
                   bh_checkpoint st bh (off + 1 + i)
                   = checkpoint_at st (c + 1 + i) ∧
                   checkpoint_valid st (c + 1 + i)
                   = negb (nilfs_checkpoint_invalid
                             (checkpoint_at st (c + 1 + i)))) as H'.
      { intros i Hi. replace (off + 1 + i) with (off + (1 + i)) by lia.
        replace (c + 1 + i) with (c + (1 + i)) by lia. apply H. lia. }
      destruct (nilfs_checkpoint_invalid (checkpoint_at st c)); cbn [negb].
      * by apply IH.
      * rewrite (IH st bh (off + 1) (c + 1) nci _ H').
        rewrite length_app. cbn [length].
        replace (Z.to_nat nci - length buf)%nat
          with (S (Z.to_nat nci - (length buf + 1)))%nat by lia.
        cbn [take map]. by rewrite <- app_assoc.
    + apply Z.ltb_ge in Hlt.
      replace (Z.to_nat nci - length buf)%nat with 0%nat by lia.
      cbn. by rewrite app_nil_r.
Qed.

Section Enumerate.
Context (st : cpfile) (nci : Z).
Hypothesis Hg : geometry_ok st.
Hypothesis Hcur : 1 ≤ nilfs_mdt_cno st ≤ U64_MAX.

Local Abbreviation E := (mi_entries_per_block st).
Local Abbreviation cur := (nilfs_mdt_cno st).

Lemma absent_not_valid x :
  block_present st (nilfs_cpfile_get_blkoff st x) = false →
  checkpoint_valid st x = false.
Proof. unfold checkpoint_valid. by intros ->. Qed.

Lemma cpinfo_loop_spec fuel : ∀ cno0 buf,
  1 ≤ cno0 ≤ U64_MAX →
  (1 ≤ fuel)%nat →
  (cno0 ≤ cur - 1 →
   (Z.to_nat (nilfs_cpfile_get_blkoff st (cur - 1)
              - nilfs_cpfile_get_blkoff st cno0) + 2 ≤ fuel)%nat) →
  cpinfo_loop fuel st cno0 cur nci buf
  = Some (inr (buf ++ map (cpinfo_of st)
                        (take (Z.to_nat nci - length buf)
                              (valid_cnos st cno0 cur)))).
Proof.
  induction fuel as [| fuel IH]; intros cno0 buf Hcno0 Hfuel1 Hfuel; [lia |].
  pose proof Hg as [HE _].
  assert (is_u64 cno0 ∧ is_u64 (cur - 1)) as (Hu0 & Hucur)
    by (unfold is_u64; lia).
  cbn [cpinfo_loop].
  destruct (Z.of_nat (length buf) <? nci) eqn:Hlt.
  2:{ apply Z.ltb_ge in Hlt.
      replace (Z.to_nat nci - length buf)%nat with 0%nat by lia.
      cbn. by rewrite app_nil_r. }
  apply Z.ltb_lt in Hlt.
  unfold nilfs_cpfile_find_checkpoint_block.
  rewrite (wrap64_u64 (cur - 1)) by done.
  destruct (cur - 1 <? cno0) eqn:Hend.
  { apply Z.ltb_lt in Hend. change (- ENOENT <? 0) with true. cbv iota.
    rewrite Z.eqb_refl. unfold valid_cnos.
    replace (Z.to_nat (cur - cno0)) with 0%nat by lia.
    cbn. by rewrite take_nil, app_nil_r. }
  apply Z.ltb_ge in Hend. specialize (Hfuel Hend).
  assert (∀ a n, cno0 ≤ a → a + Z.of_nat n ≤ cur →
                 (∀ x, a ≤ x < a + Z.of_nat n →
                       block_present st (nilfs_cpfile_get_blkoff st x) = false) →
                 select_range (checkpoint_valid st) a n = []) as Hholes.
  { intros a n _ _ Habs. apply select_range_none. intros x Hx.
    by apply absent_not_valid, Habs. }
  destruct (mdt_find_block_cases st (nilfs_cpfile_get_blkoff st cno0)
              (nilfs_cpfile_get_blkoff st (cur - 1)))
    as [[-> Hnone] | (b & -> & Hpb & Hbr & Hlow)].
  { change (- ENOENT =? 0) with false. cbv iota.
    change (- ENOENT <? 0) with true. cbv iota. rewrite Z.eqb_refl.
    unfold valid_cnos. rewrite (Hholes cno0); [by rewrite take_nil, app_nil_r | lia | lia |].
    intros x Hx. apply Hnone.
    assert (is_u64 x) as Hux by (unfold is_u64; lia).
    split; apply blkoff_mono; try done; lia. }
  cbn [Z.eqb]. change (0 <? 0) with false. cbv iota.
  set (cno' := if b =? nilfs_cpfile_get_blkoff st cno0 then cno0
               else nilfs_cpfile_first_checkpoint_in_block st b).
  pose proof (block_bounds st cno0 Hg Hu0) as Hbb0.
  pose proof (block_bounds st (cur - 1) Hg Hucur) as Hbbc.
  assert (cno0 ≤ cno' ≤ cur - 1 ∧ nilfs_cpfile_get_blkoff st cno' = b ∧
          (cno0 < cno' → cno' = E * b))
    as (Hc' & Hb' & Hfirst).
  { subst cno'. destruct (b =? _) eqn:Hb0.
    - apply Z.eqb_eq in Hb0. split; [lia |]. split; [done | lia].
    - apply Z.eqb_neq in Hb0.
      assert (is_u64 (E * b)) as Hub by (unfold is_u64; nia).
      rewrite first_checkpoint_in_block_u64 by done.
      split; [nia |]. split; [by apply blkoff_offset_block_start | done]. }
  clearbody cno'.
  assert (is_u64 cno') as Hu' by (unfold is_u64; lia).
  pose proof (block_bounds st cno' Hg Hu') as Hbb'. rewrite Hb' in Hbb'.
  pose proof (offset_range st cno' Hg Hu') as Hor'.
  pose proof (cno_blkoff_offset st cno' Hg Hu') as Hdm'. rewrite Hb' in Hdm'.
  unfold nilfs_cpfile_checkpoints_in_block, nilfs_cpfile_checkpoints_per_block.
  rewrite (wrap64_u64 (cur - cno')) by (unfold is_u64; lia).
  set (o' := nilfs_cpfile_get_offset st cno') in *.
  set (ncps := Z.min (E - o') (cur - cno')).
  assert (1 ≤ ncps ∧ cno' + ncps ≤ cur ∧ o' + ncps ≤ E) as (Hn1 & Hn2 & Hn3)
    by lia.
  rewrite (cpinfo_scan_spec _ st b o' cno').
  2:{ intros i Hi.
      assert (is_u64 (cno' + i)) as Hui by (unfold is_u64; lia).
      destruct (blkoff_offset_add st cno' i Hg Hu' Hui) as [Hbi Hoi];
        [lia | fold o'; lia |].
      fold o' in Hoi. unfold checkpoint_valid, checkpoint_at.
      by rewrite Hbi, Hoi, Hb', Hpb. }
  rewrite (wrap64_u64 (cno' + ncps)) by (unfold is_u64; lia).
  rewrite IH; [| lia | lia |].
  2:{ intros Hmore.
      assert (ncps = E - o') as Hfull by lia.
      replace (cno' + ncps) with (E * (b + 1)) in * by lia.
      assert (is_u64 (E * (b + 1))) as Hub1 by (unfold is_u64; lia).
      destruct (blkoff_offset_block_start st (b + 1) Hg Hub1) as [-> _].
      assert (b + 1 ≤ nilfs_cpfile_get_blkoff st (cur - 1)) by nia. lia. }
  do 2 f_equal. rewrite <- app_assoc. f_equal. rewrite <- map_app. f_equal.
  rewrite length_app, length_map.
  set (m := (Z.to_nat nci - length buf)%nat).
  set (A := select_range (checkpoint_valid st) cno' (Z.to_nat ncps)).
  replace (Z.to_nat nci - (length buf + length (take m A)))%nat
    with (m - length (take m A))%nat by lia.
  rewrite <- take_app_taken. f_equal. unfold valid_cnos, A.
  replace (Z.to_nat (cur - cno0))
    with (Z.to_nat (cno' - cno0)
          + (Z.to_nat ncps + Z.to_nat (cur - (cno' + ncps))))%nat by lia.
  rewrite !select_range_app, !Z2Nat.id by lia.
  replace (cno0 + (cno' - cno0)) with cno' by lia.
  rewrite (Hholes cno0); [done | lia | lia |].
  intros x Hx. apply Hlow.
  assert (is_u64 x) as Hux by (unfold is_u64; lia).
  pose proof (blkoff_mono st cno0 x Hg Hu0 Hux ltac:(lia)).
  split; [done|].
  pose proof (block_bounds st x Hg Hux) as Hbx.
  rewrite Z2Nat.id in Hx by lia.
  assert (cno' = E * b) as Heq by (apply Hfirst; lia). nia.
Qed.

Lemma do_get_cpinfo_spec cno :
  1 ≤ cno ≤ U64_MAX →
  nilfs_cpfile_do_get_cpinfo st cno nci
  = let out := take (Z.to_nat nci) (valid_cnos st cno cur) in
    Some (Z.of_nat (length out),
          match last out with
          | Some c => wrap64 (cp_cno (checkpoint_at st c) + 1)
          | None => cno
          end,
          map (cpinfo_of st) out).
Proof.
  intros Hcno. unfold nilfs_cpfile_do_get_cpinfo.
  rewrite (proj2 (Z.eqb_neq cno 0)) by lia.
  rewrite cpinfo_loop_spec; [| done | lia |].
  2:{ rewrite (wrap64_u64 (cur - 1)) by (unfold is_u64; lia). lia. }
  cbn [app length]. rewrite Nat.sub_0_r. cbv zeta.
  change (map (cpinfo_of st)) with (fmap (M := list) (cpinfo_of st)).
  rewrite fmap_last, length_fmap.
  destruct (last _) eqn:Hl; cbn; [done|].
  apply last_None in Hl. by rewrite Hl.
Qed.

End Enumerate.

(** get_cpinfo in checkpoint mode enumerates the valid checkpoints: called
    with [*cno = cno ≥ 1] and room for nci entries it returns the summaries
    of the first nci valid entries among the cnos from cno up to, but not
    including, the MDT counter, in increasing order, skipping holes and
    INVALID entries; the return value is their number, [*cno] becomes the
    cp_cno stored in the last entry returned plus one and stays as it was
    when nothing is returned, and the cpfile is not modified. *)
Theorem get_cpinfo_enumerates (st : cpfile) (cno nci : Z) :
  geometry_ok st →
  1 ≤ nilfs_mdt_cno st ≤ U64_MAX →
  1 ≤ cno ≤ U64_MAX →
  let out := take (Z.to_nat nci) (valid_cnos st cno (nilfs_mdt_cno st)) in
  nilfs_cpfile_get_cpinfo st cno NILFS_CHECKPOINT nci
  = Some (Z.of_nat (length out),
          match last out with
          | Some c => wrap64 (cp_cno (checkpoint_at st c) + 1)
          | None => cno
          end,
          map (cpinfo_of st) out, st).
Proof.
  intros Hg Hcur Hcno out. cbn [nilfs_cpfile_get_cpinfo].
  by rewrite (do_get_cpinfo_spec st nci Hg Hcur cno Hcno).
Qed.

Lemma get_cpinfo_enumerates_witness :
  let out := take (Z.to_nat 2)
                  (valid_cnos cpfile_10_30 1 (nilfs_mdt_cno cpfile_10_30)) in
  nilfs_cpfile_get_cpinfo cpfile_10_30 1 NILFS_CHECKPOINT 2
  = Some (Z.of_nat (length out),
          match last out with
          | Some c => wrap64 (cp_cno (checkpoint_at cpfile_10_30 c) + 1)
          | None => 1
          end,
          map (cpinfo_of cpfile_10_30) out, cpfile_10_30).
Proof.
  apply (get_cpinfo_enumerates cpfile_10_30 1 2).
  - exact geometry_ok_10_30.
  - split; apply Z.leb_le; vm_compute; reflexivity.
  - unfold U64_MAX. lia.
Defined.

(** ** Block accessors *)

(** find_checkpoint_block looks for the first cno at or after start_cno
    whose block exists: either it returns -ENOENT and no cno of
    [start_cno, end_cno] lies in an existing block, or it returns 0 with
    an existing block and a cno of the range in it, which is start_cno
    itself or the first cno of that block, and no cno before it in the
    range lies in an existing block. *)
Theorem find_checkpoint_block_first (st : cpfile) (start_cno end_cno : Z) :
  geometry_ok st → 0 ≤ start_cno → end_cno ≤ U64_MAX →
  ∃ ret cno b,
    nilfs_cpfile_find_checkpoint_block st start_cno end_cno = (ret, cno, b) ∧
    ((ret = - ENOENT ∧
      ∀ x, start_cno ≤ x ≤ end_cno →
           block_present st (nilfs_cpfile_get_blkoff st x) = false) ∨
     (ret = 0 ∧ start_cno ≤ cno ≤ end_cno ∧
      nilfs_cpfile_get_blkoff st cno = b ∧ block_present st b = true ∧
      (cno = start_cno ∨ nilfs_cpfile_get_offset st cno = 0) ∧
      ∀ x, start_cno ≤ x < cno →
           block_present st (nilfs_cpfile_get_blkoff st x) = false)).
Proof.
  intros Hg Hs He. unfold nilfs_cpfile_find_checkpoint_block.
  destruct (end_cno <? start_cno) eqn:Hord.
  { apply Z.ltb_lt in Hord. eexists _, _, _. split; [done|]. left.
    split; [done|]. intros x Hx. lia. }
  apply Z.ltb_ge in Hord. pose proof Hg as [HE _].
  assert (is_u64 start_cno ∧ is_u64 end_cno) as [Hus Hue]
    by (unfold is_u64; lia).
  destruct (mdt_find_block_cases st (nilfs_cpfile_get_blkoff st start_cno)
              (nilfs_cpfile_get_blkoff st end_cno))
    as [[-> Hnone] | (b & -> & Hpb & Hbr & Hlow)].
  - eexists _, _, _. split; [done|]. left. split; [done|].
    intros x Hx. apply Hnone.
    assert (is_u64 x) as Hux by (unfold is_u64; lia).
    split; apply blkoff_mono; try done; lia.
  - cbn [Z.eqb]. eexists _, _, _. split; [done|]. right. split; [done|].
    pose proof (block_bounds st start_cno Hg Hus) as Hbs.
    pose proof (block_bounds st end_cno Hg Hue) as Hbe.
    destruct (b =? nilfs_cpfile_get_blkoff st start_cno) eqn:Hb0.
    + apply Z.eqb_eq in Hb0. split; [lia|]. split; [done|].
      split; [done|]. split; [by left|]. intros x Hx. lia.
    + apply Z.eqb_neq in Hb0.
      assert (is_u64 (mi_entries_per_block st * b)) as Hub
        by (unfold is_u64; nia).
      rewrite first_checkpoint_in_block_u64 by done.
      destruct (blkoff_offset_block_start st b Hg Hub) as [Hbb Hob].
      split; [nia|]. split; [done|]. split; [done|]. split; [by right|].
      intros x Hx. apply Hlow.
      assert (is_u64 x) as Hux by (unfold is_u64; nia).
      pose proof (blkoff_mono st start_cno x Hg Hus Hux ltac:(lia)).
      pose proof (block_bounds st x Hg Hux). split; [done|]. nia.
Qed.

Lemma find_checkpoint_block_first_witness :
  ∃ ret cno b,
    nilfs_cpfile_find_checkpoint_block cpfile_10_30 11 30 = (ret, cno, b) ∧
    ((ret = - ENOENT ∧
      ∀ x, 11 ≤ x ≤ 30 →
           block_present cpfile_10_30
             (nilfs_cpfile_get_blkoff cpfile_10_30 x) = false) ∨
     (ret = 0 ∧ 11 ≤ cno ≤ 30 ∧
      nilfs_cpfile_get_blkoff cpfile_10_30 cno = b ∧
      block_present cpfile_10_30 b = true ∧
      (cno = 11 ∨ nilfs_cpfile_get_offset cpfile_10_30 cno = 0) ∧
      ∀ x, 11 ≤ x < cno →
           block_present cpfile_10_30
             (nilfs_cpfile_get_blkoff cpfile_10_30 x) = false)).
Proof.
  apply (find_checkpoint_block_first cpfile_10_30 11 30).
  - exact geometry_ok_10_30.
  - lia.
  - unfold U64_MAX. lia.
Defined.

(** get_checkpoint_block with the create flag on a hole allocates the
    block of cno and initialises it: afterwards every cno of that block
    has an entry that carries the INVALID flag and nothing else, and all
    other blocks are as before.  The header is as before as well, unless
    the new block is block 0: its slot 0 is the header, which then reads as
    the head of a zero-filled block with the INVALID flag set in its first
    word.  Without the create flag a hole gives -ENOENT, and an existing
    block is returned as it is in either case. *)
Theorem get_checkpoint_block_create_hole (st : cpfile) (cno : Z) :
  geometry_ok st →
  cp_blocks st !! nilfs_cpfile_get_blkoff st cno = None →
  (∃ st',
     nilfs_cpfile_get_checkpoint_block st cno true = (0, st') ∧
     (∀ x, 0 ≤ x ≤ U64_MAX →
           nilfs_cpfile_get_blkoff st x = nilfs_cpfile_get_blkoff st cno →
           entry st' x = Some invalid_checkpoint) ∧
     (∀ b, b ≠ nilfs_cpfile_get_blkoff st cno →
           cp_blocks st' !! b = cp_blocks st !! b) ∧
     cp_header st'
     = if nilfs_cpfile_get_blkoff st cno =? 0
       then header_of_slot invalid_checkpoint
       else cp_header st) ∧
  nilfs_cpfile_get_checkpoint_block st cno false = (- ENOENT, st) ∧
  (∀ c create, block_present st (nilfs_cpfile_get_blkoff st c) = true →
               nilfs_cpfile_get_checkpoint_block st c create = (0, st)).
Proof.
  intros Hg Hnone. split; [|split].
  - unfold nilfs_cpfile_get_checkpoint_block, nilfs_mdt_get_block.
    rewrite Hnone. cbv zeta. fold (fresh_block st).
    rewrite fresh_block_invalid.
    set (b := nilfs_cpfile_get_blkoff st cno).
    set (blk := replicate _ invalid_checkpoint).
    set (st1 := with_blocks (<[b := blk]> (cp_blocks st)) st).
    assert (∀ x, 0 ≤ x ≤ U64_MAX → nilfs_cpfile_get_blkoff st x = b →
                 (<[b := blk]> (cp_blocks st) : gmap Z _)
                   !! nilfs_cpfile_get_blkoff st x
                   ≫= (.!! Z.to_nat (nilfs_cpfile_get_offset st x))
                 = Some invalid_checkpoint) as Hent.
    { intros x Hx Hb. rewrite Hb, lookup_insert_eq. cbn [mbind option_bind].
      apply lookup_replicate_2.
      pose proof (offset_range st x Hg Hx). lia. }
    assert (header_of_block blk = header_of_slot invalid_checkpoint) as Hh.
    { unfold header_of_block, blk. rewrite lookup_replicate_2; [done|].
      destruct Hg as [HE _]. lia. }
    exists (if b =? 0 then with_header (header_of_block blk) st1 else st1).
    split; [done|]. destruct (b =? 0); (split; [|split]).
    all: try (intros x Hx Hb; exact (Hent x Hx Hb)).
    all: try (intros b' Hb'; cbn; by rewrite lookup_insert_ne).
    + exact Hh.
    + done.
  - rewrite get_checkpoint_block_nocreate.
    by rewrite (proj2 (block_present_false st _) Hnone).
  - intros c create Hp. destruct create.
    + by apply get_checkpoint_block_create_present.
    + by rewrite get_checkpoint_block_nocreate, Hp.
Qed.

Lemma get_checkpoint_block_create_hole_witness :
  (∃ st',
     nilfs_cpfile_get_checkpoint_block cpfile_10_30 15 true = (0, st') ∧
     (∀ x, 0 ≤ x ≤ U64_MAX →
           nilfs_cpfile_get_blkoff cpfile_10_30 x
           = nilfs_cpfile_get_blkoff cpfile_10_30 15 →
           entry st' x = Some invalid_checkpoint) ∧
     (∀ b, b ≠ nilfs_cpfile_get_blkoff cpfile_10_30 15 →
           cp_blocks st' !! b = cp_blocks cpfile_10_30 !! b) ∧
     cp_header st'
     = if nilfs_cpfile_get_blkoff cpfile_10_30 15 =? 0
       then header_of_slot invalid_checkpoint
       else cp_header cpfile_10_30) ∧
  nilfs_cpfile_get_checkpoint_block cpfile_10_30 15 false
  = (- ENOENT, cpfile_10_30) ∧
  (∀ c create,
     block_present cpfile_10_30 (nilfs_cpfile_get_blkoff cpfile_10_30 c)
     = true →
     nilfs_cpfile_get_checkpoint_block cpfile_10_30 c create
     = (0, cpfile_10_30)).
Proof.
  apply (get_checkpoint_block_create_hole cpfile_10_30 15).
  - exact geometry_ok_10_30.
  - vm_compute. reflexivity.
Defined.

(** ** Single delete and the stored cno *)




(** ** Range delete: reclamation and partial success *)

(** Flagging entries INVALID leaves the census word alone. *)
Lemma census_word_invalidate lo n blk :
  cp_checkpoints_count (slot_at (invalidate_slots lo n blk) 0)
  = cp_checkpoints_count (slot_at blk 0).
Proof.
  unfold slot_at. rewrite invalidate_slots_lookup.
  destruct (blk !! Z.to_nat 0) as [cp|]; [|done].
  cbn [fmap option_fmap option_map default from_option id].
  by destruct (_ && _).
Qed.

(** A block other than block 0 that lost entries is reclaimed exactly when
    its census word dropped to zero. *)
Lemma block_after_delete_reclaims E start end_ b blk :
  b ≠ 0 → 0 < deleted_in_block E start end_ b blk →
  block_after_delete E start end_ b blk = None
  ↔ wrap32 (cp_checkpoints_count (slot_at blk 0)
            - deleted_in_block E start end_ b blk) = 0.
Proof.
  intros Hb Hn. unfold block_after_delete. fold (deleted_in_block E start end_ b blk).
  rewrite census_word_invalidate.
  assert ((deleted_in_block E start end_ b blk =? 0) = false) as -> by lia.
  assert ((b =? 0) = false) as -> by lia.
  destruct (Z.eqb_spec
              (wrap32 (cp_checkpoints_count (slot_at blk 0)
                       - deleted_in_block E start end_ b blk)) 0)
    as [H0 | H0]; split; done.
Qed.

(** Block 0 stays, and its first word is not written. *)
Lemma block_after_delete_first E start end_ blk :
  ∃ blk', block_after_delete E start end_ 0 blk = Some blk' ∧
          cp_checkpoints_count (slot_at blk' 0)
          = cp_checkpoints_count (slot_at blk 0).
Proof.
  unfold block_after_delete. destruct (_ =? 0); [by eexists|].
  cbn [Z.eqb]. eexists. split; [done|]. apply census_word_invalidate.
Qed.



Lemma census_positive_check st :
  bool_decide
    (map_Forall (λ b blk, b = 0 ∨
                          (cp_checkpoints_count (slot_at blk 0)
                           = valid_in_block blk ∧ 0 < valid_in_block blk))
                (cp_blocks st)) = true →
  census_positive st.
Proof.
  intros H b blk Hb Hblk. apply bool_decide_eq_true in H.
  by destruct (H b blk Hblk).
Qed.

Lemma geometry_ok_4_8 : geometry_ok cpfile_4_8.
Proof. split; [apply Z.leb_le; vm_compute; reflexivity | reflexivity]. Qed.

Lemma blocks_ok_4_8 : blocks_ok cpfile_4_8.
Proof. apply blocks_ok_check. vm_compute. reflexivity. Qed.

(** C7: block reclamation through the per-block census.  On a cpfile whose
    blocks other than block 0 each carry a right census and at least one
    valid entry, delete_checkpoints(start, end) returns 0 or -EBUSY, and
    a block other than block 0 from which it deleted entries is removed by
    that call exactly when the decremented census word is zero.  Block 0 is
    still there afterwards and the census update is never applied to it:
    the entry view of its slot 0 keeps its census word, and the header,
    which lies over that slot, changes only in ncheckpoints, by the number
    of entries deleted.  Afterwards every block other than block 0 again
    carries a right census and at least one valid entry: no block is left
    without valid entries. *)
Theorem delete_checkpoints_reclaims_blocks (st : cpfile) (start end_ : Z) :
  geometry_ok st → mi_entries_per_block st < 2 ^ 32 → blocks_ok st →
  block_present st 0 = true →
  1 ≤ start ≤ end_ → end_ ≤ U64_MAX →
  0 ≤ ch_ncheckpoints (cp_header st) ≤ U64_MAX →
  census_positive st →
  ∃ ret st',
    nilfs_cpfile_delete_checkpoints st start end_ = Some (ret, st') ∧
    (ret = 0 ∨ ret = - EBUSY) ∧
    (∀ b blk,
       b ≠ 0 → cp_blocks st !! b = Some blk →
       0 < deleted_in_block (mi_entries_per_block st) start end_ b blk →
       cp_blocks st' !! b = None
       ↔ wrap32 (cp_checkpoints_count (slot_at blk 0)
                 - deleted_in_block (mi_entries_per_block st) start end_ b blk)
         = 0) ∧
    (∃ blk0 blk0',
       cp_blocks st !! 0 = Some blk0 ∧ cp_blocks st' !! 0 = Some blk0' ∧
       cp_checkpoints_count (slot_at blk0' 0)
       = cp_checkpoints_count (slot_at blk0 0)) ∧
    cp_header st'
    = set_ch_ncheckpoints
        (wrap64 (ch_ncheckpoints (cp_header st)
                 - count_range (deletable_at st) start
                     (Z.to_nat (end_ - start))))
        (cp_header st) ∧
    census_positive st'.
Proof.
  intros Hg HE32 Hok Hhdr Hrange Hend Hnc Hpos.
  destruct (delete_checkpoints_effect st start end_ Hg Hhdr Hrange Hend)
    as (st' & Heq & _ & _ & _ & Hh & Hblocks).
  eexists _, st'. split; [exact Heq|]. split.
  { destruct (0 <? count_range (snapshot_at st) _ _); [by right | by left]. }
  split; [|split; [|split]].
  - intros b blk Hb Hblk Hn. rewrite Hblocks, Hblk.
    cbn [mbind option_bind]. by apply block_after_delete_reclaims.
  - apply block_present_true in Hhdr as [blk0 Hblk0].
    destruct (block_after_delete_first (mi_entries_per_block st)
                start end_ blk0) as (blk0' & Ha & Hw).
    exists blk0, blk0'. split; [exact Hblk0|]. split; [|exact Hw].
    by rewrite Hblocks, Hblk0.
  - rewrite Hh.
    pose proof (count_range_bounds (deletable_at st) start
                  (Z.to_nat (end_ - start))) as Hbnd.
    set (n := count_range (deletable_at st) start (Z.to_nat (end_ - start)))
      in *.
    destruct (0 <? n) eqn:Hn.
    + unfold le64_add_cpu. by replace (ch_ncheckpoints (cp_header st) + - n)
        with (ch_ncheckpoints (cp_header st) - n) by lia.
    + apply Z.ltb_ge in Hn. assert (n = 0) as -> by lia.
      rewrite Z.sub_0_r, wrap64_u64 by exact Hnc. by destruct (cp_header st).
  - intros b blk' Hb. rewrite Hblocks.
    destruct (cp_blocks st !! b) as [blk|] eqn:Hblk;
      cbn [mbind option_bind]; [|done].
    destruct (Hpos b blk Hb Hblk) as [Hcen Hval].
    pose proof (block_after_delete_census (mi_entries_per_block st)
                  start end_ b blk (conj (proj1 Hg) HE32) (Hok _ _ Hblk)
                  Hb Hcen) as Hc.
    intros Ha. rewrite Ha in Hc. destruct Hc as [Hc [-> | Hgt]].
    + done.
    + split; [exact Hc | by rewrite <- Hc].
Qed.

Lemma delete_checkpoints_reclaims_blocks_witness :
  ∃ ret st',
    nilfs_cpfile_delete_checkpoints cpfile_4_8 4 9 = Some (ret, st') ∧
    (ret = 0 ∨ ret = - EBUSY) ∧
    (∀ b blk,
       b ≠ 0 → cp_blocks cpfile_4_8 !! b = Some blk →
       0 < deleted_in_block (mi_entries_per_block cpfile_4_8) 4 9 b blk →
       cp_blocks st' !! b = None
       ↔ wrap32 (cp_checkpoints_count (slot_at blk 0)
                 - deleted_in_block (mi_entries_per_block cpfile_4_8) 4 9
                     b blk)
         = 0) ∧
    (∃ blk0 blk0',
       cp_blocks cpfile_4_8 !! 0 = Some blk0 ∧
       cp_blocks st' !! 0 = Some blk0' ∧
       cp_checkpoints_count (slot_at blk0' 0)
       = cp_checkpoints_count (slot_at blk0 0)) ∧
    cp_header st'
    = set_ch_ncheckpoints
        (wrap64 (ch_ncheckpoints (cp_header cpfile_4_8)
                 - count_range (deletable_at cpfile_4_8) 4
                     (Z.to_nat (9 - 4))))
        (cp_header cpfile_4_8) ∧
    census_positive st'.
Proof.
  apply (delete_checkpoints_reclaims_blocks cpfile_4_8 4 9).
  - exact geometry_ok_4_8.
  - apply Z.ltb_lt. vm_compute. reflexivity.
  - exact blocks_ok_4_8.
  - vm_compute. reflexivity.
  - lia.
  - unfold U64_MAX. lia.
  - split; apply Z.leb_le; vm_compute; reflexivity.
  - apply census_positive_check. vm_compute. reflexivity.
Defined.



